(** * JsspSolver: the scheduling core (models.hpp, solver.cpp, parser.cpp)

    A shallow embedding of the domain model (Operation, Job, Machine,
    ProblemInstance, ScheduleResult), of the dispatch scheduler
    (scheduleFIFO, scheduleSPT, scheduleLPT, scheduleWithPriority, solve)
    and of the reader and writer of problem files (parseFile, parseString,
    saveToFile, generateSimpleProblem), followed by the properties of the
    problems they build and of the schedules made for them.

    Modelling conventions.
    - Every [std::shared_ptr<T>] is an address into an arena of [T] objects
      kept in a [Store]; two vectors that hold the same pointer hold the
      same address, so a write through one is seen through the other.
      The vectors are filled by [createJobs], [createMachines] and
      [addOperation], which never store a null pointer; an address that does
      not resolve has no counterpart in the program and the loops skip it.
    - An [int] is a [Z] between [INT_MIN] and [INT_MAX]. The two sums of
      the program over times, [startTime + op->getDuration()] and
      [totalCompletionTime += jobCompletionTime], are taken in 32 bits: a
      sum that leaves the range comes back into it modulo 2^32 ([wrap]), as
      the addition of the binary does. The counters ([iteration],
      [operationCount], the loop indices and [getTotalOperations]) count
      rounds up to 1000 or objects held in memory and are left exact.
    - [double] is binary64 as the standard library specifies it
      ([SpecFloat], precision 53, largest exponent 1024), with rounding to
      nearest, ties to even.
    - [std::sort] is a parameter [std_sort] constrained by the contract the
      standard gives it (a permutation of its input, ordered by the
      comparator); the theorems assume nothing else about it. The instances
      on which a property fails are run with the sort of libstdc++
      ([Libstdcxx.sort]).
    - The ScheduleResult that [solve] allocates is held by its caller alone;
      it is handed over as a value.
    - Text written to [std::cout] is dropped; lines written to [std::cerr]
      are kept in the store.
    - A stream read with [>>] into an [int] is the list of the integers its
      extractions yield before the first one that fails, together with the
      way that one fails where the program reads the variable all the same.
      A file that cannot be opened is [None]. *)

From Stdlib Require Import ZArith Permutation Lia.
From Stdlib Require Import Floats.SpecFloat.
From stdpp Require Import base list strings sorting relations pretty.

#[local] Open Scope Z_scope.

(** ** int and double *)

Definition INT_MAX : Z := 2147483647.
Definition INT_MIN : Z := -2147483648.

(** The int that is left of a sum [z]: [z] itself when it is in the range,
    and otherwise the value of the range that differs from it by a multiple
    of 2^32. *)
Definition wrap (z : Z) : Z := (z - INT_MIN) mod 4294967296 + INT_MIN.

#[global] Arguments wrap z : simpl never.

Definition double : Type := spec_float.

(** [0.0] *)
Definition positiveZero : double := S754_zero false.

(** The conversion of an integer to [double], and the division. *)
Definition toDouble (z : Z) : double := binary_normalize 53 1024 z 0 false.

Definition divide (x y : double) : double := SFdiv 53 1024 x y.

#[global] Arguments toDouble z : simpl never.
#[global] Arguments divide x y : simpl never.

(** An address in one of the arenas of the store. *)
Abbreviation addr := nat (only parsing).

(** ** models.hpp *)

Module Operation.
Record t := mk {
  jobId : Z;
  machineId : Z;
  processingTime : Z;
  operationId : Z;
  startTime : Z;
  endTime : Z
}.

(** The constructor leaves both times at 0. *)
Definition new (jobId machineId processingTime operationId : Z) : t :=
  mk jobId machineId processingTime operationId 0 0.

Definition getDuration (o : t) : Z := processingTime o.

Definition setScheduled (start end_ : Z) (o : t) : t :=
  mk (jobId o) (machineId o) (processingTime o) (operationId o) start end_.

Definition isScheduled (o : t) : bool := endTime o >? startTime o.
End Operation.

Module Job.
Record t := mk {
  jobId : Z;
  operations : list addr
}.

Definition new (jobId : Z) : t := mk jobId [].

Definition addOperation (op : addr) (j : t) : t :=
  mk (jobId j) (operations j ++ [op]).
End Job.

Module Machine.
Record t := mk {
  machineId : Z;
  scheduledOperations : list addr;
  availableTime : Z
}.

Definition new (machineId : Z) : t := mk machineId [] 0.

(** [scheduleOperation] writes to two objects, the operation [op] points
    to and the machine itself; it returns both. *)
Definition scheduleOperation (op : addr) (o : Operation.t) (startTime : Z)
    (m : t) : Operation.t * t :=
  (Operation.setScheduled startTime
     (wrap (startTime + Operation.getDuration o)) o,
   mk (machineId m) (scheduledOperations m ++ [op])
      (wrap (startTime + Operation.getDuration o))).

Definition reset (m : t) : t := mk (machineId m) [] 0.

Definition isAvailable (m : t) : bool := availableTime m =? 0.
End Machine.

Module ProblemInstance.
Record t := mk {
  jobs : list addr;
  machines : list addr;
  numJobs : Z;
  numMachines : Z
}.

Definition new : t := mk [] [] 0 0.

(** [jobId >= 0 && (size_t)jobId < jobs.size() ? jobs[jobId] : nullptr] *)
Definition getJob (p : t) (jobId : Z) : option addr :=
  if 0 <=? jobId then jobs p !! Z.to_nat jobId else None.

Definition getMachine (p : t) (machineId : Z) : option addr :=
  if 0 <=? machineId then machines p !! Z.to_nat machineId else None.
End ProblemInstance.

(** The object graph behind the shared pointers, and the error stream. *)
Record Store := mkStore {
  operationObjs : list Operation.t;
  jobObjs : list Job.t;
  machineObjs : list Machine.t;
  cerr : list string
}.

Definition setOperation (a : addr) (o : Operation.t) (s : Store) : Store :=
  mkStore (<[a := o]> (operationObjs s)) (jobObjs s) (machineObjs s) (cerr s).

Definition setMachine (a : addr) (m : Machine.t) (s : Store) : Store :=
  mkStore (operationObjs s) (jobObjs s) (<[a := m]> (machineObjs s)) (cerr s).

Definition writeCerr (line : string) (s : Store) : Store :=
  mkStore (operationObjs s) (jobObjs s) (machineObjs s) (cerr s ++ [line]).

Module ScheduleResult.
Record t := mk {
  problem : ProblemInstance.t;
  scheduledJobs : list addr;
  makespan : Z;
  totalCompletionTime : Z;
  avgFlowTime : double
}.

Definition new : t := mk ProblemInstance.new [] 0 0 positiveZero.

(** The inner loop of [calculateMetrics] over one job's operations. *)
Definition jobCompletionTime (s : Store) (job : Job.t) : Z :=
  foldl (fun acc oa =>
           match operationObjs s !! oa with
           | Some operation =>
               if Operation.isScheduled operation
               then Z.max acc (Operation.endTime operation)
               else acc
           | None => acc
           end) 0 (Job.operations job).

(** The outer loop: the pair is (makespan, totalCompletionTime). *)
Definition metricsLoop (s : Store) (js : list addr) : Z * Z :=
  foldl (fun acc ja =>
           match jobObjs s !! ja with
           | Some job =>
               let c := jobCompletionTime s job in
               (Z.max (fst acc) c, wrap (snd acc + c))
           | None => acc
           end) (0, 0) js.

Definition calculateMetrics (s : Store) (r : t) : t :=
  let '(span, total) := metricsLoop s (ProblemInstance.jobs (problem r)) in
  mk (problem r) (scheduledJobs r) span total
     (match ProblemInstance.jobs (problem r) with
      | [] => positiveZero
      | _ => divide (toDouble total)
               (toDouble (Z.of_nat (length (ProblemInstance.jobs (problem r)))))
      end).
End ScheduleResult.

(** ** solver.cpp *)

Inductive SchedulingAlgorithm := FIFO | SPT | LPT.

(** [enum class SchedulingAlgorithm { FIFO, SPT, LPT }] has the underlying
    type [int]: a value of the type is an int, the three enumerators are 0,
    1 and 2, and a cast makes any other int a value of the type too. *)
Definition valueOf (a : SchedulingAlgorithm) : Z :=
  match a with FIFO => 0 | SPT => 1 | LPT => 2 end.

Coercion valueOf : SchedulingAlgorithm >-> Z.

(** The enumerator a value of the type is, if it is one. *)
Definition enumerator (value : Z) : option SchedulingAlgorithm :=
  if value =? 0 then Some FIFO
  else if value =? 1 then Some SPT
  else if value =? 2 then Some LPT
  else None.

(** What a call of [solve] hands to its caller. *)
Inductive outcome :=
| runtime_error (what : string)
| returned (result : ScheduleResult.t).

Module Solver.
Section WithSort.

(** [std::sort] on a vector of operation pointers. *)
Variable std_sort : (addr -> addr -> bool) -> list addr -> list addr.

Definition resetMachines (p : ProblemInstance.t) (s : Store) : Store :=
  foldl (fun s ma =>
           match machineObjs s !! ma with
           | Some machine => setMachine ma (Machine.reset machine) s
           | None => s
           end) s (ProblemInstance.machines p).

Definition resetOperations (p : ProblemInstance.t) (s : Store) : Store :=
  foldl (fun s ja =>
           match jobObjs s !! ja with
           | Some job =>
               foldl (fun s oa =>
                        match operationObjs s !! oa with
                        | Some operation =>
                            setOperation oa (Operation.setScheduled 0 0 operation) s
                        | None => s
                        end) s (Job.operations job)
           | None => s
           end) s (ProblemInstance.jobs p).

(** The scan that sets [allPrevOpsCompleted]; the [break] only cuts the
    scan short. *)
Definition allPrevOpsCompleted (s : Store) (job : Job.t)
    (operation : Operation.t) : bool :=
  forallb (fun pa =>
             match operationObjs s !! pa with
             | Some prevOp =>
                 negb ((Operation.operationId prevOp <? Operation.operationId operation)
                       && negb (Operation.isScheduled prevOp))
             | None => true
             end) (Job.operations job).

(** The scan that raises [jobReadyTime] to the end of every earlier
    operation of [job]. *)
Definition jobReadyTime (s : Store) (job : Job.t)
    (operation : Operation.t) : Z :=
  foldl (fun acc pa =>
           match operationObjs s !! pa with
           | Some prevOp =>
               if Operation.operationId prevOp <? Operation.operationId operation
               then Z.max acc (Operation.endTime prevOp)
               else acc
           | None => acc
           end) 0 (Job.operations job).

(** [problem->getMachine(id)] followed by the test [if (machine)]. *)
Definition findMachine (p : ProblemInstance.t) (s : Store) (machineId : Z)
    : option (addr * Machine.t) :=
  match ProblemInstance.getMachine p machineId with
  | Some ma =>
      match machineObjs s !! ma with
      | Some machine => Some (ma, machine)
      | None => None
      end
  | None => None
  end.

(** [startTime = max(machine->availableTime, jobReadyTime);
    machine->scheduleOperation(operation, startTime)]. *)
Definition commit (ma : addr) (machine : Machine.t) (oa : addr)
    (operation : Operation.t) (jobReady : Z) (s : Store) : Store :=
  let startTime := Z.max (Machine.availableTime machine) jobReady in
  let '(operation', machine') :=
    Machine.scheduleOperation oa operation startTime machine in
  setMachine ma machine' (setOperation oa operation' s).

(** The body of the [while] loop is a round; the loop runs while the last
    round scheduled something and [iteration < 1000]. [remaining] is
    [1000 - iteration]. *)
Fixpoint whileLoop (round : Store -> Store * bool) (remaining : nat)
    (operationScheduled : bool) (iteration : Z) (s : Store) : Store * Z :=
  match remaining with
  | O => (s, iteration)
  | S n =>
      if operationScheduled
      then let '(s', scheduled) := round s in
           whileLoop round n scheduled (iteration + 1) s'
      else (s, iteration)
  end.

(** *** scheduleFIFO *)

Definition roundLimitWarning : string :=
  "Warning: Scheduling may not have completed properly".

(** The body of the loop over [job->operations]: [st] is the store and the
    flag [operationScheduled]. *)
Definition fifoVisit (p : ProblemInstance.t) (job : Job.t)
    (st : Store * bool) (oa : addr) : Store * bool :=
  let s := fst st in
  match operationObjs s !! oa with
  | Some operation =>
      if negb (Operation.isScheduled operation) then
        match findMachine p s (Operation.machineId operation) with
        | Some (ma, machine) =>
            if allPrevOpsCompleted s job operation
            then (commit ma machine oa operation
                    (jobReadyTime s job operation) s, true)
            else st
        | None => st
        end
      else st
  | None => st
  end.

(** The body of the loop over [problem->jobs]. *)
Definition fifoJob (p : ProblemInstance.t) (st : Store * bool) (ja : addr)
    : Store * bool :=
  match jobObjs (fst st) !! ja with
  | Some job => foldl (fifoVisit p job) st (Job.operations job)
  | None => st
  end.

Definition fifoRound (p : ProblemInstance.t) (s : Store) : Store * bool :=
  foldl (fifoJob p) (s, false) (ProblemInstance.jobs p).

Definition scheduleFIFO (p : ProblemInstance.t) (s : Store) : Store :=
  let s := resetMachines p s in
  let s := resetOperations p s in
  let '(s, iteration) := whileLoop (fifoRound p) 1000 true 0 s in
  if 1000 <=? iteration then writeCerr roundLimitWarning s else s.

(** *** scheduleWithPriority *)

(** The test under which an operation is pushed on [readyOperations]. *)
Definition isReady (s : Store) (job : Job.t) (oa : addr) : bool :=
  match operationObjs s !! oa with
  | Some operation =>
      negb (Operation.isScheduled operation)
      && allPrevOpsCompleted s job operation
  | None => false
  end.

(** The vector [readyOperations] once the two loops have filled it; the
    store is only read meanwhile. *)
Definition readyOperations (p : ProblemInstance.t) (s : Store) : list addr :=
  flat_map (fun ja =>
              match jobObjs s !! ja with
              | Some job => List.filter (isReady s job) (Job.operations job)
              | None => []
              end) (ProblemInstance.jobs p).

(** The comparator receives two pointers and reads the operations. *)
Definition compareAt (s : Store)
    (compare : Operation.t -> Operation.t -> bool) (a b : addr) : bool :=
  match operationObjs s !! a, operationObjs s !! b with
  | Some x, Some y => compare x y
  | _, _ => false
  end.

(** The job-ready time of the commit loop: the job is the one returned by
    [problem->getJob(operation->jobId)], and the time stays 0 when there is
    none. *)
Definition priorityJobReadyTime (p : ProblemInstance.t) (s : Store)
    (operation : Operation.t) : Z :=
  match ProblemInstance.getJob p (Operation.jobId operation) with
  | Some ja =>
      match jobObjs s !! ja with
      | Some job => jobReadyTime s job operation
      | None => 0
      end
  | None => 0
  end.

(** The body of the loop over the sorted [readyOperations]. *)
Definition priorityVisit (p : ProblemInstance.t) (st : Store * bool)
    (oa : addr) : Store * bool :=
  let s := fst st in
  match operationObjs s !! oa with
  | Some operation =>
      if negb (Operation.isScheduled operation) then
        match findMachine p s (Operation.machineId operation) with
        | Some (ma, machine) =>
            (commit ma machine oa operation
               (priorityJobReadyTime p s operation) s, true)
        | None => st
        end
      else st
  | None => st
  end.

Definition sortedReady (p : ProblemInstance.t)
    (compare : Operation.t -> Operation.t -> bool) (s : Store) : list addr :=
  std_sort (compareAt s compare) (readyOperations p s).

Definition priorityRound (p : ProblemInstance.t)
    (compare : Operation.t -> Operation.t -> bool) (s : Store)
    : Store * bool :=
  foldl (priorityVisit p) (s, false) (sortedReady p compare s).

Definition scheduleWithPriority (p : ProblemInstance.t)
    (compare : Operation.t -> Operation.t -> bool) (s : Store) : Store :=
  fst (whileLoop (priorityRound p compare) 1000 true 0 s).

Definition compareSPT (a b : Operation.t) : bool :=
  Operation.processingTime a <? Operation.processingTime b.

Definition compareLPT (a b : Operation.t) : bool :=
  Operation.processingTime a >? Operation.processingTime b.

Definition scheduleSPT (p : ProblemInstance.t) (s : Store) : Store :=
  let s := resetMachines p s in
  let s := resetOperations p s in
  scheduleWithPriority p compareSPT s.

Definition scheduleLPT (p : ProblemInstance.t) (s : Store) : Store :=
  let s := resetMachines p s in
  let s := resetOperations p s in
  scheduleWithPriority p compareLPT s.

(** The schedule pass [solve] dispatches to. *)
Definition schedule (algorithm : SchedulingAlgorithm)
    (p : ProblemInstance.t) (s : Store) : Store :=
  match algorithm with
  | FIFO => scheduleFIFO p s
  | SPT => scheduleSPT p s
  | LPT => scheduleLPT p s
  end.

(** [algorithm] is the member of the Solver, a value of the enumeration
    type. [problem] is the pointer argument: [None] is the null pointer,
    [Some p] points to the instance [p]. The switch takes its [default]
    branch on a value that is none of the three enumerators; nothing has
    been scheduled then. [result->problem = *problem] copies the two
    vectors of pointers and the two counts. *)
Definition solve (algorithm : Z)
    (problem : option ProblemInstance.t) (s : Store) : Store * outcome :=
  match problem with
  | None => (s, runtime_error "Problem instance is null")
  | Some p =>
      match enumerator algorithm with
      | Some rule =>
          let s := schedule rule p s in
          let result :=
            ScheduleResult.mk p [] 0 0 positiveZero in
          (s, returned (ScheduleResult.calculateMetrics s result))
      | None => (s, runtime_error "Unknown algorithm")
      end
  end.

(** The value of [iteration] when the loop of the pass ends. *)
Definition iterations (algorithm : SchedulingAlgorithm)
    (p : ProblemInstance.t) (s : Store) : Z :=
  let s := resetOperations p (resetMachines p s) in
  match algorithm with
  | FIFO => snd (whileLoop (fifoRound p) 1000 true 0 s)
  | SPT => snd (whileLoop (priorityRound p compareSPT) 1000 true 0 s)
  | LPT => snd (whileLoop (priorityRound p compareLPT) 1000 true 0 s)
  end.

End WithSort.
End Solver.

#[global] Arguments Solver.whileLoop _ _ _ _ _ : simpl never.

(** ** A sort that meets the contract of [std::sort]

    Insertion from the right end; [x] goes in front of the first element it
    precedes. *)

Fixpoint insertSorted (cmp : addr -> addr -> bool) (x : addr) (l : list addr)
    : list addr :=
  match l with
  | [] => [x]
  | y :: l' => if cmp x y then x :: l else y :: insertSorted cmp x l'
  end.

Definition insertionSort (cmp : addr -> addr -> bool) (l : list addr)
    : list addr :=
  foldr (insertSorted cmp) [] l.

(** The comparator requirement of the standard: a strict weak ordering on
    the elements handed to the sort. *)
Record StrictWeakOrderOn (l : list addr) (cmp : addr -> addr -> bool) : Prop := {
  swo_irrefl : forall a, a ∈ l -> cmp a a = false;
  swo_trans : forall a b c, a ∈ l -> b ∈ l -> c ∈ l ->
    cmp a b = true -> cmp b c = true -> cmp a c = true;
  swo_incomp : forall a b c, a ∈ l -> b ∈ l -> c ∈ l ->
    cmp a b = false -> cmp b a = false ->
    cmp b c = false -> cmp c b = false ->
    cmp a c = false /\ cmp c a = false
}.

(** [notAfter cmp x y]: [y] does not precede [x], so [x] may stand first. *)
Definition notAfter (cmp : addr -> addr -> bool) (x y : addr) : Prop :=
  cmp y x = false.

(** [l] is ordered by [cmp]: no element precedes one that stands before it. *)
Definition orderedBy (cmp : addr -> addr -> bool) (l : list addr) : Prop :=
  forall i j x y, (i < j)%nat -> l !! i = Some x -> l !! j = Some y ->
                  cmp y x = false.

(** The postcondition of [std::sort]. *)
Record StdSortContract
    (sort : (addr -> addr -> bool) -> list addr -> list addr) : Prop := {
  sort_permutation : forall cmp l, Permutation (sort cmp l) l;
  sort_ordered : forall cmp l,
    StrictWeakOrderOn l cmp -> orderedBy cmp (sort cmp l)
}.

(** ** The [std::sort] of libstdc++

    The program is built with GCC, whose library sorts by introsort
    ([bits/stl_algo.h], [bits/stl_heap.h]): quicksort with the median of
    three as pivot while a range has more than 16 elements, heapsort when
    the recursion gets deeper than twice the logarithm of the length, and an
    insertion sort over the whole vector at the end. The vector is a list,
    an iterator is an index into it, and [comp] is applied to the elements.
    A loop that the library leaves unguarded stops at the ends of the
    vector. *)

Module Libstdcxx.
Section Sort.

Variable comp : addr -> addr -> bool.

Definition get (v : list addr) (i : nat) : addr := default 0%nat (v !! i).

Definition iter_swap (v : list addr) (i j : nat) : list addr :=
  <[j := get v i]> (<[i := get v j]> v).

(** [__unguarded_linear_insert(last)]: [val] moves down from [last] past the
    elements it precedes. *)
Fixpoint linear_insert (val : addr) (v : list addr) (last : nat) : list addr :=
  match last with
  | S next =>
      if comp val (get v next)
      then linear_insert val (<[last := get v next]> v) next
      else <[last := val]> v
  | O => <[last := val]> v
  end.

Definition unguarded_linear_insert (v : list addr) (last : nat) : list addr :=
  linear_insert (get v last) v last.

(** The body of the loop of [__insertion_sort(first, last)]: an element that
    precedes the first one is moved to the front, [move_backward] shifting
    the others up by one. *)
Definition insertion_step (first : nat) (v : list addr) (i : nat) : list addr :=
  if comp (get v i) (get v first)
  then take first v ++ get v i :: take (i - first) (drop first v) ++ drop (S i) v
  else unguarded_linear_insert v i.

Definition insertion_sort (v : list addr) (first last : nat) : list addr :=
  foldl (insertion_step first) v (seq (S first) (last - S first)).

Definition unguarded_insertion_sort (v : list addr) (first last : nat)
    : list addr :=
  foldl unguarded_linear_insert v (seq first (last - first)).

Definition final_insertion_sort (v : list addr) (first last : nat) : list addr :=
  if (16 <? last - first)%nat
  then unguarded_insertion_sort (insertion_sort v first (first + 16))
         (first + 16) last
  else insertion_sort v first last.

Definition move_median_to_first (v : list addr) (result a b c : nat)
    : list addr :=
  if comp (get v a) (get v b) then
    if comp (get v b) (get v c) then iter_swap v result b
    else if comp (get v a) (get v c) then iter_swap v result c
    else iter_swap v result a
  else if comp (get v a) (get v c) then iter_swap v result a
  else if comp (get v b) (get v c) then iter_swap v result c
  else iter_swap v result b.

(** The two inner loops of [__unguarded_partition]. *)
Fixpoint scan_up (fuel : nat) (v : list addr) (pivot first : nat) : nat :=
  match fuel with
  | S fuel =>
      if comp (get v first) (get v pivot)
      then scan_up fuel v pivot (S first)
      else first
  | O => first
  end.

Fixpoint scan_down (v : list addr) (pivot last : nat) : nat :=
  match last with
  | S below =>
      if comp (get v pivot) (get v last) then scan_down v pivot below else last
  | O => last
  end.

Fixpoint partition_loop (fuel : nat) (v : list addr) (first last pivot : nat)
    : list addr * nat :=
  match fuel with
  | S fuel =>
      let first := scan_up (length v) v pivot first in
      let last := scan_down v pivot (last - 1) in
      if (first <? last)%nat
      then partition_loop fuel (iter_swap v first last) (S first) last pivot
      else (v, first)
  | O => (v, first)
  end.

Definition unguarded_partition (v : list addr) (first last pivot : nat)
    : list addr * nat :=
  partition_loop (length v) v first last pivot.

Definition unguarded_partition_pivot (v : list addr) (first last : nat)
    : list addr * nat :=
  let mid := (first + (last - first) / 2)%nat in
  let v := move_median_to_first v first (first + 1) mid (last - 1) in
  unguarded_partition v (first + 1) last first.

(** *** The heap functions, for the range that starts at [first] *)

Fixpoint push_heap (fuel : nat) (v : list addr)
    (first holeIndex topIndex : nat) (value : addr) : list addr :=
  match fuel with
  | S fuel =>
      let parent := ((holeIndex - 1) / 2)%nat in
      if (topIndex <? holeIndex)%nat && comp (get v (first + parent)) value
      then push_heap fuel (<[(first + holeIndex)%nat := get v (first + parent)]> v)
             first parent topIndex value
      else <[(first + holeIndex)%nat := value]> v
  | O => <[(first + holeIndex)%nat := value]> v
  end.

(** The first loop of [__adjust_heap]: the hole goes down to the larger
    child; the result is the vector, [holeIndex] and [secondChild]. *)
Fixpoint sift_down (fuel : nat) (v : list addr)
    (first holeIndex secondChild len : nat) : list addr * nat * nat :=
  match fuel with
  | S fuel =>
      if (secondChild <? (len - 1) / 2)%nat then
        let secondChild := (2 * (secondChild + 1))%nat in
        let secondChild :=
          if comp (get v (first + secondChild)) (get v (first + (secondChild - 1)))
          then (secondChild - 1)%nat else secondChild in
        sift_down fuel (<[(first + holeIndex)%nat := get v (first + secondChild)]> v)
          first secondChild secondChild len
      else (v, holeIndex, secondChild)
  | O => (v, holeIndex, secondChild)
  end.

Definition adjust_heap (v : list addr) (first holeIndex len : nat)
    (value : addr) : list addr :=
  let topIndex := holeIndex in
  let '(v, holeIndex, secondChild) := sift_down len v first holeIndex holeIndex len in
  let '(v, holeIndex) :=
    if Nat.even len && (secondChild =? (len - 2) / 2)%nat
    then let secondChild := (2 * (secondChild + 1))%nat in
         (<[(first + holeIndex)%nat := get v (first + (secondChild - 1))]> v,
          (secondChild - 1)%nat)
    else (v, holeIndex) in
  push_heap (S holeIndex) v first holeIndex topIndex value.

Definition pop_heap (v : list addr) (first last result : nat) : list addr :=
  let value := get v result in
  adjust_heap (<[result := get v first]> v) first 0 (last - first) value.

Fixpoint make_heap_loop (v : list addr) (first len parent : nat) : list addr :=
  let v := adjust_heap v first parent len (get v (first + parent)) in
  match parent with
  | S below => make_heap_loop v first len below
  | O => v
  end.

Definition make_heap (v : list addr) (first last : nat) : list addr :=
  if (last - first <? 2)%nat then v
  else make_heap_loop v first (last - first) ((last - first - 2) / 2).

Fixpoint sort_heap_loop (count : nat) (v : list addr) (first : nat) : list addr :=
  match count with
  | S below =>
      match below with
      | O => v
      | S _ => sort_heap_loop below (pop_heap v first (first + below) (first + below))
                 first
      end
  | O => v
  end.

Definition sort_heap (v : list addr) (first last : nat) : list addr :=
  sort_heap_loop (last - first) v first.

(** [__partial_sort(first, last, last)]: no element lies behind [middle],
    so [__heap_select] is [__make_heap]. *)
Definition partial_sort (v : list addr) (first last : nat) : list addr :=
  sort_heap (make_heap v first last) first last.

(** [__introsort_loop]: the turn of the [while] loop that follows the
    recursive call is the second call here. *)
Fixpoint introsort_loop (depth_limit : nat) (v : list addr) (first last : nat)
    : list addr :=
  if (16 <? last - first)%nat then
    match depth_limit with
    | O => partial_sort v first last
    | S depth_limit =>
        let '(v, cut) := unguarded_partition_pivot v first last in
        introsort_loop depth_limit (introsort_loop depth_limit v cut last)
          first cut
    end
  else v.

(** [std::sort(v.begin(), v.end(), comp)] *)
Definition sort (v : list addr) : list addr :=
  match v with
  | [] => v
  | _ =>
      let last := length v in
      final_insertion_sort
        (introsort_loop (2 * Nat.log2 last) v 0 last) 0 last
  end.

End Sort.
End Libstdcxx.

(** ** Vocabulary of the properties *)

(** The operation [oa] is held by a job of the problem. *)
Definition heldBy (p : ProblemInstance.t) (s : Store) (ja : addr)
    (job : Job.t) (oa : addr) (o : Operation.t) : Prop :=
  ja ∈ ProblemInstance.jobs p /\ jobObjs s !! ja = Some job /\
  oa ∈ Job.operations job /\ operationObjs s !! oa = Some o.

(** The largest element of a list, when there is one. *)
Definition maximum (l : list Z) : option Z :=
  foldr (fun x acc => Some (match acc with Some y => Z.max x y | None => x end))
        None l.

(** A running maximum started at [a] and fed the elements of [l]. *)
Definition floorMax (a : Z) (l : list Z) : Z :=
  match maximum l with Some m => Z.max a m | None => a end.

(** End times of the scheduled operations of one job, and of a problem. *)
Definition scheduledEnd (s : Store) (oa : addr) : option Z :=
  match operationObjs s !! oa with
  | Some o => if Operation.isScheduled o then Some (Operation.endTime o) else None
  | None => None
  end.

Definition jobScheduledEnds (s : Store) (job : Job.t) : list Z :=
  omap (scheduledEnd s) (Job.operations job).

Definition jobsOf (s : Store) (p : ProblemInstance.t) : list Job.t :=
  omap (fun ja => jobObjs s !! ja) (ProblemInstance.jobs p).

Definition scheduledEnds (s : Store) (p : ProblemInstance.t) : list Z :=
  flat_map (jobScheduledEnds s) (jobsOf s p).

Definition sumZ (l : list Z) : Z := foldr Z.add 0 l.

(** *** How a schedule pass moves the store *)

(** The fields of an operation fixed by its constructor. *)
Definition sameIdentity (o o' : Operation.t) : Prop :=
  Operation.jobId o' = Operation.jobId o
  /\ Operation.machineId o' = Operation.machineId o
  /\ Operation.processingTime o' = Operation.processingTime o
  /\ Operation.operationId o' = Operation.operationId o.

(** Two stores with the same jobs, the same operations up to their times and
    the same number of machines. *)
Definition sameShape (s s' : Store) : Prop :=
  jobObjs s' = jobObjs s
  /\ Forall2 sameIdentity (operationObjs s) (operationObjs s')
  /\ length (machineObjs s') = length (machineObjs s).

(** An operation keeps its identity, and keeps its times once scheduled. *)
Definition opEvolves (o o' : Operation.t) : Prop :=
  sameIdentity o o' /\ (Operation.isScheduled o = true -> o' = o).

Definition evolves (s s' : Store) : Prop :=
  jobObjs s' = jobObjs s
  /\ Forall2 opEvolves (operationObjs s) (operationObjs s')
  /\ length (machineObjs s') = length (machineObjs s).

(** The stores differ at most in the error stream. *)
Definition sameObjects (s s' : Store) : Prop :=
  operationObjs s' = operationObjs s /\ jobObjs s' = jobObjs s
  /\ machineObjs s' = machineObjs s.

(** One commit: an operation of the problem that is not scheduled is placed
    on its machine. [ok] is what is known of the job-ready time used. *)
Inductive step (p : ProblemInstance.t)
    (ok : Store -> Job.t -> Operation.t -> Z -> Prop) : Store -> Store -> Prop :=
| step_commit s ja job oa operation ma machine jobReady :
    heldBy p s ja job oa operation ->
    Operation.isScheduled operation = false ->
    Solver.findMachine p s (Operation.machineId operation) = Some (ma, machine) ->
    ok s job operation jobReady ->
    step p ok s (Solver.commit ma machine oa operation jobReady s).

Definition anyReady : Store -> Job.t -> Operation.t -> Z -> Prop :=
  fun _ _ _ _ => True.

(** The job-ready time was taken over the job that holds the operation, and
    every earlier operation of that job is scheduled. *)
Definition afterPredecessors : Store -> Job.t -> Operation.t -> Z -> Prop :=
  fun s job operation jobReady =>
    Solver.allPrevOpsCompleted s job operation = true
    /\ jobReady = Solver.jobReadyTime s job operation.

(** A stretch of a pass, with the flag [operationScheduled]: commits, and
    the flag is raised as soon as the store has moved. *)
Definition moved (p : ProblemInstance.t)
    (ok : Store -> Job.t -> Operation.t -> Z -> Prop)
    (st st' : Store * bool) : Prop :=
  rtc (step p ok) (fst st) (fst st') /\ (st' = st \/ snd st' = true).

(** What the reset loop writes into an operation. *)
Definition resetTimes (o : Operation.t) : Operation.t :=
  Operation.setScheduled 0 0 o.

(** The addresses of all operations of the problem, job by job. *)
Definition operationsOf (p : ProblemInstance.t) (s : Store) : list addr :=
  flat_map (fun ja =>
              match jobObjs s !! ja with
              | Some job => Job.operations job
              | None => []
              end) (ProblemInstance.jobs p).

(** The job-ready time used is not negative. *)
Definition fromTimeZero : Store -> Job.t -> Operation.t -> Z -> Prop :=
  fun _ _ _ jobReady => 0 <= jobReady.

(** The job-ready time is the one FIFO computes or the one the priority
    rules compute. *)
Definition readyTimeOf (p : ProblemInstance.t)
    : Store -> Job.t -> Operation.t -> Z -> Prop :=
  fun s job operation jobReady =>
    jobReady = Solver.jobReadyTime s job operation
    \/ jobReady = Solver.priorityJobReadyTime p s operation.

(** *** Invariants of a schedule pass *)

(** Each operation's jobId is the index, in the problem's job vector, of
    the job that holds it. *)
Definition jobIdsConsistent (p : ProblemInstance.t) (s : Store) : Prop :=
  forall ja job oa o, heldBy p s ja job oa o ->
    ProblemInstance.getJob p (Operation.jobId o) = Some ja.

(** No operation is held by two different jobs of the problem. *)
Definition uniqueHolder (p : ProblemInstance.t) (s : Store) : Prop :=
  forall ja job ja' job' oa o o',
    heldBy p s ja job oa o -> heldBy p s ja' job' oa o' -> ja' = ja.

(** What each rule needs of the problem to respect precedence: FIFO reads
    the job it is traversing, the priority rules look the job up through
    the operation's jobId. *)
Definition jobsWellFormed (algorithm : SchedulingAlgorithm)
    (p : ProblemInstance.t) (s : Store) : Prop :=
  match algorithm with
  | FIFO => uniqueHolder p s
  | SPT | LPT => jobIdsConsistent p s
  end.

(** Precedence within the jobs of the problem. *)
Definition precedenceHolds (p : ProblemInstance.t) (s : Store) : Prop :=
  forall ja job a b oa ob,
    heldBy p s ja job a oa -> heldBy p s ja job b ob ->
    Operation.operationId oa < Operation.operationId ob ->
    Operation.isScheduled oa = true -> Operation.isScheduled ob = true ->
    Operation.endTime oa <= Operation.startTime ob.

(** A scheduled operation has all its predecessors scheduled. *)
Definition predecessorsFirst (p : ProblemInstance.t) (s : Store) : Prop :=
  forall ja job a b oa ob,
    heldBy p s ja job a oa -> heldBy p s ja job b ob ->
    Operation.operationId oa < Operation.operationId ob ->
    Operation.isScheduled ob = true -> Operation.isScheduled oa = true.

(** The operations of [l] follow one another from time [e] on: each is
    scheduled and starts no earlier than the one before it ends. *)
Fixpoint chained (s : Store) (e : Z) (l : list addr) : Prop :=
  match l with
  | [] => True
  | oa :: l' =>
      exists o, operationObjs s !! oa = Some o
                /\ e <= Operation.startTime o
                /\ Operation.isScheduled o = true
                /\ chained s (Operation.endTime o) l'
  end.

(** The end time of the last operation of [l], [e] if there is none. *)
Definition endOfLast (s : Store) (e : Z) (l : list addr) : Z :=
  match last l with
  | Some oa => default e (Operation.endTime <$> operationObjs s !! oa)
  | None => e
  end.

Definition machineInvariant (p : ProblemInstance.t) (s : Store) : Prop :=
  forall ma machine,
    ma ∈ ProblemInstance.machines p -> machineObjs s !! ma = Some machine ->
    chained s 0 (Machine.scheduledOperations machine)
    /\ Machine.availableTime machine
       = endOfLast s 0 (Machine.scheduledOperations machine).

(** What C2 says of one machine. *)
Definition exclusive (s : Store) (machine : Machine.t) : Prop :=
  (forall i j a b, (i < j)%nat ->
     Machine.scheduledOperations machine !! i = Some a ->
     Machine.scheduledOperations machine !! j = Some b ->
     exists oa ob, operationObjs s !! a = Some oa /\ operationObjs s !! b = Some ob
                   /\ Operation.startTime oa <= Operation.startTime ob
                   /\ Operation.endTime oa <= Operation.startTime ob)
  /\ Machine.availableTime machine
     = endOfLast s 0 (Machine.scheduledOperations machine).

(** No scheduled operation of the problem starts before time 0. *)
Definition startsFromZero (p : ProblemInstance.t) (s : Store) : Prop :=
  forall ja job oa o, heldBy p s ja job oa o ->
    Operation.isScheduled o = true -> 0 <= Operation.startTime o.

(** *** The range of the times

    The sums of a pass are bounded by the processing times of the problem
    added up, each operation counted once. *)
Definition heldAddrs (p : ProblemInstance.t) (s : Store) : list addr :=
  remove_dups (operationsOf p s).

Definition durationAt (s : Store) (a : addr) : Z :=
  match operationObjs s !! a with
  | Some o => Operation.processingTime o
  | None => 0
  end.

Definition committedAt (s : Store) (a : addr) : Z :=
  match operationObjs s !! a with
  | Some o => if Operation.isScheduled o then Operation.processingTime o else 0
  | None => 0
  end.

Definition totalDuration (p : ProblemInstance.t) (s : Store) : Z :=
  sumZ (map (durationAt s) (heldAddrs p s)).

Definition committedDuration (p : ProblemInstance.t) (s : Store) : Z :=
  sumZ (map (committedAt s) (heldAddrs p s)).

(** Every time of the problem lies between 0 and [bound]. *)
Definition timesWithin (bound : Z) (p : ProblemInstance.t) (s : Store) : Prop :=
  (forall ja job oa o, heldBy p s ja job oa o ->
     0 <= Operation.startTime o /\ 0 <= Operation.endTime o
     /\ Operation.startTime o <= bound /\ Operation.endTime o <= bound)
  /\ (forall ma machine,
        ma ∈ ProblemInstance.machines p -> machineObjs s !! ma = Some machine ->
        0 <= Machine.availableTime machine <= bound).

(** Every operation of the problem has a positive duration. *)
Definition positiveDurations (p : ProblemInstance.t) (s : Store) : Prop :=
  forall ja job oa o, heldBy p s ja job oa o -> 0 < Operation.processingTime o.

(** Every operation of the problem names a machine of the problem. *)
Definition machinesExist (p : ProblemInstance.t) (s : Store) : Prop :=
  forall ja job oa o, heldBy p s ja job oa o ->
    is_Some (Solver.findMachine p s (Operation.machineId o)).

(** No job of the problem has more than [n] operations. *)
Definition jobsAtMost (n : nat) (p : ProblemInstance.t) (s : Store) : Prop :=
  forall ja job, ja ∈ ProblemInstance.jobs p -> jobObjs s !! ja = Some job ->
    (length (Job.operations job) <= n)%nat.

Definition allScheduled (p : ProblemInstance.t) (s : Store) : Prop :=
  forall ja job oa o, heldBy p s ja job oa o -> Operation.isScheduled o = true.

(** The number of operations of [job] that come before [operation]. *)
Definition depth (s : Store) (job : Job.t) (operation : Operation.t) : nat :=
  length (List.filter
            (fun pa =>
               match operationObjs s !! pa with
               | Some prevOp =>
                   Operation.operationId prevOp <? Operation.operationId operation
               | None => false
               end) (Job.operations job)).

(** The operation at [oa] reads as scheduled. *)
Definition scheduledAt (s : Store) (oa : addr) : Prop :=
  exists o, operationObjs s !! oa = Some o /\ Operation.isScheduled o = true.

(** Every operation of [job] that comes before [operation] is scheduled. *)
Definition predsScheduled (s : Store) (job : Job.t) (operation : Operation.t)
    : Prop :=
  forall a q, a ∈ Job.operations job -> operationObjs s !! a = Some q ->
    Operation.operationId q < Operation.operationId operation ->
    Operation.isScheduled q = true.

(** The sum of a commit is an int: [wrap] changes nothing. *)
Definition exactSum (p : ProblemInstance.t)
    : Store -> Job.t -> Operation.t -> Z -> Prop :=
  fun s job operation jobReady =>
    forall ma machine,
      Solver.findMachine p s (Operation.machineId operation) = Some (ma, machine) ->
      INT_MIN <= Z.max (Machine.availableTime machine) jobReady
                 + Operation.processingTime operation <= INT_MAX.

Definition both (ok ok' : Store -> Job.t -> Operation.t -> Z -> Prop)
    : Store -> Job.t -> Operation.t -> Z -> Prop :=
  fun s job operation jobReady =>
    ok s job operation jobReady /\ ok' s job operation jobReady.

(** The state of a pass in which no sum can leave the range of int: the
    durations are positive and add up to an int, and no time exceeds the
    durations committed so far. *)
Definition inBounds (p : ProblemInstance.t) (s : Store) : Prop :=
  positiveDurations p s
  /\ totalDuration p s <= INT_MAX
  /\ timesWithin (committedDuration p s) p s.

(** What the progress of a pass needs of the problem. *)
Definition schedulable (p : ProblemInstance.t) (s : Store) : Prop :=
  machinesExist p s /\ inBounds p s.

(** The processing times of the problem are ints. *)
Definition intDurations (p : ProblemInstance.t) (s : Store) : Prop :=
  forall ja job oa o, heldBy p s ja job oa o ->
    INT_MIN <= Operation.processingTime o <= INT_MAX.

(** The times of the problem are ints, and no machine is available before
    time [INT_MIN]. *)
Definition intTimes (p : ProblemInstance.t) (s : Store) : Prop :=
  (forall ja job oa o, heldBy p s ja job oa o ->
     INT_MIN <= Operation.startTime o <= INT_MAX
     /\ INT_MIN <= Operation.endTime o <= INT_MAX)
  /\ (forall ma machine,
        ma ∈ ProblemInstance.machines p -> machineObjs s !! ma = Some machine ->
        INT_MIN <= Machine.availableTime machine <= INT_MAX).

(** Within every job of the problem the operationIds are distinct. *)
Definition idsDistinct (p : ProblemInstance.t) (s : Store) : Prop :=
  forall ja job i j a b oa ob,
    ja ∈ ProblemInstance.jobs p -> jobObjs s !! ja = Some job ->
    i <> j ->
    Job.operations job !! i = Some a -> Job.operations job !! j = Some b ->
    operationObjs s !! a = Some oa -> operationObjs s !! b = Some ob ->
    Operation.operationId oa <> Operation.operationId ob.

(** The operations with fewer than [r] predecessors are scheduled. *)
Definition scheduledUpTo (r : nat) (p : ProblemInstance.t) (s : Store) : Prop :=
  forall ja job oa o, heldBy p s ja job oa o -> (depth s job o < r)%nat ->
    Operation.isScheduled o = true.

(** The statements about the metrics, as equations on a result [r] read in
    a store [s]. *)
Definition makespanIsMaxScheduledEnd (s : Store) (r : ScheduleResult.t) : Prop :=
  ScheduleResult.makespan r
  = default 0 (maximum (scheduledEnds s (ScheduleResult.problem r))).

Definition totalIsSumOfJobMaxEnds (s : Store) (r : ScheduleResult.t) : Prop :=
  ScheduleResult.totalCompletionTime r
  = sumZ (map (fun job => default 0 (maximum (jobScheduledEnds s job)))
              (jobsOf s (ScheduleResult.problem r))).





(** What C2 says of a rule. *)
Definition exclusiveClaim
    (std_sort : (addr -> addr -> bool) -> list addr -> list addr)
    (algorithm : SchedulingAlgorithm) : Prop :=
  forall p s, positiveDurations p s ->
    forall ma machine,
      ma ∈ ProblemInstance.machines p ->
      machineObjs (Solver.schedule std_sort algorithm p s) !! ma = Some machine ->
      exclusive (Solver.schedule std_sort algorithm p s) machine.

(** What C10 says of a rule. *)
Definition completionClaim
    (std_sort : (addr -> addr -> bool) -> list addr -> list addr)
    (algorithm : SchedulingAlgorithm) : Prop :=
  forall p s,
    machinesExist p s -> positiveDurations p s -> idsDistinct p s ->
    jobsAtMost 999 p s ->
    allScheduled p (fst (Solver.solve std_sort algorithm (Some p) s)).

(** What C5 says: an error if and only if the problem is null, and a
    diagnostic when the round limit is reached with operations left
    unscheduled. *)
Definition errorClaim
    (std_sort : (addr -> addr -> bool) -> list addr -> list addr) : Prop :=
  forall (algorithm : Z) problem s,
    (exists what, snd (Solver.solve std_sort algorithm problem s) = runtime_error what)
    <-> problem = None.

Definition diagnosticClaim
    (std_sort : (addr -> addr -> bool) -> list addr -> list addr) : Prop :=
  forall (algorithm : SchedulingAlgorithm) p s,
    1000 <= Solver.iterations std_sort algorithm p s ->
    ~ allScheduled p (Solver.schedule std_sort algorithm p s) ->
    cerr (Solver.schedule std_sort algorithm p s) <> cerr s.

(** What C1 says of a rule: after the pass, precedence holds in every job,
    whatever the problem. *)
Definition precedenceClaim
    (std_sort : (addr -> addr -> bool) -> list addr -> list addr)
    (algorithm : SchedulingAlgorithm) : Prop :=
  forall p s, precedenceHolds p (Solver.schedule std_sort algorithm p s).

(** A test over the operations of the problem, used to check hypotheses on
    concrete instances. *)
Definition forallHeld (f : addr -> Job.t -> addr -> Operation.t -> bool)
    (p : ProblemInstance.t) (s : Store) : bool :=
  forallb (fun ja =>
             match jobObjs s !! ja with
             | Some job =>
                 forallb (fun oa =>
                            match operationObjs s !! oa with
                            | Some o => f ja job oa o
                            | None => true
                            end) (Job.operations job)
             | None => true
             end) (ProblemInstance.jobs p).

(** ** Concrete instances *)

(** One job with one operation on one machine, placed at [-5, -2) by
    [setScheduled(-5, -2)]. *)
Definition earlyStore : Store :=
  mkStore [Operation.setScheduled (-5) (-2) (Operation.new 0 0 3 0)]
          [Job.addOperation 0%nat (Job.new 0)] [Machine.new 0] [].

Definition earlyProblem : ProblemInstance.t :=
  ProblemInstance.mk [0%nat] [0%nat] 1 1.

Definition earlyResult : ScheduleResult.t :=
  ScheduleResult.mk earlyProblem [] 0 0 positiveZero.

(** Two single-operation jobs on one machine, both of duration 3. *)
Definition tieStore : Store :=
  mkStore [Operation.new 0 0 3 0; Operation.new 1 0 3 1]
          [Job.addOperation 0%nat (Job.new 0); Job.addOperation 1%nat (Job.new 1)]
          [Machine.new 0] [].

Definition tieProblem : ProblemInstance.t :=
  ProblemInstance.mk [0%nat; 1%nat] [0%nat] 2 1.

(** Two single-operation jobs on one machine: job 0 of duration 10, job 1
    of duration 2 (the problem of the tests SPTPrioritizesShortOperations and
    LPTPrioritizesLongOperations). *)
Definition longShortStore : Store :=
  mkStore [Operation.new 0 0 10 0; Operation.new 1 0 2 1]
          [Job.addOperation 0%nat (Job.new 0); Job.addOperation 1%nat (Job.new 1)]
          [Machine.new 0] [].

Definition longShortProblem : ProblemInstance.t :=
  ProblemInstance.mk [0%nat; 1%nat] [0%nat] 2 1.

(** Start times of the operations reached from a problem, job by job. *)
Definition startTimes (s : Store) (p : ProblemInstance.t) : list (list Z) :=
  map (fun job =>
         omap (fun oa => Operation.startTime <$> operationObjs s !! oa)
              (Job.operations job))
      (jobsOf s p).

(** The schedules of the machines reached from a problem. *)
Definition machineSchedules (s : Store) (p : ProblemInstance.t)
    : list (list addr * Z) :=
  omap (fun ma =>
          (fun m => (Machine.scheduledOperations m, Machine.availableTime m))
            <$> machineObjs s !! ma)
       (ProblemInstance.machines p).

(** One operation of duration 0: it is placed at [0, 0) in every round and
    never reads as scheduled. *)
Definition zeroStore : Store :=
  mkStore [Operation.new 0 0 0 0] [Job.addOperation 0%nat (Job.new 0)]
          [Machine.new 0] [].

Definition zeroProblem : ProblemInstance.t :=
  ProblemInstance.mk [0%nat] [0%nat] 1 1.

(** Two single-operation jobs on one machine, of durations 2147483647 and
    1: the second sum of the pass leaves the range of int. *)
Definition longestStore : Store :=
  mkStore [Operation.new 0 0 2147483647 0; Operation.new 1 0 1 1]
          [Job.mk 0 [0%nat]; Job.mk 1 [1%nat]] [Machine.new 0] [].

Definition longestProblem : ProblemInstance.t :=
  ProblemInstance.mk [0%nat; 1%nat] [0%nat] 2 1.

(** One job of two operations, machine 0 for 5 and then machine 1 for
    2147483647: the problem [parseFile] reads from the file
    "1 2 / 0 0 5 / 0 1 2147483647". *)
Definition lateStore : Store :=
  mkStore [Operation.new 0 0 5 0; Operation.new 0 1 2147483647 1]
          [Job.mk 0 [0%nat; 1%nat]] [Machine.new 0; Machine.new 1] [].

Definition lateProblem : ProblemInstance.t :=
  ProblemInstance.mk [0%nat] [0%nat; 1%nat] 1 2.

(** Two single-operation jobs of duration 2000000000, each on a machine of
    its own. *)
Definition twoLongStore : Store :=
  mkStore [Operation.new 0 0 2000000000 0; Operation.new 1 1 2000000000 1]
          [Job.mk 0 [0%nat]; Job.mk 1 [1%nat]] [Machine.new 0; Machine.new 1] [].

Definition twoLongProblem : ProblemInstance.t :=
  ProblemInstance.mk [0%nat; 1%nat] [0%nat; 1%nat] 2 2.

(** Seventeen single-operation jobs on one machine, all of duration 3. *)
Definition seventeenStore : Store :=
  mkStore (map (fun i => Operation.new i 0 3 i) (seqZ 0 17))
          (map (fun i => Job.mk i [Z.to_nat i]) (seqZ 0 17))
          [Machine.new 0] [].

Definition seventeenProblem : ProblemInstance.t :=
  ProblemInstance.mk (seq 0 17) [0%nat] 17 1.

(** One job holding two operations whose jobId names job 1, which does not
    exist: operation 0 on machine 0 for 3, operation 1 on machine 1 for 2. *)
Definition strayStore : Store :=
  mkStore [Operation.new 1 0 3 0; Operation.new 1 1 2 1]
          [Job.addOperation 1%nat (Job.addOperation 0%nat (Job.new 0))]
          [Machine.new 0; Machine.new 1] [].

Definition strayProblem : ProblemInstance.t :=
  ProblemInstance.mk [0%nat] [0%nat; 1%nat] 1 2.

(** Two jobs that both hold operation 2 as their second operation: job 0
    is (operation 0, operation 2), job 1 is (operation 1, operation 2). *)
Definition sharedStore : Store :=
  mkStore [Operation.new 0 0 1 0; Operation.new 1 1 5 0; Operation.new 0 0 1 1]
          [Job.addOperation 2%nat (Job.addOperation 0%nat (Job.new 0));
           Job.addOperation 2%nat (Job.addOperation 1%nat (Job.new 1))]
          [Machine.new 0; Machine.new 1] [].

Definition sharedProblem : ProblemInstance.t :=
  ProblemInstance.mk [0%nat; 1%nat] [0%nat; 1%nat] 2 2.

(** The problem built by [Parser::generateSimpleProblem]: three jobs of three
    operations each on three machines. *)
Definition simpleStore : Store :=
  mkStore
    [Operation.new 0 0 2 0; Operation.new 0 1 3 1; Operation.new 0 2 1 2;
     Operation.new 1 1 1 3; Operation.new 1 2 2 4; Operation.new 1 0 3 5;
     Operation.new 2 2 3 6; Operation.new 2 0 1 7; Operation.new 2 1 2 8]
    [Job.mk 0 [0%nat; 1%nat; 2%nat]; Job.mk 1 [3%nat; 4%nat; 5%nat];
     Job.mk 2 [6%nat; 7%nat; 8%nat]]
    [Machine.new 0; Machine.new 1; Machine.new 2] [].

Definition simpleProblem : ProblemInstance.t :=
  ProblemInstance.mk [0%nat; 1%nat; 2%nat] [0%nat; 1%nat; 2%nat] 3 3.

(** The instances of the tests SolveSingleOperation,
    SolveSingleJobMultipleMachines and SolveMultipleJobsSingleMachine, and
    the empty problem. *)
Definition singleStore : Store :=
  mkStore [Operation.new 0 0 5 0] [Job.mk 0 [0%nat]] [Machine.new 0] [].

Definition singleProblem : ProblemInstance.t :=
  ProblemInstance.mk [0%nat] [0%nat] 1 1.

Definition chainStore : Store :=
  mkStore [Operation.new 0 0 2 0; Operation.new 0 1 3 1; Operation.new 0 2 1 2]
          [Job.mk 0 [0%nat; 1%nat; 2%nat]]
          [Machine.new 0; Machine.new 1; Machine.new 2] [].

Definition chainProblem : ProblemInstance.t :=
  ProblemInstance.mk [0%nat] [0%nat; 1%nat; 2%nat] 1 3.

Definition queueStore : Store :=
  mkStore [Operation.new 0 0 2 0; Operation.new 1 0 3 1; Operation.new 2 0 1 2]
          [Job.mk 0 [0%nat]; Job.mk 1 [1%nat]; Job.mk 2 [2%nat]]
          [Machine.new 0] [].

Definition queueProblem : ProblemInstance.t :=
  ProblemInstance.mk [0%nat; 1%nat; 2%nat] [0%nat] 3 1.

Definition emptyStore : Store := mkStore [] [] [] [].

(** What a run of [solve] shows: the (start, end) of each operation of the
    arena, and the three metrics of the result. *)
Definition report (out : Store * outcome)
    : list (Z * Z) * option (Z * Z * double) :=
  (map (fun o => (Operation.startTime o, Operation.endTime o))
       (operationObjs (fst out)),
   match snd out with
   | returned r =>
       Some (ScheduleResult.makespan r, ScheduleResult.totalCompletionTime r,
             ScheduleResult.avgFlowTime r)
   | runtime_error _ => None
   end).

(** ** Proof steps that recur *)

(** Case analysis on a read at [a] of an arena written at [oa]: [H] is the
    read. *)
Ltac read_after_write H a oa :=
  destruct (decide (a = oa)) as [->|?];
  [rewrite list_lookup_insert_eq in H by (by eapply lookup_lt_Some)
  |rewrite list_lookup_insert_ne in H by done].

(** Every address of a literal list resolves in the store. *)
Ltac resolve_all :=
  let a := fresh "a" in
  let Ha := fresh "Ha" in
  intros a Ha;
  repeat (apply elem_of_cons in Ha as [->|Ha]; [by eexists|]);
  inversion Ha.

Create HintDb jssp.

(** ** models.hpp: construction and queries

    The methods of Job and ProblemInstance that build a problem. They are
    called through a pointer, so they read and write the store. *)

(** What a call that may throw [std::runtime_error] hands to its caller. *)
Inductive throwing (A : Type) :=
| threw (what : string)
| value (a : A).

#[global] Arguments threw {A} what.
#[global] Arguments value {A} a.

(** [std::make_shared<T>(...)]: a new object at the end of its arena. *)
Definition newOperation (o : Operation.t) (s : Store) : addr * Store :=
  (length (operationObjs s),
   mkStore (operationObjs s ++ [o]) (jobObjs s) (machineObjs s) (cerr s)).

Definition newJob (j : Job.t) (s : Store) : addr * Store :=
  (length (jobObjs s),
   mkStore (operationObjs s) (jobObjs s ++ [j]) (machineObjs s) (cerr s)).

Definition newMachine (m : Machine.t) (s : Store) : addr * Store :=
  (length (machineObjs s),
   mkStore (operationObjs s) (jobObjs s) (machineObjs s ++ [m]) (cerr s)).

Definition setJob (a : addr) (j : Job.t) (s : Store) : Store :=
  mkStore (operationObjs s) (<[a := j]> (jobObjs s)) (machineObjs s) (cerr s).

(** [job->addOperation(op)]: [if (op) operations.push_back(op)]. [None] is
    the null pointer. *)
Definition addOperation (ja : addr) (op : option addr) (s : Store) : Store :=
  match op, jobObjs s !! ja with
  | Some oa, Some job => setJob ja (Job.addOperation oa job) s
  | _, _ => s
  end.

Definition getOperationCount (job : Job.t) : Z :=
  Z.of_nat (length (Job.operations job)).

(** [index >= 0 && (size_t)index < operations.size() ? operations[index]
    : nullptr] *)
Definition getOperation (job : Job.t) (index : Z) : option addr :=
  if 0 <=? index then Job.operations job !! Z.to_nat index else None.

(** [numJobs = count; jobs.clear(); for (int i = 0; i < count; ++i)
    jobs.push_back(std::make_shared<Job>(i))] *)
Definition createJobs (count : Z) (p : ProblemInstance.t) (s : Store)
    : ProblemInstance.t * Store :=
  let '(jobs, s') :=
    foldl (fun acc i =>
             let '(a, s') := newJob (Job.new i) (snd acc) in
             (fst acc ++ [a], s'))
          ([], s) (seqZ 0 count) in
  (ProblemInstance.mk jobs (ProblemInstance.machines p) count
     (ProblemInstance.numMachines p), s').

Definition createMachines (count : Z) (p : ProblemInstance.t) (s : Store)
    : ProblemInstance.t * Store :=
  let '(machines, s') :=
    foldl (fun acc i =>
             let '(a, s') := newMachine (Machine.new i) (snd acc) in
             (fst acc ++ [a], s'))
          ([], s) (seqZ 0 count) in
  (ProblemInstance.mk (ProblemInstance.jobs p) machines
     (ProblemInstance.numJobs p) count, s').

(** [ProblemInstance::clear]: every job drops its operations and every
    machine is reset; the vectors [jobs] and [machines] and the two counts
    stay. *)
Definition clear (p : ProblemInstance.t) (s : Store) : Store :=
  let s :=
    foldl (fun s ja =>
             match jobObjs s !! ja with
             | Some job => setJob ja (Job.mk (Job.jobId job) []) s
             | None => s
             end) s (ProblemInstance.jobs p) in
  Solver.resetMachines p s.

Definition getTotalOperations (p : ProblemInstance.t) (s : Store) : Z :=
  foldl (fun total ja =>
           match jobObjs s !! ja with
           | Some job => total + Z.of_nat (length (Job.operations job))
           | None => total
           end) 0 (ProblemInstance.jobs p).

(** ** parser.cpp

    A text is read with [stream >> int]. The embedding takes of a text the
    integers these extractions yield, in order, up to the first extraction
    that fails (end of the text or a token that is not a number). Every
    extraction of [parseFile] is tested, so it reads no variable after a
    failure; [parseString] does, see there. A file that cannot be opened is
    [None]. *)

(** How the first extraction that fails, fails: the input has ended, the
    next token is not a number, or it is a number above or below the range
    of int. *)
Inductive ending := endOfInput | notANumber | aboveRange | belowRange.

Module Parser.

Definition invalidOperationWarning (jobId machineId processingTime : Z)
    : string :=
  "Warning: Invalid operation data (Job: " +:+ pretty jobId
  +:+ ", Machine: " +:+ pretty machineId
  +:+ ", Time: " +:+ pretty processingTime +:+ ")".

(** [auto operation = std::make_shared<Operation>(jobId, machineId,
    processingTime, operationCount); auto job = problem->getJob(jobId);
    if (job) job->addOperation(operation);] *)
Definition attachOperation (p : ProblemInstance.t)
    (jobId machineId processingTime operationCount : Z) (s : Store) : Store :=
  let '(oa, s) :=
    newOperation
      (Operation.new jobId machineId processingTime operationCount) s in
  match ProblemInstance.getJob p jobId with
  | Some ja => addOperation ja (Some oa) s
  | None => s
  end.

(** The loop [while (file >> jobId >> machineId >> processingTime)] of
    [parseFile]: an invalid triple is reported and skipped, and does not
    count. *)
Fixpoint readValidOperations (p : ProblemInstance.t) (numJobs numMachines : Z)
    (text : list Z) (operationCount : Z) (s : Store) : Store * Z :=
  match text with
  | jobId :: machineId :: processingTime :: rest =>
      if (jobId <? 0) || (numJobs <=? jobId)
         || (machineId <? 0) || (numMachines <=? machineId)
         || (processingTime <=? 0)
      then readValidOperations p numJobs numMachines rest operationCount
             (writeCerr
                (invalidOperationWarning jobId machineId processingTime) s)
      else readValidOperations p numJobs numMachines rest (operationCount + 1)
             (attachOperation p jobId machineId processingTime
                operationCount s)
  | _ => (s, operationCount)
  end.

Definition parseFile (filename : string) (file : option (list Z)) (s : Store)
    : Store * throwing ProblemInstance.t :=
  match file with
  | None => (s, threw ("Could not open file: " +:+ filename))
  | Some (numJobs :: numMachines :: rest) =>
      if (numJobs <=? 0) || (numMachines <=? 0)
      then (s, threw "Invalid number of jobs or machines")
      else
        let '(p, s) := createJobs numJobs ProblemInstance.new s in
        let '(p, s) := createMachines numMachines p s in
        let '(s, operationCount) :=
          readValidOperations p numJobs numMachines rest 0 s in
        if operationCount =? 0
        then (s, threw "No valid operations found in file")
        else (s, value p)
  | Some _ => (s, threw "No valid operations found in file")
  end.

(** The loop of [parseString]: every triple is taken and counts, also one
    whose job does not exist. *)
Fixpoint readOperations (p : ProblemInstance.t) (text : list Z)
    (operationCount : Z) (s : Store) : Store :=
  match text with
  | jobId :: machineId :: processingTime :: rest =>
      readOperations p rest (operationCount + 1)
        (attachOperation p jobId machineId processingTime operationCount s)
  | _ => s
  end.

(** What [iss >> x] leaves in [x] when it fails: [held], the value [x]
    had, when the input has ended or an earlier extraction has failed
    (nothing is extracted from a stream that is not good); 0 when the next
    token is not a number; the nearest int when it is a number out of
    range. *)
Definition unread (how : ending) (held : Z) : Z :=
  match how with
  | endOfInput => held
  | notANumber => 0
  | aboveRange => INT_MAX
  | belowRange => INT_MIN
  end.

(** [int numJobs, numMachines; iss >> numJobs >> numMachines;] is not
    tested and the two variables are not initialised: [numJobs0] and
    [numMachines0] are what their storage holds. [data] are the integers of
    the text up to the first extraction that fails, and [how] tells how that
    one fails. *)
Definition parseString (data : list Z) (how : ending)
    (numJobs0 numMachines0 : Z) (s : Store)
    : Store * throwing ProblemInstance.t :=
  let '(numJobs, numMachines, rest) :=
    match data with
    | numJobs :: numMachines :: rest => (numJobs, numMachines, rest)
    | [numJobs] => (numJobs, unread how numMachines0, [])
    | [] => (unread how numJobs0, numMachines0, [])
    end in
  if (numJobs <=? 0) || (numMachines <=? 0)
  then (s, threw "Invalid number of jobs or machines")
  else
    let '(p, s) := createJobs numJobs ProblemInstance.new s in
    let '(p, s) := createMachines numMachines p s in
    (readOperations p rest 0 s, value p).

(** The integers [saveToFile] writes, in order; [is_open] tells whether the
    file could be created. *)
Definition saveToFile (p : ProblemInstance.t) (filename : string)
    (is_open : bool) (s : Store) : throwing (list Z) :=
  if is_open
  then value
         (ProblemInstance.numJobs p :: ProblemInstance.numMachines p
          :: flat_map
               (fun ja =>
                  match jobObjs s !! ja with
                  | Some job =>
                      flat_map
                        (fun oa =>
                           match operationObjs s !! oa with
                           | Some operation =>
                               [Job.jobId job; Operation.machineId operation;
                                Operation.processingTime operation]
                           | None => []
                           end) (Job.operations job)
                  | None => []
                  end) (ProblemInstance.jobs p))
  else threw ("Could not create file: " +:+ filename).

(** [problem->getJob(j)->addOperation(std::make_shared<Operation>(...))];
    the jobs 0, 1 and 2 exist after [createJobs(3)]. *)
Definition generateSimpleProblem (s : Store) : ProblemInstance.t * Store :=
  let '(p, s) := createJobs 3 ProblemInstance.new s in
  let '(p, s) := createMachines 3 p s in
  let s := attachOperation p 0 0 2 0 s in
  let s := attachOperation p 0 1 3 1 s in
  let s := attachOperation p 0 2 1 2 s in
  let s := attachOperation p 1 1 1 3 s in
  let s := attachOperation p 1 2 2 4 s in
  let s := attachOperation p 1 0 3 5 s in
  let s := attachOperation p 2 2 3 6 s in
  let s := attachOperation p 2 0 1 7 s in
  let s := attachOperation p 2 1 2 8 s in
  (p, s).

End Parser.

(** ** Further vocabulary for the schedule pass *)

(** What a pass over [p] leaves alone between [s] and [s']: the jobs, the
    size of the arenas, the identity of every operation and machine, and
    every operation and machine that is not the problem's. *)
Definition framed (p : ProblemInstance.t) (s s' : Store) : Prop :=
  jobObjs s' = jobObjs s
  /\ length (operationObjs s') = length (operationObjs s)
  /\ length (machineObjs s') = length (machineObjs s)
  /\ (forall oa o, operationObjs s !! oa = Some o ->
        exists o', operationObjs s' !! oa = Some o' /\ sameIdentity o o'
                   /\ (oa ∉ operationsOf p s -> o' = o))
  /\ (forall ma m, machineObjs s !! ma = Some m ->
        exists m', machineObjs s' !! ma = Some m'
                   /\ Machine.machineId m' = Machine.machineId m
                   /\ (ma ∉ ProblemInstance.machines p -> m' = m)).

(** An operation of the problem either still has the times of the reset or
    occupies exactly its processing time. *)
Definition durationsKept (p : ProblemInstance.t) (s : Store) : Prop :=
  forall ja job oa o, heldBy p s ja job oa o ->
    (Operation.startTime o = 0 /\ Operation.endTime o = 0)
    \/ Operation.endTime o = Operation.startTime o + Operation.processingTime o.

(** A scheduled operation of the problem occupies exactly its processing
    time, which is then positive; an operation of positive duration that
    is not scheduled still has the times of the reset. *)
Definition scheduledForDuration (p : ProblemInstance.t) (s : Store) : Prop :=
  forall ja job oa o, heldBy p s ja job oa o ->
    (Operation.isScheduled o = true ->
       Operation.endTime o = Operation.startTime o + Operation.processingTime o
       /\ 0 < Operation.processingTime o)
    /\ (Operation.isScheduled o = false -> 0 < Operation.processingTime o ->
          Operation.startTime o = 0 /\ Operation.endTime o = 0).

(** Along the operation list of every job of the problem the operationIds
    increase strictly. *)
Definition idsIncrease (p : ProblemInstance.t) (s : Store) : Prop :=
  forall ja job i j a b oa ob,
    ja ∈ ProblemInstance.jobs p -> jobObjs s !! ja = Some job ->
    (i < j)%nat ->
    Job.operations job !! i = Some a -> Job.operations job !! j = Some b ->
    operationObjs s !! a = Some oa -> operationObjs s !! b = Some ob ->
    Operation.operationId oa < Operation.operationId ob.

(** The schedule read on the machines is the schedule read on the
    operations: every operation on the list of a machine of the problem is
    a scheduled operation of the problem that names this machine, every
    scheduled operation of the problem is on the list of the machine it
    names, and no list holds an operation twice. *)
Definition listsAgree (p : ProblemInstance.t) (s : Store) : Prop :=
  (forall ma machine oa,
     ma ∈ ProblemInstance.machines p -> machineObjs s !! ma = Some machine ->
     oa ∈ Machine.scheduledOperations machine ->
     exists ja job o,
       heldBy p s ja job oa o /\ Operation.isScheduled o = true
       /\ ProblemInstance.getMachine p (Operation.machineId o) = Some ma)
  /\ (forall ja job oa o,
        heldBy p s ja job oa o -> Operation.isScheduled o = true ->
        exists ma machine,
          Solver.findMachine p s (Operation.machineId o) = Some (ma, machine)
          /\ oa ∈ Machine.scheduledOperations machine)
  /\ (forall ma machine,
        ma ∈ ProblemInstance.machines p -> machineObjs s !! ma = Some machine ->
        NoDup (Machine.scheduledOperations machine)).

(** Every operation on a machine list starts at the later of two times:
    the end of the operation before it on the list (0 for the first) and
    the latest end among the operations of its job with a smaller
    operationId (0 if there is none). *)
Definition startsAsSoonAsPossible (p : ProblemInstance.t) (s : Store) : Prop :=
  forall ma machine k oa,
    ma ∈ ProblemInstance.machines p -> machineObjs s !! ma = Some machine ->
    Machine.scheduledOperations machine !! k = Some oa ->
    exists ja job o,
      heldBy p s ja job oa o
      /\ Operation.startTime o
         = Z.max (endOfLast s 0 (take k (Machine.scheduledOperations machine)))
                 (Solver.jobReadyTime s job o).

(** ** Vocabulary for the parser *)

(** The triples (jobId, machineId, processingTime) that follow the two
    counts of a text; an incomplete last triple is not read. *)
Fixpoint triplesOf (text : list Z) : list (Z * Z * Z) :=
  match text with
  | jobId :: machineId :: processingTime :: rest =>
      (jobId, machineId, processingTime) :: triplesOf rest
  | _ => []
  end.

(** A triple [parseFile] accepts. *)
Definition validTriple (numJobs numMachines : Z) (x : Z * Z * Z) : bool :=
  let '(jobId, machineId, processingTime) := x in
  (0 <=? jobId) && (jobId <? numJobs)
  && (0 <=? machineId) && (machineId <? numMachines)
  && (0 <? processingTime).


Definition warningOf (x : Z * Z * Z) : string :=
  let '(jobId, machineId, processingTime) := x in
  Parser.invalidOperationWarning jobId machineId processingTime.

(** One turn of the loop of [parseFile], and of the loop of [parseString],
    on a triple: the state is the store and [operationCount]. *)
Definition validTurn (p : ProblemInstance.t) (numJobs numMachines : Z)
    (st : Store * Z) (x : Z * Z * Z) : Store * Z :=
  let '(jobId, machineId, processingTime) := x in
  if validTriple numJobs numMachines x
  then (Parser.attachOperation p jobId machineId processingTime (snd st) (fst st),
        snd st + 1)
  else (writeCerr (warningOf x) (fst st), snd st).


(** What both parsers keep true of the problem they are building; [k] is
    [operationCount]. *)
Definition wellParsed (p : ProblemInstance.t) (s : Store) (k : Z) : Prop :=
  NoDup (ProblemInstance.jobs p)
  /\ (forall ja, ja ∈ ProblemInstance.jobs p -> is_Some (jobObjs s !! ja))
  /\ (forall ja job oa,
        ja ∈ ProblemInstance.jobs p -> jobObjs s !! ja = Some job ->
        oa ∈ Job.operations job -> (oa < length (operationObjs s))%nat)
  /\ (forall i ja job,
        ProblemInstance.jobs p !! i = Some ja -> jobObjs s !! ja = Some job ->
        Job.jobId job = Z.of_nat i)
  /\ jobIdsConsistent p s
  /\ idsIncrease p s
  /\ (forall ja job oa o, heldBy p s ja job oa o ->
        0 <= Operation.operationId o < k
        /\ Operation.startTime o = 0 /\ Operation.endTime o = 0).

(** Every operation of the problem names one of [numMachines] machines and
    has a positive duration. *)
Definition validOperations (numMachines : Z) (p : ProblemInstance.t)
    (s : Store) : Prop :=
  forall ja job oa o, heldBy p s ja job oa o ->
    0 <= Operation.machineId o < numMachines /\ 0 < Operation.processingTime o.

(** What a job says of its operations in the file format: machine and
    duration of each, in order. *)
Definition jobContent (s : Store) (job : Job.t) : list (Z * Z) :=
  omap (fun oa =>
          (fun o => (Operation.machineId o, Operation.processingTime o))
            <$> operationObjs s !! oa)
       (Job.operations job).

Definition problemContent (p : ProblemInstance.t) (s : Store)
    : list (list (Z * Z)) :=
  map (jobContent s) (jobsOf s p).

(** The files of the parser tests, as the integers read from them. *)
Definition testSimpleFile : list Z :=
  [3; 3; 0; 0; 2; 0; 1; 3; 0; 2; 1; 1; 1; 1; 1; 2; 2; 1; 0; 3;
   2; 2; 3; 2; 0; 1; 2; 1; 2].

Definition testMediumFile : list Z := [2; 2; 0; 0; 5; 0; 1; 3; 1; 1; 2; 1; 0; 4].

Definition testBadOpsFile : list Z := [2; 2; 0; 0; 5; 3; 1; 2; 1; 2; 3; 1; 1; -2].

Definition mediumProblem : ProblemInstance.t :=
  ProblemInstance.mk [0%nat; 1%nat] [0%nat; 1%nat] 2 2.

(** A problem [saveToFile] writes to a file that [parseFile] reads back as
    the same jobs: the counts are positive, numJobs is the number of jobs,
    each job's jobId is its index, and every operation names one of
    numMachines machines and has a positive processingTime; there is at
    least one operation. *)
Definition savable (p : ProblemInstance.t) (s : Store) : Prop :=
  0 < ProblemInstance.numMachines p
  /\ ProblemInstance.numJobs p = Z.of_nat (length (ProblemInstance.jobs p))
  /\ (forall i ja, ProblemInstance.jobs p !! i = Some ja ->
        exists job, jobObjs s !! ja = Some job /\ Job.jobId job = Z.of_nat i)
  /\ (forall ja job oa,
        ja ∈ ProblemInstance.jobs p -> jobObjs s !! ja = Some job ->
        oa ∈ Job.operations job ->
        exists o, operationObjs s !! oa = Some o
                  /\ 0 <= Operation.machineId o < ProblemInstance.numMachines p
                  /\ 0 < Operation.processingTime o)
  /\ 0 < getTotalOperations p s.

(** The triples [saveToFile] writes after the two counts. *)
Definition savedTriples (p : ProblemInstance.t) (s : Store) : list (Z * Z * Z) :=
  flat_map
    (fun ja =>
       match jobObjs s !! ja with
       | Some job =>
           omap (fun oa =>
                   (fun o => (Job.jobId job, Operation.machineId o,
                              Operation.processingTime o))
                     <$> operationObjs s !! oa)
                (Job.operations job)
       | None => []
       end) (ProblemInstance.jobs p).

(** The integers of a list of triples, in the order of the file. *)
Definition tokensOf (triples : list (Z * Z * Z)) : list Z :=
  flat_map (fun x => let '(a, b, c) := x in [a; b; c]) triples.

(** An operation that FIFO can commit in every round: its processingTime is
    not positive, its machine exists and no operation of its job has a
    smaller operationId. *)
Definition emptyFirstOperation (p : ProblemInstance.t) (s : Store)
    (ja : addr) (job : Job.t) (oa : addr) : Prop :=
  exists o,
    heldBy p s ja job oa o
    /\ Operation.processingTime o <= 0
    /\ is_Some (Solver.findMachine p s (Operation.machineId o))
    /\ forall a q, a ∈ Job.operations job -> operationObjs s !! a = Some q ->
         Operation.operationId o <= Operation.operationId q.

(** * Sums in 32 bits *)

Section Int.

Lemma wrap_range (z : Z) : INT_MIN <= wrap z <= INT_MAX.
Proof.
  unfold wrap, INT_MIN, INT_MAX.
  pose proof (Z.mod_pos_bound (z - -2147483648) 4294967296). lia.
Qed.

(** A sum that is an int is not changed. *)
Lemma wrap_exact (z : Z) : INT_MIN <= z <= INT_MAX -> wrap z = z.
Proof.
  unfold wrap, INT_MIN, INT_MAX. intros H. rewrite Z.mod_small; lia.
Qed.

(** Adding in 32 bits step by step gives the whole sum in 32 bits. *)
Lemma wrap_add_l (a b : Z) : wrap (wrap a + b) = wrap (a + b).
Proof.
  unfold wrap. f_equal.
  replace ((a - INT_MIN) mod 4294967296 + INT_MIN + b - INT_MIN)
    with ((a - INT_MIN) mod 4294967296 + b) by lia.
  replace (a + b - INT_MIN) with (a - INT_MIN + b) by lia.
  apply Zplus_mod_idemp_l.
Qed.

(** A sum of an int that is not negative and a positive int is not 0 in
    32 bits. *)
Lemma wrap_positive_sum (a b : Z) :
  0 <= a <= INT_MAX -> 0 < b <= INT_MAX -> wrap (a + b) <> 0.
Proof.
  unfold wrap, INT_MIN, INT_MAX. intros Ha Hb.
  destruct (Z_lt_le_dec (a + b) 2147483648) as [Hs|Hs].
  - rewrite Z.mod_small; lia.
  - replace (a + b - -2147483648) with ((a + b - 2147483648) + 1 * 4294967296) by lia.
    rewrite Z.mod_add by lia. rewrite Z.mod_small; lia.
Qed.

End Int.

(** * Metrics: calculateMetrics *)

Section Metrics.

Lemma maximum_nil_iff (l : list Z) : maximum l = None <-> l = [].
Proof. destruct l; simpl; split; intros H; congruence. Qed.

(** [maximum] returns an element of the list that bounds all of them. *)
Lemma maximum_spec (l : list Z) (m : Z) :
  maximum l = Some m <-> m ∈ l /\ forall x, x ∈ l -> x <= m.
Proof.
  revert m. induction l as [|a l IH]; intros m; simpl.
  - split; [discriminate | intros [H _]; inversion H].
  - destruct (maximum l) as [y|] eqn:E.
    + destruct (IH y) as [IH1 _]. destruct (IH1 eq_refl) as [Hy Hb].
      split.
      * intros [= <-]. split.
        -- destruct (Z.max_spec a y) as [[_ ->]|[_ ->]]; [right|left]; done.
        -- intros x [->|Hx]%elem_of_cons; [lia|]. specialize (Hb x Hx). lia.
      * intros [Hm Hub]. f_equal.
        assert (a <= m) by (apply Hub; left).
        assert (y <= m) by (apply Hub; right; done).
        apply elem_of_cons in Hm as [->|Hm]; [lia|].
        specialize (Hb m Hm). lia.
    + apply maximum_nil_iff in E. subst l. split.
      * intros [= <-]. split; [left|]. intros x [->|Hx]%elem_of_cons; [lia|inversion Hx].
      * intros [[->|Hm]%elem_of_cons _]; [done|inversion Hm].
Qed.

Lemma floorMax_cons a x l : floorMax a (x :: l) = floorMax (Z.max a x) l.
Proof.
  unfold floorMax. simpl. destruct (maximum l); lia.
Qed.

Lemma floorMax_app a l1 l2 : floorMax a (l1 ++ l2) = floorMax (floorMax a l1) l2.
Proof.
  revert a. induction l1 as [|x l1 IH]; intros a; [done|].
  rewrite <- app_comm_cons, !floorMax_cons. apply IH.
Qed.

Lemma floorMax_default l : floorMax 0 l = Z.max 0 (default 0 (maximum l)).
Proof. unfold floorMax. destruct (maximum l); simpl; lia. Qed.

Lemma jobCompletionTime_floorMax s job :
  ScheduleResult.jobCompletionTime s job = floorMax 0 (jobScheduledEnds s job).
Proof.
  unfold ScheduleResult.jobCompletionTime, jobScheduledEnds.
  generalize 0. induction (Job.operations job) as [|oa l IH]; intros a; [done|].
  simpl. rewrite IH. unfold scheduledEnd.
  destruct (operationObjs s !! oa) as [o|]; [|done].
  destruct (Operation.isScheduled o); [|done].
  by rewrite floorMax_cons.
Qed.

(** The completion time [calculateMetrics] gives a job: the largest end time
    among its scheduled operations, and never less than 0. *)
Lemma jobCompletionTime_eq s job :
  ScheduleResult.jobCompletionTime s job
  = Z.max 0 (default 0 (maximum (jobScheduledEnds s job))).
Proof. by rewrite jobCompletionTime_floorMax, floorMax_default. Qed.

Lemma metricsLoop_eq s js a b :
  0 <= a -> INT_MIN <= b <= INT_MAX ->
  foldl (fun acc ja =>
           match jobObjs s !! ja with
           | Some job =>
               let c := ScheduleResult.jobCompletionTime s job in
               (Z.max (fst acc) c, wrap (snd acc + c))
           | None => acc
           end) (a, b) js
  = (floorMax a (flat_map (jobScheduledEnds s) (omap (fun ja => jobObjs s !! ja) js)),
     wrap (b + sumZ (map (ScheduleResult.jobCompletionTime s)
                         (omap (fun ja => jobObjs s !! ja) js)))).
Proof.
  revert a b. induction js as [|ja js IH]; intros a b Ha Hb; simpl.
  - unfold floorMax. simpl. f_equal. rewrite Z.add_0_r. by rewrite wrap_exact.
  - destruct (jobObjs s !! ja) as [job|]; simpl; [|by apply IH].
    rewrite IH by (lia || apply wrap_range). f_equal.
    + rewrite floorMax_app. f_equal.
      rewrite jobCompletionTime_floorMax.
      unfold floorMax. destruct (maximum (jobScheduledEnds s job)); lia.
    + unfold sumZ. cbn [map foldr]. rewrite wrap_add_l.
      by rewrite <- Z.add_assoc.
Qed.

Lemma metricsLoop_spec s p :
  ScheduleResult.metricsLoop s (ProblemInstance.jobs p)
  = (Z.max 0 (default 0 (maximum (scheduledEnds s p))),
     wrap (sumZ (map (ScheduleResult.jobCompletionTime s) (jobsOf s p)))).
Proof.
  unfold ScheduleResult.metricsLoop.
  rewrite metricsLoop_eq by (unfold INT_MIN, INT_MAX; lia).
  by rewrite floorMax_default.
Qed.

Lemma jobCompletionTime_nonneg s job : 0 <= ScheduleResult.jobCompletionTime s job.
Proof. rewrite jobCompletionTime_eq. lia. Qed.

Lemma sumZ_map_nonneg {A} (f : A -> Z) (l : list A) :
  (forall x, 0 <= f x) -> 0 <= sumZ (map f l).
Proof.
  intros H. induction l as [|x l IH]; simpl; [lia|]. specialize (H x). lia.
Qed.

Lemma calculateMetrics_problem s r :
  ScheduleResult.problem (ScheduleResult.calculateMetrics s r)
  = ScheduleResult.problem r.
Proof.
  unfold ScheduleResult.calculateMetrics.
  by destruct (ScheduleResult.metricsLoop _ _).
Qed.

Lemma calculateMetrics_makespan s r :
  ScheduleResult.makespan (ScheduleResult.calculateMetrics s r)
  = fst (ScheduleResult.metricsLoop s (ProblemInstance.jobs (ScheduleResult.problem r))).
Proof.
  unfold ScheduleResult.calculateMetrics.
  by destruct (ScheduleResult.metricsLoop _ _).
Qed.

Lemma calculateMetrics_total s r :
  ScheduleResult.totalCompletionTime (ScheduleResult.calculateMetrics s r)
  = snd (ScheduleResult.metricsLoop s (ProblemInstance.jobs (ScheduleResult.problem r))).
Proof.
  unfold ScheduleResult.calculateMetrics.
  by destruct (ScheduleResult.metricsLoop _ _).
Qed.

End Metrics.

(** * The claims on calculateMetrics *)

(** C6, as stated, fails on an operation that ends before time 0: the
    operation placed at [-5, -2) is scheduled and its end time -2 is the
    maximum, but the makespan computed is 0. *)
Lemma makespan_early_end_counterexample :
  ~ makespanIsMaxScheduledEnd earlyStore
      (ScheduleResult.calculateMetrics earlyStore earlyResult).
Proof. unfold makespanIsMaxScheduledEnd. vm_compute. discriminate. Qed.

(** C6 (amended). After [calculateMetrics], makespan is the maximum end time
    over the scheduled operations of [result.problem], or 0 if that maximum
    is negative; it is 0 when no operation is scheduled, in particular for
    a problem with no job. *)
Theorem calculateMetrics_makespan_spec (s : Store) (r : ScheduleResult.t) :
  let r' := ScheduleResult.calculateMetrics s r in
  let ends := scheduledEnds s (ScheduleResult.problem r) in
  ScheduleResult.makespan r' = Z.max 0 (default 0 (maximum ends))
  /\ (ends = [] -> ScheduleResult.makespan r' = 0)
  /\ (ProblemInstance.jobs (ScheduleResult.problem r) = [] ->
      ScheduleResult.makespan r' = 0).
Proof.
  intros r' ends. subst r'.
  rewrite calculateMetrics_makespan, metricsLoop_spec. simpl. fold ends.
  split; [done|]. split.
  - intros ->. done.
  - intros Hj. subst ends. unfold scheduledEnds, jobsOf. rewrite Hj. done.
Qed.

(** C7, as stated, fails on the same instance: the only job's largest
    scheduled end time is -2, the total computed is 0. It also fails when
    the sum leaves the range of int: for two jobs that [solve] has scheduled
    at [0, 2000000000) each, the total stored is -294967296. *)
Lemma total_counterexample :
  ~ totalIsSumOfJobMaxEnds earlyStore
      (ScheduleResult.calculateMetrics earlyStore earlyResult)
  /\ exists result,
       snd (Solver.solve Libstdcxx.sort FIFO (Some twoLongProblem) twoLongStore)
       = returned result
       /\ ScheduleResult.totalCompletionTime result = -294967296
       /\ ~ totalIsSumOfJobMaxEnds
             (fst (Solver.solve Libstdcxx.sort FIFO (Some twoLongProblem)
                     twoLongStore))
             result.
Proof.
  split.
  - unfold totalIsSumOfJobMaxEnds. vm_compute. discriminate.
  - eexists. split; [vm_compute; reflexivity|]. split; [vm_compute; reflexivity|].
    unfold totalIsSumOfJobMaxEnds. vm_compute. discriminate.
Qed.

(** C7 (amended). After [calculateMetrics], totalCompletionTime is the sum
    over the jobs of the job's largest end time among its scheduled
    operations, counted as 0 when that is negative or when the job has no
    scheduled operation, as long as this sum is at most INT_MAX; in general
    it is that sum brought into the range of int modulo 2^32. avgFlowTime is
    the quotient, in binary64, of totalCompletionTime and the number of
    jobs, and 0.0 when there is no job. *)
Theorem calculateMetrics_total_and_average (s : Store) (r : ScheduleResult.t) :
  let r' := ScheduleResult.calculateMetrics s r in
  let js := ProblemInstance.jobs (ScheduleResult.problem r) in
  let sum :=
    sumZ (map (fun job => Z.max 0 (default 0 (maximum (jobScheduledEnds s job))))
              (jobsOf s (ScheduleResult.problem r))) in
  ScheduleResult.totalCompletionTime r' = wrap sum
  /\ (sum <= INT_MAX -> ScheduleResult.totalCompletionTime r' = sum)
  /\ (js = [] -> ScheduleResult.avgFlowTime r' = positiveZero)
  /\ (js <> [] ->
      ScheduleResult.avgFlowTime r'
      = divide (toDouble (ScheduleResult.totalCompletionTime r'))
               (toDouble (Z.of_nat (length js)))).
Proof.
  intros r' js sum. subst r'.
  assert (Ht : ScheduleResult.totalCompletionTime
                 (ScheduleResult.calculateMetrics s r) = wrap sum).
  { rewrite calculateMetrics_total, metricsLoop_spec. cbn [snd].
    apply (f_equal wrap). subst sum. apply (f_equal sumZ).
    apply map_ext. intros job. apply jobCompletionTime_eq. }
  split; [done|]. split; [|split].
  - intros Hsum. rewrite Ht. apply wrap_exact.
    assert (0 <= sum) by (apply sumZ_map_nonneg; intros job; lia).
    unfold INT_MIN. lia.
  - intros Hj. unfold ScheduleResult.calculateMetrics. fold js.
    destruct (ScheduleResult.metricsLoop s js).
    cbn [ScheduleResult.avgFlowTime]. rewrite Hj. reflexivity.
  - intros Hj. unfold ScheduleResult.calculateMetrics. fold js.
    destruct (ScheduleResult.metricsLoop s js).
    cbn [ScheduleResult.avgFlowTime ScheduleResult.totalCompletionTime].
    destruct js; [done|reflexivity].
Qed.

(** The quotient is the nearest double: 14 / 2 is 7, 13 / 3 is
    4878899596318037 * 2^-50, and -294967296 / 2 is -147483648. *)
Example divide_examples :
  divide (toDouble 14) (toDouble 2) = toDouble 7
  /\ divide (toDouble 13) (toDouble 3) = S754_finite false 4878899596318037 (-50)
  /\ divide (toDouble (-294967296)) (toDouble 2) = toDouble (-147483648).
Proof. repeat split; vm_compute; reflexivity. Qed.

(** C9. A second [calculateMetrics] on an unchanged store gives the same
    makespan, totalCompletionTime and avgFlowTime as the first, and the
    problem held by the result is the same; the store is only read. *)
Theorem calculateMetrics_idempotent (s : Store) (r : ScheduleResult.t) :
  let r1 := ScheduleResult.calculateMetrics s r in
  let r2 := ScheduleResult.calculateMetrics s r1 in
  ScheduleResult.makespan r2 = ScheduleResult.makespan r1
  /\ ScheduleResult.totalCompletionTime r2 = ScheduleResult.totalCompletionTime r1
  /\ ScheduleResult.avgFlowTime r2 = ScheduleResult.avgFlowTime r1
  /\ ScheduleResult.problem r2 = ScheduleResult.problem r1
  /\ r2 = r1.
Proof.
  intros r1 r2.
  assert (E : r2 = r1).
  { assert (Hp : ScheduleResult.problem r1 = ScheduleResult.problem r)
      by apply calculateMetrics_problem.
    assert (Hs : ScheduleResult.scheduledJobs r1 = ScheduleResult.scheduledJobs r).
    { subst r1. unfold ScheduleResult.calculateMetrics.
      by destruct (ScheduleResult.metricsLoop _ _). }
    subst r2. unfold ScheduleResult.calculateMetrics at 1.
    rewrite Hp, Hs. subst r1. unfold ScheduleResult.calculateMetrics.
    by destruct (ScheduleResult.metricsLoop _ _). }
  by rewrite E.
Qed.

(** * Sorting: the contract of std::sort and a sort that meets it *)

Section Sorting.

Implicit Types (cmp : addr -> addr -> bool) (l : list addr).

Lemma insertSorted_perm cmp x l : insertSorted cmp x l ≡ₚ x :: l.
Proof.
  induction l as [|y l IH]; simpl; [done|].
  destruct (cmp x y); [done|]. rewrite IH. apply Permutation_swap.
Qed.

Lemma insertionSort_perm cmp l : insertionSort cmp l ≡ₚ l.
Proof.
  induction l as [|x l IH]; simpl; [done|].
  unfold insertionSort in *. simpl. rewrite insertSorted_perm. by f_equiv.
Qed.

Lemma StrictWeakOrderOn_asym u cmp a b :
  StrictWeakOrderOn u cmp -> a ∈ u -> b ∈ u -> cmp a b = true -> cmp b a = false.
Proof.
  intros H Ha Hb Hab. destruct (cmp b a) eqn:E; [|done].
  rewrite <- (swo_irrefl _ _ H a Ha). symmetry.
  by apply (swo_trans _ _ H a b a).
Qed.

Lemma insertSorted_sorted u cmp x l :
  StrictWeakOrderOn u cmp -> x ∈ u -> (forall y, y ∈ l -> y ∈ u) ->
  StronglySorted (notAfter cmp) l ->
  StronglySorted (notAfter cmp) (insertSorted cmp x l).
Proof.
  intros Hswo Hx. induction l as [|y l IH]; intros Hu Hs; simpl.
  - repeat constructor.
  - apply StronglySorted_cons in Hs as [Hall Hs].
    assert (Hy : y ∈ u) by (apply Hu; left).
    destruct (cmp x y) eqn:E.
    + apply StronglySorted_cons. split.
      * constructor.
        -- unfold notAfter. by apply (StrictWeakOrderOn_asym u).
        -- rewrite Forall_forall in Hall |- *. intros z Hz.
           unfold notAfter in *. destruct (cmp z x) eqn:Ez; [|done].
           rewrite <- (Hall z Hz). symmetry.
           apply (swo_trans _ _ Hswo z x y); auto. apply Hu. by right.
      * apply StronglySorted_cons. done.
    + apply StronglySorted_cons. split.
      * rewrite insertSorted_perm. by constructor.
      * apply IH; [|done]. intros z Hz. apply Hu. by right.
Qed.

Lemma insertionSort_sorted u cmp l :
  StrictWeakOrderOn u cmp -> (forall y, y ∈ l -> y ∈ u) ->
  StronglySorted (notAfter cmp) (insertionSort cmp l).
Proof.
  intros Hswo. induction l as [|x l IH]; intros Hu.
  - constructor.
  - change (insertionSort cmp (x :: l))
      with (insertSorted cmp x (insertionSort cmp l)).
    apply (insertSorted_sorted u); auto.
    + apply Hu. by left.
    + intros y Hy. apply Hu. right. by rewrite insertionSort_perm in Hy.
    + apply IH. intros y Hy. apply Hu. by right.
Qed.

Lemma StronglySorted_orderedBy cmp l :
  StronglySorted (notAfter cmp) l -> orderedBy cmp l.
Proof.
  induction 1 as [|x l Hs IH Hall]; intros i j a b Hij Hi Hj.
  - by rewrite lookup_nil in Hi.
  - destruct j as [|j]; [lia|]. simpl in Hj.
    destruct i as [|i]; simpl in Hi.
    + injection Hi as <-. rewrite Forall_forall in Hall.
      apply Hall. by eapply list_elem_of_lookup_2.
    + apply (IH i j); [lia|done..].
Qed.

(** Insertion sort meets the contract of [std::sort]. *)
Lemma insertionSort_contract : StdSortContract insertionSort.
Proof.
  split.
  - intros cmp l. apply insertionSort_perm.
  - intros cmp l Hswo. apply StronglySorted_orderedBy.
    by apply (insertionSort_sorted l).
Qed.

(** What the contract fixes on the shortest inputs. *)
Lemma sort_nil std_sort cmp :
  StdSortContract std_sort -> std_sort cmp [] = [].
Proof.
  intros H. apply Permutation_nil. symmetry.
  apply (sort_permutation _ H cmp []).
Qed.

(** Two elements, the second preceding the first: they are swapped. *)
Lemma sort_pair_swap std_sort cmp (a b : addr) :
  StdSortContract std_sort -> StrictWeakOrderOn [a; b] cmp ->
  cmp b a = true -> std_sort cmp [a; b] = [b; a].
Proof.
  intros H Hswo Hba.
  pose proof (sort_permutation _ H cmp [a; b]) as Hp.
  pose proof (sort_ordered _ H cmp [a; b] Hswo) as Ho.
  apply Permutation_sym, Permutation_length_2_inv in Hp as [E|E]; [|done].
  rewrite E in Ho. specialize (Ho 0%nat 1%nat a b). simpl in Ho.
  rewrite Ho in Hba; [discriminate|lia|done..].
Qed.

(** Two elements, the first preceding the second: they stay. *)
Lemma sort_pair_keep std_sort cmp (a b : addr) :
  StdSortContract std_sort -> StrictWeakOrderOn [a; b] cmp ->
  cmp a b = true -> std_sort cmp [a; b] = [a; b].
Proof.
  intros H Hswo Hab.
  pose proof (sort_permutation _ H cmp [a; b]) as Hp.
  pose proof (sort_ordered _ H cmp [a; b] Hswo) as Ho.
  apply Permutation_sym, Permutation_length_2_inv in Hp as [E|E]; [done|].
  rewrite E in Ho. specialize (Ho 0%nat 1%nat b a). simpl in Ho.
  rewrite Ho in Hab; [discriminate|lia|done..].
Qed.

End Sorting.

(** * The order of a round, and solve on small instances *)

Section Rounds.

Variable std_sort : (addr -> addr -> bool) -> list addr -> list addr.
Hypothesis std_sort_contract : StdSortContract std_sort.

Lemma readyOperations_elem p s oa :
  oa ∈ Solver.readyOperations p s ->
  exists ja job, ja ∈ ProblemInstance.jobs p /\ jobObjs s !! ja = Some job /\
                 oa ∈ Job.operations job /\ Solver.isReady s job oa = true.
Proof.
  unfold Solver.readyOperations. rewrite list_elem_of_In, in_flat_map.
  intros (ja & Hja & Hin). exists ja.
  destruct (jobObjs s !! ja) as [job|]; [|by inversion Hin].
  exists job. apply filter_In in Hin as [H1 H2].
  by rewrite <- !list_elem_of_In in *.
Qed.

Lemma readyOperations_intro p s ja job oa :
  ja ∈ ProblemInstance.jobs p -> jobObjs s !! ja = Some job ->
  oa ∈ Job.operations job -> Solver.isReady s job oa = true ->
  oa ∈ Solver.readyOperations p s.
Proof.
  intros Hja Hjob Hoa Hr.
  unfold Solver.readyOperations. rewrite list_elem_of_In, in_flat_map.
  exists ja. split; [by apply list_elem_of_In|].
  rewrite Hjob. apply filter_In. split; [by apply list_elem_of_In|done].
Qed.


Lemma compareSPT_swo s l :
  (forall a, a ∈ l -> is_Some (operationObjs s !! a)) ->
  StrictWeakOrderOn l (Solver.compareAt s Solver.compareSPT).
Proof.
  intros Hres. unfold Solver.compareAt, Solver.compareSPT. split.
  - intros a [x ->]%Hres. apply Z.ltb_irrefl.
  - intros a b c [x ->]%Hres [y ->]%Hres [z ->]%Hres.
    rewrite !Z.ltb_lt. lia.
  - intros a b c [x ->]%Hres [y ->]%Hres [z ->]%Hres.
    rewrite !Z.ltb_ge. split; lia.
Qed.

Lemma compareLPT_swo s l :
  (forall a, a ∈ l -> is_Some (operationObjs s !! a)) ->
  StrictWeakOrderOn l (Solver.compareAt s Solver.compareLPT).
Proof.
  intros Hres. unfold Solver.compareAt, Solver.compareLPT. split.
  - intros a [x ->]%Hres. rewrite Z.gtb_ltb. apply Z.ltb_irrefl.
  - intros a b c [x ->]%Hres [y ->]%Hres [z ->]%Hres.
    rewrite !Z.gtb_ltb, !Z.ltb_lt. lia.
  - intros a b c [x ->]%Hres [y ->]%Hres [z ->]%Hres.
    rewrite !Z.gtb_ltb, !Z.ltb_ge. split; lia.
Qed.

Lemma sortedReady_perm p compare s :
  Solver.sortedReady std_sort p compare s ≡ₚ Solver.readyOperations p s.
Proof. apply (sort_permutation _ std_sort_contract). Qed.


End Rounds.



(** The schedule SPT builds then: job 8 is served first and job 0 tenth. *)
Example seventeen_ties_schedule :
  startTimes
    (Solver.schedule Libstdcxx.sort SPT seventeenProblem seventeenStore)
    seventeenProblem
  = [[27]; [48]; [45]; [42]; [39]; [36]; [33]; [30]; [0]; [24]; [21]; [18];
     [15]; [12]; [9]; [6]; [3]].
Proof. vm_compute. reflexivity. Qed.

(** * solve: errors, and the scenario of the two rules *)

Section Solve.

Variable std_sort : (addr -> addr -> bool) -> list addr -> list addr.

Lemma whileLoop_true round n iteration s :
  Solver.whileLoop round (S n) true iteration s
  = Solver.whileLoop round n (snd (round s)) (iteration + 1) (fst (round s)).
Proof.
  change (Solver.whileLoop round (S n) true iteration s)
    with (let '(s', scheduled) := round s in
          Solver.whileLoop round n scheduled (iteration + 1) s').
  by destruct (round s).
Qed.

Lemma whileLoop_false round n iteration s :
  Solver.whileLoop round n false iteration s = (s, iteration).
Proof. by destruct n. Qed.

Lemma enumerator_valueOf (algorithm : SchedulingAlgorithm) :
  enumerator algorithm = Some algorithm.
Proof. by destruct algorithm. Qed.

(** [solve] on a problem, with one of the three rules. *)
Lemma solve_eq (algorithm : SchedulingAlgorithm) p s :
  Solver.solve std_sort algorithm (Some p) s
  = (Solver.schedule std_sort algorithm p s,
     returned (ScheduleResult.calculateMetrics
                 (Solver.schedule std_sort algorithm p s)
                 (ScheduleResult.mk p [] 0 0 positiveZero))).
Proof. unfold Solver.solve. by rewrite enumerator_valueOf. Qed.

Hypothesis std_sort_contract : StdSortContract std_sort.

(** One round of [scheduleWithPriority], given the ready set and the order
    the sort leaves it in. *)
Lemma priorityRound_eval p compare s ready sorted :
  Solver.readyOperations p s = ready ->
  std_sort (Solver.compareAt s compare) ready = sorted ->
  Solver.priorityRound std_sort p compare s
  = foldl (Solver.priorityVisit p) (s, false) sorted.
Proof.
  intros <- <-. reflexivity.
Qed.

(** The store of the two-job scenario after the resets. *)
Lemma longShort_reset s :
  operationObjs s = operationObjs longShortStore \/
  (exists a b c d, operationObjs s
     = [Operation.setScheduled a b (Operation.new 0 0 10 0);
        Operation.setScheduled c d (Operation.new 1 0 2 1)]) ->
  jobObjs s = jobObjs longShortStore ->
  (exists l t, machineObjs s = [Machine.mk 0 l t]) ->
  Solver.resetOperations longShortProblem
    (Solver.resetMachines longShortProblem s)
  = mkStore (operationObjs longShortStore) (jobObjs longShortStore)
            (machineObjs longShortStore) (cerr s).
Proof.
  intros Hops Hjobs (l & t & Hm).
  destruct s as [ops jobs machs err]. simpl in *. subst jobs machs.
  destruct Hops as [->|(a & b & c & d & ->)]; reflexivity.
Qed.

Lemma longShort_SPT err :
  Solver.scheduleWithPriority std_sort longShortProblem Solver.compareSPT
    (mkStore (operationObjs longShortStore) (jobObjs longShortStore)
             (machineObjs longShortStore) err)
  = mkStore [Operation.setScheduled 2 12 (Operation.new 0 0 10 0);
             Operation.setScheduled 0 2 (Operation.new 1 0 2 1)]
            (jobObjs longShortStore) [Machine.mk 0 [1%nat; 0%nat] 12] err.
Proof.
  unfold Solver.scheduleWithPriority.
  rewrite whileLoop_true.
  rewrite (priorityRound_eval _ _ _ [0%nat; 1%nat] [1%nat; 0%nat]);
    [|reflexivity|].
  2:{ apply sort_pair_swap; [done| |reflexivity].
      apply compareSPT_swo. resolve_all. }
  cbn [foldl]. 
  set (st := Solver.priorityVisit _ (Solver.priorityVisit _ _ _) _).
  assert (Hst : st = (mkStore [Operation.setScheduled 2 12 (Operation.new 0 0 10 0);
             Operation.setScheduled 0 2 (Operation.new 1 0 2 1)]
            (jobObjs longShortStore) [Machine.mk 0 [1%nat; 0%nat] 12] err, true))
    by reflexivity.
  rewrite Hst. cbn [fst snd].
  rewrite whileLoop_true.
  rewrite (priorityRound_eval _ _ _ [] []);
    [|reflexivity|by apply sort_nil].
  cbn [foldl fst snd]. by rewrite whileLoop_false.
Qed.

Lemma longShort_LPT err :
  Solver.scheduleWithPriority std_sort longShortProblem Solver.compareLPT
    (mkStore (operationObjs longShortStore) (jobObjs longShortStore)
             (machineObjs longShortStore) err)
  = mkStore [Operation.setScheduled 0 10 (Operation.new 0 0 10 0);
             Operation.setScheduled 10 12 (Operation.new 1 0 2 1)]
            (jobObjs longShortStore) [Machine.mk 0 [0%nat; 1%nat] 12] err.
Proof.
  unfold Solver.scheduleWithPriority.
  rewrite whileLoop_true.
  rewrite (priorityRound_eval _ _ _ [0%nat; 1%nat] [0%nat; 1%nat]);
    [|reflexivity|].
  2:{ apply sort_pair_keep; [done| |reflexivity].
      apply compareLPT_swo. resolve_all. }
  cbn [foldl].
  set (st := Solver.priorityVisit _ (Solver.priorityVisit _ _ _) _).
  assert (Hst : st = (mkStore [Operation.setScheduled 0 10 (Operation.new 0 0 10 0);
             Operation.setScheduled 10 12 (Operation.new 1 0 2 1)]
            (jobObjs longShortStore) [Machine.mk 0 [0%nat; 1%nat] 12] err, true))
    by reflexivity.
  rewrite Hst. cbn [fst snd].
  rewrite whileLoop_true.
  rewrite (priorityRound_eval _ _ _ [] []);
    [|reflexivity|by apply sort_nil].
  cbn [foldl fst snd]. by rewrite whileLoop_false.
Qed.

Lemma longShort_solve_SPT s :
  operationObjs s = operationObjs longShortStore \/
  (exists a b c d, operationObjs s
     = [Operation.setScheduled a b (Operation.new 0 0 10 0);
        Operation.setScheduled c d (Operation.new 1 0 2 1)]) ->
  jobObjs s = jobObjs longShortStore ->
  (exists l t, machineObjs s = [Machine.mk 0 l t]) ->
  Solver.solve std_sort SPT (Some longShortProblem) s
  = (mkStore [Operation.setScheduled 2 12 (Operation.new 0 0 10 0);
              Operation.setScheduled 0 2 (Operation.new 1 0 2 1)]
             (jobObjs longShortStore) [Machine.mk 0 [1%nat; 0%nat] 12] (cerr s),
     returned (ScheduleResult.mk longShortProblem [] 12 14 (toDouble 7))).
Proof.
  intros H1 H2 H3. unfold Solver.solve.
  change (enumerator SPT) with (Some SPT). cbv iota.
  unfold Solver.schedule, Solver.scheduleSPT.
  rewrite longShort_reset by done. rewrite longShort_SPT.
  vm_compute. reflexivity.
Qed.

Lemma longShort_solve_LPT s :
  operationObjs s = operationObjs longShortStore \/
  (exists a b c d, operationObjs s
     = [Operation.setScheduled a b (Operation.new 0 0 10 0);
        Operation.setScheduled c d (Operation.new 1 0 2 1)]) ->
  jobObjs s = jobObjs longShortStore ->
  (exists l t, machineObjs s = [Machine.mk 0 l t]) ->
  Solver.solve std_sort LPT (Some longShortProblem) s
  = (mkStore [Operation.setScheduled 0 10 (Operation.new 0 0 10 0);
              Operation.setScheduled 10 12 (Operation.new 1 0 2 1)]
             (jobObjs longShortStore) [Machine.mk 0 [0%nat; 1%nat] 12] (cerr s),
     returned (ScheduleResult.mk longShortProblem [] 12 22 (toDouble 11))).
Proof.
  intros H1 H2 H3. unfold Solver.solve.
  change (enumerator LPT) with (Some LPT). cbv iota.
  unfold Solver.schedule, Solver.scheduleLPT.
  rewrite longShort_reset by done. rewrite longShort_LPT.
  vm_compute. reflexivity.
Qed.

(** C8. Two single-operation jobs on one machine, job 0 of duration 10 and
    job 1 of duration 2: under SPT job 1 starts at 0 and job 0 at 2; under
    LPT job 0 starts at 0 and job 1 at 10. *)
Theorem spt_lpt_scenario :
  let sSPT := fst (Solver.solve std_sort SPT (Some longShortProblem) longShortStore) in
  let sLPT := fst (Solver.solve std_sort LPT (Some longShortProblem) longShortStore) in
  startTimes sSPT longShortProblem = [[2]; [0]]
  /\ startTimes sLPT longShortProblem = [[0]; [10]].
Proof.
  rewrite longShort_solve_SPT, longShort_solve_LPT;
    try (by left); try done; try (by eexists _, _).
Qed.

(** C3 on the two-job scenario: a result returned by [solve] under SPT, read
    again after [solve] has run under LPT on the same problem. The start
    times and the machine schedule seen through the first result are now
    those of the LPT schedule, while its stored totalCompletionTime is still
    the one of the SPT schedule (14, where the operations it points to now
    give 22). *)
Theorem solve_result_shares_objects :
  let run1 := Solver.solve std_sort SPT (Some longShortProblem) longShortStore in
  let run2 := Solver.solve std_sort LPT (Some longShortProblem) (fst run1) in
  exists r1,
    snd run1 = returned r1
    /\ startTimes (fst run1) (ScheduleResult.problem r1) = [[2]; [0]]
    /\ machineSchedules (fst run1) (ScheduleResult.problem r1)
       = [([1%nat; 0%nat], 12)]
    /\ startTimes (fst run2) (ScheduleResult.problem r1) = [[0]; [10]]
    /\ machineSchedules (fst run2) (ScheduleResult.problem r1)
       = [([0%nat; 1%nat], 12)]
    /\ ScheduleResult.totalCompletionTime r1 = 14
    /\ ScheduleResult.totalCompletionTime
         (ScheduleResult.calculateMetrics (fst run2) r1) = 22.
Proof.
  intros run1 run2. subst run2 run1.
  rewrite longShort_solve_SPT; try (by left); try done; try (by eexists _, _).
  cbn [fst snd].
  rewrite longShort_solve_LPT; try done; try (by eexists _, _).
  - eexists. split; [reflexivity|]. repeat split; reflexivity.
  - right. by eexists _, _, _, _.
Qed.

End Solve.

Lemma spt_lpt_scenario_witness :
  StdSortContract insertionSort
  /\ startTimes
       (fst (Solver.solve insertionSort SPT (Some longShortProblem) longShortStore))
       longShortProblem = [[2]; [0]].
Proof.
  split; [exact insertionSort_contract|].
  exact (proj1 (spt_lpt_scenario insertionSort insertionSort_contract)).
Defined.

Lemma solve_result_shares_objects_witness :
  StdSortContract insertionSort
  /\ exists r1,
       snd (Solver.solve insertionSort SPT (Some longShortProblem) longShortStore)
       = returned r1.
Proof.
  split; [exact insertionSort_contract|].
  destruct (solve_result_shares_objects insertionSort insertionSort_contract)
    as (r1 & H & _).
  by exists r1.
Defined.

(** The round limit: an operation of duration 0 is committed in each of the
    1000 rounds; FIFO then writes its warning and [solve] still returns. *)
Lemma solve_round_limit_returns :
  let out := Solver.solve insertionSort FIFO (Some zeroProblem) zeroStore in
  (exists result, snd out = returned result)
  /\ cerr (fst out) = [Solver.roundLimitWarning]
  /\ (Operation.isScheduled <$> operationObjs (fst out) !! 0%nat) = Some false.
Proof. vm_compute. split; [eauto|done]. Qed.

(** * Stores along a schedule pass *)

Section Stores.

Implicit Types (s : Store) (p : ProblemInstance.t) (o : Operation.t).

Lemma isScheduled_true o :
  Operation.isScheduled o = true <-> Operation.startTime o < Operation.endTime o.
Proof. unfold Operation.isScheduled. rewrite Z.gtb_ltb, Z.ltb_lt. done. Qed.

Lemma isScheduled_false o :
  Operation.isScheduled o = false <-> Operation.endTime o <= Operation.startTime o.
Proof. unfold Operation.isScheduled. rewrite Z.gtb_ltb, Z.ltb_ge. done. Qed.

(** ** The three relations between stores *)

Lemma sameIdentity_refl o : sameIdentity o o.
Proof. by repeat split. Qed.

Lemma sameIdentity_trans o1 o2 o3 :
  sameIdentity o1 o2 -> sameIdentity o2 o3 -> sameIdentity o1 o3.
Proof. unfold sameIdentity. intros (?&?&?&?) (?&?&?&?). repeat split; congruence. Qed.

Lemma opEvolves_refl o : opEvolves o o.
Proof. split; [apply sameIdentity_refl|done]. Qed.

Lemma opEvolves_trans o1 o2 o3 :
  opEvolves o1 o2 -> opEvolves o2 o3 -> opEvolves o1 o3.
Proof.
  intros [H1 K1] [H2 K2]. split; [by eapply sameIdentity_trans|].
  intros Hs. specialize (K1 Hs). subst o2. auto.
Qed.

Lemma Forall2_refl_on {A} (R : A -> A -> Prop) (l : list A) :
  (forall x, R x x) -> Forall2 R l l.
Proof. intros H. induction l; constructor; auto. Qed.

Lemma Forall2_trans_on {A} (R : A -> A -> Prop) (l1 l2 l3 : list A) :
  (forall x y z, R x y -> R y z -> R x z) ->
  Forall2 R l1 l2 -> Forall2 R l2 l3 -> Forall2 R l1 l3.
Proof.
  intros Ht H. revert l3. induction H; intros l3 H3; inversion H3; subst;
    constructor; eauto.
Qed.

Lemma evolves_refl s : evolves s s.
Proof. split; [done|]. split; [|done]. apply Forall2_refl_on, opEvolves_refl. Qed.

Lemma evolves_trans s1 s2 s3 : evolves s1 s2 -> evolves s2 s3 -> evolves s1 s3.
Proof.
  intros (J1 & O1 & M1) (J2 & O2 & M2). split; [congruence|].
  split; [|congruence]. eapply Forall2_trans_on; eauto using opEvolves_trans.
Qed.

Lemma sameShape_refl s : sameShape s s.
Proof. split; [done|]. split; [|done]. apply Forall2_refl_on, sameIdentity_refl. Qed.

Lemma sameShape_trans s1 s2 s3 :
  sameShape s1 s2 -> sameShape s2 s3 -> sameShape s1 s3.
Proof.
  intros (J1 & O1 & M1) (J2 & O2 & M2). split; [congruence|].
  split; [|congruence]. eapply Forall2_trans_on; eauto using sameIdentity_trans.
Qed.

#[global] Instance evolves_preorder : PreOrder evolves.
Proof. split; [exact evolves_refl|exact evolves_trans]. Qed.

#[global] Instance sameShape_preorder : PreOrder sameShape.
Proof. split; [exact sameShape_refl|exact sameShape_trans]. Qed.

Lemma evolves_sameShape s s' : evolves s s' -> sameShape s s'.
Proof.
  intros (J & O & M). split; [done|]. split; [|done].
  eapply Forall2_impl; [exact O|]. by intros o o' [H _].
Qed.

Lemma sameObjects_refl s : sameObjects s s.
Proof. by repeat split. Qed.

Lemma sameObjects_writeCerr line s : sameObjects s (writeCerr line s).
Proof. by repeat split. Qed.

(** ** Reading a store that has moved *)

Lemma evolves_lookup s s' oa o :
  evolves s s' -> operationObjs s !! oa = Some o ->
  exists o', operationObjs s' !! oa = Some o' /\ opEvolves o o'.
Proof. intros (_ & O & _) H. by eapply Forall2_lookup_l. Qed.

Lemma evolves_lookup_back s s' oa o' :
  evolves s s' -> operationObjs s' !! oa = Some o' ->
  exists o, operationObjs s !! oa = Some o /\ opEvolves o o'.
Proof. intros (_ & O & _) H. by eapply Forall2_lookup_r. Qed.

Lemma evolves_scheduled s s' oa o :
  evolves s s' -> operationObjs s !! oa = Some o ->
  Operation.isScheduled o = true -> operationObjs s' !! oa = Some o.
Proof.
  intros He Ho Hs. destruct (evolves_lookup _ _ _ _ He Ho) as (o' & Ho' & _ & K).
  by rewrite Ho', (K Hs).
Qed.

Lemma sameShape_lookup s s' oa o :
  sameShape s s' -> operationObjs s !! oa = Some o ->
  exists o', operationObjs s' !! oa = Some o' /\ sameIdentity o o'.
Proof. intros (_ & O & _) H. by eapply Forall2_lookup_l. Qed.

Lemma sameShape_lookup_back s s' oa o' :
  sameShape s s' -> operationObjs s' !! oa = Some o' ->
  exists o, operationObjs s !! oa = Some o /\ sameIdentity o o'.
Proof. intros (_ & O & _) H. by eapply Forall2_lookup_r. Qed.

Lemma sameShape_heldBy_back p s s' ja job oa o' :
  sameShape s s' -> heldBy p s' ja job oa o' ->
  exists o, heldBy p s ja job oa o /\ sameIdentity o o'.
Proof.
  intros Hs (Hja & Hjob & Hoa & Ho).
  destruct (sameShape_lookup_back _ _ _ _ Hs Ho) as (o & Ho0 & Hid).
  exists o. split; [|done]. destruct Hs as (J & _). rewrite J in Hjob. done.
Qed.

Lemma evolves_heldBy p s s' ja job oa o :
  evolves s s' -> heldBy p s ja job oa o ->
  exists o', heldBy p s' ja job oa o' /\ opEvolves o o'.
Proof.
  intros Hs (Hja & Hjob & Hoa & Ho).
  destruct (evolves_lookup _ _ _ _ Hs Ho) as (o' & Ho' & Hid).
  exists o'. split; [|done]. destruct Hs as (J & _). rewrite <- J in Hjob. done.
Qed.

Lemma evolves_heldBy_back p s s' ja job oa o' :
  evolves s s' -> heldBy p s' ja job oa o' ->
  exists o, heldBy p s ja job oa o /\ opEvolves o o'.
Proof.
  intros Hs (Hja & Hjob & Hoa & Ho).
  destruct (evolves_lookup_back _ _ _ _ Hs Ho) as (o & Ho0 & Hid).
  exists o. split; [|done]. destruct Hs as (J & _). rewrite J in Hjob. done.
Qed.

Lemma sameObjects_heldBy p s s' ja job oa o :
  sameObjects s s' -> heldBy p s' ja job oa o <-> heldBy p s ja job oa o.
Proof. intros (O & J & M). unfold heldBy. by rewrite O, J. Qed.

(** ** Hypotheses on the problem survive the pass *)

Lemma findMachine_is_Some p s s' machineId :
  length (machineObjs s') = length (machineObjs s) ->
  is_Some (Solver.findMachine p s machineId) ->
  is_Some (Solver.findMachine p s' machineId).
Proof.
  intros Hlen. unfold Solver.findMachine.
  destruct (ProblemInstance.getMachine p machineId) as [ma|]; [|done].
  destruct (machineObjs s !! ma) as [m|] eqn:E; [|by intros [? ?]].
  intros _. apply lookup_lt_Some in E.
  destruct (lookup_lt_is_Some_2 (machineObjs s') ma) as [m' Hm']; [lia|].
  rewrite Hm'. eauto.
Qed.

Lemma findMachine_Some p s machineId ma machine :
  Solver.findMachine p s machineId = Some (ma, machine) ->
  ma ∈ ProblemInstance.machines p /\ machineObjs s !! ma = Some machine.
Proof.
  unfold Solver.findMachine, ProblemInstance.getMachine.
  destruct (0 <=? machineId); [|done].
  destruct (ProblemInstance.machines p !! Z.to_nat machineId) as [ma'|] eqn:E; [|done].
  destruct (machineObjs s !! ma') as [m|] eqn:E'; [|done].
  intros [= <- <-]. split; [|done]. by eapply list_elem_of_lookup_2.
Qed.

Lemma positiveDurations_sameShape p s s' :
  sameShape s s' -> positiveDurations p s -> positiveDurations p s'.
Proof.
  intros Hs H ja job oa o' Hh.
  destruct (sameShape_heldBy_back _ _ _ _ _ _ _ Hs Hh) as (o & Hh0 & _ & _ & Hpt & _).
  rewrite Hpt. eauto.
Qed.

Lemma machinesExist_sameShape p s s' :
  sameShape s s' -> machinesExist p s -> machinesExist p s'.
Proof.
  intros Hs H ja job oa o' Hh.
  destruct (sameShape_heldBy_back _ _ _ _ _ _ _ Hs Hh) as (o & Hh0 & _ & Hm & _).
  rewrite Hm. eapply findMachine_is_Some; [apply Hs|]. eauto.
Qed.

Lemma jobIdsConsistent_sameShape p s s' :
  sameShape s s' -> jobIdsConsistent p s -> jobIdsConsistent p s'.
Proof.
  intros Hs H ja job oa o' Hh.
  destruct (sameShape_heldBy_back _ _ _ _ _ _ _ Hs Hh) as (o & Hh0 & Hj & _).
  rewrite Hj. eauto.
Qed.

Lemma jobsAtMost_sameShape n p s s' :
  sameShape s s' -> jobsAtMost n p s -> jobsAtMost n p s'.
Proof.
  intros (J & _) H ja job Hja Hjob. rewrite J in Hjob. eauto.
Qed.

(** ** A commit *)

Lemma commit_eq ma machine oa o jobReady s :
  Solver.commit ma machine oa o jobReady s
  = let startTime := Z.max (Machine.availableTime machine) jobReady in
    let endTime := wrap (startTime + Operation.processingTime o) in
    mkStore (<[oa := Operation.setScheduled startTime endTime o]> (operationObjs s))
            (jobObjs s)
            (<[ma := Machine.mk (Machine.machineId machine)
                       (Machine.scheduledOperations machine ++ [oa]) endTime]>
               (machineObjs s))
            (cerr s).
Proof. reflexivity. Qed.

Lemma step_evolves p ok s s' : step p ok s s' -> evolves s s'.
Proof.
  intros Hstep.
  inversion Hstep as [s0 ja job oa o ma machine jr (Hja & Hjob & Hoa & Ho) Hu Hm Hok E1 E2].
  subst s0 s'. clear Hstep.
  rewrite commit_eq. cbn zeta. split; [done|]. split; simpl.
  - apply Forall2_same_length_lookup_2; [by rewrite length_insert|].
    intros i x y Hx Hy. read_after_write Hy i oa.
    + simplify_eq. split; [by repeat split|]. congruence.
    + simplify_eq. apply opEvolves_refl.
  - by rewrite length_insert.
Qed.

Lemma steps_evolves p ok s s' : rtc (step p ok) s s' -> evolves s s'.
Proof.
  induction 1 as [|s1 s2 s3 H _ IH]; [apply evolves_refl|].
  eapply evolves_trans; [by eapply step_evolves|done].
Qed.

Lemma step_weaken p (ok ok' : Store -> Job.t -> Operation.t -> Z -> Prop) s s' :
  (forall s job o jr, ok s job o jr -> ok' s job o jr) ->
  step p ok s s' -> step p ok' s s'.
Proof. intros Himp [? ? ? ? ? ? ? ? ? ? ? ?]. econstructor; eauto. Qed.

End Stores.

#[global] Hint Resolve evolves_refl sameShape_refl sameObjects_refl
  sameObjects_writeCerr evolves_sameShape : jssp.

(** * The resets *)

Section Resets.

Implicit Types (s : Store) (p : ProblemInstance.t) (o : Operation.t).

Lemma foldl_alter_lookup {A} (g : A -> A) (l : list nat) (xs : list A) (i : nat) :
  (forall x, g (g x) = g x) ->
  foldl (fun xs a => alter g a xs) xs l !! i
  = if decide (i ∈ l) then g <$> xs !! i else xs !! i.
Proof.
  intros Hg. revert xs. induction l as [|a l IH]; intros xs.
  - rewrite decide_False; [done|]. apply not_elem_of_nil.
  - cbn [foldl]. rewrite IH, list_lookup_alter.
    destruct (decide (a = i)) as [->|Hne]; destruct (decide (i ∈ l)) as [Hin|Hin].
    + rewrite decide_True by (by left).
      destruct (xs !! i); simpl; by rewrite ?Hg.
    + rewrite decide_True by (by left). done.
    + rewrite decide_True by (by right). done.
    + rewrite decide_False; [done|].
      intros [?|?]%elem_of_cons; congruence.
Qed.

Lemma foldl_alter_length {A} (g : A -> A) (l : list nat) (xs : list A) :
  length (foldl (fun xs a => alter g a xs) xs l) = length xs.
Proof.
  revert xs. induction l as [|a l IH]; intros xs; simpl; [done|].
  by rewrite IH, length_alter.
Qed.

Lemma insert_as_alter {A} (g : A -> A) (xs : list A) (a : nat) (x : A) :
  xs !! a = Some x -> <[a := g x]> xs = alter g a xs.
Proof.
  intros H. apply list_eq. intros i.
  rewrite list_lookup_alter, list_lookup_insert.
  case_decide as Hd.
  - destruct Hd as [-> _]. rewrite decide_True by done. by rewrite H.
  - case_decide; [|done]. subst. exfalso. apply Hd. split; [done|].
    by eapply lookup_lt_Some.
Qed.

Lemma alter_None {A} (g : A -> A) (xs : list A) (a : nat) :
  xs !! a = None -> alter g a xs = xs.
Proof.
  intros H. apply list_eq. intros i. rewrite list_lookup_alter.
  case_decide; [|done]. subst. by rewrite H.
Qed.

Lemma resetMachines_eq p s :
  Solver.resetMachines p s
  = mkStore (operationObjs s) (jobObjs s)
      (foldl (fun ms ma => alter Machine.reset ma ms) (machineObjs s)
             (ProblemInstance.machines p))
      (cerr s).
Proof.
  unfold Solver.resetMachines.
  generalize (ProblemInstance.machines p) as l. intros l. revert s.
  induction l as [|ma l IH]; intros s; simpl; [by destruct s|].
  rewrite IH. destruct (machineObjs s !! ma) as [m|] eqn:E; simpl.
  - by rewrite (insert_as_alter Machine.reset _ _ _ E).
  - by rewrite alter_None.
Qed.

Lemma resetJob_eq l s :
  foldl (fun s oa =>
           match operationObjs s !! oa with
           | Some operation =>
               setOperation oa (Operation.setScheduled 0 0 operation) s
           | None => s
           end) s l
  = mkStore (foldl (fun os oa => alter resetTimes oa os) (operationObjs s) l)
            (jobObjs s) (machineObjs s) (cerr s).
Proof.
  revert s. induction l as [|oa l IH]; intros s; simpl; [by destruct s|].
  rewrite IH. destruct (operationObjs s !! oa) as [o|] eqn:E; simpl.
  - unfold setOperation. simpl.
    change (Operation.setScheduled 0 0 o) with (resetTimes o).
    by rewrite (insert_as_alter resetTimes _ _ _ E).
  - by rewrite alter_None.
Qed.

Lemma resetOperations_eq p s :
  Solver.resetOperations p s
  = mkStore (foldl (fun os oa => alter resetTimes oa os) (operationObjs s)
                   (operationsOf p s))
            (jobObjs s) (machineObjs s) (cerr s).
Proof.
  unfold Solver.resetOperations, operationsOf.
  generalize (ProblemInstance.jobs p) as l. intros l.
  assert (G : forall s0 s1, jobObjs s1 = jobObjs s0 ->
    foldl (fun s ja =>
       match jobObjs s !! ja with
       | Some job =>
           foldl (fun s oa =>
                    match operationObjs s !! oa with
                    | Some operation =>
                        setOperation oa (Operation.setScheduled 0 0 operation) s
                    | None => s
                    end) s (Job.operations job)
       | None => s
       end) s1 l
    = mkStore (foldl (fun os oa => alter resetTimes oa os) (operationObjs s1)
                 (flat_map (fun ja => match jobObjs s0 !! ja with
                                      | Some job => Job.operations job
                                      | None => []
                                      end) l))
              (jobObjs s1) (machineObjs s1) (cerr s1)).
  { intros s0. induction l as [|ja l IH]; intros s1 Hj; simpl; [by destruct s1|].
    rewrite Hj. destruct (jobObjs s0 !! ja) as [job|] eqn:E.
    - rewrite resetJob_eq. rewrite IH by (simpl; congruence).
      simpl. by rewrite foldl_app, Hj.
    - rewrite IH by done. by rewrite Hj. }
  by apply G.
Qed.

Lemma resets_eq p s :
  Solver.resetOperations p (Solver.resetMachines p s)
  = mkStore (foldl (fun os oa => alter resetTimes oa os) (operationObjs s)
                   (operationsOf p s))
            (jobObjs s)
            (foldl (fun ms ma => alter Machine.reset ma ms) (machineObjs s)
                   (ProblemInstance.machines p))
            (cerr s).
Proof. by rewrite resetOperations_eq, resetMachines_eq. Qed.

Lemma heldBy_operationsOf p s ja job oa o :
  heldBy p s ja job oa o -> oa ∈ operationsOf p s.
Proof.
  intros (Hja & Hjob & Hoa & _). unfold operationsOf.
  apply list_elem_of_In, in_flat_map. exists ja.
  split; [by apply list_elem_of_In|]. rewrite Hjob. by apply list_elem_of_In.
Qed.

Lemma resets_sameShape p s :
  sameShape s (Solver.resetOperations p (Solver.resetMachines p s)).
Proof.
  rewrite resets_eq. split; [done|]. split; simpl.
  - apply Forall2_same_length_lookup_2; [by rewrite foldl_alter_length|].
    intros i x y Hx Hy. rewrite foldl_alter_lookup in Hy by done.
    rewrite Hx in Hy. case_decide; simplify_eq/=; by repeat split.
  - by rewrite foldl_alter_length.
Qed.

(** After the resets no operation of the problem is scheduled. *)
Lemma resets_unscheduled p s ja job oa o :
  heldBy p (Solver.resetOperations p (Solver.resetMachines p s)) ja job oa o ->
  Operation.startTime o = 0 /\ Operation.endTime o = 0.
Proof.
  intros Hh.
  assert (Hin : oa ∈ operationsOf p s).
  { destruct (sameShape_heldBy_back _ _ _ _ _ _ _ (resets_sameShape p s) Hh)
      as (o0 & Hh0 & _). by eapply heldBy_operationsOf. }
  destruct Hh as (_ & _ & _ & Ho). rewrite resets_eq in Ho. simpl in Ho.
  rewrite foldl_alter_lookup in Ho by done. rewrite decide_True in Ho by done.
  destruct (operationObjs s !! oa); simplify_eq/=. done.
Qed.

(** After the resets every machine of the problem is empty and free. *)
Lemma resets_machines p s ma machine :
  ma ∈ ProblemInstance.machines p ->
  machineObjs (Solver.resetOperations p (Solver.resetMachines p s)) !! ma
  = Some machine ->
  Machine.scheduledOperations machine = [] /\ Machine.availableTime machine = 0.
Proof.
  intros Hma Hm. rewrite resets_eq in Hm. simpl in Hm.
  rewrite foldl_alter_lookup in Hm by done. rewrite decide_True in Hm by done.
  destruct (machineObjs s !! ma); simplify_eq/=. done.
Qed.

End Resets.

(** * A schedule pass is a sequence of commits *)

Section Traversal.

Variable std_sort : (addr -> addr -> bool) -> list addr -> list addr.

Implicit Types (s : Store) (p : ProblemInstance.t) (o : Operation.t).
Implicit Types (st : Store * bool).
Implicit Types (ok : Store -> Job.t -> Operation.t -> Z -> Prop).

Lemma moved_refl p ok st : moved p ok st st.
Proof. split; [done|by left]. Qed.

Lemma moved_trans p ok st1 st2 st3 :
  moved p ok st1 st2 -> moved p ok st2 st3 -> moved p ok st1 st3.
Proof.
  intros [R1 F1] [R2 F2]. split; [by etrans|].
  destruct F2 as [->|F2]; [done|by right].
Qed.

Lemma moved_evolves p ok st st' : moved p ok st st' -> evolves (fst st) (fst st').
Proof. intros [R _]. by eapply steps_evolves. Qed.

Lemma moved_commit p ok s b ja job oa o ma machine jobReady :
  heldBy p s ja job oa o -> Operation.isScheduled o = false ->
  Solver.findMachine p s (Operation.machineId o) = Some (ma, machine) ->
  ok s job o jobReady ->
  moved p ok (s, b) (Solver.commit ma machine oa o jobReady s, true).
Proof.
  intros. split; [|by right]. apply rtc_once. by econstructor.
Qed.

(** ** FIFO *)

Lemma fifoVisit_moved p ja job st oa :
  ja ∈ ProblemInstance.jobs p -> jobObjs (fst st) !! ja = Some job ->
  oa ∈ Job.operations job ->
  moved p afterPredecessors st (Solver.fifoVisit p job st oa).
Proof.
  intros Hja Hjob Hoa. unfold Solver.fifoVisit. destruct st as [s b]. simpl in *.
  destruct (operationObjs s !! oa) as [o|] eqn:Eo; [|apply moved_refl].
  destruct (Operation.isScheduled o) eqn:Es; simpl; [apply moved_refl|].
  destruct (Solver.findMachine p s (Operation.machineId o)) as [[ma machine]|] eqn:Em;
    [|apply moved_refl].
  destruct (Solver.allPrevOpsCompleted s job o) eqn:Ep; [|apply moved_refl].
  eapply (moved_commit p _ s b ja job); [by repeat split|done|done|by split].
Qed.

Lemma fifoOps_moved p ja job l :
  ja ∈ ProblemInstance.jobs p ->
  (forall oa, oa ∈ l -> oa ∈ Job.operations job) ->
  forall st, jobObjs (fst st) !! ja = Some job ->
    moved p afterPredecessors st (foldl (Solver.fifoVisit p job) st l).
Proof.
  intros Hja. induction l as [|oa l IH]; intros Hl st Hjob; simpl.
  - apply moved_refl.
  - assert (Hv : moved p afterPredecessors st (Solver.fifoVisit p job st oa)).
    { eapply fifoVisit_moved; eauto. apply Hl. by left. }
    eapply moved_trans; [exact Hv|]. apply IH.
    + intros x Hx. apply Hl. by right.
    + destruct (moved_evolves _ _ _ _ Hv) as (J & _). by rewrite J.
Qed.

Lemma fifoJob_moved p st ja :
  ja ∈ ProblemInstance.jobs p ->
  moved p afterPredecessors st (Solver.fifoJob p st ja).
Proof.
  intros Hja. unfold Solver.fifoJob.
  destruct (jobObjs (fst st) !! ja) as [job|] eqn:E; [|apply moved_refl].
  by eapply fifoOps_moved.
Qed.

Lemma fifoJobs_moved p l st :
  (forall ja, ja ∈ l -> ja ∈ ProblemInstance.jobs p) ->
  moved p afterPredecessors st (foldl (Solver.fifoJob p) st l).
Proof.
  revert st. induction l as [|ja l IH]; intros st Hl; simpl; [apply moved_refl|].
  eapply moved_trans.
  - apply fifoJob_moved. apply Hl. by left.
  - apply IH. intros x Hx. apply Hl. by right.
Qed.

Lemma fifoRound_moved p s :
  moved p afterPredecessors (s, false) (Solver.fifoRound p s).
Proof. by apply fifoJobs_moved. Qed.

(** ** The priority rules *)

Lemma priorityVisit_moved p ok st oa :
  (forall o, operationObjs (fst st) !! oa = Some o ->
             Operation.isScheduled o = false ->
             exists ja job, heldBy p (fst st) ja job oa o
               /\ ok (fst st) job o (Solver.priorityJobReadyTime p (fst st) o)) ->
  moved p ok st (Solver.priorityVisit p st oa).
Proof.
  intros H. unfold Solver.priorityVisit. destruct st as [s b]. simpl in *.
  destruct (operationObjs s !! oa) as [o|] eqn:Eo; [|apply moved_refl].
  destruct (Operation.isScheduled o) eqn:Es; simpl; [apply moved_refl|].
  destruct (Solver.findMachine p s (Operation.machineId o)) as [[ma machine]|] eqn:Em;
    [|apply moved_refl].
  destruct (H o eq_refl Es) as (ja & job & Hh & Hok).
  by eapply moved_commit.
Qed.

Lemma priorityFold_moved p ok s0 l :
  (forall oa, oa ∈ l -> forall s o, evolves s0 s ->
     operationObjs s !! oa = Some o -> Operation.isScheduled o = false ->
     exists ja job, heldBy p s ja job oa o
       /\ ok s job o (Solver.priorityJobReadyTime p s o)) ->
  forall st, evolves s0 (fst st) ->
    moved p ok st (foldl (Solver.priorityVisit p) st l).
Proof.
  induction l as [|oa l IH]; intros Hl st He; simpl; [apply moved_refl|].
  assert (Hv : moved p ok st (Solver.priorityVisit p st oa)).
  { apply priorityVisit_moved. intros o Ho Hu. eapply Hl; eauto. by left. }
  eapply moved_trans; [exact Hv|]. apply IH.
  - intros x Hx. apply Hl. by right.
  - eapply evolves_trans; [exact He|]. by eapply moved_evolves.
Qed.

Hypothesis std_sort_contract : StdSortContract std_sort.

Lemma sortedReady_elem p compare s oa :
  oa ∈ Solver.sortedReady std_sort p compare s <-> oa ∈ Solver.readyOperations p s.
Proof. by rewrite (sortedReady_perm std_sort std_sort_contract). Qed.

Lemma priorityRound_moved p ok compare s :
  (forall oa, oa ∈ Solver.readyOperations p s -> forall s' o, evolves s s' ->
     operationObjs s' !! oa = Some o -> Operation.isScheduled o = false ->
     exists ja job, heldBy p s' ja job oa o
       /\ ok s' job o (Solver.priorityJobReadyTime p s' o)) ->
  moved p ok (s, false) (Solver.priorityRound std_sort p compare s).
Proof.
  intros H. unfold Solver.priorityRound. apply (priorityFold_moved p ok s).
  - intros oa Hoa. apply H. by apply sortedReady_elem in Hoa.
  - apply evolves_refl.
Qed.

(** An operation collected as ready is held by the problem. *)
Lemma ready_held p s oa s' o :
  oa ∈ Solver.readyOperations p s -> evolves s s' ->
  operationObjs s' !! oa = Some o ->
  exists ja job, heldBy p s' ja job oa o /\ Solver.isReady s job oa = true.
Proof.
  intros (ja & job & Hja & Hjob & Hoa & Hr)%readyOperations_elem He Ho.
  exists ja, job. split; [|done]. repeat split; try done.
  destruct He as (J & _). by rewrite J.
Qed.

Lemma ready_anyReady p s oa :
  oa ∈ Solver.readyOperations p s -> forall s' o, evolves s s' ->
  operationObjs s' !! oa = Some o -> Operation.isScheduled o = false ->
  exists ja job, heldBy p s' ja job oa o
    /\ anyReady s' job o (Solver.priorityJobReadyTime p s' o).
Proof.
  intros Hr s' o He Ho _.
  destruct (ready_held _ _ _ _ _ Hr He Ho) as (ja & job & Hh & _).
  by exists ja, job.
Qed.

(** Predecessors that were scheduled when the ready set was collected are
    still scheduled when the operation is committed. *)
Lemma allPrevOpsCompleted_evolves s s' job o o' :
  evolves s s' -> Operation.operationId o' = Operation.operationId o ->
  Solver.allPrevOpsCompleted s job o = true ->
  Solver.allPrevOpsCompleted s' job o' = true.
Proof.
  intros He Hid. unfold Solver.allPrevOpsCompleted.
  rewrite !forallb_forall. intros H pa Hpa. specialize (H pa Hpa).
  destruct (operationObjs s' !! pa) as [q'|] eqn:Eq'; [|done].
  destruct (evolves_lookup_back _ _ _ _ He Eq') as (q & Eq & (_ & _ & _ & Hqid) & K).
  rewrite Eq in H. rewrite Hid, Hqid.
  destruct (Operation.operationId q <? Operation.operationId o); [|done].
  simpl in *. apply negb_true_iff, negb_false_iff in H.
  rewrite (K H). by rewrite H.
Qed.

Lemma ready_afterPredecessors p s oa :
  jobIdsConsistent p s ->
  oa ∈ Solver.readyOperations p s -> forall s' o, evolves s s' ->
  operationObjs s' !! oa = Some o -> Operation.isScheduled o = false ->
  exists ja job, heldBy p s' ja job oa o
    /\ afterPredecessors s' job o (Solver.priorityJobReadyTime p s' o).
Proof.
  intros Hc Hr s' o He Ho Hu.
  destruct (ready_held _ _ _ _ _ Hr He Ho) as (ja & job & Hh & Hready).
  exists ja, job. split; [done|]. split.
  - unfold Solver.isReady in Hready.
    destruct (evolves_lookup_back _ _ _ _ He Ho) as (o0 & Ho0 & (_ & _ & _ & Hid) & _).
    rewrite Ho0 in Hready. apply andb_true_iff in Hready as [_ Hall].
    by eapply allPrevOpsCompleted_evolves.
  - unfold Solver.priorityJobReadyTime.
    pose proof (jobIdsConsistent_sameShape _ _ _ (evolves_sameShape _ _ He) Hc) as Hc'.
    rewrite (Hc' _ _ _ _ Hh). destruct Hh as (_ & -> & _). done.
Qed.

(** ** The loop *)

Lemma whileLoop_steps p ok (Inv : Store -> Prop) round :
  (forall s s', Inv s -> evolves s s' -> Inv s') ->
  (forall s, Inv s -> moved p ok (s, false) (round s)) ->
  forall n b i s, Inv s ->
    rtc (step p ok) s (fst (Solver.whileLoop round n b i s)).
Proof.
  intros Hinv Hround. induction n as [|n IH]; intros b i s Hs; [done|].
  destruct b; [|by rewrite whileLoop_false].
  rewrite whileLoop_true.
  pose proof (Hround s Hs) as Hm.
  etrans; [exact (proj1 Hm)|]. apply IH.
  eapply Hinv; [exact Hs|]. by apply (moved_evolves _ _ _ _ Hm).
Qed.

(** ** The pass *)

Lemma scheduleFIFO_steps p s :
  exists s2,
    rtc (step p afterPredecessors)
        (Solver.resetOperations p (Solver.resetMachines p s)) s2
    /\ sameObjects s2 (Solver.scheduleFIFO p s).
Proof.
  unfold Solver.scheduleFIFO.
  pose proof (whileLoop_steps p afterPredecessors (fun _ => True) (Solver.fifoRound p)
                (fun _ _ _ _ => I) (fun s _ => fifoRound_moved p s)
                1000 true 0 (Solver.resetOperations p (Solver.resetMachines p s)) I)
    as H.
  destruct (Solver.whileLoop _ _ _ _ _) as [s2 it]. cbn [fst] in H.
  exists s2. split; [done|].
  destruct (1000 <=? it); auto with jssp.
Qed.

Lemma scheduleWithPriority_steps_any p compare s :
  rtc (step p anyReady) s (Solver.scheduleWithPriority std_sort p compare s).
Proof.
  unfold Solver.scheduleWithPriority.
  apply (whileLoop_steps p anyReady (fun _ => True)); [done| |done].
  intros s1 _. apply priorityRound_moved. apply ready_anyReady.
Qed.

Lemma scheduleWithPriority_steps_ordered p compare s :
  jobIdsConsistent p s ->
  rtc (step p afterPredecessors) s
      (Solver.scheduleWithPriority std_sort p compare s).
Proof.
  unfold Solver.scheduleWithPriority.
  apply (whileLoop_steps p afterPredecessors (jobIdsConsistent p)).
  - intros s1 s2 H He.
    eapply jobIdsConsistent_sameShape; [by apply evolves_sameShape|done].
  - intros s1 H. apply priorityRound_moved.
    intros oa. by apply ready_afterPredecessors.
Qed.

Lemma steps_weaken p ok ok' s s' :
  (forall s job o jr, ok s job o jr -> ok' s job o jr) ->
  rtc (step p ok) s s' -> rtc (step p ok') s s'.
Proof.
  intros H. induction 1 as [|s1 s2 s3 Hs _ IH]; [done|].
  eapply rtc_l; [|exact IH]. by eapply step_weaken.
Qed.

(** Whatever the rule, the pass is the resets followed by commits. *)
Lemma schedule_steps_any algorithm p s :
  exists s2,
    rtc (step p anyReady)
        (Solver.resetOperations p (Solver.resetMachines p s)) s2
    /\ sameObjects s2 (Solver.schedule std_sort algorithm p s).
Proof.
  destruct algorithm; unfold Solver.schedule, Solver.scheduleSPT, Solver.scheduleLPT.
  - destruct (scheduleFIFO_steps p s) as (s2 & H & Hs). exists s2.
    split; [|done]. eapply steps_weaken; [|exact H]. done.
  - eexists. split; [apply scheduleWithPriority_steps_any|auto with jssp].
  - eexists. split; [apply scheduleWithPriority_steps_any|auto with jssp].
Qed.

(** When the job ids are consistent, every commit comes after the
    predecessors of the operation. *)
Lemma schedule_steps_ordered algorithm p s :
  jobIdsConsistent p s ->
  exists s2,
    rtc (step p afterPredecessors)
        (Solver.resetOperations p (Solver.resetMachines p s)) s2
    /\ sameObjects s2 (Solver.schedule std_sort algorithm p s).
Proof.
  intros Hc.
  assert (Hc' : jobIdsConsistent p
                  (Solver.resetOperations p (Solver.resetMachines p s))).
  { eapply jobIdsConsistent_sameShape; [apply resets_sameShape|done]. }
  destruct algorithm; unfold Solver.schedule, Solver.scheduleSPT, Solver.scheduleLPT.
  - apply scheduleFIFO_steps.
  - eexists. split; [by apply scheduleWithPriority_steps_ordered|apply sameObjects_refl].
  - eexists. split; [by apply scheduleWithPriority_steps_ordered|apply sameObjects_refl].
Qed.

End Traversal.

(** * The range of the times of a pass

    The sums of a pass are taken in 32 bits. This section bounds every time
    a pass writes by the processing times of the problem added up: when
    these are positive and their sum is an int, no sum of the pass leaves
    the range of int. *)

Section Range.

Implicit Types (s : Store) (p : ProblemInstance.t) (o : Operation.t).
Implicit Types (ok : Store -> Job.t -> Operation.t -> Z -> Prop).

(** ** The job-ready time *)

Lemma jobReadyTime_fold_ge s (o : Operation.t) l acc :
  acc <= foldl (fun acc pa =>
                  match operationObjs s !! pa with
                  | Some prevOp =>
                      if Operation.operationId prevOp <? Operation.operationId o
                      then Z.max acc (Operation.endTime prevOp)
                      else acc
                  | None => acc
                  end) acc l.
Proof.
  revert acc. induction l as [|x l IH]; intros acc; simpl; [lia|].
  etrans; [|apply IH].
  destruct (operationObjs s !! x) as [q|]; [|lia].
  destruct (_ <? _); lia.
Qed.

Lemma jobReadyTime_nonneg s job o : 0 <= Solver.jobReadyTime s job o.
Proof. apply jobReadyTime_fold_ge. Qed.

Lemma priorityJobReadyTime_nonneg p s o : 0 <= Solver.priorityJobReadyTime p s o.
Proof.
  unfold Solver.priorityJobReadyTime.
  destruct (ProblemInstance.getJob _ _) as [ja|]; [|done].
  destruct (jobObjs s !! ja); [apply jobReadyTime_nonneg|done].
Qed.

(** The job-ready time is at most the largest end time of the job. *)
Lemma jobReadyTime_le s job o bound :
  0 <= bound ->
  (forall a q, a ∈ Job.operations job -> operationObjs s !! a = Some q ->
               Operation.endTime q <= bound) ->
  0 <= Solver.jobReadyTime s job o <= bound.
Proof.
  intros Hb H. split; [apply jobReadyTime_nonneg|].
  unfold Solver.jobReadyTime.
  cut (forall acc, acc <= bound ->
         foldl (fun acc pa =>
                  match operationObjs s !! pa with
                  | Some prevOp =>
                      if Operation.operationId prevOp <? Operation.operationId o
                      then Z.max acc (Operation.endTime prevOp)
                      else acc
                  | None => acc
                  end) acc (Job.operations job) <= bound).
  { intros G. by apply G. }
  revert H. induction (Job.operations job) as [|x l IH]; intros H acc Hacc; simpl;
    [done|].
  apply IH.
  - intros a q Ha. apply H. by right.
  - destruct (operationObjs s !! x) as [q|] eqn:Eq; [|done].
    destruct (_ <? _); [|done].
    assert (Operation.endTime q <= bound) by (eapply H; [by left|done]). lia.
Qed.

Lemma readyTimeOf_range p s ja job o jobReady bound :
  0 <= bound ->
  (forall ja job oa o, heldBy p s ja job oa o -> Operation.endTime o <= bound) ->
  ja ∈ ProblemInstance.jobs p -> jobObjs s !! ja = Some job ->
  readyTimeOf p s job o jobReady -> 0 <= jobReady <= bound.
Proof.
  intros Hb Hops Hja Hjob [->| ->].
  - apply jobReadyTime_le; [done|]. intros a q Ha Hq.
    eapply Hops. by repeat split.
  - unfold Solver.priorityJobReadyTime.
    destruct (ProblemInstance.getJob p _) as [ja'|] eqn:Eg; [|lia].
    destruct (jobObjs s !! ja') as [job'|] eqn:Ej; [|lia].
    apply jobReadyTime_le; [done|]. intros a q Ha Hq.
    eapply (Hops ja' job' a q). repeat split; try done.
    unfold ProblemInstance.getJob in Eg.
    destruct (0 <=? _); [|done]. by eapply list_elem_of_lookup_2.
Qed.

(** ** Sums over the operations of the problem *)

Lemma sumZ_update (f g : addr -> Z) (l : list addr) (a : addr) :
  NoDup l -> a ∈ l -> (forall x, x ∈ l -> x <> a -> g x = f x) ->
  sumZ (map g l) = sumZ (map f l) + (g a - f a).
Proof.
  induction l as [|x l IH]; intros Hnd Ha Hfg; [by inversion Ha|].
  apply NoDup_cons in Hnd as [Hx Hnd]. simpl.
  destruct (decide (x = a)) as [->|Hxa].
  - assert (E : map g l = map f l).
    { apply map_ext_in. intros y Hy%list_elem_of_In.
      apply Hfg; [by right|]. by intros ->. }
    rewrite E. lia.
  - apply elem_of_cons in Ha as [->|Ha]; [done|].
    rewrite IH; [|done|done|].
    + rewrite (Hfg x); [lia|by left|done].
    + intros y Hy Hya. apply Hfg; [by right|done].
Qed.

Lemma sumZ_le (f g : addr -> Z) (l : list addr) :
  (forall x, x ∈ l -> f x <= g x) -> sumZ (map f l) <= sumZ (map g l).
Proof.
  induction l as [|x l IH]; intros H; simpl; [lia|].
  assert (f x <= g x) by (apply H; by left).
  assert (sumZ (map f l) <= sumZ (map g l)) by (apply IH; intros y Hy; apply H; by right).
  lia.
Qed.

(** The sums differ at least by what one element contributes. *)
Lemma sumZ_gap (f g : addr -> Z) (l : list addr) (a : addr) :
  a ∈ l -> (forall x, x ∈ l -> f x <= g x) ->
  sumZ (map f l) + (g a - f a) <= sumZ (map g l).
Proof.
  induction l as [|x l IH]; intros Ha H; [by inversion Ha|]. simpl.
  assert (Hx : f x <= g x) by (apply H; by left).
  assert (Hl : forall y, y ∈ l -> f y <= g y) by (intros y Hy; apply H; by right).
  apply elem_of_cons in Ha as [->|Ha].
  - pose proof (sumZ_le f g l Hl). lia.
  - specialize (IH Ha Hl). lia.
Qed.

Lemma sumZ_nonneg (f : addr -> Z) (l : list addr) :
  (forall x, x ∈ l -> 0 <= f x) -> 0 <= sumZ (map f l).
Proof.
  induction l as [|x l IH]; intros H; simpl; [lia|].
  assert (0 <= f x) by (apply H; by left).
  assert (0 <= sumZ (map f l)) by (apply IH; intros y Hy; apply H; by right).
  lia.
Qed.

Lemma heldAddrs_elem p s oa :
  oa ∈ heldAddrs p s <->
  exists ja job, ja ∈ ProblemInstance.jobs p /\ jobObjs s !! ja = Some job
                 /\ oa ∈ Job.operations job.
Proof.
  unfold heldAddrs, operationsOf. rewrite elem_of_remove_dups.
  rewrite list_elem_of_In, in_flat_map. split.
  - intros (ja & Hja%list_elem_of_In & H).
    destruct (jobObjs s !! ja) as [job|] eqn:E; [|done].
    exists ja, job. repeat split; try done. by apply list_elem_of_In.
  - intros (ja & job & Hja & Hjob & Hoa). exists ja.
    rewrite Hjob. split; by apply list_elem_of_In.
Qed.

Lemma heldAddrs_jobs p s s' : jobObjs s' = jobObjs s -> heldAddrs p s' = heldAddrs p s.
Proof. intros H. unfold heldAddrs, operationsOf. by rewrite H. Qed.

Lemma committedAt_range p s a :
  positiveDurations p s -> a ∈ heldAddrs p s ->
  0 <= committedAt s a <= durationAt s a.
Proof.
  intros Hpos (ja & job & Hja & Hjob & Ha)%heldAddrs_elem.
  unfold committedAt, durationAt.
  destruct (operationObjs s !! a) as [o|] eqn:Eo; [|lia].
  assert (0 < Operation.processingTime o) by (eapply Hpos; by repeat split).
  destruct (Operation.isScheduled o); lia.
Qed.

Lemma committedDuration_range p s :
  positiveDurations p s -> 0 <= committedDuration p s <= totalDuration p s.
Proof.
  intros Hpos. unfold committedDuration, totalDuration. split.
  - apply sumZ_nonneg. intros a Ha. by apply (committedAt_range p).
  - apply sumZ_le. intros a Ha. by apply (committedAt_range p).
Qed.

(** An operation that is not scheduled is not yet counted. *)
Lemma committedDuration_unscheduled p s ja job oa o :
  positiveDurations p s -> heldBy p s ja job oa o ->
  Operation.isScheduled o = false ->
  committedDuration p s + Operation.processingTime o <= totalDuration p s.
Proof.
  intros Hpos (Hja & Hjob & Hoa & Ho) Hu.
  assert (E1 : durationAt s oa = Operation.processingTime o)
    by (unfold durationAt; by rewrite Ho).
  assert (E2 : committedAt s oa = 0) by (unfold committedAt; by rewrite Ho, Hu).
  pose proof (sumZ_gap (committedAt s) (durationAt s) (heldAddrs p s) oa) as H.
  rewrite E1, E2, Z.sub_0_r in H. apply H.
  - apply heldAddrs_elem. by exists ja, job.
  - intros a Ha. by apply (committedAt_range p).
Qed.

Lemma totalDuration_sameShape p s s' :
  sameShape s s' -> totalDuration p s' = totalDuration p s.
Proof.
  intros Hs. unfold totalDuration.
  rewrite (heldAddrs_jobs p s s') by apply Hs.
  f_equal. apply map_ext_in. intros a _. unfold durationAt.
  destruct (operationObjs s !! a) as [o|] eqn:Eo.
  - destruct (sameShape_lookup _ _ _ _ Hs Eo) as (o' & -> & _ & _ & Hpt & _). done.
  - destruct (operationObjs s' !! a) as [o'|] eqn:Eo'; [|done].
    destruct (sameShape_lookup_back _ _ _ _ Hs Eo') as (o & Ho & _). congruence.
Qed.

(** ** A commit whose sum is an int *)

Lemma commit_exact ma machine oa o jobReady s :
  INT_MIN <= Z.max (Machine.availableTime machine) jobReady
             + Operation.processingTime o <= INT_MAX ->
  Solver.commit ma machine oa o jobReady s
  = let startTime := Z.max (Machine.availableTime machine) jobReady in
    let endTime := startTime + Operation.processingTime o in
    mkStore (<[oa := Operation.setScheduled startTime endTime o]> (operationObjs s))
            (jobObjs s)
            (<[ma := Machine.mk (Machine.machineId machine)
                       (Machine.scheduledOperations machine ++ [oa]) endTime]>
               (machineObjs s))
            (cerr s).
Proof. intros H. rewrite commit_eq. cbn zeta. by rewrite (wrap_exact _ H). Qed.

(** What is known of a commit made within the bounds. *)
Lemma inBounds_commit p s ja job oa o ma machine jobReady :
  inBounds p s -> heldBy p s ja job oa o -> Operation.isScheduled o = false ->
  Solver.findMachine p s (Operation.machineId o) = Some (ma, machine) ->
  readyTimeOf p s job o jobReady ->
  0 < Operation.processingTime o
  /\ 0 <= Z.max (Machine.availableTime machine) jobReady <= committedDuration p s
  /\ committedDuration p s + Operation.processingTime o <= totalDuration p s
  /\ INT_MIN <= Z.max (Machine.availableTime machine) jobReady
                + Operation.processingTime o <= INT_MAX.
Proof.
  intros (Hpos & Htot & Hops & Hms) Hh Hu Hm Hjr.
  pose proof (Hpos _ _ _ _ Hh) as Hpt.
  pose proof (committedDuration_range p s Hpos) as [HC _].
  pose proof (committedDuration_unscheduled p s _ _ _ _ Hpos Hh Hu) as Hgap.
  destruct (findMachine_Some _ _ _ _ _ Hm) as [Hma Hmachine].
  pose proof (Hms ma machine Hma Hmachine) as Hav.
  assert (Hr : 0 <= jobReady <= committedDuration p s).
  { destruct Hh as (Hja & Hjob & _).
    eapply (readyTimeOf_range p s ja job o); [done| |done..].
    intros ja1 job1 a q Hq. by apply (Hops _ _ _ _ Hq). }
  repeat split; try lia. unfold INT_MIN. lia.
Qed.

(** A commit adds the duration of its operation to the committed time. *)
Lemma step_committedDuration p s ja job oa o ma machine jobReady :
  inBounds p s -> heldBy p s ja job oa o -> Operation.isScheduled o = false ->
  Solver.findMachine p s (Operation.machineId o) = Some (ma, machine) ->
  readyTimeOf p s job o jobReady ->
  committedDuration p (Solver.commit ma machine oa o jobReady s)
  = committedDuration p s + Operation.processingTime o.
Proof.
  intros Hin Hh Hu Hm Hjr.
  destruct (inBounds_commit _ _ _ _ _ _ _ _ _ Hin Hh Hu Hm Hjr)
    as (Hpt & Hst & Hgap & Hex).
  destruct Hh as (Hja & Hjob & Hoa & Ho).
  unfold committedDuration. rewrite (commit_exact _ _ _ _ _ _ Hex). cbn zeta.
  rewrite (heldAddrs_jobs p s) by done.
  rewrite (sumZ_update (committedAt s) _ (heldAddrs p s) oa).
  - unfold committedAt at 2 3. simpl.
    rewrite list_lookup_insert_eq by (by eapply lookup_lt_Some).
    rewrite Ho, Hu.
    replace (Operation.isScheduled _) with true; [simpl; lia|].
    symmetry. apply isScheduled_true. simpl. lia.
  - apply NoDup_remove_dups.
  - apply heldAddrs_elem. by exists ja, job.
  - intros x _ Hx. unfold committedAt. simpl.
    by rewrite list_lookup_insert_ne.
Qed.

(** Within the bounds a commit is exact, and it stays within the bounds. *)
Lemma step_inBounds p ok s s' :
  (forall s job o jr, ok s job o jr -> readyTimeOf p s job o jr) ->
  inBounds p s -> step p ok s s' ->
  inBounds p s' /\ step p (both ok (exactSum p)) s s'.
Proof.
  intros Hok Hin Hstep.
  pose proof (step_evolves _ _ _ _ Hstep) as Hev.
  inversion Hstep as [s0 ja job oa o ma machine jr Hh Hu Hm Hjr E1 E2].
  subst s0 s'. clear Hstep.
  pose proof (Hok _ _ _ _ Hjr) as Hjr'.
  destruct (inBounds_commit _ _ _ _ _ _ _ _ _ Hin Hh Hu Hm Hjr')
    as (Hpt & Hst & Hgap & Hex).
  split.
  - pose proof Hin as (Hpos & Htot & Hops & Hms).
    split; [|split].
    + eapply positiveDurations_sameShape; [by apply evolves_sameShape|done].
    + by rewrite (totalDuration_sameShape p s _ (evolves_sameShape _ _ Hev)).
    + rewrite (step_committedDuration p s ja job) by done.
      destruct Hh as (Hja & Hjob & Hoa & Ho).
      destruct (findMachine_Some _ _ _ _ _ Hm) as [Hma Hmachine].
      rewrite (commit_exact _ _ _ _ _ _ Hex). cbn zeta. split.
      * intros ja1 job1 a q (H1 & H2 & H3 & H4). simpl in H2, H4.
        read_after_write H4 a oa.
        -- injection H4 as <-. simpl. lia.
        -- assert (Hq : heldBy p s ja1 job1 a q) by (by repeat split).
           specialize (Hops _ _ _ _ Hq). lia.
      * intros ma1 machine1 H1 H2. simpl in H2.
        read_after_write H2 ma1 ma.
        -- injection H2 as <-. simpl. lia.
        -- specialize (Hms _ _ H1 H2). lia.
  - econstructor; [exact Hh|exact Hu|exact Hm|].
    split; [done|]. intros ma1 machine1 Hm1.
    rewrite Hm in Hm1. by injection Hm1 as <- <-.
Qed.

Lemma steps_inBounds p ok s s' :
  (forall s job o jr, ok s job o jr -> readyTimeOf p s job o jr) ->
  inBounds p s -> rtc (step p ok) s s' ->
  inBounds p s' /\ rtc (step p (both ok (exactSum p))) s s'.
Proof.
  intros Hok Hin H. induction H as [s|s1 s2 s3 Hs _ IH]; [by split|].
  destruct (step_inBounds _ _ _ _ Hok Hin Hs) as [Hin2 Hs2].
  destruct (IH Hin2) as [Hin3 H3]. split; [done|]. by eapply rtc_l.
Qed.

(** The store the resets leave is within the bounds. *)
Lemma resets_inBounds p s :
  positiveDurations p s -> totalDuration p s <= INT_MAX ->
  inBounds p (Solver.resetOperations p (Solver.resetMachines p s)).
Proof.
  intros Hpos Htot.
  set (s1 := Solver.resetOperations p (Solver.resetMachines p s)).
  assert (Hpos1 : positiveDurations p s1).
  { eapply positiveDurations_sameShape; [apply resets_sameShape|done]. }
  pose proof (committedDuration_range p s1 Hpos1) as [HC1 _].
  split; [done|]. split.
  - by rewrite (totalDuration_sameShape p s s1 (resets_sameShape p s)).
  - split.
    + intros ja job oa o Hh. destruct (resets_unscheduled _ _ _ _ _ _ Hh) as [-> ->]. lia.
    + intros ma machine Hma Hm.
      destruct (resets_machines _ _ _ _ Hma Hm) as [_ ->]. lia.
Qed.

Lemma inBounds_timesWithin p s :
  inBounds p s -> timesWithin (totalDuration p s) p s.
Proof.
  intros (Hpos & Htot & Hops & Hms).
  pose proof (committedDuration_range p s Hpos) as [_ HC]. split.
  - intros ja job oa o Hh. specialize (Hops _ _ _ _ Hh). lia.
  - intros ma machine Hma Hm. specialize (Hms _ _ Hma Hm). lia.
Qed.

Lemma exactSum_weaken p ok s s' :
  rtc (step p (both ok (exactSum p))) s s' -> rtc (step p ok) s s'.
Proof. apply steps_weaken. by intros s0 job o jr [H _]. Qed.

Variable std_sort : (addr -> addr -> bool) -> list addr -> list addr.
Hypothesis std_sort_contract : StdSortContract std_sort.

Lemma ready_readyTimeOf p s oa :
  oa ∈ Solver.readyOperations p s -> forall s' o, evolves s s' ->
  operationObjs s' !! oa = Some o -> Operation.isScheduled o = false ->
  exists ja job, heldBy p s' ja job oa o
    /\ readyTimeOf p s' job o (Solver.priorityJobReadyTime p s' o).
Proof.
  intros Hr s' o He Ho _.
  destruct (ready_held _ _ _ _ _ Hr He Ho) as (ja & job & Hh & _).
  exists ja, job. split; [done|]. by right.
Qed.

Lemma afterPredecessors_readyTimeOf p s job o jr :
  afterPredecessors s job o jr -> readyTimeOf p s job o jr.
Proof. intros [_ ->]. by left. Qed.

Lemma fifoRound_readyTimeOf p s :
  moved p (readyTimeOf p) (s, false) (Solver.fifoRound p s).
Proof.
  destruct (fifoRound_moved p s) as [H1 H2]. split; [|done].
  eapply steps_weaken; [|exact H1]. apply afterPredecessors_readyTimeOf.
Qed.

Lemma priorityRound_readyTimeOf p compare s :
  moved p (readyTimeOf p) (s, false) (Solver.priorityRound std_sort p compare s).
Proof.
  apply (priorityRound_moved std_sort std_sort_contract). apply ready_readyTimeOf.
Qed.

Lemma schedule_steps_readyTimeOf algorithm p s :
  exists s2,
    rtc (step p (readyTimeOf p))
        (Solver.resetOperations p (Solver.resetMachines p s)) s2
    /\ sameObjects s2 (Solver.schedule std_sort algorithm p s).
Proof.
  destruct algorithm; unfold Solver.schedule, Solver.scheduleSPT, Solver.scheduleLPT.
  - destruct (scheduleFIFO_steps p s) as (s2 & H & Hs). exists s2.
    split; [|done]. eapply steps_weaken; [|exact H].
    apply afterPredecessors_readyTimeOf.
  - eexists. split; [|apply sameObjects_refl].
    unfold Solver.scheduleWithPriority.
    apply (whileLoop_steps p (readyTimeOf p) (fun _ => True)); [done| |done].
    intros s0 _. apply priorityRound_readyTimeOf.
  - eexists. split; [|apply sameObjects_refl].
    unfold Solver.scheduleWithPriority.
    apply (whileLoop_steps p (readyTimeOf p) (fun _ => True)); [done| |done].
    intros s0 _. apply priorityRound_readyTimeOf.
Qed.

(** When the durations are positive and add up to an int, the pass is the
    resets followed by commits whose sums are ints, and it ends within the
    bounds. *)
Lemma schedule_steps_exact algorithm p s :
  positiveDurations p s -> totalDuration p s <= INT_MAX ->
  exists s2,
    rtc (step p (both (readyTimeOf p) (exactSum p)))
        (Solver.resetOperations p (Solver.resetMachines p s)) s2
    /\ inBounds p s2
    /\ sameObjects s2 (Solver.schedule std_sort algorithm p s).
Proof.
  intros Hpos Htot.
  destruct (schedule_steps_readyTimeOf algorithm p s) as (s2 & Hsteps & Hsame).
  destruct (steps_inBounds p (readyTimeOf p) _ _ ltac:(done)
              (resets_inBounds p s Hpos Htot) Hsteps) as [Hin Hex].
  by exists s2.
Qed.

(** After a pass over a problem whose durations are positive and add up to
    an int, every start time, end time and machine available time lies
    between 0 and the sum of the durations. *)
Lemma schedule_timesWithin algorithm p s :
  positiveDurations p s -> totalDuration p s <= INT_MAX ->
  timesWithin (totalDuration p s) p (Solver.schedule std_sort algorithm p s).
Proof.
  intros Hpos Htot.
  destruct (schedule_steps_exact algorithm p s Hpos Htot)
    as (s2 & Hsteps & Hin & Hsame).
  pose proof (inBounds_timesWithin p s2 Hin) as [Hops Hms].
  assert (Ht : totalDuration p s2 = totalDuration p s).
  { apply totalDuration_sameShape.
    eapply sameShape_trans; [apply resets_sameShape|].
    apply evolves_sameShape. by eapply steps_evolves. }
  rewrite Ht in Hops, Hms. split.
  - intros ja job oa o Hh. apply (sameObjects_heldBy _ _ _ _ _ _ _ Hsame) in Hh.
    exact (Hops _ _ _ _ Hh).
  - intros ma machine Hma Hm. destruct Hsame as (_ & _ & HM). rewrite HM in Hm.
    exact (Hms _ _ Hma Hm).
Qed.

End Range.

(** The simple problem: the durations add up to 18, and no time of the FIFO
    schedule exceeds it. *)
Example simple_totalDuration : totalDuration simpleProblem simpleStore = 18.
Proof. reflexivity. Qed.

(** * Machine exclusivity *)

Section Machines.

Implicit Types (s : Store) (p : ProblemInstance.t) (o : Operation.t).

Lemma chained_elem s e l a :
  chained s e l -> a ∈ l ->
  exists o, operationObjs s !! a = Some o /\ Operation.isScheduled o = true
            /\ e <= Operation.startTime o.
Proof.
  revert e. induction l as [|x l IH]; intros e Hc Ha; [by inversion Ha|].
  destruct Hc as (o & Ho & Hle & Hs & Hc).
  apply elem_of_cons in Ha as [->|Ha]; [eauto|].
  destruct (IH _ Hc Ha) as (q & Hq & Hqs & Hqe). exists q.
  apply isScheduled_true in Hs. repeat split; [done..|lia].
Qed.

Lemma chained_frame s s' e l :
  (forall a, a ∈ l -> operationObjs s' !! a = operationObjs s !! a) ->
  chained s e l -> chained s' e l.
Proof.
  revert e. induction l as [|x l IH]; intros e Hf Hc; [done|].
  destruct Hc as (o & Ho & Hle & Hs & Hc). exists o.
  rewrite Hf by (by left). repeat split; [done..|].
  apply IH; [|done]. intros a Ha. apply Hf. by right.
Qed.

Lemma endOfLast_frame s s' e l :
  (forall a, a ∈ l -> operationObjs s' !! a = operationObjs s !! a) ->
  endOfLast s' e l = endOfLast s e l.
Proof.
  intros Hf. unfold endOfLast. destruct (last l) as [a|] eqn:E; [|done].
  rewrite Hf; [done|]. by apply last_Some_elem_of.
Qed.

Lemma endOfLast_snoc s e l a :
  endOfLast s e (l ++ [a]) = default e (Operation.endTime <$> operationObjs s !! a).
Proof. unfold endOfLast. by rewrite last_snoc. Qed.

Lemma endOfLast_cons s e x l o :
  operationObjs s !! x = Some o -> chained s (Operation.endTime o) l ->
  endOfLast s e (x :: l) = endOfLast s (Operation.endTime o) l.
Proof.
  intros Ho Hc. unfold endOfLast. rewrite last_cons.
  destruct (last l) as [y|] eqn:E; [|by rewrite Ho].
  destruct (chained_elem _ _ _ y Hc) as (q & -> & _); [|done].
  by apply last_Some_elem_of.
Qed.

Lemma chained_snoc s e l a o :
  chained s e l -> operationObjs s !! a = Some o ->
  endOfLast s e l <= Operation.startTime o ->
  Operation.isScheduled o = true ->
  chained s e (l ++ [a]).
Proof.
  revert e. induction l as [|x l IH]; intros e Hc Ho Hle Hs.
  - simpl. exists o. unfold endOfLast in Hle. simpl in Hle. done.
  - destruct Hc as (q & Hq & Hqe & Hqs & Hc). simpl. exists q.
    repeat split; [done..|]. apply IH; [done..| |done].
    by rewrite <- (endOfLast_cons s e x l q).
Qed.

Lemma chained_pairwise s e l i j a b :
  chained s e l -> (i < j)%nat -> l !! i = Some a -> l !! j = Some b ->
  exists oa ob, operationObjs s !! a = Some oa /\ operationObjs s !! b = Some ob
                /\ Operation.startTime oa <= Operation.startTime ob
                /\ Operation.endTime oa <= Operation.startTime ob.
Proof.
  revert e i j. induction l as [|x l IH]; intros e i j Hc Hij Hi Hj.
  - by rewrite lookup_nil in Hi.
  - destruct Hc as (o & Ho & Hle & Hs & Hc).
    destruct j as [|j]; [lia|]. simpl in Hj.
    destruct i as [|i]; simpl in Hi.
    + injection Hi as <-.
      destruct (chained_elem _ _ _ b Hc) as (ob & Hob & _ & Hge);
        [by eapply list_elem_of_lookup_2|].
      exists o, ob. apply isScheduled_true in Hs. repeat split; [done..|lia|done].
    + eapply (IH _ i j); [done|lia|done..].
Qed.

(** A commit whose sum is an int keeps the machines of the problem
    exclusive. *)
Lemma step_machineInvariant p ok s s' :
  (forall s job o jr, ok s job o jr -> exactSum p s job o jr) ->
  positiveDurations p s -> machineInvariant p s -> step p ok s s' ->
  machineInvariant p s'.
Proof.
  intros Hex Hpos Hinv Hstep.
  inversion Hstep as [s0 ja job oa o ma machine jr Hh Hu Hm Hok E1 E2].
  subst s0 s'. clear Hstep. rename s into s0.
  pose proof (Hex _ _ _ _ Hok ma machine Hm) as Hsum.
  destruct (findMachine_Some _ _ _ _ _ Hm) as [Hma Hmach].
  pose proof (Hpos _ _ _ _ Hh) as Hpt.
  destruct Hh as (Hja & Hjob & Hoa & Ho).
  assert (Hother : forall m l, m ∈ ProblemInstance.machines p ->
            machineObjs s0 !! m = Some l ->
            forall a, a ∈ Machine.scheduledOperations l -> a <> oa).
  { intros m l Hm' Hl a Ha ->.
    destruct (Hinv m l Hm' Hl) as [Hc _].
    destruct (chained_elem _ _ _ _ Hc Ha) as (q & Hq & Hqs & _). congruence. }
  rewrite (commit_exact _ _ _ _ _ _ Hsum). cbn zeta.
  set (st := Z.max (Machine.availableTime machine) jr).
  intros ma' m' Hma' Hm'. simpl in Hm'.
  assert (Hframe : forall m l, m ∈ ProblemInstance.machines p ->
            machineObjs s0 !! m = Some l ->
            forall a, a ∈ Machine.scheduledOperations l ->
            <[oa := Operation.setScheduled st (st + Operation.processingTime o) o]>
              (operationObjs s0) !! a = operationObjs s0 !! a).
  { intros m l Hm0 Hl a Ha. apply list_lookup_insert_ne.
    intros ->. by eapply Hother. }
  destruct (decide (ma' = ma)) as [->|Hne].
  - rewrite list_lookup_insert_eq in Hm' by (by eapply lookup_lt_Some).
    injection Hm' as <-. simpl.
    destruct (Hinv ma machine Hma Hmach) as [Hc Hav].
    split.
    + eapply chained_snoc.
      * eapply chained_frame; [|exact Hc]. simpl. by eapply Hframe.
      * simpl. apply list_lookup_insert_eq. by eapply lookup_lt_Some.
      * simpl. rewrite (endOfLast_frame s0); [|simpl; by eapply Hframe].
        rewrite <- Hav. lia.
      * apply isScheduled_true. simpl. lia.
    + rewrite endOfLast_snoc. simpl.
      rewrite list_lookup_insert_eq by (by eapply lookup_lt_Some). done.
  - rewrite list_lookup_insert_ne in Hm' by done.
    destruct (Hinv ma' m' Hma' Hm') as [Hc Hav]. split.
    + eapply chained_frame; [|exact Hc]. simpl. by eapply Hframe.
    + rewrite Hav. symmetry. apply endOfLast_frame. simpl. by eapply Hframe.
Qed.

Lemma steps_machineInvariant p ok s s' :
  (forall s job o jr, ok s job o jr -> exactSum p s job o jr) ->
  positiveDurations p s -> machineInvariant p s -> rtc (step p ok) s s' ->
  machineInvariant p s'.
Proof.
  intros Hex Hpos Hinv H. induction H as [|s1 s2 s3 Hs _ IH]; [done|].
  apply IH.
  - eapply positiveDurations_sameShape; [|exact Hpos].
    by apply evolves_sameShape, (step_evolves p ok).
  - by eapply (step_machineInvariant p ok).
Qed.

Lemma both_exactSum p ok s job o jr :
  both ok (exactSum p) s job o jr -> exactSum p s job o jr.
Proof. by intros [_ H]. Qed.

Lemma resets_machineInvariant p s :
  machineInvariant p (Solver.resetOperations p (Solver.resetMachines p s)).
Proof.
  intros ma machine Hma Hm.
  destruct (resets_machines _ _ _ _ Hma Hm) as [-> ->]. done.
Qed.

Lemma machineInvariant_exclusive p s ma machine :
  machineInvariant p s -> ma ∈ ProblemInstance.machines p ->
  machineObjs s !! ma = Some machine -> exclusive s machine.
Proof.
  intros Hinv Hma Hm. destruct (Hinv _ _ Hma Hm) as [Hc Hav].
  split; [|done]. intros i j a b. by apply (chained_pairwise s 0).
Qed.

Variable std_sort : (addr -> addr -> bool) -> list addr -> list addr.
Hypothesis std_sort_contract : StdSortContract std_sort.

(** After a pass over a problem whose durations are positive and add up to
    an int, the machines of the problem are exclusive. *)
Lemma schedule_machineInvariant algorithm p s :
  positiveDurations p s -> totalDuration p s <= INT_MAX ->
  exists s2,
    machineInvariant p s2
    /\ sameObjects s2 (Solver.schedule std_sort algorithm p s).
Proof.
  intros Hpos Htot.
  destruct (schedule_steps_exact std_sort std_sort_contract algorithm p s Hpos Htot)
    as (s2 & Hsteps & _ & Hsame).
  exists s2. split; [|done].
  eapply (steps_machineInvariant p _ _ _ (both_exactSum p (readyTimeOf p)));
    [|apply resets_machineInvariant|exact Hsteps].
  eapply positiveDurations_sameShape; [apply resets_sameShape|done].
Qed.

(** C2 (amended). When every operation of the problem has a positive
    processingTime and the processing times of the problem add up to at
    most INT_MAX, then after the schedule pass, under each rule, the
    operations in the scheduledOperations list of every machine of the
    problem are in non-decreasing order of start, none starts before an
    earlier one of the list has ended, and the machine's availableTime is
    the end time of the last of them (0 for an empty list). *)
Theorem machines_exclusive (algorithm : SchedulingAlgorithm)
    (p : ProblemInstance.t) (s : Store) :
  positiveDurations p s -> totalDuration p s <= INT_MAX ->
  forall ma machine,
    ma ∈ ProblemInstance.machines p ->
    machineObjs (Solver.schedule std_sort algorithm p s) !! ma = Some machine ->
    exclusive (Solver.schedule std_sort algorithm p s) machine.
Proof.
  intros Hpos Htot ma machine Hma Hm.
  destruct (schedule_machineInvariant algorithm p s Hpos Htot)
    as (s2 & Hinv & (HO & HJ & HM)).
  rewrite HM in Hm.
  destruct (machineInvariant_exclusive _ _ _ _ Hinv Hma Hm) as [H1 H2].
  split.
  - intros i j a b Hij Hi Hj. rewrite HO. by eapply H1.
  - rewrite H2. unfold endOfLast. by rewrite HO.
Qed.

End Machines.

(** * Precedence within a job *)

Section Precedence.

Implicit Types (s : Store) (p : ProblemInstance.t) (o : Operation.t).

Lemma jobIdsConsistent_uniqueHolder p s :
  jobIdsConsistent p s -> uniqueHolder p s.
Proof.
  intros Hc ja job ja' job' oa o o' Hh Hh'.
  assert (o' = o) as -> by (destruct Hh as (_&_&_&?), Hh' as (_&_&_&?); congruence).
  pose proof (Hc _ _ _ _ Hh). pose proof (Hc _ _ _ _ Hh'). congruence.
Qed.

Lemma uniqueHolder_sameShape p s s' :
  sameShape s s' -> uniqueHolder p s -> uniqueHolder p s'.
Proof.
  intros Hs H ja job ja' job' oa o o' Hh Hh'.
  destruct (sameShape_heldBy_back _ _ _ _ _ _ _ Hs Hh) as (q & Hq & _).
  destruct (sameShape_heldBy_back _ _ _ _ _ _ _ Hs Hh') as (q' & Hq' & _).
  eauto.
Qed.

(** The job-ready time is at least the end of every predecessor. *)
Lemma jobReadyTime_ge s job o a q :
  a ∈ Job.operations job -> operationObjs s !! a = Some q ->
  Operation.operationId q < Operation.operationId o ->
  Operation.endTime q <= Solver.jobReadyTime s job o.
Proof.
  unfold Solver.jobReadyTime. generalize 0.
  induction (Job.operations job) as [|x l IH]; intros acc Ha Hq Hid;
    [by inversion Ha|].
  simpl. apply elem_of_cons in Ha as [->|Ha].
  - rewrite Hq. apply Z.ltb_lt in Hid. rewrite Hid.
    etrans; [|apply jobReadyTime_fold_ge]. lia.
  - by apply IH.
Qed.

Lemma allPrevOpsCompleted_scheduled s job o a q :
  Solver.allPrevOpsCompleted s job o = true ->
  a ∈ Job.operations job -> operationObjs s !! a = Some q ->
  Operation.operationId q < Operation.operationId o ->
  Operation.isScheduled q = true.
Proof.
  unfold Solver.allPrevOpsCompleted. rewrite forallb_forall.
  intros H Ha Hq Hid. specialize (H a (proj1 (list_elem_of_In _ _) Ha)).
  rewrite Hq in H. apply Z.ltb_lt in Hid. rewrite Hid in H. simpl in H.
  by apply negb_true_iff, negb_false_iff in H.
Qed.

(** A commit that comes after the predecessors keeps precedence, and keeps
    the scheduled operations closed under predecessors. *)
Lemma step_precedence p s s' :
  uniqueHolder p s -> predecessorsFirst p s -> precedenceHolds p s ->
  step p afterPredecessors s s' ->
  predecessorsFirst p s' /\ precedenceHolds p s'.
Proof.
  intros Huniq Hfirst Hprec Hstep.
  inversion Hstep as [s0 ja job oa o ma machine jr Hh Hu Hm [Hall Hjr] E1 E2].
  subst s0 s'. clear Hstep.
  pose proof Hh as (Hja & Hjob & Hoa & Ho).
  rewrite commit_eq. cbn zeta.
  set (st := Z.max (Machine.availableTime machine) jr).
  set (o' := Operation.setScheduled st (wrap (st + Operation.processingTime o)) o).
  set (s' := mkStore _ _ _ _).
  assert (Hback : forall ja1 job1 a q, heldBy p s' ja1 job1 a q ->
            (a = oa /\ q = o' /\ heldBy p s ja1 job1 oa o)
            \/ (a <> oa /\ heldBy p s ja1 job1 a q)).
  { intros ja1 job1 a q (H1 & H2 & H3 & H4). simpl in H2, H4.
    read_after_write H4 a oa.
    - left. injection H4 as <-. by repeat split.
    - right. by repeat split. }
  assert (Hpred : forall ja1 job1 a q,
            heldBy p s ja1 job1 oa o -> heldBy p s ja1 job1 a q ->
            Operation.operationId q < Operation.operationId o ->
            Operation.isScheduled q = true /\ Operation.endTime q <= st).
  { intros ja1 job1 a q Hh1 Ha Hid.
    assert (ja1 = ja) as -> by (eapply Huniq; eauto).
    destruct Ha as (_ & Hjob1 & Ha & Hq).
    assert (job1 = job) as -> by congruence.
    split; [by eapply allPrevOpsCompleted_scheduled|].
    etrans; [by eapply jobReadyTime_ge|]. subst jr st. lia. }
  split.
  - intros ja1 job1 a b qa qb Ha Hb Hid Hsb.
    destruct (Hback _ _ _ _ Ha) as [(-> & -> & Ha0)|(Hna & Ha0)];
      destruct (Hback _ _ _ _ Hb) as [(-> & -> & Hb0)|(Hnb & Hb0)].
    + simpl in Hid. lia.
    + simpl in Hid. pose proof (Hfirst _ _ _ _ _ _ Ha0 Hb0 Hid Hsb). congruence.
    + simpl in Hid. by destruct (Hpred _ _ _ _ Hb0 Ha0 Hid).
    + eauto.
  - intros ja1 job1 a b qa qb Ha Hb Hid Hsa Hsb.
    destruct (Hback _ _ _ _ Ha) as [(-> & -> & Ha0)|(Hna & Ha0)];
      destruct (Hback _ _ _ _ Hb) as [(-> & -> & Hb0)|(Hnb & Hb0)].
    + simpl in Hid. lia.
    + simpl in Hid. pose proof (Hfirst _ _ _ _ _ _ Ha0 Hb0 Hid Hsb). congruence.
    + simpl in Hid. by destruct (Hpred _ _ _ _ Hb0 Ha0 Hid).
    + eauto.
Qed.

Lemma steps_precedence p s s' :
  uniqueHolder p s -> predecessorsFirst p s -> precedenceHolds p s ->
  rtc (step p afterPredecessors) s s' ->
  predecessorsFirst p s' /\ precedenceHolds p s'.
Proof.
  intros Hu Hf Hp H. induction H as [|s1 s2 s3 Hs _ IH]; [done|].
  destruct (step_precedence _ _ _ Hu Hf Hp Hs) as [Hf' Hp'].
  apply IH; [|done..].
  eapply uniqueHolder_sameShape; [|exact Hu].
  by apply evolves_sameShape, (step_evolves p afterPredecessors).
Qed.

Lemma resets_nothing_scheduled p s ja job oa o :
  heldBy p (Solver.resetOperations p (Solver.resetMachines p s)) ja job oa o ->
  Operation.isScheduled o = false.
Proof.
  intros [H1 H2]%resets_unscheduled. apply isScheduled_false. lia.
Qed.

Variable std_sort : (addr -> addr -> bool) -> list addr -> list addr.
Hypothesis std_sort_contract : StdSortContract std_sort.

Lemma schedule_steps_wellFormed algorithm p s :
  jobsWellFormed algorithm p s ->
  exists s2,
    rtc (step p afterPredecessors)
        (Solver.resetOperations p (Solver.resetMachines p s)) s2
    /\ sameObjects s2 (Solver.schedule std_sort algorithm p s).
Proof.
  destruct algorithm; unfold jobsWellFormed; intros H.
  - apply scheduleFIFO_steps.
  - by apply (schedule_steps_ordered std_sort std_sort_contract SPT).
  - by apply (schedule_steps_ordered std_sort std_sort_contract LPT).
Qed.

Lemma jobsWellFormed_uniqueHolder algorithm p s :
  jobsWellFormed algorithm p s -> uniqueHolder p s.
Proof. destruct algorithm; simpl; auto using jobIdsConsistent_uniqueHolder. Qed.

(** C1 (amended). Take a problem in which no operation is held by two
    different jobs and, for SPT and LPT, each operation's jobId is the index
    of its job in the problem's job vector. After the schedule pass, in every
    job, two scheduled operations a and b with operationId(a) < operationId(b)
    satisfy endTime(a) <= startTime(b). *)
Theorem precedence_respected (algorithm : SchedulingAlgorithm)
    (p : ProblemInstance.t) (s : Store) :
  jobsWellFormed algorithm p s ->
  precedenceHolds p (Solver.schedule std_sort algorithm p s).
Proof.
  intros Hwf.
  destruct (schedule_steps_wellFormed algorithm p s Hwf) as (s2 & Hsteps & Hsame).
  set (s1 := Solver.resetOperations p (Solver.resetMachines p s)) in *.
  assert (Hu : uniqueHolder p s1).
  { eapply uniqueHolder_sameShape; [apply resets_sameShape|].
    by eapply jobsWellFormed_uniqueHolder. }
  assert (Hf : predecessorsFirst p s1).
  { intros ja job a b qa qb Ha Hb _ Hsb.
    pose proof (resets_nothing_scheduled _ _ _ _ _ _ Hb). congruence. }
  assert (Hp : precedenceHolds p s1).
  { intros ja job a b qa qb Ha Hb _ Hsa _.
    pose proof (resets_nothing_scheduled _ _ _ _ _ _ Ha). congruence. }
  destruct (steps_precedence _ _ _ Hu Hf Hp Hsteps) as [_ Hp2].
  intros ja job a b qa qb Ha Hb.
  apply (sameObjects_heldBy _ _ _ _ _ _ _ Hsame) in Ha, Hb. eauto.
Qed.

End Precedence.

(** C1, as stated, fails under SPT when an operation's jobId does not name
    the job that holds it (the job-ready time is then taken over another
    job, here over none), and under FIFO when two jobs hold the same
    operation. *)
Lemma precedence_counterexample :
  ~ precedenceClaim insertionSort SPT /\ ~ precedenceClaim insertionSort FIFO.
Proof.
  split; intros H.
  - specialize (H strayProblem strayStore 0%nat
                  (Job.mk 0 [0%nat; 1%nat]) 0%nat 1%nat
                  (Operation.mk 1 0 3 0 0 3) (Operation.mk 1 1 2 1 0 2)).
    assert (3 <= 0); [|lia].
    apply H; try reflexivity; try lia; vm_compute; repeat split;
      repeat constructor.
  - specialize (H sharedProblem sharedStore 1%nat
                  (Job.mk 1 [1%nat; 2%nat]) 1%nat 2%nat
                  (Operation.mk 1 1 5 0 0 5) (Operation.mk 0 0 1 1 1 2)).
    assert (5 <= 1); [|lia].
    apply H; try reflexivity; try lia; vm_compute; repeat split;
      repeat constructor.
Qed.

(** * Progress: every round schedules the next operation of every job *)

Section Progress.

Implicit Types (s : Store) (p : ProblemInstance.t) (o : Operation.t).
Implicit Types (st : Store * bool).

(** ** Counting predecessors *)

Lemma filter_length_lt {A} (f g : A -> bool) (l : list A) (a : A) :
  (forall x, f x = true -> g x = true) ->
  a ∈ l -> f a = false -> g a = true ->
  (length (List.filter f l) < length (List.filter g l))%nat.
Proof.
  intros Himp. 
  assert (Hle : forall l, (length (List.filter f l) <= length (List.filter g l))%nat).
  { induction l0 as [|x l0 IH]; simpl; [lia|].
    destruct (f x) eqn:Ef.
    - rewrite (Himp x Ef). simpl. lia.
    - destruct (g x); simpl; lia. }
  induction l as [|x l IH]; intros Ha Hf Hg; [by inversion Ha|].
  simpl. apply elem_of_cons in Ha as [<-|Ha].
  - rewrite Hf, Hg. simpl. specialize (Hle l). lia.
  - specialize (IH Ha Hf Hg). destruct (f x) eqn:Ef.
    + rewrite (Himp x Ef). simpl. lia.
    + destruct (g x); simpl; lia.
Qed.

Lemma filter_length_lt_all {A} (f : A -> bool) (l : list A) (a : A) :
  a ∈ l -> f a = false -> (length (List.filter f l) < length l)%nat.
Proof.
  induction l as [|x l IH]; intros Ha Hf; [by inversion Ha|].
  simpl. apply elem_of_cons in Ha as [<-|Ha].
  - rewrite Hf. pose proof (List.filter_length_le f l). lia.
  - specialize (IH Ha Hf). destruct (f x); simpl; lia.
Qed.

Lemma depth_lt s job o a q :
  a ∈ Job.operations job -> operationObjs s !! a = Some q ->
  Operation.operationId q < Operation.operationId o ->
  (depth s job q < depth s job o)%nat.
Proof.
  intros Ha Hq Hid. unfold depth. apply (filter_length_lt _ _ _ a); [|done|..].
  - intros x. destruct (operationObjs s !! x) as [y|]; [|done].
    rewrite !Z.ltb_lt. lia.
  - rewrite Hq. apply Z.ltb_irrefl.
  - rewrite Hq. by apply Z.ltb_lt.
Qed.

Lemma depth_lt_length s job oa o :
  oa ∈ Job.operations job -> operationObjs s !! oa = Some o ->
  (depth s job o < length (Job.operations job))%nat.
Proof.
  intros Ha Ho. unfold depth.
  apply (filter_length_lt_all _ _ oa); [done|].
  rewrite Ho. apply Z.ltb_irrefl.
Qed.

Lemma depth_sameShape s s' job o o' :
  sameShape s s' -> Operation.operationId o' = Operation.operationId o ->
  depth s' job o' = depth s job o.
Proof.
  intros (_ & Hops & _) Hid. unfold depth. f_equal. apply filter_ext.
  intros a. rewrite Hid.
  destruct (operationObjs s !! a) as [q|] eqn:E.
  - destruct (Forall2_lookup_l _ _ _ _ _ Hops E) as (q' & -> & (_ & _ & _ & ->)).
    done.
  - destruct (operationObjs s' !! a) as [q'|] eqn:E'; [|done].
    destruct (Forall2_lookup_r _ _ _ _ _ Hops E') as (q & Hq & _). congruence.
Qed.

(** ** What persists while the store moves *)

Lemma scheduledAt_evolves s s' oa :
  evolves s s' -> scheduledAt s oa -> scheduledAt s' oa.
Proof.
  intros He (o & Ho & Hs). exists o. split; [|done]. by eapply evolves_scheduled.
Qed.

Lemma predsScheduled_evolves s s' job o o' :
  evolves s s' -> Operation.operationId o' = Operation.operationId o ->
  predsScheduled s job o -> predsScheduled s' job o'.
Proof.
  intros He Hid H a q' Ha Hq' Hlt.
  destruct (evolves_lookup_back _ _ _ _ He Hq') as (q & Hq & (_ & _ & _ & Hqid) & K).
  assert (Hs : Operation.isScheduled q = true).
  { eapply H; eauto. lia. }
  by rewrite (K Hs).
Qed.

Lemma allPrevOpsCompleted_intro s job o :
  predsScheduled s job o -> Solver.allPrevOpsCompleted s job o = true.
Proof.
  intros H. unfold Solver.allPrevOpsCompleted. apply forallb_forall.
  intros a Ha%list_elem_of_In.
  destruct (operationObjs s !! a) as [q|] eqn:E; [|done].
  destruct (Operation.operationId q <? Operation.operationId o) eqn:El; [|done].
  apply Z.ltb_lt in El. by rewrite (H a q Ha E El).
Qed.

(** What a pass can do keeps what it needs. *)
Lemma schedulable_steps p s s' :
  schedulable p s -> rtc (step p (readyTimeOf p)) s s' -> schedulable p s'.
Proof.
  intros [H1 H2] Hsteps. split.
  - eapply machinesExist_sameShape; [|exact H1].
    by apply evolves_sameShape, (steps_evolves p (readyTimeOf p)).
  - by destruct (steps_inBounds p (readyTimeOf p) s s' ltac:(done) H2 Hsteps).
Qed.

Lemma schedulable_positive p s : schedulable p s -> positiveDurations p s.
Proof. by intros (_ & H & _). Qed.

Lemma scheduledUpTo_preds r p s ja job oa o :
  scheduledUpTo r p s -> heldBy p s ja job oa o -> (depth s job o < S r)%nat ->
  predsScheduled s job o.
Proof.
  intros H (Hja & Hjob & Hoa & Ho) Hd a q Ha Hq Hlt.
  eapply H; [by repeat split|].
  pose proof (depth_lt s job o a q Ha Hq Hlt). lia.
Qed.

(** ** A visit schedules the operation it is given *)

Lemma commit_schedules p s ja job oa o ma machine jr :
  heldBy p s ja job oa o -> inBounds p s -> Operation.isScheduled o = false ->
  Solver.findMachine p s (Operation.machineId o) = Some (ma, machine) ->
  readyTimeOf p s job o jr ->
  scheduledAt (Solver.commit ma machine oa o jr s) oa.
Proof.
  intros Hh Hin Hu Hm Hjr.
  destruct (inBounds_commit _ _ _ _ _ _ _ _ _ Hin Hh Hu Hm Hjr)
    as (Hpt & Hst & Hgap & Hex).
  destruct Hh as (_ & _ & _ & Ho).
  rewrite (commit_exact _ _ _ _ _ _ Hex). cbn zeta. eexists. split.
  - simpl. apply list_lookup_insert_eq. by eapply lookup_lt_Some.
  - apply isScheduled_true. simpl. lia.
Qed.

Lemma fifoVisit_schedules p ja job st oa o :
  heldBy p (fst st) ja job oa o -> schedulable p (fst st) ->
  predsScheduled (fst st) job o ->
  scheduledAt (fst (Solver.fifoVisit p job st oa)) oa.
Proof.
  intros Hh [Hmach Hin] Hpreds. unfold Solver.fifoVisit.
  destruct st as [s b]. simpl in *.
  pose proof Hh as (_ & _ & _ & Ho). rewrite Ho.
  destruct (Operation.isScheduled o) eqn:Es; simpl; [by exists o|].
  destruct (Hmach _ _ _ _ Hh) as [[ma machine] Hm]. rewrite Hm.
  rewrite allPrevOpsCompleted_intro by done. simpl.
  eapply commit_schedules; [exact Hh|done..|by left].
Qed.

Lemma priorityVisit_schedules p ja job st oa o :
  heldBy p (fst st) ja job oa o -> schedulable p (fst st) ->
  scheduledAt (fst (Solver.priorityVisit p st oa)) oa.
Proof.
  intros Hh [Hmach Hin]. unfold Solver.priorityVisit.
  destruct st as [s b]. simpl in *.
  pose proof Hh as (_ & _ & _ & Ho). rewrite Ho.
  destruct (Operation.isScheduled o) eqn:Es; simpl; [by exists o|].
  destruct (Hmach _ _ _ _ Hh) as [[ma machine] Hm]. rewrite Hm. simpl.
  eapply commit_schedules; [exact Hh|done..|by right].
Qed.

(** A traversal that visits [x] leaves what the visit of [x] establishes,
    if the rest of the traversal preserves it; [R] is how the traversal
    moves the store. *)
Lemma foldl_reaches {A} (R : Store -> Store -> Prop)
    (f : Store * bool -> A -> Store * bool) (x : A)
    (Good : Store -> Prop) (s0 : Store) (l : list A) :
  (forall s, R s s) ->
  (forall s1 s2 s3, R s1 s2 -> R s2 s3 -> R s1 s3) ->
  (forall st y, y ∈ l -> R s0 (fst st) -> R (fst st) (fst (f st y))) ->
  (forall st, R s0 (fst st) -> Good (fst (f st x))) ->
  (forall s s', R s s' -> Good s -> Good s') ->
  x ∈ l -> forall st, R s0 (fst st) -> Good (fst (foldl f st l)).
Proof.
  intros Hrefl Htrans Hev Hx Hkeep.
  assert (Hrest : forall l', (forall y, y ∈ l' -> y ∈ l) -> forall st,
            R s0 (fst st) -> R (fst st) (fst (foldl f st l'))).
  { induction l' as [|y l' IH]; intros Hsub st He; simpl; [apply Hrefl|].
    assert (Hy : R (fst st) (fst (f st y))) by (apply Hev; [apply Hsub; by left|done]).
    eapply Htrans; [exact Hy|]. apply IH.
    - intros z Hz. apply Hsub. by right.
    - by eapply Htrans. }
  assert (G : forall l', (forall y, y ∈ l' -> y ∈ l) -> x ∈ l' -> forall st,
            R s0 (fst st) -> Good (fst (foldl f st l'))).
  { induction l' as [|y l' IH]; intros Hsub Hin st He; [by inversion Hin|].
    simpl.
    assert (Hy : R (fst st) (fst (f st y))) by (apply Hev; [apply Hsub; by left|done]).
    assert (Hsub' : forall z, z ∈ l' -> z ∈ l) by (intros z Hz; apply Hsub; by right).
    assert (He' : R s0 (fst (f st y))) by (by eapply Htrans).
    apply elem_of_cons in Hin as [<-|Hin].
    - eapply Hkeep; [apply (Hrest l' Hsub' _ He')|]. by apply Hx.
    - by apply IH. }
  intros Hin. by apply G.
Qed.

(** How a pass moves the store: by commits at one of the two job-ready
    times. *)
Lemma passes_refl p s : rtc (step p (readyTimeOf p)) s s.
Proof. done. Qed.

Lemma passes_trans p s1 s2 s3 :
  rtc (step p (readyTimeOf p)) s1 s2 -> rtc (step p (readyTimeOf p)) s2 s3 ->
  rtc (step p (readyTimeOf p)) s1 s3.
Proof. intros. by etrans. Qed.

Lemma scheduledAt_steps p s s' oa :
  rtc (step p (readyTimeOf p)) s s' -> scheduledAt s oa -> scheduledAt s' oa.
Proof. intros H. apply scheduledAt_evolves. by eapply steps_evolves. Qed.

End Progress.

(** * Every operation is scheduled within the round limit *)

Section Completion.

Variable std_sort : (addr -> addr -> bool) -> list addr -> list addr.
Hypothesis std_sort_contract : StdSortContract std_sort.

Implicit Types (s : Store) (p : ProblemInstance.t) (o : Operation.t).
Implicit Types (st : Store * bool).

(** ** One round of FIFO *)

Lemma fifoOps_reaches p ja job oa o st :
  heldBy p (fst st) ja job oa o -> schedulable p (fst st) ->
  predsScheduled (fst st) job o ->
  scheduledAt (fst (foldl (Solver.fifoVisit p job) st (Job.operations job))) oa.
Proof.
  intros Hh Hsch Hpreds. pose proof Hh as (Hja & Hjob & Hoa & Ho).
  apply (foldl_reaches (fun s s' => rtc (step p (readyTimeOf p)) s s')
           _ oa (fun s => scheduledAt s oa) (fst st));
    [apply passes_refl|apply passes_trans| |
     |intros ? ?; apply scheduledAt_steps|done|apply passes_refl].
  - intros st' y Hy He.
    eapply steps_weaken; [apply afterPredecessors_readyTimeOf|].
    apply (fifoVisit_moved p ja job st' y); [done| |done].
    destruct (steps_evolves _ _ _ _ He) as (-> & _). done.
  - intros st' He. pose proof (steps_evolves _ _ _ _ He) as Hev.
    destruct (evolves_heldBy _ _ _ _ _ _ _ Hev Hh) as (o' & Hh' & (_ & _ & _ & Hid) & _).
    eapply fifoVisit_schedules; [exact Hh'| |].
    + by eapply schedulable_steps.
    + by eapply predsScheduled_evolves.
Qed.

Lemma fifoJobs_reaches p s ja job oa o :
  heldBy p s ja job oa o -> schedulable p s -> predsScheduled s job o ->
  scheduledAt (fst (Solver.fifoRound p s)) oa.
Proof.
  intros Hh Hsch Hpreds. pose proof Hh as (Hja & Hjob & Hoa & Ho).
  unfold Solver.fifoRound.
  apply (foldl_reaches (fun s s' => rtc (step p (readyTimeOf p)) s s')
           _ ja (fun s => scheduledAt s oa) s);
    [apply passes_refl|apply passes_trans| |
     |intros ? ?; apply scheduledAt_steps|done|apply passes_refl].
  - intros st y Hy He.
    eapply steps_weaken; [apply afterPredecessors_readyTimeOf|].
    by apply fifoJob_moved.
  - intros st He. unfold Solver.fifoJob.
    pose proof (steps_evolves _ _ _ _ He) as Hev.
    destruct (evolves_heldBy _ _ _ _ _ _ _ Hev Hh) as (o' & Hh' & (_ & _ & _ & Hid) & _).
    pose proof Hh' as (_ & -> & _).
    eapply fifoOps_reaches; [exact Hh'| |].
    + by eapply schedulable_steps.
    + by eapply predsScheduled_evolves.
Qed.

Lemma round_progress p (round : Store -> Store * bool) s r :
  evolves s (fst (round s)) ->
  (forall ja job oa o, heldBy p s ja job oa o ->
     Operation.isScheduled o = false -> predsScheduled s job o ->
     scheduledAt (fst (round s)) oa) ->
  scheduledUpTo r p s -> scheduledUpTo (S r) p (fst (round s)).
Proof.
  intros He Hreach Hup ja job oa o' Hh' Hd.
  destruct (evolves_heldBy_back _ _ _ _ _ _ _ He Hh') as (o & Hh & (Hid & K)).
  destruct (Operation.isScheduled o) eqn:Es; [by rewrite (K eq_refl)|].
  assert (Hpreds : predsScheduled s job o).
  { eapply scheduledUpTo_preds; [exact Hup|exact Hh|].
    rewrite <- (depth_sameShape s (fst (round s)) job o o');
      [done|by apply evolves_sameShape|apply Hid]. }
  destruct (Hreach _ _ _ _ Hh Es Hpreds) as (o'' & Ho'' & Hs'').
  destruct Hh' as (_ & _ & _ & Ho'). congruence.
Qed.

Lemma fifoRound_progress p s r :
  schedulable p s -> scheduledUpTo r p s ->
  scheduledUpTo (S r) p (fst (Solver.fifoRound p s)).
Proof.
  intros Hsch. apply round_progress.
  - apply (moved_evolves p afterPredecessors (s, false)), fifoRound_moved.
  - intros ja job oa o Hh _ Hpreds. by eapply fifoJobs_reaches.
Qed.

(** ** One round of a priority rule *)

Lemma priorityRound_evolves p compare s :
  evolves s (fst (Solver.priorityRound std_sort p compare s)).
Proof.
  apply (moved_evolves p anyReady (s, false)).
  apply (priorityRound_moved std_sort std_sort_contract). apply ready_anyReady.
Qed.

Lemma priorityRound_reaches p compare s ja job oa o :
  heldBy p s ja job oa o -> schedulable p s ->
  Operation.isScheduled o = false -> predsScheduled s job o ->
  scheduledAt (fst (Solver.priorityRound std_sort p compare s)) oa.
Proof.
  intros Hh Hsch Hu Hpreds. pose proof Hh as (Hja & Hjob & Hoa & Ho).
  assert (Hready : oa ∈ Solver.readyOperations p s).
  { eapply readyOperations_intro; [done..|].
    unfold Solver.isReady. rewrite Ho, Hu. simpl.
    by apply allPrevOpsCompleted_intro. }
  unfold Solver.priorityRound.
  apply (foldl_reaches (fun s s' => rtc (step p (readyTimeOf p)) s s')
           _ oa (fun s => scheduledAt s oa) s);
    [apply passes_refl|apply passes_trans| |
     |intros ? ?; apply scheduledAt_steps| |apply passes_refl].
  - intros st y Hy He.
    apply (priorityVisit_moved p (readyTimeOf p) st y). intros q Hq Hqu.
    eapply (ready_readyTimeOf p s y); eauto.
    + by apply (sortedReady_elem std_sort std_sort_contract) in Hy.
    + by eapply steps_evolves.
  - intros st He. pose proof (steps_evolves _ _ _ _ He) as Hev.
    destruct (evolves_heldBy _ _ _ _ _ _ _ Hev Hh) as (o' & Hh' & _).
    eapply priorityVisit_schedules; [exact Hh'|].
    by eapply schedulable_steps.
  - by apply (sortedReady_elem std_sort std_sort_contract).
Qed.

Lemma priorityRound_progress p compare s r :
  schedulable p s -> scheduledUpTo r p s ->
  scheduledUpTo (S r) p (fst (Solver.priorityRound std_sort p compare s)).
Proof.
  intros Hsch. apply round_progress.
  - apply priorityRound_evolves.
  - intros ja job oa o Hh Hu Hpreds. by eapply priorityRound_reaches.
Qed.

(** ** The loop *)

(** A round that leaves the flag down has left the store as it was. *)
Lemma moved_flag_down p ok s s' :
  moved p ok (s, false) (s', false) -> s' = s.
Proof. intros [_ [[= ->]|[=]]]. done. Qed.

Lemma whileLoop_progress p (round : Store -> Store * bool) :
  (forall s, moved p (readyTimeOf p) (s, false) (round s)) ->
  (forall s r, schedulable p s -> scheduledUpTo r p s ->
               scheduledUpTo (S r) p (fst (round s))) ->
  forall n b i s r,
    schedulable p s -> scheduledUpTo r p s ->
    (b = false -> forall k, scheduledUpTo k p s) ->
    scheduledUpTo (r + n) p (fst (Solver.whileLoop round n b i s)).
Proof.
  intros Hmoved Hprog. induction n as [|n IH]; intros b i s r Hsch Hup Hdown.
  - simpl. by rewrite Nat.add_0_r.
  - destruct b; [|rewrite whileLoop_false; by apply Hdown].
    rewrite whileLoop_true. rewrite Nat.add_succ_r, <- Nat.add_succ_l.
    pose proof (Hmoved s) as Hm.
    apply IH.
    + eapply schedulable_steps; [exact Hsch|]. exact (proj1 Hm).
    + by apply Hprog.
    + intros Hb. destruct (round s) as [s' b'] eqn:E. simpl in *. subst b'.
      apply moved_flag_down in Hm. subst s'.
      induction k as [|k IHk].
      * intros ja job oa o _ Hd. lia.
      * specialize (Hprog s k Hsch IHk). by rewrite E in Hprog.
Qed.

(** ** The pass *)

Lemma scheduledUpTo_writeCerr r p line s :
  scheduledUpTo r p s -> scheduledUpTo r p (writeCerr line s).
Proof. intros H ja job oa o Hh Hd. exact (H ja job oa o Hh Hd). Qed.

(** The store the resets leave has what the progress needs. *)
Lemma resets_schedulable p s :
  machinesExist p s -> positiveDurations p s -> totalDuration p s <= INT_MAX ->
  schedulable p (Solver.resetOperations p (Solver.resetMachines p s)).
Proof.
  intros Hm Hpos Htot. split; [|by apply resets_inBounds].
  eapply machinesExist_sameShape; [apply resets_sameShape|done].
Qed.

Lemma schedule_progress algorithm p s :
  machinesExist p s -> positiveDurations p s -> totalDuration p s <= INT_MAX ->
  scheduledUpTo 1000 p (Solver.schedule std_sort algorithm p s).
Proof.
  intros Hm Hpos Htot.
  set (s1 := Solver.resetOperations p (Solver.resetMachines p s)).
  assert (Hsch1 : schedulable p s1) by (by apply resets_schedulable).
  assert (Hup0 : scheduledUpTo 0 p s1) by (intros ja job oa o _ Hd; lia).
  destruct algorithm; unfold Solver.schedule.
  - unfold Solver.scheduleFIFO. fold s1.
    pose proof (whileLoop_progress p (Solver.fifoRound p)
                  (fifoRound_readyTimeOf p)
                  (fun s r => fifoRound_progress p s r)
                  1000 true 0 s1 0%nat Hsch1 Hup0) as H.
    destruct (Solver.whileLoop _ _ _ _ _) as [s2 it]. cbn [fst] in H.
    specialize (H ltac:(discriminate)).
    destruct (1000 <=? it); [by apply scheduledUpTo_writeCerr|done].
  - unfold Solver.scheduleSPT, Solver.scheduleWithPriority. fold s1.
    apply (whileLoop_progress p
             (Solver.priorityRound std_sort p Solver.compareSPT)
             (priorityRound_readyTimeOf std_sort std_sort_contract p _)
             (fun s r => priorityRound_progress p _ s r)
             1000 true 0 s1 0%nat Hsch1 Hup0).
    discriminate.
  - unfold Solver.scheduleLPT, Solver.scheduleWithPriority. fold s1.
    apply (whileLoop_progress p
             (Solver.priorityRound std_sort p Solver.compareLPT)
             (priorityRound_readyTimeOf std_sort std_sort_contract p _)
             (fun s r => priorityRound_progress p _ s r)
             1000 true 0 s1 0%nat Hsch1 Hup0).
    discriminate.
Qed.

Lemma schedule_sameShape algorithm p s :
  sameShape s (Solver.schedule std_sort algorithm p s).
Proof.
  destruct (schedule_steps_any std_sort std_sort_contract algorithm p s)
    as (s2 & Hsteps & (HO & HJ & HM)).
  eapply sameShape_trans; [apply resets_sameShape|].
  eapply sameShape_trans; [apply evolves_sameShape, (steps_evolves _ _ _ _ Hsteps)|].
  split; [done|]. split; [|by rewrite HM].
  rewrite HO. apply Forall2_refl_on, sameIdentity_refl.
Qed.

(** With at most 1000 operations per job, the pass schedules them all. *)
Lemma schedule_complete algorithm p s :
  machinesExist p s -> positiveDurations p s -> totalDuration p s <= INT_MAX ->
  jobsAtMost 1000 p s ->
  allScheduled p (Solver.schedule std_sort algorithm p s).
Proof.
  intros Hm Hpos Htot Hlen ja job oa o Hh.
  eapply (schedule_progress algorithm p s); [done..|exact Hh|].
  pose proof Hh as (Hja & Hjob & Hoa & Ho).
  pose proof (depth_lt_length _ _ _ _ Hoa Ho).
  pose proof (jobsAtMost_sameShape _ _ _ _ (schedule_sameShape algorithm p s) Hlen
                ja job Hja Hjob).
  lia.
Qed.

(** C10 (amended). On a problem in which every operation names an existing
    machine and has a positive processingTime, the processing times add up
    to at most INT_MAX, and no job has more than 999 operations, [solve]
    under each rule returns a result and leaves every operation of the
    problem scheduled: the limit of 1000 rounds is not what stops the pass.
    (That the operationIds of a job are distinct is not needed.) *)
Theorem solve_schedules_all (algorithm : SchedulingAlgorithm)
    (p : ProblemInstance.t) (s : Store) :
  machinesExist p s -> positiveDurations p s -> totalDuration p s <= INT_MAX ->
  jobsAtMost 999 p s ->
  let out := Solver.solve std_sort algorithm (Some p) s in
  (exists result, snd out = returned result
                  /\ ScheduleResult.problem result = p)
  /\ allScheduled p (fst out).
Proof.
  intros Hm Hpos Htot Hlen. cbn zeta. rewrite solve_eq. cbn [fst snd]. split.
  - eexists. split; [reflexivity|]. by rewrite calculateMetrics_problem.
  - apply schedule_complete; [done..|].
    intros ja job Hja Hjob. specialize (Hlen ja job Hja Hjob). lia.
Qed.

End Completion.

(** * Checking the hypotheses on a concrete problem *)

Section Checks.

Implicit Types (s : Store) (p : ProblemInstance.t) (o : Operation.t).

Lemma forallHeld_spec f p s :
  forallHeld f p s = true ->
  forall ja job oa o, heldBy p s ja job oa o -> f ja job oa o = true.
Proof.
  unfold forallHeld. rewrite forallb_forall.
  intros H ja job oa o (Hja & Hjob & Hoa & Ho).
  specialize (H ja (proj1 (list_elem_of_In _ _) Hja)). rewrite Hjob in H.
  rewrite forallb_forall in H.
  specialize (H oa (proj1 (list_elem_of_In _ _) Hoa)). by rewrite Ho in H.
Qed.

Lemma positiveDurations_check p s :
  forallHeld (fun _ _ _ o => 0 <? Operation.processingTime o) p s = true ->
  positiveDurations p s.
Proof.
  intros H ja job oa o Hh. apply Z.ltb_lt.
  exact (forallHeld_spec _ _ _ H _ _ _ _ Hh).
Qed.

Lemma machinesExist_check p s :
  forallHeld (fun _ _ _ o =>
                match Solver.findMachine p s (Operation.machineId o) with
                | Some _ => true
                | None => false
                end) p s = true ->
  machinesExist p s.
Proof.
  intros H ja job oa o Hh. pose proof (forallHeld_spec _ _ _ H _ _ _ _ Hh) as K.
  simpl in K. destruct (Solver.findMachine _ _ _); [eauto|discriminate].
Qed.

Lemma jobsAtMost_check n p s :
  forallb (fun ja =>
             match jobObjs s !! ja with
             | Some job => (length (Job.operations job) <=? n)%nat
             | None => true
             end) (ProblemInstance.jobs p) = true ->
  jobsAtMost n p s.
Proof.
  rewrite forallb_forall. intros H ja job Hja Hjob.
  specialize (H ja (proj1 (list_elem_of_In _ _) Hja)). rewrite Hjob in H.
  by apply Nat.leb_le.
Qed.

Lemma jobIdsConsistent_check p s :
  forallHeld (fun ja _ _ o =>
                bool_decide (ProblemInstance.getJob p (Operation.jobId o) = Some ja))
             p s = true ->
  jobIdsConsistent p s.
Proof.
  intros H ja job oa o Hh. pose proof (forallHeld_spec _ _ _ H _ _ _ _ Hh) as K.
  simpl in K. by apply bool_decide_eq_true in K.
Qed.

End Checks.

(** * The theorems at work on the simple problem *)

Lemma precedence_respected_witness :
  StdSortContract insertionSort
  /\ jobsWellFormed SPT simpleProblem simpleStore
  /\ precedenceHolds simpleProblem
       (Solver.schedule insertionSort SPT simpleProblem simpleStore).
Proof.
  split; [exact insertionSort_contract|].
  split; [apply jobIdsConsistent_check; reflexivity|].
  apply (precedence_respected insertionSort insertionSort_contract SPT).
  apply jobIdsConsistent_check. reflexivity.
Defined.

Lemma machines_exclusive_witness :
  StdSortContract insertionSort
  /\ positiveDurations simpleProblem simpleStore
  /\ totalDuration simpleProblem simpleStore <= INT_MAX
  /\ exclusive (Solver.schedule insertionSort LPT simpleProblem simpleStore)
       (Machine.mk 0 [0%nat; 7%nat; 5%nat] 8).
Proof.
  split; [exact insertionSort_contract|].
  split; [apply positiveDurations_check; reflexivity|].
  split; [by vm_compute|].
  apply (machines_exclusive insertionSort insertionSort_contract LPT
           simpleProblem simpleStore) with (ma := 0%nat).
  - apply positiveDurations_check. reflexivity.
  - by vm_compute.
  - by left.
  - vm_compute. reflexivity.
Defined.

Lemma solve_schedules_all_witness :
  StdSortContract insertionSort
  /\ machinesExist simpleProblem simpleStore
  /\ positiveDurations simpleProblem simpleStore
  /\ totalDuration simpleProblem simpleStore <= INT_MAX
  /\ jobsAtMost 999 simpleProblem simpleStore
  /\ allScheduled simpleProblem
       (fst (Solver.solve insertionSort FIFO (Some simpleProblem) simpleStore)).
Proof.
  split; [exact insertionSort_contract|].
  split; [apply machinesExist_check; reflexivity|].
  split; [apply positiveDurations_check; reflexivity|].
  split; [by vm_compute|].
  split; [apply jobsAtMost_check; reflexivity|].
  apply (solve_schedules_all insertionSort insertionSort_contract FIFO
           simpleProblem simpleStore).
  - apply machinesExist_check. reflexivity.
  - apply positiveDurations_check. reflexivity.
  - by vm_compute.
  - apply jobsAtMost_check. reflexivity.
Defined.

(** C2, as stated, fails when a sum leaves the range of int. With durations
    2147483647 and 1 on one machine, FIFO places operation 1 at
    2147483647; its end comes out as INT_MIN, so that it does not read as
    scheduled and the machine reads as available before time 0. The next
    round places it again, at [0, 1), over operation 0. *)
Lemma machines_overlap_counterexample :
  positiveDurations longestProblem longestStore
  /\ map (fun o => (Operation.startTime o, Operation.endTime o))
       (operationObjs
          (Solver.schedule Libstdcxx.sort FIFO longestProblem longestStore))
     = [(0, 2147483647); (0, 1)]
  /\ machineSchedules
       (Solver.schedule Libstdcxx.sort FIFO longestProblem longestStore)
       longestProblem
     = [([0%nat; 1%nat; 1%nat], 1)]
  /\ ~ exclusiveClaim Libstdcxx.sort FIFO.
Proof.
  assert (Hpos : positiveDurations longestProblem longestStore)
    by (apply positiveDurations_check; reflexivity).
  split; [exact Hpos|]. split; [vm_compute; reflexivity|].
  split; [vm_compute; reflexivity|]. intros H.
  destruct (H longestProblem longestStore Hpos 0%nat
              (Machine.mk 0 [0%nat; 1%nat; 1%nat] 1))
    as [Hex _]; [by left|vm_compute; reflexivity|].
  destruct (Hex 0%nat 1%nat 0%nat 1%nat) as (oa & ob & Ha & Hb & _ & Hle);
    [lia|reflexivity..|].
  vm_compute in Ha, Hb. injection Ha as <-. injection Hb as <-.
  simpl in Hle. lia.
Qed.

(** C10, as stated, fails when a sum leaves the range of int. In the job
    (machine 0 for 5, machine 1 for 2147483647) the second operation is
    placed at 5 in every round and its end comes out below its start: it
    never reads as scheduled, FIFO runs its 1000 rounds and prints the
    warning. *)
Lemma unscheduled_counterexample :
  (machinesExist lateProblem lateStore /\ positiveDurations lateProblem lateStore
   /\ idsDistinct lateProblem lateStore /\ jobsAtMost 999 lateProblem lateStore)
  /\ map (fun o => (Operation.startTime o, Operation.endTime o))
       (operationObjs
          (fst (Solver.solve Libstdcxx.sort FIFO (Some lateProblem) lateStore)))
     = [(0, 5); (5, -2147483644)]
  /\ cerr (fst (Solver.solve Libstdcxx.sort FIFO (Some lateProblem) lateStore))
     = [Solver.roundLimitWarning]
  /\ ~ completionClaim Libstdcxx.sort FIFO.
Proof.
  assert (Hhyp : machinesExist lateProblem lateStore
                 /\ positiveDurations lateProblem lateStore
                 /\ idsDistinct lateProblem lateStore
                 /\ jobsAtMost 999 lateProblem lateStore).
  { split; [apply machinesExist_check; reflexivity|].
    split; [apply positiveDurations_check; reflexivity|].
    split; [|apply jobsAtMost_check; reflexivity].
    intros ja job i j a b oa ob Hja Hjob Hij Hi Hj Ha Hb.
    apply list_elem_of_singleton in Hja as ->.
    injection Hjob as <-. cbn [Job.operations] in Hi, Hj.
    destruct i as [|[|i]], j as [|[|j]]; simplify_eq/=; done. }
  split; [exact Hhyp|]. split; [vm_compute; reflexivity|].
  split; [vm_compute; reflexivity|]. intros H.
  destruct Hhyp as (H1 & H2 & H3 & H4).
  specialize (H lateProblem lateStore H1 H2 H3 H4 0%nat (Job.mk 0 [0%nat; 1%nat])
                1%nat (Operation.mk 0 1 2147483647 1 5 (-2147483644))).
  assert (Hs : Operation.isScheduled
                 (Operation.mk 0 1 2147483647 1 5 (-2147483644)) = true);
    [|discriminate Hs].
  apply H. unfold heldBy. split; [by left|].
  split; [vm_compute; reflexivity|]. split; [right; by left|].
  vm_compute. reflexivity.
Qed.

(** The three rules on the simple problem: start and end of each operation,
    in the order of the operation arena. *)
Example simple_FIFO :
  map (fun o => (Operation.startTime o, Operation.endTime o))
      (operationObjs (Solver.schedule insertionSort FIFO simpleProblem simpleStore))
  = [(0, 2); (2, 5); (5, 6); (5, 6); (6, 8); (8, 11); (8, 11); (11, 12); (12, 14)].
Proof. vm_compute. reflexivity. Qed.

Example simple_SPT :
  map (fun o => (Operation.startTime o, Operation.endTime o))
      (operationObjs (Solver.schedule insertionSort SPT simpleProblem simpleStore))
  = [(0, 2); (2, 5); (5, 6); (0, 1); (3, 5); (5, 8); (0, 3); (3, 4); (5, 7)].
Proof. vm_compute. reflexivity. Qed.

(** The scenarios of the solver tests. *)
Example scenario_single_operation :
  report (Solver.solve insertionSort FIFO (Some singleProblem) singleStore)
  = ([(0, 5)], Some (5, 5, toDouble 5)).
Proof. vm_compute. reflexivity. Qed.

Example scenario_single_job_three_machines :
  report (Solver.solve insertionSort FIFO (Some chainProblem) chainStore)
  = ([(0, 2); (2, 5); (5, 6)], Some (6, 6, toDouble 6)).
Proof. vm_compute. reflexivity. Qed.

Example scenario_three_jobs_one_machine :
  report (Solver.solve insertionSort FIFO (Some queueProblem) queueStore)
  = ([(0, 2); (2, 5); (5, 6)],
     Some (6, 13, S754_finite false 4878899596318037 (-50))).
Proof. vm_compute. reflexivity. Qed.

Example scenario_empty_problem :
  report (Solver.solve insertionSort FIFO (Some ProblemInstance.new) emptyStore)
  = ([], Some (0, 0, positiveZero)).
Proof. vm_compute. reflexivity. Qed.

(** * The metrics of a result returned by solve *)

Section SolvedMetrics.

Implicit Types (s : Store) (p : ProblemInstance.t) (o : Operation.t).

Lemma step_startsFromZero p s s' :
  startsFromZero p s -> step p fromTimeZero s s' -> startsFromZero p s'.
Proof.
  intros Hinv Hstep.
  inversion Hstep as [s0 ja job oa o ma machine jr Hh Hu Hm Hjr E1 E2].
  subst s0 s'. clear Hstep. unfold fromTimeZero in Hjr.
  destruct Hh as (Hja & Hjob & Hoa & Ho).
  rewrite commit_eq. cbn zeta.
  intros ja1 job1 a q (H1 & H2 & H3 & H4) Hs. simpl in H2, H4.
  read_after_write H4 a oa.
  - injection H4 as <-. simpl. lia.
  - eapply Hinv; [|done]. by repeat split.
Qed.

Lemma steps_startsFromZero p s s' :
  startsFromZero p s -> rtc (step p fromTimeZero) s s' -> startsFromZero p s'.
Proof.
  intros Hinv H. induction H as [|s1 s2 s3 Hs _ IH]; [done|].
  apply IH. by eapply step_startsFromZero.
Qed.

Variable std_sort : (addr -> addr -> bool) -> list addr -> list addr.
Hypothesis std_sort_contract : StdSortContract std_sort.

Lemma ready_fromTimeZero p s oa :
  oa ∈ Solver.readyOperations p s -> forall s' o, evolves s s' ->
  operationObjs s' !! oa = Some o -> Operation.isScheduled o = false ->
  exists ja job, heldBy p s' ja job oa o
    /\ fromTimeZero s' job o (Solver.priorityJobReadyTime p s' o).
Proof.
  intros Hr s' o He Ho _.
  destruct (ready_held _ _ _ _ _ Hr He Ho) as (ja & job & Hh & _).
  exists ja, job. split; [done|]. apply priorityJobReadyTime_nonneg.
Qed.

(** After a pass the scheduled operations of the problem start at or after
    time 0. *)
Lemma schedule_startsFromZero algorithm p s :
  startsFromZero p (Solver.schedule std_sort algorithm p s).
Proof.
  set (s1 := Solver.resetOperations p (Solver.resetMachines p s)).
  assert (H1 : startsFromZero p s1).
  { intros ja job oa o Hh Hs.
    pose proof (resets_nothing_scheduled _ _ _ _ _ _ Hh). congruence. }
  assert (exists s2, rtc (step p fromTimeZero) s1 s2
            /\ sameObjects s2 (Solver.schedule std_sort algorithm p s))
    as (s2 & Hsteps & Hsame).
  { destruct algorithm; unfold Solver.schedule, Solver.scheduleSPT, Solver.scheduleLPT.
    - destruct (scheduleFIFO_steps p s) as (s2 & H & Hs). exists s2.
      split; [|done]. eapply steps_weaken; [|exact H].
      intros s0 job o jr [_ ->]. apply jobReadyTime_nonneg.
    - eexists. split; [|apply sameObjects_refl].
      unfold Solver.scheduleWithPriority.
      apply (whileLoop_steps p fromTimeZero (fun _ => True)); [done| |done].
      intros s0 _. apply (priorityRound_moved std_sort std_sort_contract).
      apply ready_fromTimeZero.
    - eexists. split; [|apply sameObjects_refl].
      unfold Solver.scheduleWithPriority.
      apply (whileLoop_steps p fromTimeZero (fun _ => True)); [done| |done].
      intros s0 _. apply (priorityRound_moved std_sort std_sort_contract).
      apply ready_fromTimeZero. }
  pose proof (steps_startsFromZero _ _ _ H1 Hsteps) as H2.
  intros ja job oa o Hh. apply (sameObjects_heldBy _ _ _ _ _ _ _ Hsame) in Hh.
  by eapply H2.
Qed.

Lemma jobScheduledEnds_elem s job e :
  e ∈ jobScheduledEnds s job ->
  exists oa o, oa ∈ Job.operations job /\ operationObjs s !! oa = Some o
               /\ Operation.isScheduled o = true /\ Operation.endTime o = e.
Proof.
  unfold jobScheduledEnds. rewrite list_elem_of_omap.
  intros (oa & Hoa & He). unfold scheduledEnd in He.
  destruct (operationObjs s !! oa) as [o|] eqn:Eo; [|done].
  destruct (Operation.isScheduled o) eqn:Es; [|done].
  injection He as <-. by exists oa, o.
Qed.

Lemma jobsOf_elem s p job :
  job ∈ jobsOf s p ->
  exists ja, ja ∈ ProblemInstance.jobs p /\ jobObjs s !! ja = Some job.
Proof. unfold jobsOf. by rewrite list_elem_of_omap. Qed.

Lemma maximum_nonneg (l : list Z) :
  (forall x, x ∈ l -> 0 <= x) -> Z.max 0 (default 0 (maximum l)) = default 0 (maximum l).
Proof.
  intros H. destruct (maximum l) as [m|] eqn:E; simpl; [|done].
  apply maximum_spec in E as [Hm _]. specialize (H m Hm). lia.
Qed.

(** The scheduled operations of a result returned by [solve] end after
    time 0. *)
Lemma schedule_ends_nonneg algorithm p s job e :
  job ∈ jobsOf (Solver.schedule std_sort algorithm p s) p ->
  e ∈ jobScheduledEnds (Solver.schedule std_sort algorithm p s) job -> 0 <= e.
Proof.
  set (s' := Solver.schedule std_sort algorithm p s).
  pose proof (schedule_startsFromZero algorithm p s) as Hz. fold s' in Hz.
  intros (ja & Hja & Hjob)%jobsOf_elem
         (oa & o & Hoa & Ho & Hs & <-)%jobScheduledEnds_elem.
  assert (0 <= Operation.startTime o) by (eapply Hz; [by repeat split|done]).
  apply isScheduled_true in Hs. lia.
Qed.

(** On a result returned by [solve], C6 holds as it is stated. *)
Lemma solve_metrics_exact (algorithm : SchedulingAlgorithm) p s result :
  snd (Solver.solve std_sort algorithm (Some p) s) = returned result ->
  makespanIsMaxScheduledEnd (fst (Solver.solve std_sort algorithm (Some p) s)) result.
Proof.
  rewrite solve_eq. cbn [fst snd]. intros [= <-].
  unfold makespanIsMaxScheduledEnd.
  rewrite calculateMetrics_makespan, calculateMetrics_problem, metricsLoop_spec.
  simpl. apply maximum_nonneg. intros e He.
  unfold scheduledEnds in He.
  apply list_elem_of_In, in_flat_map in He as (job & Hjob & He).
  apply (schedule_ends_nonneg algorithm p s job); by apply list_elem_of_In.
Qed.

(** So does C7 for the total, when the sum it states is an int. *)
Lemma solve_total_exact (algorithm : SchedulingAlgorithm) p s result :
  snd (Solver.solve std_sort algorithm (Some p) s) = returned result ->
  sumZ (map (fun job =>
               default 0 (maximum
                 (jobScheduledEnds (Solver.schedule std_sort algorithm p s) job)))
            (jobsOf (Solver.schedule std_sort algorithm p s) p)) <= INT_MAX ->
  totalIsSumOfJobMaxEnds (fst (Solver.solve std_sort algorithm (Some p) s)) result.
Proof.
  rewrite solve_eq. cbn [fst snd]. intros [= <-] Hsum.
  set (s' := Solver.schedule std_sort algorithm p s) in *.
  unfold totalIsSumOfJobMaxEnds.
  rewrite calculateMetrics_total, calculateMetrics_problem, metricsLoop_spec.
  cbn [snd ScheduleResult.problem].
  assert (E : map (ScheduleResult.jobCompletionTime s') (jobsOf s' p)
              = map (fun job => default 0 (maximum (jobScheduledEnds s' job)))
                    (jobsOf s' p)).
  { apply map_ext_in. intros job Hjob.
    rewrite jobCompletionTime_eq. apply maximum_nonneg. intros e He.
    apply (schedule_ends_nonneg algorithm p s job e); [|done].
    by apply list_elem_of_In. }
  rewrite E. apply wrap_exact. split; [|done].
  rewrite <- E.
  pose proof (sumZ_map_nonneg (ScheduleResult.jobCompletionTime s') (jobsOf s' p)
                (jobCompletionTime_nonneg s')).
  unfold INT_MIN. lia.
Qed.

End SolvedMetrics.

(** * solve: what reaches the caller and the error stream *)

Section Errors.

Variable std_sort : (addr -> addr -> bool) -> list addr -> list addr.

Implicit Types (s : Store) (p : ProblemInstance.t) (st : Store * bool).

Lemma fifoVisit_cerr p job st oa :
  cerr (fst (Solver.fifoVisit p job st oa)) = cerr (fst st).
Proof.
  unfold Solver.fifoVisit. destruct st as [s b]. simpl.
  destruct (operationObjs s !! oa) as [o|]; [|done].
  destruct (Operation.isScheduled o); simpl; [done|].
  destruct (Solver.findMachine _ _ _) as [[ma machine]|]; [|done].
  by destruct (Solver.allPrevOpsCompleted _ _ _).
Qed.

Lemma priorityVisit_cerr p st oa :
  cerr (fst (Solver.priorityVisit p st oa)) = cerr (fst st).
Proof.
  unfold Solver.priorityVisit. destruct st as [s b]. simpl.
  destruct (operationObjs s !! oa) as [o|]; [|done].
  destruct (Operation.isScheduled o); simpl; [done|].
  by destruct (Solver.findMachine _ _ _) as [[ma machine]|].
Qed.

Lemma foldl_cerr {A} (f : Store * bool -> A -> Store * bool) (l : list A) :
  (forall st y, cerr (fst (f st y)) = cerr (fst st)) ->
  forall st, cerr (fst (foldl f st l)) = cerr (fst st).
Proof.
  intros H. induction l as [|y l IH]; intros st; simpl; [done|].
  by rewrite IH, H.
Qed.

Lemma fifoRound_cerr p s : cerr (fst (Solver.fifoRound p s)) = cerr s.
Proof.
  unfold Solver.fifoRound. rewrite foldl_cerr; [done|].
  intros st ja. unfold Solver.fifoJob.
  destruct (jobObjs (fst st) !! ja) as [job|]; [|done].
  apply foldl_cerr. intros st' oa. apply fifoVisit_cerr.
Qed.

Lemma priorityRound_cerr p compare s :
  cerr (fst (Solver.priorityRound std_sort p compare s)) = cerr s.
Proof.
  unfold Solver.priorityRound. rewrite foldl_cerr; [done|].
  intros st oa. apply priorityVisit_cerr.
Qed.

Lemma whileLoop_cerr (round : Store -> Store * bool) :
  (forall s, cerr (fst (round s)) = cerr s) ->
  forall n b i s, cerr (fst (Solver.whileLoop round n b i s)) = cerr s.
Proof.
  intros H. induction n as [|n IH]; intros b i s; [done|].
  destruct b; [|by rewrite whileLoop_false].
  by rewrite whileLoop_true, IH, H.
Qed.

Lemma resets_cerr p s :
  cerr (Solver.resetOperations p (Solver.resetMachines p s)) = cerr s.
Proof. by rewrite resets_eq. Qed.

(** A pass writes nothing to the error stream but, under FIFO, the warning
    of the round limit. *)
Lemma schedule_cerr algorithm p s :
  cerr (Solver.schedule std_sort algorithm p s) = cerr s
  \/ (algorithm = FIFO
      /\ cerr (Solver.schedule std_sort algorithm p s) = cerr s ++ [Solver.roundLimitWarning]).
Proof.
  destruct algorithm; unfold Solver.schedule.
  - unfold Solver.scheduleFIFO.
    pose proof (whileLoop_cerr (Solver.fifoRound p) (fifoRound_cerr p) 1000 true 0
                  (Solver.resetOperations p (Solver.resetMachines p s))) as H.
    rewrite resets_cerr in H.
    destruct (Solver.whileLoop _ _ _ _ _) as [s2 it]. cbn [fst] in H.
    destruct (1000 <=? it); [right|left]; [|done].
    split; [done|]. simpl. by rewrite H.
  - left. unfold Solver.scheduleSPT, Solver.scheduleWithPriority.
    rewrite whileLoop_cerr; [apply resets_cerr|]. apply priorityRound_cerr.
  - left. unfold Solver.scheduleLPT, Solver.scheduleWithPriority.
    rewrite whileLoop_cerr; [apply resets_cerr|]. apply priorityRound_cerr.
Qed.

(** FIFO prints its warning exactly when the loop has run 1000 rounds. *)
Lemma scheduleFIFO_cerr p s :
  cerr (Solver.schedule std_sort FIFO p s)
  = if 1000 <=? Solver.iterations std_sort FIFO p s
    then cerr s ++ [Solver.roundLimitWarning]
    else cerr s.
Proof.
  unfold Solver.schedule, Solver.iterations, Solver.scheduleFIFO. cbn zeta.
  pose proof (whileLoop_cerr (Solver.fifoRound p) (fifoRound_cerr p) 1000 true 0
                (Solver.resetOperations p (Solver.resetMachines p s))) as H.
  rewrite resets_cerr in H.
  destruct (Solver.whileLoop _ _ _ _ _) as [s2 it]. cbn [fst snd] in *.
  destruct (1000 <=? it); [|done]. simpl. by rewrite H.
Qed.

(** The result of [solve] holds the very vectors of the problem: the jobs
    and machines it reaches are those of the original. *)
Lemma solve_result_problem (algorithm : SchedulingAlgorithm) p s result :
  snd (Solver.solve std_sort algorithm (Some p) s) = returned result ->
  ScheduleResult.problem result = p
  /\ startTimes (fst (Solver.solve std_sort algorithm (Some p) s))
       (ScheduleResult.problem result)
     = startTimes (Solver.schedule std_sort algorithm p s) p.
Proof.
  rewrite solve_eq. cbn [fst snd]. intros [= <-].
  rewrite calculateMetrics_problem. done.
Qed.

(** C5 (amended). [solve] signals an error exactly when the problem is null
    or the algorithm of the solver is none of FIFO, SPT and LPT; the error
    is "Problem instance is null" in the first case and "Unknown algorithm"
    in the second, and the store is untouched. In every other case,
    whether or not the round limit is reached, it returns a ScheduleResult,
    and the error stream has received nothing or the one warning of the
    round limit; under FIFO it has received the warning whenever the loop
    has run its 1000 rounds. *)
Theorem solve_errors (algorithm : Z) (problem : option ProblemInstance.t)
    (s : Store) :
  let out := Solver.solve std_sort algorithm problem s in
  ((exists what, snd out = runtime_error what)
   <-> problem = None \/ enumerator algorithm = None)
  /\ (problem = None -> out = (s, runtime_error "Problem instance is null"))
  /\ (problem <> None -> enumerator algorithm = None ->
      out = (s, runtime_error "Unknown algorithm"))
  /\ (forall p rule, problem = Some p -> enumerator algorithm = Some rule ->
        (exists result, snd out = returned result)
        /\ (cerr (fst out) = cerr s
            \/ cerr (fst out) = cerr s ++ [Solver.roundLimitWarning])
        /\ (rule = FIFO -> 1000 <= Solver.iterations std_sort FIFO p s ->
            cerr (fst out) = cerr s ++ [Solver.roundLimitWarning])).
Proof.
  cbn zeta. unfold Solver.solve.
  destruct problem as [p|]; [destruct (enumerator algorithm) as [rule|] eqn:E|].
  - split; [|split; [|split]].
    + split; [intros [w Hw]; discriminate|intros [H|H]; discriminate].
    + discriminate.
    + discriminate.
    + intros p' rule' [= <-] [= <-]. cbn [fst snd]. split; [eauto|]. split.
      * destruct (schedule_cerr rule p s) as [H|[_ H]]; auto.
      * intros -> Hit. rewrite scheduleFIFO_cerr.
        apply Z.leb_le in Hit. by rewrite Hit.
  - split; [|split; [|split]].
    + split; [by right|eauto].
    + discriminate.
    + done.
    + discriminate.
  - split; [|split; [|split]].
    + split; [by left|eauto].
    + done.
    + done.
    + discriminate.
Qed.

End Errors.

(** C5, as stated, fails twice. A solver whose algorithm has been set to a
    value that is none of the three enumerators throws on a problem that
    is not null. And under SPT the operation of duration 0 is committed in
    each of the 1000 rounds and never reads as scheduled, yet nothing is
    printed: only FIFO has the warning. *)
Lemma solve_error_counterexample :
  Solver.solve Libstdcxx.sort 3 (Some simpleProblem) simpleStore
  = (simpleStore, runtime_error "Unknown algorithm")
  /\ ~ errorClaim Libstdcxx.sort
  /\ Solver.iterations Libstdcxx.sort SPT zeroProblem zeroStore = 1000
  /\ (Operation.isScheduled
        <$> operationObjs (Solver.schedule Libstdcxx.sort SPT zeroProblem zeroStore)
            !! 0%nat) = Some false
  /\ cerr (Solver.schedule Libstdcxx.sort SPT zeroProblem zeroStore) = []
  /\ ~ diagnosticClaim Libstdcxx.sort.
Proof.
  assert (E : Operation.isScheduled
                <$> operationObjs
                      (Solver.schedule Libstdcxx.sort SPT zeroProblem zeroStore)
                    !! 0%nat = Some false) by (vm_compute; reflexivity).
  split; [reflexivity|]. split.
  { intros H. destruct (H 3 (Some simpleProblem) simpleStore) as [H1 _].
    discriminate H1. by eexists. }
  split; [vm_compute; reflexivity|]. split; [exact E|].
  split; [vm_compute; reflexivity|]. intros H.
  apply (H SPT zeroProblem zeroStore).
  - vm_compute. discriminate.
  - intros Hall.
    destruct (operationObjs (Solver.schedule Libstdcxx.sort SPT zeroProblem zeroStore)
                !! 0%nat) as [o|] eqn:Eo; [|discriminate E].
    injection E as E. rewrite (Hall 0%nat (Job.mk 0 [0%nat]) 0%nat o) in E;
      [discriminate|].
    split; [by left|]. split; [vm_compute; reflexivity|]. split; [by left|done].
  - vm_compute. reflexivity.
Qed.

(** No time of the FIFO schedule of the simple problem ([simple_FIFO])
    exceeds the sum of its durations. *)
Example simple_timesWithin :
  timesWithin 18 simpleProblem
    (Solver.schedule insertionSort FIFO simpleProblem simpleStore).
Proof.
  apply (schedule_timesWithin insertionSort insertionSort_contract FIFO
           simpleProblem simpleStore).
  - apply positiveDurations_check. reflexivity.
  - by vm_compute.
Qed.

(** * What a schedule pass leaves alone, and why it can be repeated *)

Section Frame.

Implicit Types (s : Store) (p : ProblemInstance.t) (o : Operation.t).
Implicit Types (st : Store * bool).

Lemma framed_refl p s : framed p s s.
Proof.
  split; [done|]. split; [done|]. split; [done|]. split.
  - intros oa o Ho. exists o. split; [done|]. split; [apply sameIdentity_refl|done].
  - intros ma m Hm. by exists m.
Qed.

Lemma operationsOf_jobs p s s' :
  jobObjs s' = jobObjs s -> operationsOf p s' = operationsOf p s.
Proof. intros H. unfold operationsOf. by rewrite H. Qed.

Lemma framed_trans p s1 s2 s3 : framed p s1 s2 -> framed p s2 s3 -> framed p s1 s3.
Proof.
  intros (J1 & LO1 & LM1 & O1 & M1) (J2 & LO2 & LM2 & O2 & M2).
  split; [congruence|]. split; [congruence|]. split; [congruence|]. split.
  - intros oa o Ho. destruct (O1 _ _ Ho) as (o' & Ho' & Hid & Hf).
    destruct (O2 _ _ Ho') as (o'' & Ho'' & Hid' & Hf').
    exists o''. split; [done|]. split; [by eapply sameIdentity_trans|].
    intros Hn. rewrite Hf'; [by apply Hf|].
    by rewrite (operationsOf_jobs p s1 s2 J1).
  - intros ma m Hm. destruct (M1 _ _ Hm) as (m' & Hm' & Hid & Hf).
    destruct (M2 _ _ Hm') as (m'' & Hm'' & Hid' & Hf').
    exists m''. split; [done|]. split; [congruence|].
    intros Hn. rewrite Hf' by done. by apply Hf.
Qed.

Lemma sameObjects_framed p s s' : sameObjects s s' -> framed p s s'.
Proof.
  intros (O & J & M). split; [done|]. rewrite O, M.
  split; [done|]. split; [done|]. split.
  - intros oa o Ho. exists o. split; [done|]. split; [apply sameIdentity_refl|done].
  - intros ma m Hm. by exists m.
Qed.

Lemma step_framed p ok s s' : step p ok s s' -> framed p s s'.
Proof.
  intros Hstep.
  inversion Hstep as [s0 ja job oa o ma machine jr Hh Hu Hm Hok E1 E2].
  subst s0 s'. clear Hstep.
  pose proof (heldBy_operationsOf _ _ _ _ _ _ Hh) as Hin.
  destruct Hh as (Hja & Hjob & Hoa & Ho).
  destruct (findMachine_Some _ _ _ _ _ Hm) as [Hma Hmachine].
  rewrite commit_eq. cbn zeta. split; [done|]. simpl.
  split; [by rewrite length_insert|]. split; [by rewrite length_insert|]. split.
  - intros a q Hq. destruct (decide (a = oa)) as [->|Hne].
    + rewrite list_lookup_insert_eq by (by eapply lookup_lt_Some).
      eexists. split; [done|]. assert (q = o) as -> by congruence.
      split; [by repeat split|done].
    + rewrite list_lookup_insert_ne by done.
      exists q. split; [done|]. split; [apply sameIdentity_refl|done].
  - intros a m Hq. destruct (decide (a = ma)) as [->|Hne].
    + rewrite list_lookup_insert_eq by (by eapply lookup_lt_Some).
      eexists. split; [done|]. assert (m = machine) as -> by congruence.
      split; done.
    + rewrite list_lookup_insert_ne by done. by exists m.
Qed.

Lemma steps_framed p ok s s' : rtc (step p ok) s s' -> framed p s s'.
Proof.
  induction 1 as [|s1 s2 s3 Hs _ IH]; [apply framed_refl|].
  eapply framed_trans; [|exact IH]. by eapply step_framed.
Qed.

Lemma resets_framed p s :
  framed p s (Solver.resetOperations p (Solver.resetMachines p s)).
Proof.
  rewrite resets_eq. split; [done|]. simpl.
  split; [apply foldl_alter_length|]. split; [apply foldl_alter_length|]. split.
  - intros oa o Ho. rewrite foldl_alter_lookup by done. rewrite Ho. simpl.
    case_decide.
    + eexists. split; [done|]. split; [by repeat split|done].
    + exists o. split; [done|]. split; [apply sameIdentity_refl|done].
  - intros ma m Hm. rewrite foldl_alter_lookup by done. rewrite Hm. simpl.
    case_decide; eexists; (split; [done|]); split; done.
Qed.

(** ** Durations *)

Lemma step_durationsKept p ok s s' :
  (forall s job o jr, ok s job o jr -> exactSum p s job o jr) ->
  durationsKept p s -> step p ok s s' -> durationsKept p s'.
Proof.
  intros Hex Hinv Hstep.
  inversion Hstep as [s0 ja job oa o ma machine jr Hh Hu Hm Hjr E1 E2].
  subst s0 s'. clear Hstep.
  pose proof (Hex _ _ _ _ Hjr ma machine Hm) as Hsum.
  destruct Hh as (Hja & Hjob & Hoa & Ho).
  rewrite (commit_exact _ _ _ _ _ _ Hsum). cbn zeta.
  intros ja1 job1 a q (H1 & H2 & H3 & H4). simpl in H2, H4.
  read_after_write H4 a oa.
  - injection H4 as <-. right. reflexivity.
  - eapply Hinv. by repeat split.
Qed.

Lemma steps_durationsKept p ok s s' :
  (forall s job o jr, ok s job o jr -> exactSum p s job o jr) ->
  durationsKept p s -> rtc (step p ok) s s' -> durationsKept p s'.
Proof.
  intros Hex Hinv H. induction H as [|s1 s2 s3 Hs _ IH]; [done|].
  apply IH. by eapply (step_durationsKept p ok).
Qed.

Lemma durationsKept_scheduledForDuration p s :
  durationsKept p s -> scheduledForDuration p s.
Proof.
  intros H ja job oa o Hh. specialize (H _ _ _ _ Hh). split.
  - intros Hs%isScheduled_true. lia.
  - intros Hs%isScheduled_false Hpt. lia.
Qed.

(** ** A pass reads the objects only *)

Lemma fifoVisit_sameObjects p job st1 st2 oa :
  sameObjects (fst st1) (fst st2) -> snd st1 = snd st2 ->
  sameObjects (fst (Solver.fifoVisit p job st1 oa))
              (fst (Solver.fifoVisit p job st2 oa))
  /\ snd (Solver.fifoVisit p job st1 oa) = snd (Solver.fifoVisit p job st2 oa).
Proof.
  destruct st1 as [[o1 j1 m1 c1] b1], st2 as [[o2 j2 m2 c2] b2].
  unfold sameObjects. simpl. intros (-> & -> & ->) ->.
  unfold Solver.fifoVisit. cbn [fst snd operationObjs].
  destruct (o1 !! oa) as [o|]; [|done].
  destruct (negb (Operation.isScheduled o)); [|done].
  change (Solver.findMachine p (mkStore o1 j1 m1 c2) (Operation.machineId o))
    with (Solver.findMachine p (mkStore o1 j1 m1 c1) (Operation.machineId o)).
  destruct (Solver.findMachine _ _ _) as [[ma machine]|]; [|done].
  change (Solver.allPrevOpsCompleted (mkStore o1 j1 m1 c2) job o)
    with (Solver.allPrevOpsCompleted (mkStore o1 j1 m1 c1) job o).
  destruct (Solver.allPrevOpsCompleted _ _ _); [|done].
  change (Solver.jobReadyTime (mkStore o1 j1 m1 c2) job o)
    with (Solver.jobReadyTime (mkStore o1 j1 m1 c1) job o).
  by rewrite !commit_eq.
Qed.

Lemma priorityVisit_sameObjects p st1 st2 oa :
  sameObjects (fst st1) (fst st2) -> snd st1 = snd st2 ->
  sameObjects (fst (Solver.priorityVisit p st1 oa))
              (fst (Solver.priorityVisit p st2 oa))
  /\ snd (Solver.priorityVisit p st1 oa) = snd (Solver.priorityVisit p st2 oa).
Proof.
  destruct st1 as [[o1 j1 m1 c1] b1], st2 as [[o2 j2 m2 c2] b2].
  unfold sameObjects. simpl. intros (-> & -> & ->) ->.
  unfold Solver.priorityVisit. cbn [fst snd operationObjs].
  destruct (o1 !! oa) as [o|]; [|done].
  destruct (negb (Operation.isScheduled o)); [|done].
  change (Solver.findMachine p (mkStore o1 j1 m1 c2) (Operation.machineId o))
    with (Solver.findMachine p (mkStore o1 j1 m1 c1) (Operation.machineId o)).
  destruct (Solver.findMachine _ _ _) as [[ma machine]|]; [|done].
  change (Solver.priorityJobReadyTime p (mkStore o1 j1 m1 c2) o)
    with (Solver.priorityJobReadyTime p (mkStore o1 j1 m1 c1) o).
  by rewrite !commit_eq.
Qed.

Lemma foldl_sameObjects {A} (f : Store * bool -> A -> Store * bool) (l : list A) :
  (forall st1 st2 y, sameObjects (fst st1) (fst st2) -> snd st1 = snd st2 ->
     sameObjects (fst (f st1 y)) (fst (f st2 y)) /\ snd (f st1 y) = snd (f st2 y)) ->
  forall st1 st2, sameObjects (fst st1) (fst st2) -> snd st1 = snd st2 ->
    sameObjects (fst (foldl f st1 l)) (fst (foldl f st2 l))
    /\ snd (foldl f st1 l) = snd (foldl f st2 l).
Proof.
  intros Hf. induction l as [|y l IH]; intros st1 st2 H1 H2; simpl; [done|].
  destruct (Hf st1 st2 y H1 H2). by apply IH.
Qed.

Lemma fifoRound_sameObjects p s1 s2 :
  sameObjects s1 s2 ->
  sameObjects (fst (Solver.fifoRound p s1)) (fst (Solver.fifoRound p s2))
  /\ snd (Solver.fifoRound p s1) = snd (Solver.fifoRound p s2).
Proof.
  intros H. unfold Solver.fifoRound. apply foldl_sameObjects; [|done|done].
  intros st1 st2 ja H1 H2. unfold Solver.fifoJob.
  destruct H1 as (HO & HJ & HM). rewrite HJ.
  destruct (jobObjs (fst st1) !! ja) as [job|]; [|done].
  apply foldl_sameObjects; [|done|done].
  intros. by apply fifoVisit_sameObjects.
Qed.

Variable std_sort : (addr -> addr -> bool) -> list addr -> list addr.

Lemma sortedReady_sameObjects p compare s1 s2 :
  sameObjects s1 s2 ->
  Solver.sortedReady std_sort p compare s1 = Solver.sortedReady std_sort p compare s2.
Proof.
  destruct s1 as [o1 j1 m1 c1], s2 as [o2 j2 m2 c2].
  unfold sameObjects. simpl. by intros (-> & -> & ->).
Qed.

Lemma priorityRound_sameObjects p compare s1 s2 :
  sameObjects s1 s2 ->
  sameObjects (fst (Solver.priorityRound std_sort p compare s1))
              (fst (Solver.priorityRound std_sort p compare s2))
  /\ snd (Solver.priorityRound std_sort p compare s1)
     = snd (Solver.priorityRound std_sort p compare s2).
Proof.
  intros H. unfold Solver.priorityRound.
  rewrite (sortedReady_sameObjects p compare s1 s2 H).
  apply foldl_sameObjects; [|done|done].
  intros. by apply priorityVisit_sameObjects.
Qed.

Lemma whileLoop_sameObjects (round : Store -> Store * bool) :
  (forall s1 s2, sameObjects s1 s2 ->
     sameObjects (fst (round s1)) (fst (round s2))
     /\ snd (round s1) = snd (round s2)) ->
  forall n b i s1 s2, sameObjects s1 s2 ->
    sameObjects (fst (Solver.whileLoop round n b i s1))
                (fst (Solver.whileLoop round n b i s2))
    /\ snd (Solver.whileLoop round n b i s1) = snd (Solver.whileLoop round n b i s2).
Proof.
  intros Hr. induction n as [|n IH]; intros b i s1 s2 H; [done|].
  destruct b; [|by rewrite !whileLoop_false].
  rewrite !whileLoop_true. destruct (Hr s1 s2 H) as [H1 H2].
  rewrite H2. by apply IH.
Qed.

Lemma sameObjects_sym s s' : sameObjects s s' -> sameObjects s' s.
Proof. intros (O & J & M). repeat split; congruence. Qed.

Lemma sameObjects_trans s1 s2 s3 :
  sameObjects s1 s2 -> sameObjects s2 s3 -> sameObjects s1 s3.
Proof. intros (O1 & J1 & M1) (O2 & J2 & M2). repeat split; congruence. Qed.

(** The pass is a function of the store the resets leave. *)
Lemma schedule_sameObjects algorithm p s1 s2 :
  sameObjects (Solver.resetOperations p (Solver.resetMachines p s1))
              (Solver.resetOperations p (Solver.resetMachines p s2)) ->
  sameObjects (Solver.schedule std_sort algorithm p s1)
              (Solver.schedule std_sort algorithm p s2).
Proof.
  intros H.
  destruct algorithm;
    unfold Solver.schedule, Solver.scheduleFIFO, Solver.scheduleSPT,
      Solver.scheduleLPT, Solver.scheduleWithPriority; cbn zeta.
  - pose proof (whileLoop_sameObjects (Solver.fifoRound p)
                  (fifoRound_sameObjects p) 1000 true 0 _ _ H) as [H1 H2].
    destruct (Solver.whileLoop _ _ _ _ (Solver.resetOperations p (Solver.resetMachines p s1)))
      as [t1 i1].
    destruct (Solver.whileLoop _ _ _ _ (Solver.resetOperations p (Solver.resetMachines p s2)))
      as [t2 i2].
    simpl in H1, H2. subst i2.
    destruct (1000 <=? i1); [|done].
    eapply sameObjects_trans; [apply sameObjects_sym, sameObjects_writeCerr|].
    eapply sameObjects_trans; [exact H1|]. apply sameObjects_writeCerr.
  - apply (whileLoop_sameObjects _ (priorityRound_sameObjects p _)). exact H.
  - apply (whileLoop_sameObjects _ (priorityRound_sameObjects p _)). exact H.
Qed.

Lemma resetTimes_sameIdentity o o' :
  sameIdentity o o' -> resetTimes o' = resetTimes o.
Proof.
  destruct o, o'. unfold sameIdentity, resetTimes, Operation.setScheduled. simpl.
  by intros (-> & -> & -> & ->).
Qed.

(** The resets erase what a pass over the same problem has written. *)
Lemma resets_sameObjects p s s' :
  framed p s s' ->
  sameObjects (Solver.resetOperations p (Solver.resetMachines p s))
              (Solver.resetOperations p (Solver.resetMachines p s')).
Proof.
  intros (J & LO & LM & O & M). rewrite !resets_eq.
  rewrite (operationsOf_jobs p s s' J).
  split; [|split; [done|]]; simpl; apply list_eq; intros i;
    rewrite !foldl_alter_lookup by done.
  - destruct (operationObjs s !! i) as [o|] eqn:Eo.
    + destruct (O _ _ Eo) as (o' & -> & Hid & Hf). simpl.
      case_decide; [by rewrite (resetTimes_sameIdentity o o')|by rewrite Hf].
    + assert (operationObjs s' !! i = None) as ->.
      { apply lookup_ge_None. apply lookup_ge_None in Eo. lia. }
      by case_decide.
  - destruct (machineObjs s !! i) as [m|] eqn:Em.
    + destruct (M _ _ Em) as (m' & -> & Hid & Hf). simpl.
      case_decide; [|by rewrite Hf]. unfold Machine.reset. by rewrite Hid.
    + assert (machineObjs s' !! i = None) as ->.
      { apply lookup_ge_None. apply lookup_ge_None in Em. lia. }
      by case_decide.
Qed.

Hypothesis std_sort_contract : StdSortContract std_sort.

Lemma schedule_framed algorithm p s :
  framed p s (Solver.schedule std_sort algorithm p s).
Proof.
  destruct (schedule_steps_any std_sort std_sort_contract algorithm p s)
    as (s2 & Hsteps & Hsame).
  eapply framed_trans; [apply resets_framed|].
  eapply framed_trans; [|by apply sameObjects_framed].
  by eapply steps_framed.
Qed.

Lemma schedule_durationsKept algorithm p s :
  positiveDurations p s -> totalDuration p s <= INT_MAX ->
  durationsKept p (Solver.schedule std_sort algorithm p s).
Proof.
  intros Hpos Htot.
  destruct (schedule_steps_exact std_sort std_sort_contract algorithm p s Hpos Htot)
    as (s2 & Hsteps & _ & Hsame).
  assert (H1 : durationsKept p (Solver.resetOperations p (Solver.resetMachines p s))).
  { intros ja job oa o Hh. left. by eapply resets_unscheduled. }
  pose proof (steps_durationsKept _ _ _ _ (both_exactSum p (readyTimeOf p))
                H1 Hsteps) as H2.
  intros ja job oa o Hh. apply (sameObjects_heldBy _ _ _ _ _ _ _ Hsame) in Hh.
  by eapply H2.
Qed.

(** X1. A schedule pass changes nothing but the times of the problem's
    operations and the schedules of the problem's machines: the jobs, the
    number of objects, the jobId, machineId, processingTime and operationId
    of every operation and the machineId of every machine stay, and an
    operation or machine that is not the problem's is not written at all. *)
Theorem schedule_writes_only_the_schedule (algorithm : SchedulingAlgorithm)
    (p : ProblemInstance.t) (s : Store) :
  framed p s (Solver.schedule std_sort algorithm p s).
Proof. apply schedule_framed. Qed.

(** X2. After a schedule pass over a problem whose processing times are
    positive and add up to at most INT_MAX, every operation of the problem
    that is scheduled ends exactly processingTime after it starts, and an
    operation that is not scheduled has start and end 0. *)
Theorem schedule_keeps_durations (algorithm : SchedulingAlgorithm)
    (p : ProblemInstance.t) (s : Store) :
  positiveDurations p s -> totalDuration p s <= INT_MAX ->
  scheduledForDuration p (Solver.schedule std_sort algorithm p s).
Proof.
  intros Hpos Htot. by apply durationsKept_scheduledForDuration, schedule_durationsKept.
Qed.

(** X3. A schedule pass does not depend on what an earlier pass left behind:
    running rule [algorithm] after any rule [earlier] on the same problem
    gives the same operations, jobs and machines as running [algorithm]
    alone. In particular solving twice with one rule gives the same
    schedule. *)
Theorem schedule_forgets_earlier_pass (algorithm earlier : SchedulingAlgorithm)
    (p : ProblemInstance.t) (s : Store) :
  sameObjects (Solver.schedule std_sort algorithm p s)
              (Solver.schedule std_sort algorithm p
                 (Solver.schedule std_sort earlier p s)).
Proof. apply schedule_sameObjects, resets_sameObjects, schedule_framed. Qed.

End Frame.

Lemma schedule_writes_only_the_schedule_witness :
  StdSortContract insertionSort
  /\ framed simpleProblem simpleStore
       (Solver.schedule insertionSort SPT simpleProblem simpleStore).
Proof.
  split; [exact insertionSort_contract|].
  apply (schedule_writes_only_the_schedule insertionSort insertionSort_contract).
Defined.

Lemma schedule_keeps_durations_witness :
  StdSortContract insertionSort
  /\ positiveDurations simpleProblem simpleStore
  /\ totalDuration simpleProblem simpleStore <= INT_MAX
  /\ scheduledForDuration simpleProblem
       (Solver.schedule insertionSort LPT simpleProblem simpleStore).
Proof.
  split; [exact insertionSort_contract|].
  split; [apply positiveDurations_check; reflexivity|].
  split; [by vm_compute|].
  apply (schedule_keeps_durations insertionSort insertionSort_contract).
  - apply positiveDurations_check. reflexivity.
  - by vm_compute.
Defined.

Lemma schedule_forgets_earlier_pass_witness :
  StdSortContract insertionSort
  /\ sameObjects (Solver.schedule insertionSort FIFO simpleProblem simpleStore)
       (Solver.schedule insertionSort FIFO simpleProblem
          (Solver.schedule insertionSort LPT simpleProblem simpleStore)).
Proof.
  split; [exact insertionSort_contract|].
  apply (schedule_forgets_earlier_pass insertionSort insertionSort_contract).
Defined.

(** * How the metrics relate to one another and to the durations *)

Section MetricBounds.

Implicit Types (s : Store) (p : ProblemInstance.t) (o : Operation.t).

(** The running maximum only grows. *)
Lemma metricsLoop_fst_ge s js a b :
  a <= fst (foldl (fun acc ja =>
                     match jobObjs s !! ja with
                     | Some job =>
                         let c := ScheduleResult.jobCompletionTime s job in
                         (Z.max (fst acc) c, wrap (snd acc + c))
                     | None => acc
                     end) (a, b) js).
Proof.
  revert a b. induction js as [|ja js IH]; intros a b; simpl; [lia|].
  destruct (jobObjs s !! ja) as [job|]; cbn zeta; [|apply IH].
  cbn [fst snd]. etrans; [|apply IH]. lia.
Qed.

Lemma metricsLoop_ordered s js a b k :
  0 <= a <= b -> 0 <= k -> b <= k * a ->
  let r := foldl (fun acc ja =>
                    match jobObjs s !! ja with
                    | Some job =>
                        let c := ScheduleResult.jobCompletionTime s job in
                        (Z.max (fst acc) c, wrap (snd acc + c))
                    | None => acc
                    end) (a, b) js in
  (k + Z.of_nat (length js)) * fst r <= INT_MAX ->
  0 <= fst r <= snd r /\ snd r <= (k + Z.of_nat (length js)) * fst r.
Proof.
  pose proof (metricsLoop_fst_ge s) as Hge. revert Hge.
  set (f := fun (acc : Z * Z) (ja : nat) => _). intros Hge.
  revert a b k. induction js as [|ja js IH]; intros a b k Hab Hk Hb;
    cbn [foldl length]; cbn zeta.
  - cbn [fst snd]. intros _. lia.
  - rewrite Nat2Z.inj_succ.
    assert (Hf : f (a, b) ja
                 = match jobObjs s !! ja with
                   | Some job =>
                       (Z.max a (ScheduleResult.jobCompletionTime s job),
                        wrap (b + ScheduleResult.jobCompletionTime s job))
                   | None => (a, b)
                   end) by reflexivity.
    rewrite Hf. clear Hf.
    replace (k + Z.succ (Z.of_nat (length js)))
      with (k + 1 + Z.of_nat (length js)) by lia.
    destruct (jobObjs s !! ja) as [job|].
    + pose proof (jobCompletionTime_nonneg s job) as Hc.
      revert Hc. generalize (ScheduleResult.jobCompletionTime s job).
      intros c Hc Hmax.
      assert (Hsum : wrap (b + c) = b + c).
      { pose proof (Hge js (Z.max a c) (wrap (b + c))) as HM.
        revert HM Hmax. generalize (fst (foldl f (Z.max a c, wrap (b + c)) js)).
        intros M HM Hmax.
        apply wrap_exact. unfold INT_MIN. split; [lia|].
        assert (k * a <= k * M) by (apply Z.mul_le_mono_nonneg_l; lia).
        assert (0 <= Z.of_nat (length js) * M) by (apply Z.mul_nonneg_nonneg; lia).
        lia. }
      rewrite Hsum in *.
      apply (IH (Z.max a c) (b + c) (k + 1)); [lia|lia|nia|done].
    + intros Hmax. apply (IH a b (k + 1)); [lia|lia|nia|done].
Qed.

(** X4. When the number of jobs times the makespan is at most INT_MAX, the
    metrics [calculateMetrics] writes are ordered, whatever the store:
    0 <= makespan <= totalCompletionTime <= (number of jobs) * makespan. *)
Theorem calculateMetrics_ordered (s : Store) (r : ScheduleResult.t) :
  let r' := ScheduleResult.calculateMetrics s r in
  let n := Z.of_nat (length (ProblemInstance.jobs (ScheduleResult.problem r))) in
  n * ScheduleResult.makespan r' <= INT_MAX ->
  0 <= ScheduleResult.makespan r' <= ScheduleResult.totalCompletionTime r'
  /\ ScheduleResult.totalCompletionTime r' <= n * ScheduleResult.makespan r'.
Proof.
  cbn zeta. rewrite calculateMetrics_makespan, calculateMetrics_total.
  intros Hmax.
  pose proof (metricsLoop_ordered s (ProblemInstance.jobs (ScheduleResult.problem r))
                0 0 0) as H.
  cbn zeta in H. destruct H as [H1 H2]; [lia|lia|lia| |].
  - rewrite Z.add_0_l. exact Hmax.
  - fold (ScheduleResult.metricsLoop s
            (ProblemInstance.jobs (ScheduleResult.problem r))) in H1, H2.
    split; [done|]. lia.
Qed.

Variable std_sort : (addr -> addr -> bool) -> list addr -> list addr.
Hypothesis std_sort_contract : StdSortContract std_sort.

(** X5. When every operation of the problem has a positive processingTime
    and the processing times add up to at most INT_MAX, every start time,
    end time and machine availableTime that [solve] leaves lies between 0
    and the sum of the processing times, and so does the makespan of the
    result: no sum of the pass has left the range of int. *)
Theorem solve_times_bounded (algorithm : SchedulingAlgorithm)
    (p : ProblemInstance.t) (s : Store) :
  positiveDurations p s -> totalDuration p s <= INT_MAX ->
  let out := Solver.solve std_sort algorithm (Some p) s in
  timesWithin (totalDuration p s) p (fst out)
  /\ forall result, snd out = returned result ->
       0 <= ScheduleResult.makespan result <= totalDuration p s.
Proof.
  intros Hpos Htot. cbn zeta. rewrite solve_eq. cbn [fst snd].
  pose proof (schedule_timesWithin std_sort std_sort_contract algorithm p s
                Hpos Htot) as Hw.
  split; [done|]. intros result [= <-].
  set (s' := Solver.schedule std_sort algorithm p s) in *.
  rewrite calculateMetrics_makespan. cbn [ScheduleResult.problem].
  rewrite metricsLoop_spec. cbn [fst].
  assert (H0 : 0 <= totalDuration p s).
  { pose proof (committedDuration_range p s Hpos). lia. }
  split; [lia|].
  destruct (maximum (scheduledEnds s' p)) as [m|] eqn:E; simpl; [|lia].
  apply maximum_spec in E as [Hm _].
  unfold scheduledEnds in Hm.
  apply list_elem_of_In, in_flat_map in Hm as (job & Hjob & He).
  apply list_elem_of_In, jobsOf_elem in Hjob as (ja & Hja & Hjob).
  apply list_elem_of_In, jobScheduledEnds_elem in He as (oa & o & Hoa & Ho & Hs & <-).
  destruct Hw as [Hops _].
  assert (Hh : heldBy p s' ja job oa o) by (by repeat split).
  specialize (Hops _ _ _ _ Hh). lia.
Qed.

End MetricBounds.

Lemma solve_times_bounded_witness :
  StdSortContract insertionSort
  /\ positiveDurations simpleProblem simpleStore
  /\ totalDuration simpleProblem simpleStore <= INT_MAX
  /\ timesWithin (totalDuration simpleProblem simpleStore) simpleProblem
       (fst (Solver.solve insertionSort SPT (Some simpleProblem) simpleStore)).
Proof.
  split; [exact insertionSort_contract|].
  split; [apply positiveDurations_check; reflexivity|].
  split; [by vm_compute|].
  apply (solve_times_bounded insertionSort insertionSort_contract SPT
           simpleProblem simpleStore).
  - apply positiveDurations_check. reflexivity.
  - by vm_compute.
Defined.

Lemma calculateMetrics_ordered_witness :
  2 * ScheduleResult.makespan
        (ScheduleResult.calculateMetrics
           (fst (Solver.solve insertionSort SPT (Some longShortProblem)
                   longShortStore))
           (ScheduleResult.mk longShortProblem [] 0 0 positiveZero)) <= INT_MAX
  /\ 0 <= ScheduleResult.makespan
            (ScheduleResult.calculateMetrics
               (fst (Solver.solve insertionSort SPT (Some longShortProblem)
                       longShortStore))
               (ScheduleResult.mk longShortProblem [] 0 0 positiveZero))
       <= ScheduleResult.totalCompletionTime
            (ScheduleResult.calculateMetrics
               (fst (Solver.solve insertionSort SPT (Some longShortProblem)
                       longShortStore))
               (ScheduleResult.mk longShortProblem [] 0 0 positiveZero))
  /\ ScheduleResult.totalCompletionTime
       (ScheduleResult.calculateMetrics
          (fst (Solver.solve insertionSort SPT (Some longShortProblem)
                  longShortStore))
          (ScheduleResult.mk longShortProblem [] 0 0 positiveZero))
     <= 2 * ScheduleResult.makespan
              (ScheduleResult.calculateMetrics
                 (fst (Solver.solve insertionSort SPT (Some longShortProblem)
                         longShortStore))
                 (ScheduleResult.mk longShortProblem [] 0 0 positiveZero)).
Proof.
  split; [by vm_compute|].
  apply (calculateMetrics_ordered
           (fst (Solver.solve insertionSort SPT (Some longShortProblem)
                   longShortStore))
           (ScheduleResult.mk longShortProblem [] 0 0 positiveZero)).
  by vm_compute.
Defined.

(** * How many rounds a pass takes *)

Section Rounds.

Implicit Types (s : Store) (p : ProblemInstance.t) (o : Operation.t).
Implicit Types (st : Store * bool).

Lemma foldl_fixed {A B} (f : B -> A -> B) (b : B) (l : list A) :
  (forall y, y ∈ l -> f b y = b) -> foldl f b l = b.
Proof.
  induction l as [|y l IH]; intros H; simpl; [done|].
  rewrite (H y) by (by left). apply IH. intros z Hz. apply H. by right.
Qed.

(** A round over a problem with nothing left to schedule does nothing. *)
Lemma fifoRound_idle p s : allScheduled p s -> Solver.fifoRound p s = (s, false).
Proof.
  intros Hall. unfold Solver.fifoRound. apply foldl_fixed. intros ja Hja.
  unfold Solver.fifoJob. cbn [fst].
  destruct (jobObjs s !! ja) as [job|] eqn:Ej; [|done].
  apply foldl_fixed. intros oa Hoa. unfold Solver.fifoVisit. cbn [fst].
  destruct (operationObjs s !! oa) as [o|] eqn:Eo; [|done].
  assert (Hh : heldBy p s ja job oa o) by (by repeat split).
  by rewrite (Hall _ _ _ _ Hh).
Qed.

Variable std_sort : (addr -> addr -> bool) -> list addr -> list addr.
Hypothesis std_sort_contract : StdSortContract std_sort.

Lemma priorityRound_idle p compare s :
  allScheduled p s -> Solver.priorityRound std_sort p compare s = (s, false).
Proof.
  intros Hall. unfold Solver.priorityRound. apply foldl_fixed. intros oa Hoa.
  apply (sortedReady_elem std_sort std_sort_contract) in Hoa.
  unfold Solver.priorityVisit. cbn [fst].
  destruct (operationObjs s !! oa) as [o|] eqn:Eo; [|done].
  destruct (ready_held _ _ _ _ _ Hoa (evolves_refl s) Eo) as (ja & job & Hh & _).
  by rewrite (Hall _ _ _ _ Hh).
Qed.

Lemma scheduledUpTo_all m p s :
  jobsAtMost m p s -> scheduledUpTo m p s -> allScheduled p s.
Proof.
  intros Hlen Hup ja job oa o Hh. apply (Hup _ _ _ _ Hh).
  pose proof Hh as (Hja & Hjob & Hoa & Ho).
  pose proof (depth_lt_length _ _ _ _ Hoa Ho).
  specialize (Hlen _ _ Hja Hjob). lia.
Qed.

(** When no job has more than [m] operations the loop runs at most [m + 1]
    rounds. *)
Lemma whileLoop_iterations p (round : Store -> Store * bool) (m : nat) :
  (forall s, moved p (readyTimeOf p) (s, false) (round s)) ->
  (forall s r, schedulable p s -> scheduledUpTo r p s ->
               scheduledUpTo (S r) p (fst (round s))) ->
  (forall s, allScheduled p s -> snd (round s) = false) ->
  forall n b i s r,
    schedulable p s -> jobsAtMost m p s -> scheduledUpTo r p s -> (r <= m)%nat ->
    snd (Solver.whileLoop round n b i s) <= i + Z.of_nat (m + 1 - r).
Proof.
  intros Hev Hprog Hidle. induction n as [|n IH]; intros b i s r Hsch Hlen Hup Hr.
  - simpl. lia.
  - destruct b; [|rewrite whileLoop_false; simpl; lia].
    rewrite whileLoop_true.
    destruct (decide (r = m)) as [->|Hne].
    + rewrite (Hidle s) by (by eapply scheduledUpTo_all).
      rewrite whileLoop_false. simpl. lia.
    + pose proof (Hev s) as He.
      etrans; [apply (IH _ _ _ (S r))|lia].
      * eapply schedulable_steps; [exact Hsch|exact (proj1 He)].
      * eapply jobsAtMost_sameShape; [|done].
        apply evolves_sameShape, (moved_evolves _ _ _ _ He).
      * by apply Hprog.
      * lia.
Qed.

(** X6. On a problem in which every operation names an existing machine and
    has a positive processingTime, the processing times add up to at most
    INT_MAX (2147483647) and no job has more than 998 operations, [solve]
    writes nothing to the error stream: the warning of the 1000-round limit
    is not printed. *)
Theorem solve_prints_no_warning (algorithm : SchedulingAlgorithm)
    (p : ProblemInstance.t) (s : Store) :
  machinesExist p s -> positiveDurations p s -> totalDuration p s <= INT_MAX ->
  jobsAtMost 998 p s ->
  cerr (fst (Solver.solve std_sort algorithm (Some p) s)) = cerr s.
Proof.
  intros Hm Hpos Htot Hlen. rewrite solve_eq. cbn [fst].
  destruct algorithm.
  - unfold Solver.schedule, Solver.scheduleFIFO. cbn zeta.
    set (s1 := Solver.resetOperations p (Solver.resetMachines p s)).
    assert (Hsch1 : schedulable p s1) by (by apply resets_schedulable).
    assert (Hlen1 : jobsAtMost 998 p s1).
    { eapply jobsAtMost_sameShape; [apply resets_sameShape|done]. }
    assert (Hup0 : scheduledUpTo 0 p s1) by (intros ja job oa o _ Hd; lia).
    pose proof (whileLoop_iterations p (Solver.fifoRound p) 998
                  (fifoRound_readyTimeOf p)
                  (fun s r => fifoRound_progress p s r)
                  (fun s H => f_equal snd (fifoRound_idle p s H))
                  1000 true 0 s1 0%nat Hsch1 Hlen1 Hup0 ltac:(lia)) as Hit.
    pose proof (whileLoop_cerr (Solver.fifoRound p) (fifoRound_cerr p)
                  1000 true 0 s1) as Hc.
    destruct (Solver.whileLoop _ _ _ _ _) as [s2 it]. cbn [fst snd] in Hit, Hc.
    destruct (1000 <=? it) eqn:E; [apply Z.leb_le in E; lia|].
    rewrite Hc. apply resets_cerr.
  - destruct (schedule_cerr std_sort SPT p s) as [H|[H _]]; [done|discriminate].
  - destruct (schedule_cerr std_sort LPT p s) as [H|[H _]]; [done|discriminate].
Qed.

(** ** FIFO on jobs listed in the order of their operationIds *)

Lemma idsIncrease_sameShape p s s' :
  sameShape s s' -> idsIncrease p s -> idsIncrease p s'.
Proof.
  intros Hs H ja job i j a b oa ob Hja Hjob Hij Ha Hb Hoa Hob.
  destruct (sameShape_lookup_back _ _ _ _ Hs Hoa) as (oa0 & Hoa0 & _ & _ & _ & Ea).
  destruct (sameShape_lookup_back _ _ _ _ Hs Hob) as (ob0 & Hob0 & _ & _ & _ & Eb).
  rewrite Ea, Eb. destruct Hs as (J & _). rewrite J in Hjob.
  by eapply (H ja job i j a b).
Qed.

(** Once FIFO has gone through a prefix of a job's list, the operations of
    the prefix are scheduled. *)
Lemma fifoOps_prefix p ja job st :
  ja ∈ ProblemInstance.jobs p -> jobObjs (fst st) !! ja = Some job ->
  schedulable p (fst st) -> idsIncrease p (fst st) ->
  forall l1 l2, Job.operations job = l1 ++ l2 ->
    forall a o, a ∈ l1 -> operationObjs (fst st) !! a = Some o ->
      scheduledAt (fst (foldl (Solver.fifoVisit p job) st l1)) a.
Proof.
  intros Hja Hjob Hsch Hinc.
  induction l1 as [|x l IH] using rev_ind; intros l2 Hl a o Ha Ho;
    [by apply elem_of_nil in Ha|].
  rewrite foldl_app. simpl.
  set (st' := foldl (Solver.fifoVisit p job) st l).
  assert (Hsub : forall y, y ∈ l ++ [x] -> y ∈ Job.operations job).
  { intros y Hy. rewrite Hl. apply elem_of_app. by left. }
  assert (Hmv : moved p afterPredecessors st st').
  { apply (fifoOps_moved p ja job l Hja); [|done].
    intros y Hy. apply Hsub, elem_of_app. by left. }
  pose proof (moved_evolves _ _ _ _ Hmv) as He.
  assert (Hjob' : jobObjs (fst st') !! ja = Some job).
  { destruct He as (J & _). by rewrite J. }
  assert (Hx : x ∈ Job.operations job).
  { apply Hsub, elem_of_app. right. by left. }
  assert (Hmv' : moved p afterPredecessors st' (Solver.fifoVisit p job st' x)).
  { by apply (fifoVisit_moved p ja). }
  apply elem_of_app in Ha as [Ha|Ha].
  - eapply scheduledAt_evolves; [exact (moved_evolves _ _ _ _ Hmv')|].
    eapply (IH ([x] ++ l2)); [by rewrite Hl, <- app_assoc|done|exact Ho].
  - apply list_elem_of_singleton in Ha as ->.
    destruct (evolves_lookup _ _ _ _ He Ho) as (o' & Ho' & _).
    eapply (fifoVisit_schedules p ja job st' x o').
    + by repeat split.
    + eapply schedulable_steps; [exact Hsch|].
      eapply steps_weaken; [apply afterPredecessors_readyTimeOf|exact (proj1 Hmv)].
    + intros a' q Ha' Hq Hid.
      apply list_elem_of_lookup in Ha' as [i Hi].
      assert (Hpos : Job.operations job !! length l = Some x).
      { rewrite Hl, <- app_assoc. rewrite lookup_app_r by lia.
        by rewrite Nat.sub_diag. }
      pose proof (idsIncrease_sameShape _ _ _ (evolves_sameShape _ _ He) Hinc) as Hinc'.
      destruct (Nat.lt_total i (length l)) as [Hlt|[->|Hgt]].
      * assert (Hin : a' ∈ l).
        { rewrite Hl, <- app_assoc in Hi. rewrite lookup_app_l in Hi by done.
          by eapply list_elem_of_lookup_2. }
        destruct (evolves_lookup_back _ _ _ _ He Hq) as (q0 & Hq0 & _).
        destruct (IH ([x] ++ l2) ltac:(by rewrite Hl, <- app_assoc) a' q0 Hin Hq0)
          as (q' & Hq' & Hs).
        fold st' in Hq'. congruence.
      * assert (a' = x) as -> by congruence.
        assert (q = o') as -> by congruence. lia.
      * pose proof (Hinc' ja job _ _ x a' o' q Hja Hjob' Hgt Hpos Hi Ho' Hq). lia.
Qed.

Lemma fifoRound_all p s :
  schedulable p s -> idsIncrease p s -> allScheduled p (fst (Solver.fifoRound p s)).
Proof.
  intros Hsch Hinc ja job oa o' Hh'.
  pose proof (moved_evolves _ _ _ _ (fifoRound_moved p s)) as He. cbn [fst] in He.
  destruct (evolves_heldBy_back _ _ _ _ _ _ _ He Hh') as (o & Hh & _).
  pose proof Hh as (Hja & Hjob & Hoa & Ho).
  assert (H : scheduledAt (fst (Solver.fifoRound p s)) oa).
  { unfold Solver.fifoRound.
    apply (foldl_reaches (fun s s' => rtc (step p (readyTimeOf p)) s s')
             _ ja (fun s => scheduledAt s oa) s);
      [apply passes_refl|apply passes_trans| |
       |intros ? ?; apply scheduledAt_steps|done|apply passes_refl].
    - intros st y Hy Hst.
      eapply steps_weaken; [apply afterPredecessors_readyTimeOf|].
      by apply fifoJob_moved.
    - intros st Hst. unfold Solver.fifoJob.
      pose proof (steps_evolves _ _ _ _ Hst) as Hev.
      assert (Hjob1 : jobObjs (fst st) !! ja = Some job).
      { destruct Hev as (J & _). by rewrite J. }
      rewrite Hjob1.
      destruct (evolves_lookup _ _ _ _ Hev Ho) as (o1 & Ho1 & _).
      eapply (fifoOps_prefix p ja job st Hja Hjob1); [| | |done|exact Ho1].
      + by eapply schedulable_steps.
      + eapply idsIncrease_sameShape; [by apply evolves_sameShape|done].
      + by rewrite app_nil_r. }
  destruct H as (q & Hq & Hs). destruct Hh' as (_ & _ & _ & Ho'). congruence.
Qed.

Lemma whileLoop_settles (round : Store -> Store * bool) n i s :
  round (fst (round s)) = (fst (round s), false) ->
  fst (Solver.whileLoop round (S (S n)) true i s) = fst (round s)
  /\ snd (Solver.whileLoop round (S (S n)) true i s) <= i + 2.
Proof.
  intros H. rewrite whileLoop_true.
  destruct (snd (round s)).
  - rewrite whileLoop_true, H. cbn [fst snd]. rewrite whileLoop_false.
    cbn [fst snd]. split; [done|lia].
  - rewrite whileLoop_false. cbn [fst snd]. split; [done|lia].
Qed.

Lemma scheduleFIFO_one_round p s :
  machinesExist p s -> positiveDurations p s -> totalDuration p s <= INT_MAX ->
  idsIncrease p s ->
  Solver.schedule std_sort FIFO p s
  = fst (Solver.fifoRound p (Solver.resetOperations p (Solver.resetMachines p s)))
  /\ allScheduled p (Solver.schedule std_sort FIFO p s)
  /\ cerr (Solver.schedule std_sort FIFO p s) = cerr s.
Proof.
  intros Hm Hpos Htot Hinc.
  set (s1 := Solver.resetOperations p (Solver.resetMachines p s)).
  assert (Hsch1 : schedulable p s1) by (by apply resets_schedulable).
  assert (Hinc1 : idsIncrease p s1).
  { eapply idsIncrease_sameShape; [apply resets_sameShape|done]. }
  pose proof (fifoRound_all p s1 Hsch1 Hinc1) as Hall.
  pose proof (whileLoop_settles (Solver.fifoRound p) 998 0 s1
                (fifoRound_idle p _ Hall)) as [H1 H2].
  assert (E : Solver.schedule std_sort FIFO p s = fst (Solver.fifoRound p s1)).
  { unfold Solver.schedule, Solver.scheduleFIFO. cbn zeta. fold s1.
    destruct (Solver.whileLoop _ _ _ _ _) as [s2 it]. cbn [fst snd] in H1, H2.
    destruct (1000 <=? it) eqn:E; [apply Z.leb_le in E; lia|done]. }
  split; [done|]. rewrite E. split; [done|].
  rewrite fifoRound_cerr. apply resets_cerr.
Qed.

(** X7. When every operation names an existing machine and has a positive
    processingTime, the processing times add up to at most INT_MAX
    (2147483647) and each job lists its operations in increasing order of
    operationId, FIFO schedules every operation of the problem in its first
    round, however long the jobs are, and prints no warning. *)
Theorem fifo_needs_one_round (p : ProblemInstance.t) (s : Store) :
  machinesExist p s -> positiveDurations p s -> totalDuration p s <= INT_MAX ->
  idsIncrease p s ->
  Solver.schedule std_sort FIFO p s
  = fst (Solver.fifoRound p (Solver.resetOperations p (Solver.resetMachines p s)))
  /\ allScheduled p (Solver.schedule std_sort FIFO p s)
  /\ cerr (Solver.schedule std_sort FIFO p s) = cerr s.
Proof. apply scheduleFIFO_one_round. Qed.

End Rounds.

Lemma solve_prints_no_warning_witness :
  machinesExist simpleProblem simpleStore
  /\ positiveDurations simpleProblem simpleStore
  /\ totalDuration simpleProblem simpleStore <= INT_MAX
  /\ jobsAtMost 998 simpleProblem simpleStore
  /\ cerr (fst (Solver.solve insertionSort FIFO (Some simpleProblem) simpleStore))
     = cerr simpleStore.
Proof.
  split; [apply machinesExist_check; reflexivity|].
  split; [apply positiveDurations_check; reflexivity|].
  split; [by vm_compute|].
  split; [apply jobsAtMost_check; reflexivity|].
  apply (solve_prints_no_warning insertionSort FIFO simpleProblem simpleStore).
  - apply machinesExist_check. reflexivity.
  - apply positiveDurations_check. reflexivity.
  - by vm_compute.
  - apply jobsAtMost_check. reflexivity.
Defined.

Lemma simple_idsIncrease : idsIncrease simpleProblem simpleStore.
Proof.
  intros ja job i j a b oa ob Hja Hjob Hij Ha Hb Hoa Hob.
  repeat (apply elem_of_cons in Hja as [->|Hja]);
    [| | |by apply elem_of_nil in Hja];
    injection Hjob as <-;
    (destruct i as [|[|[|i]]]; [| | |done]);
    (destruct j as [|[|[|j]]]; [| | |done]);
    try lia; simpl in Ha, Hb;
    injection Ha as <-; injection Hb as <-;
    injection Hoa as <-; injection Hob as <-; simpl; lia.
Qed.

Lemma fifo_needs_one_round_witness :
  machinesExist simpleProblem simpleStore
  /\ positiveDurations simpleProblem simpleStore
  /\ totalDuration simpleProblem simpleStore <= INT_MAX
  /\ idsIncrease simpleProblem simpleStore
  /\ allScheduled simpleProblem
       (Solver.schedule insertionSort FIFO simpleProblem simpleStore).
Proof.
  split; [apply machinesExist_check; reflexivity|].
  split; [apply positiveDurations_check; reflexivity|].
  split; [by vm_compute|].
  split; [exact simple_idsIncrease|].
  apply (fifo_needs_one_round insertionSort simpleProblem simpleStore).
  - apply machinesExist_check. reflexivity.
  - apply positiveDurations_check. reflexivity.
  - by vm_compute.
  - exact simple_idsIncrease.
Defined.

(** * The machine lists *)

Section Lists.

Implicit Types (s : Store) (p : ProblemInstance.t) (o : Operation.t).

Lemma findMachine_intro p s machineId ma machine :
  ProblemInstance.getMachine p machineId = Some ma ->
  machineObjs s !! ma = Some machine ->
  Solver.findMachine p s machineId = Some (ma, machine).
Proof. intros H1 H2. unfold Solver.findMachine. by rewrite H1, H2. Qed.

Lemma findMachine_getMachine p s machineId ma machine :
  Solver.findMachine p s machineId = Some (ma, machine) ->
  ProblemInstance.getMachine p machineId = Some ma.
Proof.
  unfold Solver.findMachine.
  destruct (ProblemInstance.getMachine p machineId) as [ma'|]; [|done].
  destruct (machineObjs s !! ma'); [|done]. by intros [= -> _].
Qed.

Lemma step_listsAgree p ok s s' :
  (forall s job o jr, ok s job o jr -> exactSum p s job o jr) ->
  positiveDurations p s -> listsAgree p s -> step p ok s s' -> listsAgree p s'.
Proof.
  intros Hex Hpos (Ha & Hb & Hc) Hstep.
  inversion Hstep as [s0 ja job oa o ma machine jr Hh Hu Hm Hok E1 E2].
  subst s0 s'. clear Hstep.
  pose proof (Hex _ _ _ _ Hok ma machine Hm) as Hsum.
  destruct (findMachine_Some _ _ _ _ _ Hm) as [Hma Hmach].
  pose proof (findMachine_getMachine _ _ _ _ _ Hm) as Hget.
  pose proof (Hpos _ _ _ _ Hh) as Hpt.
  pose proof Hh as (Hja & Hjob & Hoa & Ho).
  assert (Hother : forall m l a, m ∈ ProblemInstance.machines p ->
            machineObjs s !! m = Some l ->
            a ∈ Machine.scheduledOperations l -> a <> oa).
  { intros m l a Hm' Hl Hin ->.
    destruct (Ha m l oa Hm' Hl Hin) as (ja1 & job1 & o1 & (_ & _ & _ & Ho1) & Hs1 & _).
    congruence. }
  rewrite (commit_exact _ _ _ _ _ _ Hsum). cbn zeta.
  set (st := Z.max (Machine.availableTime machine) jr).
  set (o' := Operation.setScheduled st (st + Operation.processingTime o) o).
  assert (Hs' : Operation.isScheduled o' = true).
  { apply isScheduled_true. simpl. lia. }
  assert (Hnew : <[oa := o']> (operationObjs s) !! oa = Some o').
  { apply list_lookup_insert_eq. by eapply lookup_lt_Some. }
  split; [|split].
  - intros ma1 machine1 a Hma1 Hm1 Hin. simpl in Hm1.
    assert (Hcase : a = oa \/ exists l, machineObjs s !! ma1 = Some l
                                 /\ a ∈ Machine.scheduledOperations l).
    { destruct (decide (ma1 = ma)) as [->|Hne].
      - rewrite list_lookup_insert_eq in Hm1 by (by eapply lookup_lt_Some).
        injection Hm1 as <-. simpl in Hin.
        apply elem_of_app in Hin as [Hin|Hin%list_elem_of_singleton]; [|by left].
        right. by exists machine.
      - rewrite list_lookup_insert_ne in Hm1 by done. right. by exists machine1. }
    destruct Hcase as [->|(l & Hl & Hin')].
    + exists ja, job, o'. split; [repeat split; try done; by apply Hnew|].
      split; [done|].
      destruct (decide (ma1 = ma)) as [->|Hne]; [done|].
      rewrite list_lookup_insert_ne in Hm1 by done.
      destruct (Hother ma1 machine1 oa Hma1 Hm1 Hin eq_refl).
    + destruct (Ha ma1 l a Hma1 Hl Hin') as (ja1 & job1 & o1 & (H1 & H2 & H3 & H4) & Hs1 & Hg1).
      exists ja1, job1, o1. split; [|done]. repeat split; try done. simpl.
      rewrite list_lookup_insert_ne; [done|]. intros <-. by eapply Hother.
  - intros ja1 job1 a q (H1 & H2 & H3 & H4) Hs. simpl in H2, H4.
    destruct (decide (a = oa)) as [->|Hne].
    + rewrite Hnew in H4. injection H4 as <-.
      eexists ma, _. split.
      * apply findMachine_intro; [exact Hget|]. simpl.
        apply list_lookup_insert_eq. by eapply lookup_lt_Some.
      * simpl. apply elem_of_app. right. by left.
    + rewrite list_lookup_insert_ne in H4 by done.
      destruct (Hb ja1 job1 a q) as (ma1 & machine1 & Hf & Hin); [by repeat split|done|].
      destruct (findMachine_Some _ _ _ _ _ Hf) as [Hma1 Hm1].
      pose proof (findMachine_getMachine _ _ _ _ _ Hf) as Hg1.
      destruct (decide (ma1 = ma)) as [->|Hnem].
      * eexists ma, _. split.
        -- apply findMachine_intro; [exact Hg1|]. simpl.
           apply list_lookup_insert_eq. by eapply lookup_lt_Some.
        -- simpl. apply elem_of_app. left. congruence.
      * exists ma1, machine1. split; [|done].
        apply findMachine_intro; [exact Hg1|]. simpl.
        by rewrite list_lookup_insert_ne.
  - intros ma1 machine1 Hma1 Hm1. simpl in Hm1.
    destruct (decide (ma1 = ma)) as [->|Hne].
    + rewrite list_lookup_insert_eq in Hm1 by (by eapply lookup_lt_Some).
      injection Hm1 as <-. simpl. apply NoDup_app. split; [by eapply Hc|].
      split; [|apply NoDup_singleton].
      intros a Hin ->%list_elem_of_singleton. by eapply Hother.
    + rewrite list_lookup_insert_ne in Hm1 by done. by eapply Hc.
Qed.

Lemma steps_listsAgree p ok s s' :
  (forall s job o jr, ok s job o jr -> exactSum p s job o jr) ->
  positiveDurations p s -> listsAgree p s -> rtc (step p ok) s s' -> listsAgree p s'.
Proof.
  intros Hex Hpos Hinv H. induction H as [|s1 s2 s3 Hs _ IH]; [done|].
  apply IH.
  - apply (positiveDurations_sameShape p s1 s2); [|done].
    apply evolves_sameShape. by eapply step_evolves.
  - by eapply (step_listsAgree p ok).
Qed.

Lemma resets_listsAgree p s :
  listsAgree p (Solver.resetOperations p (Solver.resetMachines p s)).
Proof.
  split; [|split].
  - intros ma machine oa Hma Hm Hin.
    destruct (resets_machines _ _ _ _ Hma Hm) as [E _]. rewrite E in Hin.
    by apply elem_of_nil in Hin.
  - intros ja job oa o Hh Hs.
    pose proof (resets_nothing_scheduled _ _ _ _ _ _ Hh). congruence.
  - intros ma machine Hma Hm.
    destruct (resets_machines _ _ _ _ Hma Hm) as [-> _]. apply NoDup_nil_2.
Qed.

Lemma sameObjects_listsAgree p s s' :
  sameObjects s s' -> listsAgree p s -> listsAgree p s'.
Proof.
  intros Hsame (Ha & Hb & Hc). pose proof Hsame as (O & J & M).
  split; [|split].
  - intros ma machine oa Hma Hm Hin. rewrite M in Hm.
    destruct (Ha _ _ _ Hma Hm Hin) as (ja & job & o & Hh & Hs & Hg).
    exists ja, job, o. split; [|done]. by apply (sameObjects_heldBy _ _ _ _ _ _ _ Hsame).
  - intros ja job oa o Hh Hs. apply (sameObjects_heldBy _ _ _ _ _ _ _ Hsame) in Hh.
    destruct (Hb _ _ _ _ Hh Hs) as (ma & machine & Hf & Hin).
    exists ma, machine. split; [|done].
    apply findMachine_intro; [by eapply findMachine_getMachine|].
    rewrite M. by apply (findMachine_Some _ _ _ _ _ Hf).
  - intros ma machine Hma Hm. rewrite M in Hm. by eapply Hc.
Qed.

(** ** Start times *)

Lemma jobReadyTime_frame s s' job o o' :
  Operation.operationId o' = Operation.operationId o ->
  (forall pa, pa ∈ Job.operations job ->
     operationObjs s' !! pa = operationObjs s !! pa
     \/ exists q q', operationObjs s !! pa = Some q /\ operationObjs s' !! pa = Some q'
          /\ Operation.operationId q' = Operation.operationId q
          /\ Operation.operationId o <= Operation.operationId q) ->
  Solver.jobReadyTime s' job o' = Solver.jobReadyTime s job o.
Proof.
  intros Hid. unfold Solver.jobReadyTime. generalize 0.
  induction (Job.operations job) as [|pa l IH]; intros acc H; simpl; [done|].
  rewrite IH by (intros x Hx; apply H; by right). f_equal.
  destruct (H pa ltac:(by left)) as [->|(q & q' & -> & -> & Hq & Hle)].
  - by rewrite Hid.
  - rewrite Hid, Hq.
    by destruct (Operation.operationId q <? Operation.operationId o) eqn:E;
      [apply Z.ltb_lt in E; lia|].
Qed.

Lemma step_startsAsSoonAsPossible p s s' :
  positiveDurations p s -> predecessorsFirst p s -> machineInvariant p s ->
  listsAgree p s -> startsAsSoonAsPossible p s ->
  step p (both afterPredecessors (exactSum p)) s s' ->
  startsAsSoonAsPossible p s'.
Proof.
  intros Hpos Hfirst Hmi (Ha & _ & _) Hinv Hstep.
  inversion Hstep as [s0 ja job oa o ma machine jr Hh Hu Hm [[Hall Hjr] Hex] E1 E2].
  subst s0 s'. clear Hstep.
  pose proof (Hex ma machine Hm) as Hsum.
  destruct (findMachine_Some _ _ _ _ _ Hm) as [Hma Hmach].
  pose proof (Hpos _ _ _ _ Hh) as Hpt.
  pose proof Hh as (Hja & Hjob & Hoa & Ho).
  assert (Hother : forall m l a, m ∈ ProblemInstance.machines p ->
            machineObjs s !! m = Some l ->
            a ∈ Machine.scheduledOperations l -> a <> oa).
  { intros m l a Hm' Hl Hin ->.
    destruct (Ha m l oa Hm' Hl Hin) as (ja1 & job1 & o1 & (_ & _ & _ & Ho1) & Hs1 & _).
    congruence. }
  rewrite (commit_exact _ _ _ _ _ _ Hsum). cbn zeta.
  set (st := Z.max (Machine.availableTime machine) jr).
  set (o' := Operation.setScheduled st (st + Operation.processingTime o) o).
  set (s' := mkStore _ _ _ _).
  assert (Hnew : operationObjs s' !! oa = Some o').
  { simpl. apply list_lookup_insert_eq. by eapply lookup_lt_Some. }
  assert (Hold : forall a, a <> oa -> operationObjs s' !! a = operationObjs s !! a).
  { intros a Hne. simpl. by rewrite list_lookup_insert_ne. }
  (* an operation already listed keeps its equation *)
  assert (Hkeep : forall ma1 l k a, ma1 ∈ ProblemInstance.machines p ->
            machineObjs s !! ma1 = Some l ->
            Machine.scheduledOperations l !! k = Some a ->
            exists ja1 job1 o1, heldBy p s' ja1 job1 a o1
              /\ Operation.startTime o1
                 = Z.max (endOfLast s' 0 (take k (Machine.scheduledOperations l)))
                         (Solver.jobReadyTime s' job1 o1)).
  { intros ma1 l k a Hma1 Hl Hk.
    destruct (Hinv ma1 l k a Hma1 Hl Hk) as (ja1 & job1 & o1 & Hh1 & Hst).
    pose proof Hh1 as (H1 & H2 & H3 & H4).
    assert (Hne : a <> oa).
    { eapply Hother; [exact Hma1|exact Hl|]. by eapply list_elem_of_lookup_2. }
    destruct (Ha ma1 l a Hma1 Hl ltac:(by eapply list_elem_of_lookup_2))
      as (ja2 & job2 & o2 & (_ & _ & _ & Ho2) & Hs2 & _).
    assert (o2 = o1) as -> by congruence.
    exists ja1, job1, o1. split.
    { repeat split; try done. by rewrite Hold. }
    rewrite Hst. f_equal.
    - symmetry. apply endOfLast_frame. intros x Hx. apply Hold.
      apply elem_of_take in Hx as (i & Hi & _).
      eapply Hother; [exact Hma1|exact Hl|]. by eapply list_elem_of_lookup_2.
    - symmetry. apply jobReadyTime_frame; [done|]. intros pa Hpa.
      destruct (decide (pa = oa)) as [->|Hpne]; [|left; by apply Hold].
      right. exists o, o'. split; [done|]. split; [done|]. split; [done|].
      destruct (Z.le_gt_cases (Operation.operationId o1) (Operation.operationId o))
        as [Hle|Hgt]; [done|].
      assert (Hho : heldBy p s ja1 job1 oa o) by (by repeat split).
      pose proof (Hfirst ja1 job1 oa a o o1 Hho Hh1 ltac:(lia) Hs2). congruence. }
  intros ma1 machine1 k a Hma1 Hm1 Hk. simpl in Hm1.
  destruct (decide (ma1 = ma)) as [->|Hne].
  - rewrite list_lookup_insert_eq in Hm1 by (by eapply lookup_lt_Some).
    injection Hm1 as <-. simpl in Hk |- *.
    destruct (decide (k < length (Machine.scheduledOperations machine))%nat)
      as [Hlt|Hge].
    + rewrite lookup_app_l in Hk by done.
      rewrite take_app_le by lia. by eapply Hkeep.
    + rewrite lookup_app_r in Hk by lia.
      apply list_lookup_singleton_Some in Hk as [Hk0 <-].
      assert (k = length (Machine.scheduledOperations machine)) as -> by lia.
      rewrite take_app_length.
      exists ja, job, o'. split; [by repeat split|].
      destruct (Hmi ma machine Hma Hmach) as [_ Hav].
      change (Operation.startTime o') with st. unfold st. f_equal.
      * rewrite Hav. symmetry. apply endOfLast_frame. intros x Hx. apply Hold.
        by eapply Hother.
      * rewrite Hjr. symmetry. apply jobReadyTime_frame; [done|]. intros pa Hpa.
        destruct (decide (pa = oa)) as [->|Hpne]; [|left; by apply Hold].
        right. exists o, o'. split; [done|]. split; [done|]. split; [done|]. lia.
  - rewrite list_lookup_insert_ne in Hm1 by done. by eapply Hkeep.
Qed.

Variable std_sort : (addr -> addr -> bool) -> list addr -> list addr.
Hypothesis std_sort_contract : StdSortContract std_sort.

(** X8. After a schedule pass over a problem whose operations all have a
    positive processingTime and whose processing times add up to at most
    INT_MAX (2147483647), the machine lists and the operations tell the same
    schedule: an operation is on the scheduledOperations list of a machine
    of the problem exactly when it is a scheduled operation of the problem
    whose machineId names that machine, and no list holds an operation
    twice. *)
Theorem schedule_lists_agree (algorithm : SchedulingAlgorithm)
    (p : ProblemInstance.t) (s : Store) :
  positiveDurations p s -> totalDuration p s <= INT_MAX ->
  listsAgree p (Solver.schedule std_sort algorithm p s).
Proof.
  intros Hpos Htot.
  destruct (schedule_steps_exact std_sort std_sort_contract algorithm p s Hpos Htot)
    as (s2 & Hsteps & _ & Hsame).
  apply (sameObjects_listsAgree p s2); [done|].
  eapply (steps_listsAgree p _ _ _ (both_exactSum p (readyTimeOf p)));
    [|apply resets_listsAgree|exact Hsteps].
  eapply positiveDurations_sameShape; [apply resets_sameShape|done].
Qed.

Lemma steps_startsAsSoonAsPossible p s s' :
  positiveDurations p s -> uniqueHolder p s ->
  predecessorsFirst p s -> precedenceHolds p s -> machineInvariant p s ->
  listsAgree p s -> startsAsSoonAsPossible p s ->
  rtc (step p (both afterPredecessors (exactSum p))) s s' ->
  startsAsSoonAsPossible p s'.
Proof.
  intros Hpos Hu Hf Hp Hm Hl Hinv H.
  induction H as [|s1 s2 s3 Hs _ IH]; [done|].
  pose proof (evolves_sameShape _ _ (step_evolves _ _ _ _ Hs)) as Hsh.
  assert (Hs' : step p afterPredecessors s1 s2).
  { eapply step_weaken; [|exact Hs]. by intros ? ? ? ? [H _]. }
  destruct (step_precedence _ _ _ Hu Hf Hp Hs') as [Hf2 Hp2].
  apply IH; try done.
  - by apply (positiveDurations_sameShape p s1 s2).
  - by apply (uniqueHolder_sameShape p s1 s2).
  - by eapply (step_machineInvariant p _ _ _ (both_exactSum p afterPredecessors)).
  - by eapply (step_listsAgree p _ _ _ (both_exactSum p afterPredecessors)).
  - by eapply step_startsAsSoonAsPossible.
Qed.

(** X9. After a schedule pass over a well-formed problem whose operations
    all have a positive processingTime and whose processing times add up to
    at most INT_MAX (2147483647), every operation on a machine list starts
    exactly at the later of the end of the operation before it on the list
    (0 for the first) and the latest end among the operations of its job
    with a smaller operationId (0 if there is none): no operation waits for
    anything else. *)
Theorem schedule_starts_as_soon_as_possible (algorithm : SchedulingAlgorithm)
    (p : ProblemInstance.t) (s : Store) :
  jobsWellFormed algorithm p s -> positiveDurations p s ->
  totalDuration p s <= INT_MAX ->
  startsAsSoonAsPossible p (Solver.schedule std_sort algorithm p s).
Proof.
  intros Hwf Hpos Htot.
  destruct (schedule_steps_wellFormed std_sort std_sort_contract algorithm p s Hwf)
    as (s2 & Hsteps0 & Hsame).
  set (s1 := Solver.resetOperations p (Solver.resetMachines p s)) in *.
  destruct (steps_inBounds p afterPredecessors s1 s2
              (afterPredecessors_readyTimeOf p)
              (resets_inBounds p s Hpos Htot) Hsteps0) as [_ Hsteps].
  assert (Hnone : forall ja job oa o, heldBy p s1 ja job oa o ->
            Operation.isScheduled o = false).
  { intros ja job oa o Hh. by eapply resets_nothing_scheduled. }
  assert (H2 : startsAsSoonAsPossible p s2).
  { eapply (steps_startsAsSoonAsPossible p s1 s2); [| | | | | | |exact Hsteps].
    - eapply positiveDurations_sameShape; [apply resets_sameShape|done].
    - eapply uniqueHolder_sameShape; [apply resets_sameShape|].
      by eapply jobsWellFormed_uniqueHolder.
    - intros ja job a b oa ob _ Hb _ Hs. rewrite (Hnone _ _ _ _ Hb) in Hs. done.
    - intros ja job a b oa ob Hha _ _ Hs. rewrite (Hnone _ _ _ _ Hha) in Hs. done.
    - apply resets_machineInvariant.
    - apply resets_listsAgree.
    - intros ma machine k oa Hma Hm Hk.
      destruct (resets_machines _ _ _ _ Hma Hm) as [E _]. by rewrite E in Hk. }
  pose proof Hsame as (O & J & M).
  intros ma machine k oa Hma Hm Hk. rewrite M in Hm.
  destruct (H2 ma machine k oa Hma Hm Hk) as (ja & job & o & Hh & Hst).
  exists ja, job, o. split; [by apply (sameObjects_heldBy _ _ _ _ _ _ _ Hsame)|].
  rewrite Hst. f_equal.
  - apply endOfLast_frame. intros a _. by rewrite O.
  - symmetry. apply jobReadyTime_frame; [done|]. intros pa _. left. by rewrite O.
Qed.

End Lists.

Lemma schedule_lists_agree_witness :
  StdSortContract insertionSort
  /\ positiveDurations simpleProblem simpleStore
  /\ totalDuration simpleProblem simpleStore <= INT_MAX
  /\ listsAgree simpleProblem
       (Solver.schedule insertionSort SPT simpleProblem simpleStore).
Proof.
  split; [exact insertionSort_contract|].
  split; [apply positiveDurations_check; reflexivity|].
  split; [by vm_compute|].
  apply (schedule_lists_agree insertionSort insertionSort_contract SPT
           simpleProblem simpleStore).
  - apply positiveDurations_check. reflexivity.
  - by vm_compute.
Defined.

Lemma schedule_starts_as_soon_as_possible_witness :
  StdSortContract insertionSort
  /\ jobsWellFormed LPT simpleProblem simpleStore
  /\ positiveDurations simpleProblem simpleStore
  /\ totalDuration simpleProblem simpleStore <= INT_MAX
  /\ startsAsSoonAsPossible simpleProblem
       (Solver.schedule insertionSort LPT simpleProblem simpleStore).
Proof.
  split; [exact insertionSort_contract|].
  split; [apply jobIdsConsistent_check; reflexivity|].
  split; [apply positiveDurations_check; reflexivity|].
  split; [by vm_compute|].
  apply (schedule_starts_as_soon_as_possible insertionSort insertionSort_contract
           LPT simpleProblem simpleStore).
  - apply jobIdsConsistent_check. reflexivity.
  - apply positiveDurations_check. reflexivity.
  - by vm_compute.
Defined.

(** * Building a problem (models.hpp) *)

Section Building.

Implicit Types (s : Store) (p : ProblemInstance.t) (o : Operation.t).

Lemma createJobs_fold (l : list Z) (acc : list nat) s :
  foldl (fun acc i =>
           let '(a, s') := newJob (Job.new i) (snd acc) in
           (fst acc ++ [a], s'))
        (acc, s) l
  = (acc ++ seq (length (jobObjs s)) (length l),
     mkStore (operationObjs s) (jobObjs s ++ map Job.new l) (machineObjs s) (cerr s)).
Proof.
  revert acc s. induction l as [|i l IH]; intros acc s; simpl.
  - rewrite !app_nil_r. by destruct s.
  - rewrite IH. simpl. rewrite length_app. simpl.
    rewrite Nat.add_1_r, <- !app_assoc. done.
Qed.

Lemma createJobs_eq count p s :
  createJobs count p s
  = (ProblemInstance.mk (seq (length (jobObjs s)) (Z.to_nat count))
       (ProblemInstance.machines p) count (ProblemInstance.numMachines p),
     mkStore (operationObjs s) (jobObjs s ++ map Job.new (seqZ 0 count))
             (machineObjs s) (cerr s)).
Proof.
  unfold createJobs. rewrite createJobs_fold. by rewrite length_seqZ.
Qed.

Lemma createMachines_fold (l : list Z) (acc : list nat) s :
  foldl (fun acc i =>
           let '(a, s') := newMachine (Machine.new i) (snd acc) in
           (fst acc ++ [a], s'))
        (acc, s) l
  = (acc ++ seq (length (machineObjs s)) (length l),
     mkStore (operationObjs s) (jobObjs s) (machineObjs s ++ map Machine.new l) (cerr s)).
Proof.
  revert acc s. induction l as [|i l IH]; intros acc s; simpl.
  - rewrite !app_nil_r. by destruct s.
  - rewrite IH. simpl. rewrite length_app. simpl.
    rewrite Nat.add_1_r, <- !app_assoc. done.
Qed.

Lemma createMachines_eq count p s :
  createMachines count p s
  = (ProblemInstance.mk (ProblemInstance.jobs p)
       (seq (length (machineObjs s)) (Z.to_nat count))
       (ProblemInstance.numJobs p) count,
     mkStore (operationObjs s) (jobObjs s)
             (machineObjs s ++ map Machine.new (seqZ 0 count)) (cerr s)).
Proof.
  unfold createMachines. rewrite createMachines_fold. by rewrite length_seqZ.
Qed.

(** The [i]-th object of a run of [count] new ones. *)
Lemma lookup_created {A} (new : Z -> A) (old : list A) (count i : Z) :
  0 <= i < count ->
  (old ++ map new (seqZ 0 count)) !! (length old + Z.to_nat i)%nat = Some (new i).
Proof.
  intros Hi. rewrite lookup_app_r by lia.
  replace (length old + Z.to_nat i - length old)%nat with (Z.to_nat i) by lia.
  change (map new (seqZ 0 count)) with (new <$> seqZ 0 count).
  rewrite list_lookup_fmap, lookup_seqZ_lt by lia. simpl. f_equal. f_equal. lia.
Qed.

Lemma lookup_index (l : list nat) (id : Z) (base count : nat) :
  l = seq base count ->
  (if 0 <=? id then l !! Z.to_nat id else None)
  = if (0 <=? id) && (id <? Z.of_nat count) then Some (base + Z.to_nat id)%nat else None.
Proof.
  intros ->. destruct (0 <=? id) eqn:E0; [|done]. apply Z.leb_le in E0.
  destruct (id <? Z.of_nat count) eqn:E1; simpl.
  - apply Z.ltb_lt in E1. apply lookup_seq_lt. lia.
  - apply Z.ltb_ge in E1. apply lookup_seq_ge. lia.
Qed.

(** X10. [createJobs(count)] sets numJobs to [count] and replaces the job
    vector by [count] new jobs without operations (none when [count] is not
    positive): afterwards [getJob(i)] is a new job with jobId [i] for
    0 <= i < count and the null pointer for every other [i]; the machines
    and every object that existed before are untouched. *)
Theorem createJobs_getJob (count : Z) (p : ProblemInstance.t) (s : Store)
    (jobId : Z) :
  let p' := fst (createJobs count p s) in
  let s' := snd (createJobs count p s) in
  ProblemInstance.numJobs p' = count
  /\ length (ProblemInstance.jobs p') = Z.to_nat count
  /\ ProblemInstance.machines p' = ProblemInstance.machines p
  /\ ProblemInstance.numMachines p' = ProblemInstance.numMachines p
  /\ (0 <= jobId < count ->
      exists ja, ProblemInstance.getJob p' jobId = Some ja
                 /\ jobObjs s' !! ja = Some (Job.new jobId)
                 /\ jobObjs s !! ja = None)
  /\ (~ 0 <= jobId < count -> ProblemInstance.getJob p' jobId = None)
  /\ (forall a job, jobObjs s !! a = Some job -> jobObjs s' !! a = Some job)
  /\ operationObjs s' = operationObjs s /\ machineObjs s' = machineObjs s
  /\ cerr s' = cerr s.
Proof.
  cbn zeta. rewrite createJobs_eq. cbn [fst snd ProblemInstance.numJobs
    ProblemInstance.jobs ProblemInstance.machines ProblemInstance.numMachines
    jobObjs operationObjs machineObjs cerr].
  split; [done|]. split; [by rewrite length_seq|]. split; [done|]. split; [done|].
  unfold ProblemInstance.getJob. cbn [ProblemInstance.jobs].
  rewrite (lookup_index _ jobId _ _ eq_refl).
  split; [|split; [|split; [|done]]].
  - intros Hi. exists (length (jobObjs s) + Z.to_nat jobId)%nat.
    replace ((0 <=? jobId) && (jobId <? Z.of_nat (Z.to_nat count))) with true
      by (symmetry; apply andb_true_iff; split; [apply Z.leb_le|apply Z.ltb_lt]; lia).
    split; [done|]. split; [by apply lookup_created|].
    apply lookup_ge_None. lia.
  - intros Hi.
    destruct (0 <=? jobId) eqn:E0; [|done]. apply Z.leb_le in E0.
    destruct (jobId <? Z.of_nat (Z.to_nat count)) eqn:E1; [|done].
    apply Z.ltb_lt in E1. lia.
  - intros a job Ha. by apply lookup_app_l_Some.
Qed.

(** X11. [createMachines(count)] sets numMachines to [count] and replaces
    the machine vector by [count] new machines: afterwards [getMachine(i)]
    is a machine with machineId [i], an empty schedule and availableTime 0
    (so [isAvailable()] holds) for 0 <= i < count, and the null pointer for
    every other [i]; the jobs and every object that existed before are
    untouched. *)
Theorem createMachines_getMachine (count : Z) (p : ProblemInstance.t)
    (s : Store) (machineId : Z) :
  let p' := fst (createMachines count p s) in
  let s' := snd (createMachines count p s) in
  ProblemInstance.numMachines p' = count
  /\ length (ProblemInstance.machines p') = Z.to_nat count
  /\ ProblemInstance.jobs p' = ProblemInstance.jobs p
  /\ ProblemInstance.numJobs p' = ProblemInstance.numJobs p
  /\ (0 <= machineId < count ->
      exists ma machine,
        ProblemInstance.getMachine p' machineId = Some ma
        /\ machineObjs s' !! ma = Some machine
        /\ Machine.machineId machine = machineId
        /\ Machine.scheduledOperations machine = []
        /\ Machine.isAvailable machine = true
        /\ machineObjs s !! ma = None)
  /\ (~ 0 <= machineId < count -> ProblemInstance.getMachine p' machineId = None)
  /\ (forall a machine, machineObjs s !! a = Some machine ->
        machineObjs s' !! a = Some machine)
  /\ operationObjs s' = operationObjs s /\ jobObjs s' = jobObjs s
  /\ cerr s' = cerr s.
Proof.
  cbn zeta. rewrite createMachines_eq. cbn [fst snd ProblemInstance.numJobs
    ProblemInstance.jobs ProblemInstance.machines ProblemInstance.numMachines
    jobObjs operationObjs machineObjs cerr].
  split; [done|]. split; [by rewrite length_seq|]. split; [done|]. split; [done|].
  unfold ProblemInstance.getMachine. cbn [ProblemInstance.machines].
  rewrite (lookup_index _ machineId _ _ eq_refl).
  split; [|split; [|split; [|done]]].
  - intros Hi. exists (length (machineObjs s) + Z.to_nat machineId)%nat,
      (Machine.new machineId).
    replace ((0 <=? machineId) && (machineId <? Z.of_nat (Z.to_nat count))) with true
      by (symmetry; apply andb_true_iff; split; [apply Z.leb_le|apply Z.ltb_lt]; lia).
    split; [done|]. split; [by apply lookup_created|].
    split; [done|]. split; [done|]. split; [done|].
    apply lookup_ge_None. lia.
  - intros Hi.
    destruct (0 <=? machineId) eqn:E0; [|done]. apply Z.leb_le in E0.
    destruct (machineId <? Z.of_nat (Z.to_nat count)) eqn:E1; [|done].
    apply Z.ltb_lt in E1. lia.
  - intros a machine Ha. by apply lookup_app_l_Some.
Qed.

(** X12. [addOperation] appends: after [job->addOperation(op)] with a
    non-null [op] the job has one operation more, [getOperation] at the old
    count returns [op], and [getOperation] at every other index, the jobId
    and all other jobs are as before. With a null [op] nothing changes. *)
Theorem addOperation_getOperation (ja : addr) (job : Job.t) (oa : addr)
    (s : Store) :
  jobObjs s !! ja = Some job ->
  let s' := addOperation ja (Some oa) s in
  (exists job',
     jobObjs s' !! ja = Some job'
     /\ Job.jobId job' = Job.jobId job
     /\ getOperationCount job' = getOperationCount job + 1
     /\ getOperation job' (getOperationCount job) = Some oa
     /\ forall index, index <> getOperationCount job ->
          getOperation job' index = getOperation job index)
  /\ (forall ja', ja' <> ja -> jobObjs s' !! ja' = jobObjs s !! ja')
  /\ operationObjs s' = operationObjs s /\ machineObjs s' = machineObjs s
  /\ addOperation ja None s = s.
Proof.
  intros Hjob. cbn zeta. unfold addOperation. rewrite Hjob.
  unfold setJob. cbn [jobObjs operationObjs machineObjs].
  split; [|split; [|done]].
  - exists (Job.addOperation oa job).
    split; [apply list_lookup_insert_eq; by eapply lookup_lt_Some|].
    split; [done|].
    unfold getOperationCount, getOperation, Job.addOperation.
    cbn [Job.operations]. rewrite length_app. simpl.
    split; [lia|]. split.
    + replace (0 <=? Z.of_nat (length (Job.operations job))) with true
        by (symmetry; apply Z.leb_le; lia).
      rewrite Nat2Z.id, lookup_app_r by lia. by rewrite Nat.sub_diag.
    + intros index Hne. destruct (0 <=? index) eqn:E; [|done].
      apply Z.leb_le in E.
      destruct (decide (Z.to_nat index < length (Job.operations job))%nat).
      * by rewrite lookup_app_l.
      * rewrite lookup_app_r by lia.
        rewrite (lookup_ge_None_2 (Job.operations job)) by lia.
        apply lookup_ge_None_2. simpl. lia.
  - intros ja' Hne. by rewrite list_lookup_insert_ne.
Qed.

Lemma clearJobs_eq (l : list nat) s :
  foldl (fun s ja =>
           match jobObjs s !! ja with
           | Some job => setJob ja (Job.mk (Job.jobId job) []) s
           | None => s
           end) s l
  = mkStore (operationObjs s)
      (foldl (fun js ja => alter (fun job => Job.mk (Job.jobId job) []) ja js)
             (jobObjs s) l)
      (machineObjs s) (cerr s).
Proof.
  revert s. induction l as [|ja l IH]; intros s; simpl; [by destruct s|].
  rewrite IH. destruct (jobObjs s !! ja) as [job|] eqn:E; simpl.
  - by rewrite (insert_as_alter (fun job => Job.mk (Job.jobId job) []) _ _ _ E).
  - by rewrite alter_None.
Qed.

Lemma getTotalOperations_empty p s :
  (forall ja job, ja ∈ ProblemInstance.jobs p -> jobObjs s !! ja = Some job ->
                  Job.operations job = []) ->
  getTotalOperations p s = 0.
Proof.
  intros H. unfold getTotalOperations. apply foldl_fixed. intros ja Hja.
  destruct (jobObjs s !! ja) as [job|] eqn:E; [|done].
  rewrite (H _ _ Hja E). simpl. lia.
Qed.

(** X14. [ProblemInstance::clear] empties the problem and keeps its frame:
    afterwards every job of the problem is still there with its jobId and
    no operations, so [getTotalOperations()] is 0; every machine of the
    problem has an empty schedule and is available; the Operation objects
    themselves are not written (an operation still referenced elsewhere
    keeps its times). *)
Theorem clear_empties_the_problem (p : ProblemInstance.t) (s : Store) :
  let s' := clear p s in
  getTotalOperations p s' = 0
  /\ (forall ja job, ja ∈ ProblemInstance.jobs p -> jobObjs s !! ja = Some job ->
        jobObjs s' !! ja = Some (Job.mk (Job.jobId job) []))
  /\ (forall ma machine, ma ∈ ProblemInstance.machines p ->
        machineObjs s' !! ma = Some machine ->
        Machine.scheduledOperations machine = []
        /\ Machine.isAvailable machine = true)
  /\ (forall ja, ja ∉ ProblemInstance.jobs p -> jobObjs s' !! ja = jobObjs s !! ja)
  /\ (forall ma, ma ∉ ProblemInstance.machines p ->
        machineObjs s' !! ma = machineObjs s !! ma)
  /\ operationObjs s' = operationObjs s /\ cerr s' = cerr s.
Proof.
  cbn zeta. unfold clear. rewrite clearJobs_eq, resetMachines_eq.
  cbn [jobObjs operationObjs machineObjs cerr].
  assert (Hjobs : forall ja job, ja ∈ ProblemInstance.jobs p ->
            jobObjs s !! ja = Some job ->
            foldl (fun js ja => alter (fun job => Job.mk (Job.jobId job) []) ja js)
                  (jobObjs s) (ProblemInstance.jobs p) !! ja
            = Some (Job.mk (Job.jobId job) [])).
  { intros ja job Hja Hjob. rewrite foldl_alter_lookup by done.
    rewrite decide_True by done. by rewrite Hjob. }
  split; [|split; [exact Hjobs|split; [|split; [|split; [|done]]]]].
  - apply getTotalOperations_empty. cbn [jobObjs]. intros ja job Hja Hjob.
    rewrite foldl_alter_lookup in Hjob by done. rewrite decide_True in Hjob by done.
    destruct (jobObjs s !! ja); simplify_eq/=. done.
  - intros ma machine Hma Hm. rewrite foldl_alter_lookup in Hm by done.
    rewrite decide_True in Hm by done.
    destruct (machineObjs s !! ma); simplify_eq/=. done.
  - intros ja Hja. rewrite foldl_alter_lookup by done. by rewrite decide_False.
  - intros ma Hma. rewrite foldl_alter_lookup by done. by rewrite decide_False.
Qed.

End Building.

Lemma addOperation_getOperation_witness :
  jobObjs simpleStore !! 1%nat = Some (Job.mk 1 [3%nat; 4%nat; 5%nat])
  /\ exists job',
       jobObjs (addOperation 1%nat (Some 8%nat) simpleStore) !! 1%nat = Some job'
       /\ getOperation job' 3 = Some 8%nat.
Proof.
  split; [reflexivity|].
  destruct (addOperation_getOperation 1%nat (Job.mk 1 [3%nat; 4%nat; 5%nat])
              8%nat simpleStore eq_refl) as [(job' & H1 & _ & _ & H2 & _) _].
  exists job'. split; [exact H1|exact H2].
Defined.

(** * Reading a problem (parser.cpp) *)

Section Reading.

Implicit Types (s : Store) (p : ProblemInstance.t) (o : Operation.t).
Implicit Types (st : Store * Z) (x : Z * Z * Z).

Lemma triples_ind (P : list Z -> Prop) :
  (forall l, (length l < 3)%nat -> P l) ->
  (forall a b c rest, P rest -> P (a :: b :: c :: rest)) ->
  forall l, P l.
Proof.
  intros H1 H2. fix IH 1. intros [|a [|b [|c rest]]].
  - apply H1. simpl. lia.
  - apply H1. simpl. lia.
  - apply H1. simpl. lia.
  - apply H2, IH.
Qed.

Lemma invalid_test numJobs numMachines jobId machineId processingTime :
  (jobId <? 0) || (numJobs <=? jobId) || (machineId <? 0)
  || (numMachines <=? machineId) || (processingTime <=? 0)
  = negb (validTriple numJobs numMachines (jobId, machineId, processingTime)).
Proof.
  unfold validTriple.
  destruct (Z.ltb_spec jobId 0), (Z.leb_spec numJobs jobId),
    (Z.ltb_spec machineId 0), (Z.leb_spec numMachines machineId),
    (Z.leb_spec processingTime 0), (Z.leb_spec 0 jobId),
    (Z.ltb_spec jobId numJobs), (Z.leb_spec 0 machineId),
    (Z.ltb_spec machineId numMachines), (Z.ltb_spec 0 processingTime);
    simpl; try reflexivity; lia.
Qed.

Lemma validTriple_spec numJobs numMachines jobId machineId processingTime :
  validTriple numJobs numMachines (jobId, machineId, processingTime) = true
  <-> 0 <= jobId < numJobs /\ 0 <= machineId < numMachines /\ 0 < processingTime.
Proof.
  unfold validTriple. rewrite !andb_true_iff, !Z.leb_le, !Z.ltb_lt. lia.
Qed.

(** The two loops, turn by turn. *)
Lemma readValidOperations_eq p numJobs numMachines text :
  forall k s,
    Parser.readValidOperations p numJobs numMachines text k s
    = foldl (validTurn p numJobs numMachines) (s, k) (triplesOf text).
Proof.
  induction text as [l Hl|a b c rest IH] using triples_ind; intros k s.
  - destruct l as [|a [|b [|c rest]]]; try done. simpl in Hl. lia.
  - cbn [Parser.readValidOperations triplesOf foldl]. rewrite invalid_test.
    unfold validTurn at 2. cbn [fst snd].
    destruct (validTriple numJobs numMachines (a, b, c)); simpl; apply IH.
Qed.


(** ** One operation attached *)

Lemma attachOperation_eq p jobId machineId processingTime k s :
  Parser.attachOperation p jobId machineId processingTime k s
  = let o := Operation.new jobId machineId processingTime k in
    let jobs' :=
      match ProblemInstance.getJob p jobId with
      | Some ja =>
          match jobObjs s !! ja with
          | Some job =>
              <[ja := Job.addOperation (length (operationObjs s)) job]> (jobObjs s)
          | None => jobObjs s
          end
      | None => jobObjs s
      end in
    mkStore (operationObjs s ++ [o]) jobs' (machineObjs s) (cerr s).
Proof.
  unfold Parser.attachOperation, newOperation, addOperation, setJob. cbn zeta.
  destruct (ProblemInstance.getJob p jobId) as [ja|]; [|done]. simpl.
  by destruct (jobObjs s !! ja).
Qed.

Lemma attachOperation_frame p jobId machineId processingTime k s :
  let s' := Parser.attachOperation p jobId machineId processingTime k s in
  machineObjs s' = machineObjs s /\ cerr s' = cerr s
  /\ length (jobObjs s') = length (jobObjs s)
  /\ operationObjs s'
     = operationObjs s ++ [Operation.new jobId machineId processingTime k].
Proof.
  cbn zeta. rewrite attachOperation_eq. cbn zeta. simpl.
  split; [done|]. split; [done|]. split; [|done].
  destruct (ProblemInstance.getJob p jobId) as [ja|]; [|done].
  destruct (jobObjs s !! ja); [|done]. by rewrite length_insert.
Qed.

(** The jobs after an attach: the job named by the triple has one address
    more, the other jobs are as they were. *)
Lemma attachOperation_jobs p jobId machineId processingTime k s ja1 job1 :
  jobObjs (Parser.attachOperation p jobId machineId processingTime k s) !! ja1
  = Some job1 ->
  (exists job, ProblemInstance.getJob p jobId = Some ja1
               /\ jobObjs s !! ja1 = Some job
               /\ job1 = Job.addOperation (length (operationObjs s)) job)
  \/ (jobObjs s !! ja1 = Some job1
      /\ ProblemInstance.getJob p jobId <> Some ja1).
Proof.
  rewrite attachOperation_eq. cbn zeta. simpl.
  destruct (ProblemInstance.getJob p jobId) as [ja|] eqn:Eg; [|by right].
  destruct (jobObjs s !! ja) as [job|] eqn:Ej.
  - destruct (decide (ja1 = ja)) as [->|Hne].
    + rewrite list_lookup_insert_eq by (by eapply lookup_lt_Some).
      intros [= <-]. left. by exists job.
    + rewrite list_lookup_insert_ne by done. intros H. right.
      split; [done|]. congruence.
  - intros H. right. split; [done|]. congruence.
Qed.

Lemma heldBy_attachOperation p jobId machineId processingTime k s ja1 job1 a q :
  (forall ja job oa,
     ja ∈ ProblemInstance.jobs p -> jobObjs s !! ja = Some job ->
     oa ∈ Job.operations job -> (oa < length (operationObjs s))%nat) ->
  heldBy p (Parser.attachOperation p jobId machineId processingTime k s)
         ja1 job1 a q ->
  (a = length (operationObjs s)
   /\ q = Operation.new jobId machineId processingTime k
   /\ ProblemInstance.getJob p jobId = Some ja1
   /\ exists job, jobObjs s !! ja1 = Some job
                  /\ job1 = Job.addOperation (length (operationObjs s)) job)
  \/ ((a < length (operationObjs s))%nat
      /\ exists job, heldBy p s ja1 job a q
           /\ (job1 = job
               \/ job1 = Job.addOperation (length (operationObjs s)) job)).
Proof.
  intros Hlt (Hja & Hjob & Ha & Hq).
  destruct (attachOperation_frame p jobId machineId processingTime k s)
    as (_ & _ & _ & EO). cbn zeta in EO. rewrite EO in Hq.
  destruct (attachOperation_jobs _ _ _ _ _ _ _ _ Hjob)
    as [(job & Hg & Hj & ->)|[Hj Hg]].
  - cbn [Job.addOperation Job.operations] in Ha.
    apply elem_of_app in Ha as [Ha|Ha%list_elem_of_singleton].
    + right. pose proof (Hlt _ _ _ Hja Hj Ha) as Hl.
      split; [done|]. rewrite lookup_app_l in Hq by done.
      exists job. split; [by repeat split|by right].
    + subst a. left. rewrite lookup_app_r in Hq by lia.
      rewrite Nat.sub_diag in Hq. injection Hq as <-.
      split; [done|]. split; [done|]. split; [done|]. by exists job.
  - right. pose proof (Hlt _ _ _ Hja Hj Ha) as Hl.
    split; [done|]. rewrite lookup_app_l in Hq by done.
    exists job1. split; [by repeat split|by left].
Qed.

Lemma getJob_elem p jobId ja :
  ProblemInstance.getJob p jobId = Some ja ->
  0 <= jobId /\ ProblemInstance.jobs p !! Z.to_nat jobId = Some ja
  /\ ja ∈ ProblemInstance.jobs p.
Proof.
  unfold ProblemInstance.getJob. destruct (0 <=? jobId) eqn:E; [|done].
  apply Z.leb_le in E. intros H. split; [done|]. split; [done|].
  by eapply list_elem_of_lookup_2.
Qed.

Lemma wellParsed_attachOperation p jobId machineId processingTime k s :
  0 <= k -> wellParsed p s k ->
  wellParsed p (Parser.attachOperation p jobId machineId processingTime k s) (k + 1).
Proof.
  intros Hk (Hnd & Hres & Hlt & Hjid & Hcons & Hinc & Hids).
  set (s' := Parser.attachOperation p jobId machineId processingTime k s).
  destruct (attachOperation_frame p jobId machineId processingTime k s)
    as (_ & _ & EJ & EO). cbn zeta in EJ, EO. fold s' in EJ, EO.
  assert (Hold : forall a, (a < length (operationObjs s))%nat ->
            operationObjs s' !! a = operationObjs s !! a).
  { intros a Ha. rewrite EO. by apply lookup_app_l. }
  assert (Hheld := heldBy_attachOperation p jobId machineId processingTime k s).
  fold s' in Hheld.
  split; [done|]. split; [|split; [|split; [|split; [|split]]]].
  - intros ja Hja. apply lookup_lt_is_Some. rewrite EJ.
    apply lookup_lt_is_Some. by apply Hres.
  - intros ja job1 oa Hja Hjob Hoa. rewrite EO, length_app. simpl.
    destruct (attachOperation_jobs _ _ _ _ _ _ _ _ Hjob)
      as [(job & Hg & Hj & ->)|[Hj Hg]].
    + cbn [Job.addOperation Job.operations] in Hoa.
      apply elem_of_app in Hoa as [Hoa|Hoa%list_elem_of_singleton]; [|lia].
      pose proof (Hlt _ _ _ Hja Hj Hoa). lia.
    + pose proof (Hlt _ _ _ Hja Hj Hoa). lia.
  - intros i ja job1 Hi Hjob.
    destruct (attachOperation_jobs _ _ _ _ _ _ _ _ Hjob)
      as [(job & Hg & Hj & ->)|[Hj Hg]]; [|by eapply Hjid].
    cbn [Job.addOperation Job.jobId]. by eapply Hjid.
  - intros ja job1 a q Hh.
    destruct (Hheld _ _ _ _ Hlt Hh) as [(-> & -> & Hg & _)|(_ & job & Hh0 & _)].
    + done.
    + by eapply Hcons.
  - intros ja job1 i j a b oa ob Hja Hjob Hij Ha Hb Hoa Hob.
    assert (Hcase : exists job,
              jobObjs s !! ja = Some job
              /\ (Job.operations job1 = Job.operations job
                  \/ Job.operations job1
                     = Job.operations job ++ [length (operationObjs s)])).
    { destruct (attachOperation_jobs _ _ _ _ _ _ _ _ Hjob)
        as [(job & Hg & Hj & ->)|[Hj Hg]].
      - exists job. split; [done|]. by right.
      - exists job1. split; [done|]. by left. }
    destruct Hcase as (job & Hj & [E|E]); rewrite E in Ha, Hb.
    + assert (La : (a < length (operationObjs s))%nat).
      { eapply Hlt; [exact Hja|exact Hj|]. by eapply list_elem_of_lookup_2. }
      assert (Lb : (b < length (operationObjs s))%nat).
      { eapply Hlt; [exact Hja|exact Hj|]. by eapply list_elem_of_lookup_2. }
      rewrite Hold in Hoa, Hob by done.
      by eapply (Hinc ja job i j a b).
    + destruct (decide (j < length (Job.operations job))%nat) as [Hj1|Hj1].
      * rewrite lookup_app_l in Ha, Hb by lia.
        assert (La : (a < length (operationObjs s))%nat).
        { eapply Hlt; [exact Hja|exact Hj|]. by eapply list_elem_of_lookup_2. }
        assert (Lb : (b < length (operationObjs s))%nat).
        { eapply Hlt; [exact Hja|exact Hj|]. by eapply list_elem_of_lookup_2. }
        rewrite Hold in Hoa, Hob by done.
        by eapply (Hinc ja job i j a b).
      * rewrite lookup_app_r in Hb by lia.
        apply list_lookup_singleton_Some in Hb as [Hj0 <-].
        rewrite EO, lookup_app_r, Nat.sub_diag in Hob by lia.
        injection Hob as <-. cbn [Operation.new Operation.operationId].
        rewrite lookup_app_l in Ha by lia.
        assert (Hina : a ∈ Job.operations job) by (by eapply list_elem_of_lookup_2).
        pose proof (Hlt _ _ _ Hja Hj Hina) as La.
        rewrite Hold in Hoa by done.
        assert (Hh : heldBy p s ja job a oa) by (by repeat split).
        destruct (Hids _ _ _ _ Hh) as (Hid & _). lia.
  - intros ja job1 a q Hh.
    destruct (Hheld _ _ _ _ Hlt Hh) as [(-> & -> & Hg & _)|(_ & job & Hh0 & _)].
    + cbn [Operation.new Operation.operationId Operation.startTime Operation.endTime].
      lia.
    + destruct (Hids _ _ _ _ Hh0) as (Hid & H0 & H1). lia.
Qed.

Lemma validOperations_attachOperation numMachines p jobId machineId
    processingTime k s :
  (forall ja job oa,
     ja ∈ ProblemInstance.jobs p -> jobObjs s !! ja = Some job ->
     oa ∈ Job.operations job -> (oa < length (operationObjs s))%nat) ->
  0 <= machineId < numMachines -> 0 < processingTime ->
  validOperations numMachines p s ->
  validOperations numMachines p
    (Parser.attachOperation p jobId machineId processingTime k s).
Proof.
  intros Hlt Hm Ht Hv ja job1 a q Hh.
  destruct (heldBy_attachOperation _ _ _ _ _ _ _ _ _ _ Hlt Hh)
    as [(-> & -> & Hg & _)|(_ & job & Hh0 & _)]; [done|by eapply Hv].
Qed.

Lemma sameObjects_wellParsed p s s' k :
  sameObjects s s' -> wellParsed p s k -> wellParsed p s' k.
Proof.
  intros Hsame (Hnd & Hres & Hlt & Hjid & Hcons & Hinc & Hids).
  pose proof Hsame as (O & J & M).
  split; [done|]. rewrite O, J.
  split; [done|]. split; [done|]. split; [done|]. split; [|split].
  - intros ja job oa o Hh. apply (sameObjects_heldBy _ _ _ _ _ _ _ Hsame) in Hh.
    by eapply Hcons.
  - intros ja job i j a b oa ob. rewrite O, J. by apply Hinc.
  - intros ja job oa o Hh. apply (sameObjects_heldBy _ _ _ _ _ _ _ Hsame) in Hh.
    by eapply Hids.
Qed.

Lemma sameObjects_validOperations numMachines p s s' :
  sameObjects s s' -> validOperations numMachines p s ->
  validOperations numMachines p s'.
Proof.
  intros Hsame Hv ja job oa o Hh.
  apply (sameObjects_heldBy _ _ _ _ _ _ _ Hsame) in Hh. by eapply Hv.
Qed.

(** ** Counting *)

Lemma getTotalOperations_sum p s :
  getTotalOperations p s
  = sumZ (map (fun ja => match jobObjs s !! ja with
                         | Some job => Z.of_nat (length (Job.operations job))
                         | None => 0
                         end) (ProblemInstance.jobs p)).
Proof.
  unfold getTotalOperations.
  assert (H : forall l a,
            foldl (fun total ja =>
                     match jobObjs s !! ja with
                     | Some job => total + Z.of_nat (length (Job.operations job))
                     | None => total
                     end) a l
            = a + sumZ (map (fun ja => match jobObjs s !! ja with
                                       | Some job => Z.of_nat (length (Job.operations job))
                                       | None => 0
                                       end) l)).
  { induction l as [|ja l IH]; intros a; simpl; [lia|].
    rewrite IH. destruct (jobObjs s !! ja); lia. }
  by rewrite H.
Qed.

Lemma getTotalOperations_attachOperation p jobId machineId processingTime k s :
  NoDup (ProblemInstance.jobs p) ->
  (forall ja, ja ∈ ProblemInstance.jobs p -> is_Some (jobObjs s !! ja)) ->
  getTotalOperations p
    (Parser.attachOperation p jobId machineId processingTime k s)
  = getTotalOperations p s
    + match ProblemInstance.getJob p jobId with Some _ => 1 | None => 0 end.
Proof.
  intros Hnd Hres. rewrite !getTotalOperations_sum, attachOperation_eq.
  cbn zeta. cbn [jobObjs].
  destruct (ProblemInstance.getJob p jobId) as [ja|] eqn:Eg; [|lia].
  destruct (getJob_elem _ _ _ Eg) as (_ & _ & Hja).
  destruct (Hres _ Hja) as [job Hjob]. rewrite Hjob.
  rewrite (sumZ_update
             (fun ja => match jobObjs s !! ja with
                        | Some job => Z.of_nat (length (Job.operations job))
                        | None => 0
                        end) _ _ ja Hnd Hja).
  - rewrite list_lookup_insert_eq by (by eapply lookup_lt_Some). rewrite Hjob.
    cbn [Job.addOperation Job.operations]. rewrite length_app. simpl. lia.
  - intros x _ Hx. by rewrite list_lookup_insert_ne.
Qed.

End Reading.

(** * What the parsers return *)

Section Parsed.

Implicit Types (s : Store) (p : ProblemInstance.t) (o : Operation.t).
Implicit Types (st : Store * Z) (x : Z * Z * Z).

(** ** The problem before the first operation is read *)

Lemma created_eq numJobs numMachines s :
  let '(p, s1) := createJobs numJobs ProblemInstance.new s in
  createMachines numMachines p s1
  = (ProblemInstance.mk (seq (length (jobObjs s)) (Z.to_nat numJobs))
       (seq (length (machineObjs s)) (Z.to_nat numMachines))
       numJobs numMachines,
     mkStore (operationObjs s) (jobObjs s ++ map Job.new (seqZ 0 numJobs))
       (machineObjs s ++ map Machine.new (seqZ 0 numMachines)) (cerr s)).
Proof. rewrite createJobs_eq, createMachines_eq. done. Qed.

(** A job of a problem fresh from [createJobs] has its index as jobId and no
    operations. *)
Lemma created_job (old : list Job.t) (numJobs : Z) (i : nat) (ja : nat) job :
  seq (length old) (Z.to_nat numJobs) !! i = Some ja ->
  (old ++ map Job.new (seqZ 0 numJobs)) !! ja = Some job ->
  job = Job.new (Z.of_nat i).
Proof.
  intros [-> Hi]%lookup_seq Hjob.
  pose proof (lookup_created Job.new old numJobs (Z.of_nat i) ltac:(lia)) as H.
  rewrite Nat2Z.id in H. congruence.
Qed.

Lemma created_wellParsed numJobs numMachines s :
  let p := ProblemInstance.mk (seq (length (jobObjs s)) (Z.to_nat numJobs))
             (seq (length (machineObjs s)) (Z.to_nat numMachines))
             numJobs numMachines in
  let s1 := mkStore (operationObjs s) (jobObjs s ++ map Job.new (seqZ 0 numJobs))
              (machineObjs s ++ map Machine.new (seqZ 0 numMachines)) (cerr s) in
  wellParsed p s1 0 /\ validOperations numMachines p s1
  /\ getTotalOperations p s1 = 0.
Proof.
  cbn zeta.
  set (p := ProblemInstance.mk _ _ _ _). set (s1 := mkStore _ _ _ _).
  assert (Hjob : forall ja job, ja ∈ ProblemInstance.jobs p ->
            jobObjs s1 !! ja = Some job ->
            exists i, ProblemInstance.jobs p !! i = Some ja
                      /\ job = Job.new (Z.of_nat i)).
  { intros ja job [i Hi]%list_elem_of_lookup Hj. exists i. split; [done|].
    exact (created_job (jobObjs s) numJobs i ja job Hi Hj). }
  assert (Hnone : forall ja job oa o, ~ heldBy p s1 ja job oa o).
  { intros ja job oa o (Hja & Hj & Hoa & _).
    destruct (Hjob _ _ Hja Hj) as (i & _ & ->). by apply elem_of_nil in Hoa. }
  split; [|split].
  - split; [apply NoDup_seq|]. split; [|split; [|split; [|split; [|split]]]].
    + intros ja [i [-> Hi]%lookup_seq]%list_elem_of_lookup.
      apply lookup_lt_is_Some. simpl. rewrite length_app, length_map, length_seqZ. lia.
    + intros ja job oa Hja Hj Hoa.
      destruct (Hjob _ _ Hja Hj) as (i & _ & ->). by apply elem_of_nil in Hoa.
    + intros i ja job Hi Hj. by rewrite (created_job _ _ _ _ _ Hi Hj).
    + intros ja job oa o Hh. by destruct (Hnone _ _ _ _ Hh).
    + intros ja job i j a b oa ob Hja Hj _ Ha.
      destruct (Hjob _ _ Hja Hj) as (i0 & _ & ->). done.
    + intros ja job oa o Hh. by destruct (Hnone _ _ _ _ Hh).
  - intros ja job oa o Hh. by destruct (Hnone _ _ _ _ Hh).
  - apply getTotalOperations_empty. intros ja job Hja Hj.
    by destruct (Hjob _ _ Hja Hj) as (i & _ & ->).
Qed.

Lemma getJob_in_range p numJobs jobId :
  length (ProblemInstance.jobs p) = Z.to_nat numJobs ->
  (0 <=? jobId) && (jobId <? numJobs) = true ->
  is_Some (ProblemInstance.getJob p jobId).
Proof.
  intros Hlen [H1%Z.leb_le H2%Z.ltb_lt]%andb_true_iff.
  unfold ProblemInstance.getJob.
  replace (0 <=? jobId) with true by (symmetry; by apply Z.leb_le).
  apply lookup_lt_is_Some. lia.
Qed.


(** ** The loops *)

Lemma validTurn_spec p numJobs numMachines s k x :
  length (ProblemInstance.jobs p) = Z.to_nat numJobs ->
  0 <= k -> wellParsed p s k -> validOperations numMachines p s ->
  let st' := validTurn p numJobs numMachines (s, k) x in
  0 <= snd st'
  /\ wellParsed p (fst st') (snd st')
  /\ validOperations numMachines p (fst st')
  /\ snd st'
     = k + Z.of_nat (length (List.filter (validTriple numJobs numMachines) [x]))
  /\ getTotalOperations p (fst st')
     = getTotalOperations p s
       + Z.of_nat (length (List.filter (validTriple numJobs numMachines) [x]))
  /\ cerr (fst st')
     = cerr s
       ++ map warningOf
            (List.filter (fun x => negb (validTriple numJobs numMachines x)) [x])
  /\ machineObjs (fst st') = machineObjs s.
Proof.
  intros Hlen Hk Hwp Hv. destruct x as [[j m] t]. cbn zeta.
  unfold validTurn. cbn [fst snd List.filter].
  destruct (validTriple numJobs numMachines (j, m, t)) eqn:E;
    cbn [fst snd negb map length].
  - apply validTriple_spec in E as (Hj & Hm & Ht).
    pose proof Hwp as (Hnd & Hres & Hlt & _).
    destruct (attachOperation_frame p j m t k s) as (EM & EC & _).
    cbn zeta in EM, EC.
    split; [lia|]. split; [by apply wellParsed_attachOperation|].
    split; [by apply validOperations_attachOperation|]. split; [lia|].
    split; [|split; [by rewrite EC, app_nil_r|done]].
    rewrite getTotalOperations_attachOperation by done.
    destruct (getJob_in_range p numJobs j Hlen) as [ja ->]; [|lia].
    apply andb_true_iff. split; [apply Z.leb_le|apply Z.ltb_lt]; lia.
  - split; [done|].
    split; [eapply sameObjects_wellParsed; [apply sameObjects_writeCerr|done]|].
    split; [eapply sameObjects_validOperations; [apply sameObjects_writeCerr|done]|].
    split; [lia|]. split; [|done].
    rewrite !getTotalOperations_sum. simpl. lia.
Qed.

Lemma validTurns_spec p numJobs numMachines triples :
  length (ProblemInstance.jobs p) = Z.to_nat numJobs ->
  forall st,
    0 <= snd st -> wellParsed p (fst st) (snd st) ->
    validOperations numMachines p (fst st) ->
    let st' := foldl (validTurn p numJobs numMachines) st triples in
    wellParsed p (fst st') (snd st')
    /\ validOperations numMachines p (fst st')
    /\ snd st'
       = snd st + Z.of_nat (length (List.filter (validTriple numJobs numMachines) triples))
    /\ getTotalOperations p (fst st')
       = getTotalOperations p (fst st)
         + Z.of_nat (length (List.filter (validTriple numJobs numMachines) triples))
    /\ cerr (fst st')
       = cerr (fst st)
         ++ map warningOf
              (List.filter (fun x => negb (validTriple numJobs numMachines x)) triples)
    /\ machineObjs (fst st') = machineObjs (fst st).
Proof.
  intros Hlen. induction triples as [|x l IH]; intros [s k] Hk Hwp Hv.
  - cbn zeta. cbn [foldl List.filter map length fst snd]. rewrite app_nil_r.
    split; [done|]. split; [done|]. split; [lia|]. split; [lia|]. done.
  - cbn [fst snd] in Hk, Hwp, Hv.
    destruct (validTurn_spec p numJobs numMachines s k x Hlen Hk Hwp Hv)
      as (G0 & G1 & G2 & G3 & G4 & G5 & G6).
    cbn zeta in G0, G1, G2, G3, G4, G5, G6.
    destruct (IH _ G0 G1 G2) as (H1 & H2 & H3 & H4 & H5 & H6).
    cbn zeta in H1, H2, H3, H4, H5, H6. cbn zeta. cbn [foldl fst snd].
    split; [done|]. split; [done|].
    change (x :: l) with ([x] ++ l).
    rewrite !List.filter_app, !length_app, map_app.
    rewrite H3, H4, H5, H6, G3, G4, G5, G6.
    split; [lia|]. split; [lia|]. split; [by rewrite app_assoc|done].
Qed.



(** ** parseFile *)

Lemma parseFile_eq filename numJobs numMachines rest s :
  0 < numJobs -> 0 < numMachines ->
  let p := ProblemInstance.mk (seq (length (jobObjs s)) (Z.to_nat numJobs))
             (seq (length (machineObjs s)) (Z.to_nat numMachines))
             numJobs numMachines in
  let s1 := mkStore (operationObjs s) (jobObjs s ++ map Job.new (seqZ 0 numJobs))
              (machineObjs s ++ map Machine.new (seqZ 0 numMachines)) (cerr s) in
  let st := foldl (validTurn p numJobs numMachines) (s1, 0) (triplesOf rest) in
  Parser.parseFile filename (Some (numJobs :: numMachines :: rest)) s
  = (fst st, if snd st =? 0 then threw "No valid operations found in file"
             else value p).
Proof.
  intros Hj Hm. cbn zeta. unfold Parser.parseFile.
  replace ((numJobs <=? 0) || (numMachines <=? 0)) with false
    by (symmetry; apply orb_false_iff; split; apply Z.leb_gt; lia).
  pose proof (created_eq numJobs numMachines s) as E.
  destruct (createJobs numJobs ProblemInstance.new s) as [p0 s0].
  rewrite E. rewrite readValidOperations_eq.
  destruct (foldl _ _ _) as [s2 k]. cbn [fst snd]. by destruct (k =? 0).
Qed.

(** X15. What [parseFile] returns. It throws "Could not open file: <name>"
    when the file cannot be opened, "No valid operations found in file" when
    the two counts cannot be read, and "Invalid number of jobs or machines"
    when one of them is not positive. Otherwise it prints one warning for
    every triple with a job or machine out of range or a non-positive time,
    in the order of the file, and then throws "No valid operations found in
    file" if no triple was valid, or else returns a problem with numJobs jobs
    and numMachines machines whose total number of operations is the number
    of valid triples. *)
Theorem parseFile_outcome (filename : string) (file : option (list Z))
    (s : Store) :
  let out := Parser.parseFile filename file s in
  (file = None -> out = (s, threw ("Could not open file: " +:+ filename)))
  /\ (forall text, file = Some text -> (length text < 2)%nat ->
        out = (s, threw "No valid operations found in file"))
  /\ (forall numJobs numMachines rest,
        file = Some (numJobs :: numMachines :: rest) ->
        let valid := List.filter (validTriple numJobs numMachines) (triplesOf rest) in
        let invalid :=
          List.filter (fun x => negb (validTriple numJobs numMachines x))
                      (triplesOf rest) in
        (numJobs <= 0 \/ numMachines <= 0 ->
         out = (s, threw "Invalid number of jobs or machines"))
        /\ (0 < numJobs -> 0 < numMachines ->
            cerr (fst out) = cerr s ++ map warningOf invalid
            /\ (valid = [] ->
                snd out = threw "No valid operations found in file")
            /\ (valid <> [] ->
                exists p,
                  snd out = value p
                  /\ ProblemInstance.numJobs p = numJobs
                  /\ ProblemInstance.numMachines p = numMachines
                  /\ length (ProblemInstance.jobs p) = Z.to_nat numJobs
                  /\ length (ProblemInstance.machines p) = Z.to_nat numMachines
                  /\ getTotalOperations p (fst out)
                     = Z.of_nat (length valid)))).
Proof.
  cbn zeta. split; [by intros ->|]. split.
  - intros text -> Hlen. destruct text as [|a [|b rest]]; try done.
    simpl in Hlen. lia.
  - intros numJobs numMachines rest ->. split.
    + intros H. unfold Parser.parseFile.
      replace ((numJobs <=? 0) || (numMachines <=? 0)) with true; [done|].
      symmetry. apply orb_true_iff. rewrite !Z.leb_le. done.
    + intros Hj Hm. rewrite (parseFile_eq filename numJobs numMachines rest s Hj Hm).
      destruct (created_wellParsed numJobs numMachines s) as (Hwp & Hv & Ht).
      cbn zeta in Hwp, Hv, Ht.
      set (p := ProblemInstance.mk _ _ _ _) in *. set (s1 := mkStore _ _ _ _) in *.
      destruct (validTurns_spec p numJobs numMachines (triplesOf rest)
                  ltac:(by simpl; rewrite length_seq) (s1, 0) ltac:(done) Hwp Hv)
        as (H1 & H2 & H3 & H4 & H5 & H6).
      cbn zeta in H1, H2, H3, H4, H5, H6. cbn [fst snd] in H3, H4, H5, H6.
      cbn [fst snd]. split; [exact H5|]. rewrite H3. split.
      * intros ->. done.
      * intros Hne.
        destruct (List.filter _ _) as [|x l] eqn:E; [done|].
        replace (0 + Z.of_nat (length (x :: l)) =? 0) with false
          by (symmetry; apply Z.eqb_neq; simpl; lia).
        exists p. split; [done|]. split; [done|]. split; [done|].
        split; [by simpl; rewrite length_seq|]. split; [by simpl; rewrite length_seq|].
        rewrite H4, Ht. lia.
Qed.

Lemma machinesExist_intro numMachines p s :
  length (ProblemInstance.machines p) = Z.to_nat numMachines ->
  (forall ma, ma ∈ ProblemInstance.machines p -> is_Some (machineObjs s !! ma)) ->
  validOperations numMachines p s -> machinesExist p s.
Proof.
  intros Hlen Hres Hv ja job oa o Hh. destruct (Hv _ _ _ _ Hh) as [Hm _].
  unfold Solver.findMachine, ProblemInstance.getMachine.
  replace (0 <=? Operation.machineId o) with true by (symmetry; apply Z.leb_le; lia).
  destruct (ProblemInstance.machines p !! Z.to_nat (Operation.machineId o))
    as [ma|] eqn:E.
  - destruct (Hres ma) as [m ->]; [by eapply list_elem_of_lookup_2|done].
  - apply lookup_ge_None in E. lia.
Qed.

(** A problem [parseFile] or [parseString] has built: what the invariant of
    the loop says of it. *)
Lemma wellParsed_wellFormed p s k :
  wellParsed p s k ->
  jobIdsConsistent p s /\ idsIncrease p s
  /\ (forall algorithm, jobsWellFormed algorithm p s)
  /\ (forall ja job oa o, heldBy p s ja job oa o ->
        Operation.startTime o = 0 /\ Operation.endTime o = 0).
Proof.
  intros (Hnd & Hres & Hlt & Hjid & Hcons & Hinc & Hids).
  split; [done|]. split; [done|]. split.
  - intros [| |]; simpl; [by apply jobIdsConsistent_uniqueHolder|done|done].
  - intros ja job oa o Hh. by destruct (Hids _ _ _ _ Hh) as (_ & ? & ?).
Qed.

Lemma created_machines (old : list Machine.t) numMachines ma :
  ma ∈ seq (length old) (Z.to_nat numMachines) ->
  is_Some ((old ++ map Machine.new (seqZ 0 numMachines)) !! ma).
Proof.
  intros [i [-> Hi]%lookup_seq]%list_elem_of_lookup.
  apply lookup_lt_is_Some. rewrite length_app, length_map, length_seqZ. lia.
Qed.

(** X16. A problem returned by [parseFile] is ready for the scheduler: each
    operation's jobId is the index of the job that holds it, the
    operationIds increase along every job, every operation names a machine
    of the problem and has a positive processingTime, and no operation is
    scheduled yet (start and end are 0). *)
Theorem parseFile_problem_is_well_formed (filename : string)
    (file : option (list Z)) (s s' : Store) (p : ProblemInstance.t) :
  Parser.parseFile filename file s = (s', value p) ->
  jobIdsConsistent p s' /\ idsIncrease p s'
  /\ positiveDurations p s' /\ machinesExist p s'
  /\ (forall algorithm, jobsWellFormed algorithm p s')
  /\ (forall ja job oa o, heldBy p s' ja job oa o ->
        Operation.startTime o = 0 /\ Operation.endTime o = 0).
Proof.
  intros H.
  destruct file as [[|numJobs [|numMachines rest]]|]; try done.
  destruct (Z.leb_spec numJobs 0) as [Hj|Hj].
  { unfold Parser.parseFile in H.
    replace (numJobs <=? 0) with true in H by (symmetry; by apply Z.leb_le). done. }
  destruct (Z.leb_spec numMachines 0) as [Hm|Hm].
  { unfold Parser.parseFile in H.
    replace (numMachines <=? 0) with true in H by (symmetry; by apply Z.leb_le).
    by rewrite orb_true_r in H. }
  rewrite (parseFile_eq filename numJobs numMachines rest s Hj Hm) in H.
  destruct (created_wellParsed numJobs numMachines s) as (Hwp & Hv & Ht).
  cbn zeta in H, Hwp, Hv, Ht.
  set (p0 := ProblemInstance.mk _ _ _ _) in *. set (s1 := mkStore _ _ _ _) in *.
  destruct (validTurns_spec p0 numJobs numMachines (triplesOf rest)
              ltac:(by simpl; rewrite length_seq) (s1, 0) ltac:(done) Hwp Hv)
    as (H1 & H2 & H3 & H4 & H5 & H6).
  cbn zeta in H1, H2, H6. cbn [fst snd] in H6.
  destruct (snd (foldl _ _ _) =? 0); [done|]. injection H as <- <-.
  destruct (wellParsed_wellFormed _ _ _ H1) as (W1 & W2 & W3 & W4).
  split; [done|]. split; [done|]. split; [|split; [|done]].
  - intros ja job oa o Hh. by destruct (H2 _ _ _ _ Hh).
  - apply (machinesExist_intro numMachines); [by simpl; rewrite length_seq| |done].
    intros ma Hma. rewrite H6. by apply created_machines.
Qed.

(** ** parseString *)



End Parsed.

(** * Saving a problem and reading it back *)

Section RoundTrip.

Implicit Types (s : Store) (p : ProblemInstance.t) (o : Operation.t).
Implicit Types (st : Store * Z) (x : Z * Z * Z).

Lemma triplesOf_tokensOf triples : triplesOf (tokensOf triples) = triples.
Proof.
  induction triples as [|[[a b] c] l IH]; [done|]. simpl. by rewrite IH.
Qed.

Lemma tokensOf_app l1 l2 : tokensOf (l1 ++ l2) = tokensOf l1 ++ tokensOf l2.
Proof. unfold tokensOf. by rewrite flat_map_app. Qed.

Lemma saveToFile_eq p filename s :
  Parser.saveToFile p filename true s
  = value (ProblemInstance.numJobs p :: ProblemInstance.numMachines p
           :: tokensOf (savedTriples p s)).
Proof.
  unfold Parser.saveToFile, savedTriples. do 3 f_equal.
  induction (ProblemInstance.jobs p) as [|ja l IH]; [done|].
  simpl. rewrite tokensOf_app, IH. f_equal.
  destruct (jobObjs s !! ja) as [job|]; [|done].
  induction (Job.operations job) as [|oa ops IHo]; [done|].
  simpl. rewrite IHo. by destruct (operationObjs s !! oa).
Qed.

Lemma filter_all {A} (f : A -> bool) (l : list A) :
  (forall a, a ∈ l -> f a = true) -> List.filter f l = l.
Proof.
  induction l as [|x l IH]; intros H; simpl; [done|].
  rewrite (H x) by (by left). f_equal. apply IH. intros y Hy. apply H. by right.
Qed.

Lemma filter_none {A} (f : A -> bool) (l : list A) :
  (forall a, a ∈ l -> f a = false) -> List.filter f l = [].
Proof.
  induction l as [|x l IH]; intros H; simpl; [done|].
  rewrite (H x) by (by left). apply IH. intros y Hy. apply H. by right.
Qed.

Lemma savedTriples_elem p s x :
  x ∈ savedTriples p s ->
  exists i ja job oa o,
    ProblemInstance.jobs p !! i = Some ja /\ jobObjs s !! ja = Some job
    /\ oa ∈ Job.operations job /\ operationObjs s !! oa = Some o
    /\ x = (Job.jobId job, Operation.machineId o, Operation.processingTime o).
Proof.
  unfold savedTriples. rewrite list_elem_of_In, in_flat_map.
  intros (ja & [i Hi]%list_elem_of_In%list_elem_of_lookup & Hx).
  destruct (jobObjs s !! ja) as [job|] eqn:Ej; [|done].
  apply list_elem_of_In, list_elem_of_omap in Hx as (oa & Hoa & Hx).
  destruct (operationObjs s !! oa) as [o|] eqn:Eo; [|done].
  injection Hx as <-. by exists i, ja, job, oa, o.
Qed.

Lemma savedTriples_valid p s x :
  savable p s -> x ∈ savedTriples p s ->
  validTriple (ProblemInstance.numJobs p) (ProblemInstance.numMachines p) x = true.
Proof.
  intros (Hm & Hn & Hjobs & Hops & _) Hx.
  destruct (savedTriples_elem _ _ _ Hx) as (i & ja & job & oa & o & Hi & Hj & Hoa & Ho & ->).
  destruct (Hjobs _ _ Hi) as (job' & Hj' & Hid).
  assert (job' = job) as -> by congruence.
  destruct (Hops ja job oa (list_elem_of_lookup_2 _ _ _ Hi) Hj Hoa) as (o' & Ho' & Hr & Hp).
  assert (o' = o) as -> by congruence.
  apply validTriple_spec. pose proof (lookup_lt_Some _ _ _ Hi). lia.
Qed.

Lemma savedTriples_length p s :
  savable p s -> Z.of_nat (length (savedTriples p s)) = getTotalOperations p s.
Proof.
  intros (_ & _ & _ & Hops & _). rewrite getTotalOperations_sum.
  unfold savedTriples.
  assert (H : forall l, (forall ja, ja ∈ l -> ja ∈ ProblemInstance.jobs p) ->
            Z.of_nat (length (flat_map
               (fun ja =>
                  match jobObjs s !! ja with
                  | Some job =>
                      omap (fun oa =>
                              (fun o => (Job.jobId job, Operation.machineId o,
                                         Operation.processingTime o))
                                <$> operationObjs s !! oa)
                           (Job.operations job)
                  | None => []
                  end) l))
            = sumZ (map (fun ja => match jobObjs s !! ja with
                                   | Some job => Z.of_nat (length (Job.operations job))
                                   | None => 0
                                   end) l)).
  { induction l as [|ja l IH]; intros Hl; [done|].
    simpl. rewrite length_app, Nat2Z.inj_add, IH by (intros y Hy; apply Hl; by right).
    f_equal. destruct (jobObjs s !! ja) as [job|] eqn:Ej; [|done].
    assert (Hres : forall oa, oa ∈ Job.operations job ->
              is_Some (operationObjs s !! oa)).
    { intros oa Hoa. destruct (Hops ja job oa) as (o & -> & _); [|done|done|done].
      apply Hl. by left. }
    f_equal. induction (Job.operations job) as [|oa ops IHo]; [done|].
    simpl. destruct (Hres oa) as [o ->]; [by left|]. simpl.
    f_equal. apply IHo. intros y Hy. apply Hres. by right. }
  by apply H.
Qed.

(** ** The content of the jobs while the file is read *)

Lemma omap_ext_in {A B} (f g : A -> option B) (l : list A) :
  (forall a, a ∈ l -> f a = g a) -> omap f l = omap g l.
Proof.
  induction l as [|a l IH]; intros H; [done|].
  cbn. rewrite (H a) by (by left). rewrite IH; [done|].
  intros b Hb. apply H. by right.
Qed.

Lemma map_omap {A B C} (f : A -> option B) (g : B -> C) (l : list A) :
  map g (omap f l) = omap (fun a => g <$> f a) l.
Proof.
  induction l as [|a l IH]; [done|]. cbn. destruct (f a); cbn; by rewrite IH.
Qed.

Lemma jobContent_extend s s' job o :
  operationObjs s' = operationObjs s ++ [o] ->
  (forall oa, oa ∈ Job.operations job -> (oa < length (operationObjs s))%nat) ->
  jobContent s' job = jobContent s job.
Proof.
  intros E Hlt. unfold jobContent. apply omap_ext_in. intros oa Hoa.
  rewrite E, lookup_app_l by (by apply Hlt). done.
Qed.

Lemma jobContent_attachOperation p j m t k s i ja job' :
  wellParsed p s k ->
  ProblemInstance.jobs p !! i = Some ja ->
  jobObjs (Parser.attachOperation p j m t k s) !! ja = Some job' ->
  exists job,
    jobObjs s !! ja = Some job
    /\ jobContent (Parser.attachOperation p j m t k s) job'
       = jobContent s job
         ++ map (fun x => (snd (fst x), snd x))
              (List.filter (fun x => fst (fst x) =? Z.of_nat i) [(j, m, t)]).
Proof.
  intros (Hnd & Hres & Hlt & _) Hi Hjob.
  pose proof (list_elem_of_lookup_2 _ _ _ Hi) as Hja.
  destruct (attachOperation_frame p j m t k s) as (_ & _ & _ & EO).
  cbn zeta in EO.
  destruct (attachOperation_jobs _ _ _ _ _ _ _ _ Hjob)
    as [(job & Hg & Hj & ->)|[Hj Hg]].
  - exists job. split; [done|].
    destruct (getJob_elem _ _ _ Hg) as (H0 & Hl & _).
    assert (Z.to_nat j = i) as <- by (by eapply NoDup_lookup).
    cbn [List.filter fst snd]. rewrite Z2Nat.id by done.
    rewrite Z.eqb_refl. cbn [map fst snd].
    unfold jobContent at 1. cbn [Job.addOperation Job.operations].
    rewrite omap_app. f_equal.
    + apply (jobContent_extend s _ job _ EO). intros oa Hoa. by eapply Hlt.
    + simpl. rewrite EO, lookup_app_r, Nat.sub_diag by lia. done.
  - exists job'. split; [done|].
    cbn [List.filter fst snd].
    destruct (j =? Z.of_nat i) eqn:E.
    + apply Z.eqb_eq in E. subst j. destruct Hg.
      unfold ProblemInstance.getJob.
      replace (0 <=? Z.of_nat i) with true by (symmetry; apply Z.leb_le; lia).
      by rewrite Nat2Z.id.
    + cbn [map]. rewrite app_nil_r.
      apply (jobContent_extend s _ job' _ EO). intros oa Hoa. by eapply Hlt.
Qed.

Lemma jobContent_validTurns p numJobs numMachines triples :
  forall st,
    0 <= snd st -> wellParsed p (fst st) (snd st) ->
    (forall x, x ∈ triples -> validTriple numJobs numMachines x = true) ->
    forall i ja job',
      ProblemInstance.jobs p !! i = Some ja ->
      jobObjs (fst (foldl (validTurn p numJobs numMachines) st triples)) !! ja
      = Some job' ->
      exists job,
        jobObjs (fst st) !! ja = Some job
        /\ jobContent (fst (foldl (validTurn p numJobs numMachines) st triples)) job'
           = jobContent (fst st) job
             ++ map (fun x => (snd (fst x), snd x))
                  (List.filter (fun x => fst (fst x) =? Z.of_nat i) triples).
Proof.
  induction triples as [|x l IH]; intros [s k] Hk Hwp Hall i ja job' Hi Hjob.
  - simpl in *. exists job'. by rewrite app_nil_r.
  - cbn [fst snd] in Hk, Hwp. cbn [foldl] in Hjob |- *.
    assert (Hx : validTriple numJobs numMachines x = true) by (apply Hall; by left).
    destruct x as [[j m] t].
    assert (E : validTurn p numJobs numMachines (s, k) (j, m, t)
                = (Parser.attachOperation p j m t k s, k + 1)).
    { unfold validTurn. by rewrite Hx. }
    rewrite E in Hjob |- *.
    destruct (IH (Parser.attachOperation p j m t k s, k + 1)) with (i := i) (ja := ja)
      (job' := job') as (job1 & Hj1 & Hc1); cbn [fst snd].
    + lia.
    + by apply wellParsed_attachOperation.
    + intros y Hy. apply Hall. by right.
    + done.
    + done.
    + cbn [fst snd] in Hj1, Hc1.
      destruct (jobContent_attachOperation p j m t k s i ja job1 Hwp Hi Hj1)
        as (job & Hj & Hc).
      exists job. split; [done|]. rewrite Hc1, Hc.
      change ((j, m, t) :: l) with ([(j, m, t)] ++ l).
      by rewrite List.filter_app, map_app, app_assoc.
Qed.

(** The triples of job [i] among the saved ones are the operations of job
    [i]. *)
Lemma savedTriples_of_job s (l : list nat) (base : nat) :
  (forall q ja, l !! q = Some ja ->
     exists job, jobObjs s !! ja = Some job /\ Job.jobId job = Z.of_nat (base + q)) ->
  forall i ja job,
    l !! i = Some ja -> jobObjs s !! ja = Some job ->
    map (fun x => (snd (fst x), snd x))
      (List.filter (fun x => fst (fst x) =? Z.of_nat (base + i))
         (flat_map
            (fun ja =>
               match jobObjs s !! ja with
               | Some job =>
                   omap (fun oa =>
                           (fun o => (Job.jobId job, Operation.machineId o,
                                      Operation.processingTime o))
                             <$> operationObjs s !! oa)
                        (Job.operations job)
               | None => []
               end) l))
    = jobContent s job.
Proof.
  revert base. induction l as [|ja0 l IH]; intros base Hl i ja job Hi Hj; [done|].
  cbn [flat_map]. rewrite List.filter_app, map_app.
  destruct (Hl 0%nat ja0 eq_refl) as (job0 & Hj0 & Hid0). rewrite Hj0.
  rewrite Nat.add_0_r in Hid0.
  assert (Hblock : forall z,
            List.filter (fun x => fst (fst x) =? z)
              (omap (fun oa =>
                       (fun o => (Job.jobId job0, Operation.machineId o,
                                  Operation.processingTime o))
                         <$> operationObjs s !! oa) (Job.operations job0))
            = if Job.jobId job0 =? z
              then omap (fun oa =>
                           (fun o => (Job.jobId job0, Operation.machineId o,
                                      Operation.processingTime o))
                             <$> operationObjs s !! oa) (Job.operations job0)
              else []).
  { intros z. destruct (Job.jobId job0 =? z) eqn:E.
    - apply filter_all. intros x (oa & _ & Hx)%list_elem_of_omap.
      destruct (operationObjs s !! oa); [|done]. by injection Hx as <-.
    - apply filter_none. intros x (oa & _ & Hx)%list_elem_of_omap.
      destruct (operationObjs s !! oa); [|done]. by injection Hx as <-. }
  rewrite Hblock, Hid0.
  destruct i as [|i].
  - injection Hi as ->. assert (job0 = job) as -> by congruence.
    rewrite Nat.add_0_r, Z.eqb_refl.
    rewrite filter_none, app_nil_r.
    + rewrite map_omap. unfold jobContent. apply omap_ext_in. intros oa _.
      by destruct (operationObjs s !! oa).
    + intros x Hx. apply Z.eqb_neq.
      apply list_elem_of_In, in_flat_map in Hx as (ja1 & [q Hq]%list_elem_of_In%list_elem_of_lookup & Hx).
      destruct (Hl (S q) ja1 Hq) as (job1 & Hj1 & Hid1). rewrite Hj1 in Hx.
      apply list_elem_of_In, list_elem_of_omap in Hx as (oa & _ & Hx).
      destruct (operationObjs s !! oa); [|done]. injection Hx as <-. simpl. lia.
  - replace (Z.of_nat base =? Z.of_nat (base + S i)) with false
      by (symmetry; apply Z.eqb_neq; lia).
    simpl. replace (base + S i)%nat with (S base + i)%nat by lia.
    assert (Hl' : forall q ja1, l !! q = Some ja1 ->
              exists job1, jobObjs s !! ja1 = Some job1
                           /\ Job.jobId job1 = Z.of_nat (S base + q)).
    { intros q ja1 Hq. destruct (Hl (S q) ja1 Hq) as (job1 & Hj1 & Hid1).
      exists job1. split; [done|]. rewrite Hid1. f_equal. lia. }
    exact (IH (S base) Hl' i ja job Hi Hj).
Qed.

Lemma omap_lookup_all {A B} (f : A -> option B) (l : list A) (i : nat) :
  (forall a, a ∈ l -> is_Some (f a)) -> omap f l !! i = l !! i ≫= f.
Proof.
  revert i. induction l as [|x l IH]; intros i H; [done|].
  simpl. destruct (H x) as [y Hy]; [by left|]. rewrite Hy.
  destruct i as [|i]; simpl; [done|]. apply IH. intros z Hz. apply H. by right.
Qed.

(** X18. Saving and reading back. For a problem whose counts are positive,
    whose numJobs is its number of jobs, whose jobs carry their index as
    jobId and whose operations all name one of numMachines machines and
    have a positive processingTime, with at least one operation: the file
    [saveToFile] writes is read by [parseFile] without a warning into a
    problem with the same counts in which every job has the same sequence
    of (machineId, processingTime) operations. (The operationIds are
    assigned anew, in the order of the file.) *)
Theorem saveToFile_parseFile_round_trip (p : ProblemInstance.t) (s : Store)
    (filename : string) (text : list Z) (s1 : Store) :
  savable p s ->
  Parser.saveToFile p filename true s = value text ->
  exists p' s',
    Parser.parseFile filename (Some text) s1 = (s', value p')
    /\ ProblemInstance.numJobs p' = ProblemInstance.numJobs p
    /\ ProblemInstance.numMachines p' = ProblemInstance.numMachines p
    /\ problemContent p' s' = problemContent p s
    /\ cerr s' = cerr s1.
Proof.
  intros Hsav. rewrite saveToFile_eq. intros [= <-].
  pose proof Hsav as (Hm & Hn & Hjobs & Hops & Htot).
  set (n := ProblemInstance.numJobs p) in *.
  set (m := ProblemInstance.numMachines p) in *.
  assert (Hlen : 0 < Z.of_nat (length (savedTriples p s))).
  { by rewrite savedTriples_length. }
  assert (Hn0 : 0 < n).
  { destruct (ProblemInstance.jobs p) as [|ja l] eqn:E; [|simpl in Hn; lia].
    unfold savedTriples in Hlen. rewrite E in Hlen. simpl in Hlen. lia. }
  rewrite (parseFile_eq filename n m _ s1 Hn0 Hm). rewrite triplesOf_tokensOf.
  destruct (created_wellParsed n m s1) as (Hwp & Hv & Ht). cbn zeta in Hwp, Hv, Ht.
  cbn zeta.
  set (p' := ProblemInstance.mk _ _ _ _) in *. set (s0 := mkStore _ _ _ _) in *.
  assert (Hlen' : length (ProblemInstance.jobs p') = Z.to_nat n).
  { by simpl; rewrite length_seq. }
  destruct (validTurns_spec p' n m (savedTriples p s) Hlen' (s0, 0) ltac:(done) Hwp Hv)
    as (H1 & H2 & H3 & H4 & H5 & H6).
  cbn zeta in H1, H2, H3, H4, H5, H6. cbn [fst snd] in H3, H4, H5, H6.
  assert (Hvalid : forall x, x ∈ savedTriples p s -> validTriple n m x = true).
  { intros x Hx. exact (savedTriples_valid p s x Hsav Hx). }
  rewrite (filter_all _ (savedTriples p s) Hvalid) in H3.
  rewrite (filter_none (fun x => negb (validTriple n m x))) in H5
    by (intros x Hx; by rewrite (Hvalid x Hx)).
  set (st := foldl (validTurn p' n m) (s0, 0) (savedTriples p s)) in *.
  replace (snd st =? 0) with false by (symmetry; apply Z.eqb_neq; lia).
  exists p', (fst st). split; [done|]. split; [done|]. split; [done|].
  split; [|by rewrite H5, app_nil_r].
  (* the content, job by job *)
  pose proof H1 as (_ & Hres' & _).
  unfold problemContent, jobsOf. apply list_eq. intros i.
  rewrite !list_lookup_fmap.
  rewrite (omap_lookup_all _ (ProblemInstance.jobs p')) by exact Hres'.
  rewrite (omap_lookup_all _ (ProblemInstance.jobs p)).
  2:{ intros ja [q Hq]%list_elem_of_lookup. destruct (Hjobs _ _ Hq) as (job & -> & _). done. }
  destruct (ProblemInstance.jobs p !! i) as [ja|] eqn:Ei.
  - destruct (Hjobs _ _ Ei) as (job & Hj & Hid).
    pose proof (lookup_lt_Some _ _ _ Ei) as Hi.
    assert (Ei' : ProblemInstance.jobs p' !! i = Some (length (jobObjs s1) + i)%nat).
    { simpl. apply lookup_seq_lt. lia. }
    rewrite Ei'. cbn [mbind option_bind]. rewrite Hj.
    destruct (Hres' (length (jobObjs s1) + i)%nat) as [job' Hj'].
    { by eapply list_elem_of_lookup_2. }
    rewrite Hj'. cbn [fmap option_fmap option_map]. f_equal.
    destruct (jobContent_validTurns p' n m (savedTriples p s) (s0, 0)
                ltac:(done) Hwp Hvalid
                i _ job' Ei' Hj') as (job0 & Hj0 & Hc).
    cbn [fst] in Hj0, Hc. fold st in Hc. rewrite Hc.
    assert (job0 = Job.new (Z.of_nat i)) as ->.
    { exact (created_job (jobObjs s1) n i _ job0 Ei' Hj0). }
    unfold jobContent at 1. cbn [Job.new Job.operations omap app].
    exact (savedTriples_of_job s (ProblemInstance.jobs p) 0
             (fun q ja1 Hq => Hjobs q ja1 Hq) i ja job Ei Hj).
  - cbn [mbind option_bind]. apply lookup_ge_None in Ei.
    assert (ProblemInstance.jobs p' !! i = None) as ->; [|done].
    apply lookup_ge_None. lia.
Qed.

End RoundTrip.

(** * From a file to a schedule *)

Section Pipeline.

Implicit Types (s : Store) (p : ProblemInstance.t) (o : Operation.t).

Variable std_sort : (addr -> addr -> bool) -> list addr -> list addr.
Hypothesis std_sort_contract : StdSortContract std_sort.

Lemma schedule_precedenceHolds algorithm p s :
  jobsWellFormed algorithm p s ->
  precedenceHolds p (Solver.schedule std_sort algorithm p s).
Proof.
  intros Hwf.
  destruct (schedule_steps_wellFormed std_sort std_sort_contract algorithm p s Hwf)
    as (s2 & Hsteps & Hsame).
  set (s1 := Solver.resetOperations p (Solver.resetMachines p s)) in *.
  assert (Hu : uniqueHolder p s1).
  { eapply uniqueHolder_sameShape; [apply resets_sameShape|].
    by eapply jobsWellFormed_uniqueHolder. }
  assert (Hf : predecessorsFirst p s1).
  { intros ja job a b qa qb Ha Hb _ Hsb.
    pose proof (resets_nothing_scheduled _ _ _ _ _ _ Hb). congruence. }
  assert (Hp : precedenceHolds p s1).
  { intros ja job a b qa qb Ha Hb _ Hsa _.
    pose proof (resets_nothing_scheduled _ _ _ _ _ _ Ha). congruence. }
  destruct (steps_precedence _ _ _ Hu Hf Hp Hsteps) as [_ Hp2].
  intros ja job a b qa qb Ha Hb.
  apply (sameObjects_heldBy _ _ _ _ _ _ _ Hsame) in Ha, Hb. eauto.
Qed.

Lemma schedule_exclusive algorithm p s ma machine :
  positiveDurations p s -> totalDuration p s <= INT_MAX ->
  ma ∈ ProblemInstance.machines p ->
  machineObjs (Solver.schedule std_sort algorithm p s) !! ma = Some machine ->
  exclusive (Solver.schedule std_sort algorithm p s) machine.
Proof.
  intros Hpos Htot Hma Hm.
  destruct (schedule_machineInvariant std_sort std_sort_contract algorithm p s
              Hpos Htot) as (s2 & Hinv & (HO & HJ & HM)).
  rewrite HM in Hm.
  destruct (machineInvariant_exclusive _ _ _ _ Hinv Hma Hm) as [H1 H2].
  split.
  - intros i j a b Hij Hi Hj. rewrite HO. by eapply H1.
  - rewrite H2. unfold endOfLast. by rewrite HO.
Qed.

(** What the loop of [parseFile] leaves, in the vocabulary of the
    scheduler. *)
Lemma parseFile_wellFormed filename file s s' p :
  Parser.parseFile filename file s = (s', value p) ->
  jobIdsConsistent p s' /\ idsIncrease p s'
  /\ positiveDurations p s' /\ machinesExist p s'
  /\ (forall algorithm, jobsWellFormed algorithm p s').
Proof.
  intros H.
  destruct file as [[|numJobs [|numMachines rest]]|]; try done.
  destruct (Z.leb_spec numJobs 0) as [Hj|Hj].
  { unfold Parser.parseFile in H.
    replace (numJobs <=? 0) with true in H by (symmetry; by apply Z.leb_le). done. }
  destruct (Z.leb_spec numMachines 0) as [Hm|Hm].
  { unfold Parser.parseFile in H.
    replace (numMachines <=? 0) with true in H by (symmetry; by apply Z.leb_le).
    by rewrite orb_true_r in H. }
  rewrite (parseFile_eq filename numJobs numMachines rest s Hj Hm) in H.
  destruct (created_wellParsed numJobs numMachines s) as (Hwp & Hv & Ht).
  cbn zeta in H, Hwp, Hv, Ht.
  set (p0 := ProblemInstance.mk _ _ _ _) in *. set (s1 := mkStore _ _ _ _) in *.
  destruct (validTurns_spec p0 numJobs numMachines (triplesOf rest)
              ltac:(by simpl; rewrite length_seq) (s1, 0) ltac:(done) Hwp Hv)
    as (H1 & H2 & H3 & H4 & H5 & H6).
  cbn zeta in H1, H2, H6. cbn [fst snd] in H6.
  destruct (snd (foldl _ _ _) =? 0); [done|]. injection H as <- <-.
  destruct (wellParsed_wellFormed _ _ _ H1) as (W1 & W2 & W3 & W4).
  split; [done|]. split; [done|]. split; [|split; [|done]].
  - intros ja job oa o Hh. by destruct (H2 _ _ _ _ Hh).
  - apply (machinesExist_intro numMachines); [by simpl; rewrite length_seq| |done].
    intros ma Hma. rewrite H6. by apply created_machines.
Qed.

(** X19. From a file to a schedule. Whatever file [parseFile] accepts, the
    schedule pass of every rule on the problem it returns respects the
    precedence within each job. When the processing times of the file's
    valid triples add up to at most INT_MAX (2147483647), the pass also
    keeps every machine exclusive, FIFO schedules every operation, and so do
    SPT and LPT when no job has more than 1000 operations. *)
Theorem parsed_file_is_scheduled (filename : string) (file : option (list Z))
    (s s' : Store) (p : ProblemInstance.t) (algorithm : SchedulingAlgorithm) :
  Parser.parseFile filename file s = (s', value p) ->
  let s'' := Solver.schedule std_sort algorithm p s' in
  precedenceHolds p s''
  /\ (totalDuration p s' <= INT_MAX ->
      (forall ma machine,
         ma ∈ ProblemInstance.machines p -> machineObjs s'' !! ma = Some machine ->
         exclusive s'' machine)
      /\ (algorithm = FIFO \/ jobsAtMost 1000 p s' -> allScheduled p s'')).
Proof.
  intros H. cbn zeta.
  destruct (parseFile_wellFormed _ _ _ _ _ H) as (W1 & W2 & W3 & W4 & W5).
  split; [by apply schedule_precedenceHolds|]. intros Htot. split.
  - intros ma machine Hma Hm. by apply (schedule_exclusive algorithm p s' ma).
  - intros [->|Hlen].
    + by apply (scheduleFIFO_one_round std_sort).
    + by apply (schedule_complete std_sort std_sort_contract).
Qed.

End Pipeline.

Section Generated.

Implicit Types (s : Store) (p : ProblemInstance.t) (o : Operation.t).

Lemma validTurn_valid p numJobs numMachines (st : Store * Z) j m t :
  validTriple numJobs numMachines (j, m, t) = true ->
  validTurn p numJobs numMachines st (j, m, t)
  = (Parser.attachOperation p j m t (snd st) (fst st), snd st + 1).
Proof. intros H. unfold validTurn. by rewrite H. Qed.

(** The jobs of a problem read from valid triples, job by job. *)
Lemma parsed_content numJobs numMachines s triples :
  (forall x, x ∈ triples -> validTriple numJobs numMachines x = true) ->
  let p := ProblemInstance.mk (seq (length (jobObjs s)) (Z.to_nat numJobs))
             (seq (length (machineObjs s)) (Z.to_nat numMachines))
             numJobs numMachines in
  let s1 := mkStore (operationObjs s) (jobObjs s ++ map Job.new (seqZ 0 numJobs))
              (machineObjs s ++ map Machine.new (seqZ 0 numMachines)) (cerr s) in
  problemContent p (fst (foldl (validTurn p numJobs numMachines) (s1, 0) triples))
  = map (fun i => map (fun x => (snd (fst x), snd x))
                    (List.filter (fun x => fst (fst x) =? Z.of_nat i) triples))
        (seq 0 (Z.to_nat numJobs)).
Proof.
  intros Hvalid. cbn zeta.
  destruct (created_wellParsed numJobs numMachines s) as (Hwp & Hv & Ht).
  cbn zeta in Hwp, Hv, Ht.
  set (p := ProblemInstance.mk _ _ _ _) in *. set (s1 := mkStore _ _ _ _) in *.
  assert (Hlen : length (ProblemInstance.jobs p) = Z.to_nat numJobs).
  { by simpl; rewrite length_seq. }
  destruct (validTurns_spec p numJobs numMachines triples Hlen (s1, 0)
              ltac:(done) Hwp Hv) as (H1 & _).
  cbn zeta in H1. set (st := foldl _ _ _) in *.
  pose proof H1 as (_ & Hres & _).
  unfold problemContent, jobsOf. apply list_eq. intros i.
  rewrite !list_lookup_fmap.
  rewrite (omap_lookup_all _ (ProblemInstance.jobs p)) by exact Hres.
  destruct (decide (i < Z.to_nat numJobs)%nat) as [Hi|Hi].
  - assert (Ei : ProblemInstance.jobs p !! i = Some (length (jobObjs s) + i)%nat).
    { simpl. by apply lookup_seq_lt. }
    rewrite Ei, lookup_seq_lt by done. cbn [mbind option_bind].
    destruct (Hres (length (jobObjs s) + i)%nat) as [job' Hj'].
    { by eapply list_elem_of_lookup_2. }
    rewrite Hj'. cbn [fmap option_fmap option_map]. f_equal.
    destruct (jobContent_validTurns p numJobs numMachines triples (s1, 0)
                ltac:(done) Hwp Hvalid i _ job' Ei Hj') as (job0 & Hj0 & Hc).
    cbn [fst] in Hj0, Hc. fold st in Hc. rewrite Hc.
    assert (job0 = Job.new (Z.of_nat i)) as ->.
    { exact (created_job (jobObjs s) numJobs i _ job0 Ei Hj0). }
    done.
  - assert (ProblemInstance.jobs p !! i = None) as ->.
    { apply lookup_ge_None. lia. }
    rewrite lookup_seq_ge by lia. done.
Qed.

(** X20. [generateSimpleProblem] builds, on whatever heap it runs, the
    problem [parseFile] reads from the 3x3 file of the parser tests: three
    jobs and three machines, nine operations, job 0 = M0(2), M1(3), M2(1),
    job 1 = M1(1), M2(2), M0(3), job 2 = M2(3), M0(1), M1(2). *)
Theorem generateSimpleProblem_is_the_simple_file (s : Store) (filename : string) :
  let p := fst (Parser.generateSimpleProblem s) in
  let s' := snd (Parser.generateSimpleProblem s) in
  Parser.parseFile filename (Some testSimpleFile) s = (s', value p)
  /\ ProblemInstance.numJobs p = 3 /\ ProblemInstance.numMachines p = 3
  /\ getTotalOperations p s' = 9
  /\ problemContent p s'
     = [[(0, 2); (1, 3); (2, 1)]; [(1, 1); (2, 2); (0, 3)]; [(2, 3); (0, 1); (1, 2)]].
Proof.
  cbn zeta.
  pose proof (parseFile_eq filename 3 3 (drop 2 testSimpleFile) s
                ltac:(done) ltac:(done)) as E.
  cbn zeta in E.
  assert (G : Parser.generateSimpleProblem s
              = (ProblemInstance.mk (seq (length (jobObjs s)) 3)
                   (seq (length (machineObjs s)) 3) 3 3,
                 fst (foldl (validTurn
                               (ProblemInstance.mk (seq (length (jobObjs s)) 3)
                                  (seq (length (machineObjs s)) 3) 3 3) 3 3)
                        (mkStore (operationObjs s)
                           (jobObjs s ++ map Job.new (seqZ 0 3))
                           (machineObjs s ++ map Machine.new (seqZ 0 3)) (cerr s), 0)
                        (triplesOf (drop 2 testSimpleFile))))).
  { unfold Parser.generateSimpleProblem.
    pose proof (created_eq 3 3 s) as C.
    destruct (createJobs 3 ProblemInstance.new s) as [p0 s0]. rewrite C.
    unfold testSimpleFile. cbn [drop triplesOf foldl].
    rewrite !validTurn_valid by reflexivity. cbn [fst snd]. reflexivity. }
  rewrite G. cbn [fst snd].
  destruct (created_wellParsed 3 3 s) as (Hwp & Hv & Ht). cbn zeta in Hwp, Hv, Ht.
  assert (Hvalid : forall x, x ∈ triplesOf (drop 2 testSimpleFile) ->
            validTriple 3 3 x = true).
  { intros x Hx. cbn in Hx.
    repeat (apply elem_of_cons in Hx as [->|Hx]; [reflexivity|]).
    by apply elem_of_nil in Hx. }
  destruct (validTurns_spec
              (ProblemInstance.mk (seq (length (jobObjs s)) 3)
                 (seq (length (machineObjs s)) 3) 3 3)
              3 3 (triplesOf (drop 2 testSimpleFile))
              ltac:(reflexivity)
              (mkStore (operationObjs s) (jobObjs s ++ map Job.new (seqZ 0 3))
                 (machineObjs s ++ map Machine.new (seqZ 0 3)) (cerr s), 0)
              ltac:(done) Hwp Hv)
    as (H1 & H2 & H3 & H4 & H5 & H6).
  cbn zeta in H3, H4. cbn [fst snd] in H3, H4.
  pose proof (parsed_content 3 3 s (triplesOf (drop 2 testSimpleFile)) Hvalid) as C.
  cbn zeta in C.
  change (Z.to_nat 3) with 3%nat in *.
  split.
  - change testSimpleFile with (3 :: 3 :: drop 2 testSimpleFile).
    rewrite E, H3.
    rewrite (filter_all _ _ Hvalid). reflexivity.
  - split; [done|]. split; [done|]. split.
    + rewrite H4, Ht.
      rewrite (filter_all _ _ Hvalid). reflexivity.
    + rewrite C. reflexivity.
Qed.

End Generated.

(** ** Instances *)

(** The scenarios of the parser tests. *)
Example parse_simple_file :
  Parser.parseFile "test_simple.jssp" (Some testSimpleFile) emptyStore
  = (simpleStore, value simpleProblem).
Proof. vm_compute. reflexivity. Qed.

Example parse_medium_file :
  Parser.parseFile "test_medium.jssp" (Some testMediumFile) emptyStore
  = (fst (Parser.parseFile "test_medium.jssp" (Some testMediumFile) emptyStore),
     value mediumProblem).
Proof. vm_compute. reflexivity. Qed.

Example save_simple_problem :
  Parser.saveToFile simpleProblem "test_output.jssp" true simpleStore
  = value testSimpleFile.
Proof. vm_compute. reflexivity. Qed.

Lemma simple_savable : savable simpleProblem simpleStore.
Proof.
  split; [done|]. split; [done|]. split; [|split; [|done]].
  - intros [|[|[|i]]] ja Hi; try done; injection Hi as <-; by eexists.
  - intros ja job oa Hja Hj Hoa.
    repeat (apply elem_of_cons in Hja as [->|Hja]);
      [| | |by apply elem_of_nil in Hja];
      injection Hj as <-;
      repeat (apply elem_of_cons in Hoa as [->|Hoa]);
      try (by apply elem_of_nil in Hoa);
      eexists; (split; [reflexivity|]); simpl; lia.
Qed.

Lemma saveToFile_parseFile_round_trip_witness :
  savable simpleProblem simpleStore
  /\ Parser.saveToFile simpleProblem "test_output.jssp" true simpleStore
     = value testSimpleFile
  /\ exists p' s',
       Parser.parseFile "test_output.jssp" (Some testSimpleFile) emptyStore
       = (s', value p')
       /\ ProblemInstance.numJobs p' = ProblemInstance.numJobs simpleProblem
       /\ ProblemInstance.numMachines p' = ProblemInstance.numMachines simpleProblem
       /\ problemContent p' s' = problemContent simpleProblem simpleStore
       /\ cerr s' = cerr emptyStore.
Proof.
  split; [exact simple_savable|]. split; [exact save_simple_problem|].
  exact (saveToFile_parseFile_round_trip simpleProblem simpleStore
           "test_output.jssp" testSimpleFile emptyStore simple_savable
           save_simple_problem).
Defined.

Lemma parseFile_problem_is_well_formed_witness :
  Parser.parseFile "test_medium.jssp" (Some testMediumFile) emptyStore
  = (fst (Parser.parseFile "test_medium.jssp" (Some testMediumFile) emptyStore),
     value mediumProblem)
  /\ positiveDurations mediumProblem
       (fst (Parser.parseFile "test_medium.jssp" (Some testMediumFile) emptyStore)).
Proof.
  split; [exact parse_medium_file|].
  apply (parseFile_problem_is_well_formed "test_medium.jssp" (Some testMediumFile)
           emptyStore _ mediumProblem parse_medium_file).
Defined.

Lemma parsed_file_is_scheduled_witness :
  StdSortContract insertionSort
  /\ Parser.parseFile "test_simple.jssp" (Some testSimpleFile) emptyStore
     = (simpleStore, value simpleProblem)
  /\ totalDuration simpleProblem simpleStore <= INT_MAX
  /\ jobsAtMost 1000 simpleProblem simpleStore
  /\ precedenceHolds simpleProblem
       (Solver.schedule insertionSort SPT simpleProblem simpleStore)
  /\ allScheduled simpleProblem
       (Solver.schedule insertionSort SPT simpleProblem simpleStore).
Proof.
  split; [exact insertionSort_contract|]. split; [exact parse_simple_file|].
  split; [by vm_compute|]. split; [apply jobsAtMost_check; reflexivity|].
  destruct (parsed_file_is_scheduled insertionSort insertionSort_contract
              "test_simple.jssp" (Some testSimpleFile) emptyStore simpleStore
              simpleProblem SPT parse_simple_file) as [Hprec Hrest].
  split; [exact Hprec|].
  destruct (Hrest ltac:(by vm_compute)) as [_ Hall].
  apply Hall. right. apply jobsAtMost_check. reflexivity.
Defined.

(** The scenarios of the parser tests. *)

Example generate_simple_problem :
  Parser.generateSimpleProblem emptyStore = (simpleProblem, simpleStore).
Proof. vm_compute. reflexivity. Qed.

Example parse_file_not_found :
  snd (Parser.parseFile "nonexistent_file.jssp" None emptyStore)
  = threw "Could not open file: nonexistent_file.jssp".
Proof. vm_compute. reflexivity. Qed.

Example parse_invalid_dimensions :
  snd (Parser.parseFile "test_bad.jssp" (Some [-1; 3]) emptyStore)
  = threw "Invalid number of jobs or machines".
Proof. vm_compute. reflexivity. Qed.

Example parse_empty_file :
  snd (Parser.parseFile "test_empty.jssp" (Some []) emptyStore)
  = threw "No valid operations found in file".
Proof. vm_compute. reflexivity. Qed.

(** [parseFile] keeps one operation of the file with three invalid triples
    and reports the others; [parseString] on the same text keeps the two
    triples of job 1 as well, with machine 2 of 2 and a time of -2. *)
Example parse_invalid_operations :
  let out := Parser.parseFile "test_bad_ops.jssp" (Some testBadOpsFile) emptyStore in
  snd out = value mediumProblem
  /\ getTotalOperations mediumProblem (fst out) = 1
  /\ cerr (fst out)
     = ["Warning: Invalid operation data (Job: 3, Machine: 1, Time: 2)";
        "Warning: Invalid operation data (Job: 1, Machine: 2, Time: 3)";
        "Warning: Invalid operation data (Job: 1, Machine: 1, Time: -2)"].
Proof. vm_compute. split; [reflexivity|]. split; reflexivity. Qed.

Example parseString_checks_nothing :
  forall how numJobs0 numMachines0,
    let out := Parser.parseString testBadOpsFile how numJobs0 numMachines0
                 emptyStore in
    snd out = value mediumProblem
    /\ getTotalOperations mediumProblem (fst out) = 3
    /\ cerr (fst out) = []
    /\ map Operation.operationId (operationObjs (fst out)) = [0; 1; 2; 3].
Proof.
  intros how numJobs0 numMachines0. vm_compute.
  split; [reflexivity|]. repeat split; reflexivity.
Qed.

Example parseString_only_dimensions :
  forall how numJobs0 numMachines0,
    let out := Parser.parseString [2; 2] how numJobs0 numMachines0 emptyStore in
    snd out = value mediumProblem
    /\ getTotalOperations mediumProblem (fst out) = 0.
Proof. intros how numJobs0 numMachines0. vm_compute. split; reflexivity. Qed.

(** The text "3" names no number of machines: the problem has as many
    machines as the variable happened to hold, here 5; with a token that is
    not a number after the 3 the count is 0 and [parseString] throws. *)
Example parseString_missing_machines :
  (forall numJobs0,
     let out := Parser.parseString [3] endOfInput numJobs0 5 emptyStore in
     exists p, snd out = value p
       /\ ProblemInstance.numJobs p = 3 /\ ProblemInstance.numMachines p = 5
       /\ length (ProblemInstance.jobs p) = 3%nat
       /\ length (ProblemInstance.machines p) = 5%nat
       /\ getTotalOperations p (fst out) = 0)
  /\ (forall numJobs0 numMachines0,
        Parser.parseString [3] notANumber numJobs0 numMachines0 emptyStore
        = (emptyStore, threw "Invalid number of jobs or machines")).
Proof.
  split.
  - intros numJobs0. eexists. vm_compute. repeat split; reflexivity.
  - intros numJobs0 numMachines0. vm_compute. reflexivity.
Qed.

(** On the empty text both counts are what the variables held. *)
Example parseString_empty :
  Parser.parseString [] endOfInput 0 0 emptyStore
  = (emptyStore, threw "Invalid number of jobs or machines")
  /\ (exists p,
        snd (Parser.parseString [] endOfInput 2 2 emptyStore) = value p
        /\ ProblemInstance.numJobs p = 2 /\ ProblemInstance.numMachines p = 2).
Proof.
  split; [vm_compute; reflexivity|]. eexists. vm_compute. repeat split; reflexivity.
Qed.

(** * The limit of 1000 rounds, and idle machines *)

Section Limit.

Implicit Types (s t : Store) (p : ProblemInstance.t) (o : Operation.t).
Implicit Types (st : Store * bool).

Lemma intDurations_sameShape p s s' :
  sameShape s s' -> intDurations p s -> intDurations p s'.
Proof.
  intros Hs H ja job oa o' Hh.
  destruct (sameShape_heldBy_back _ _ _ _ _ _ _ Hs Hh) as (o & Hh0 & _ & _ & Hpt & _).
  rewrite Hpt. eauto.
Qed.

(** ** The times of a pass are ints *)

Lemma resets_intTimes p s :
  intTimes p (Solver.resetOperations p (Solver.resetMachines p s)).
Proof.
  split.
  - intros ja job oa o Hh.
    destruct (resets_unscheduled _ _ _ _ _ _ Hh) as [-> ->].
    unfold INT_MIN, INT_MAX. lia.
  - intros ma machine Hma Hm.
    destruct (resets_machines _ _ _ _ Hma Hm) as [_ ->].
    unfold INT_MIN, INT_MAX. lia.
Qed.

(** The start of a commit is an int that is not negative. *)
Lemma commit_start_range p s ja job oa o ma machine jr :
  intTimes p s -> heldBy p s ja job oa o ->
  Solver.findMachine p s (Operation.machineId o) = Some (ma, machine) ->
  readyTimeOf p s job o jr ->
  0 <= Z.max (Machine.availableTime machine) jr <= INT_MAX.
Proof.
  intros [Hops Hms] (Hja & Hjob & Hoa & Ho) Hm Hjr.
  destruct (findMachine_Some _ _ _ _ _ Hm) as [Hma Hmach].
  pose proof (Hms _ _ Hma Hmach) as Hav.
  assert (Hr : 0 <= jr <= INT_MAX).
  { eapply (readyTimeOf_range p s ja job o jr INT_MAX); [done| |done|done|done].
    intros ja1 job1 a q Hh. by destruct (Hops _ _ _ _ Hh) as [_ [_ ?]]. }
  lia.
Qed.

Lemma step_intTimes p ok s s' :
  (forall s job o jr, ok s job o jr -> readyTimeOf p s job o jr) ->
  intTimes p s -> step p ok s s' -> intTimes p s'.
Proof.
  intros Hok Hin Hstep.
  inversion Hstep as [s0 ja job oa o ma machine jr Hh Hu Hm Hjr E1 E2].
  subst s0 s'. clear Hstep.
  pose proof (commit_start_range _ _ _ _ _ _ _ _ _ Hin Hh Hm (Hok _ _ _ _ Hjr))
    as Hst.
  destruct Hin as [Hops Hms].
  destruct Hh as (Hja & Hjob & Hoa & Ho).
  destruct (findMachine_Some _ _ _ _ _ Hm) as [Hma Hmach].
  rewrite commit_eq. cbn zeta.
  pose proof (wrap_range (Z.max (Machine.availableTime machine) jr
                          + Operation.processingTime o)) as Hw.
  split.
  - intros ja1 job1 a q (H1 & H2 & H3 & H4). simpl in H2, H4.
    read_after_write H4 a oa.
    + injection H4 as <-. simpl. unfold INT_MIN in *. lia.
    + apply (Hops ja1 job1 a q). by repeat split.
  - intros ma1 machine1 H1 H2. simpl in H2.
    read_after_write H2 ma1 ma.
    + injection H2 as <-. simpl. done.
    + by apply (Hms ma1).
Qed.

Lemma steps_intTimes p ok s s' :
  (forall s job o jr, ok s job o jr -> readyTimeOf p s job o jr) ->
  intTimes p s -> rtc (step p ok) s s' -> intTimes p s'.
Proof.
  intros Hok Hin H. induction H as [|s1 s2 s3 Hs _ IH]; [done|].
  apply IH. by eapply (step_intTimes p ok).
Qed.

(** ** The limit of 1000 rounds *)

(** An operation without duration never reads as scheduled. *)
Lemma step_keeps_unscheduled p ok t t' oa o1 :
  (forall s job o jr, ok s job o jr -> readyTimeOf p s job o jr) ->
  intTimes p t ->
  step p ok t t' -> operationObjs t !! oa = Some o1 ->
  INT_MIN <= Operation.processingTime o1 <= 0 ->
  Operation.isScheduled o1 = false ->
  exists o2, operationObjs t' !! oa = Some o2 /\ sameIdentity o1 o2
             /\ Operation.isScheduled o2 = false.
Proof.
  intros Hok Hin Hstep Ho1 Hpt Hu1.
  inversion Hstep as [s0 ja job a o ma machine jr Hh Hu Hm Hjr E1 E2].
  subst s0 t'. clear Hstep.
  pose proof (commit_start_range _ _ _ _ _ _ _ _ _ Hin Hh Hm (Hok _ _ _ _ Hjr))
    as Hst.
  destruct Hh as (_ & _ & _ & Ho).
  rewrite commit_eq. cbn zeta. simpl.
  destruct (decide (oa = a)) as [->|Hne].
  - assert (o = o1) as -> by congruence.
    rewrite list_lookup_insert_eq by (by eapply lookup_lt_Some).
    eexists. split; [done|]. split; [by repeat split|].
    apply isScheduled_false. simpl.
    rewrite wrap_exact by lia. lia.
  - rewrite list_lookup_insert_ne by done. exists o1.
    split; [done|]. split; [apply sameIdentity_refl|done].
Qed.

Lemma steps_keep_unscheduled p ok t t' oa o1 :
  (forall s job o jr, ok s job o jr -> readyTimeOf p s job o jr) ->
  intTimes p t ->
  rtc (step p ok) t t' -> operationObjs t !! oa = Some o1 ->
  INT_MIN <= Operation.processingTime o1 <= 0 ->
  Operation.isScheduled o1 = false ->
  exists o2, operationObjs t' !! oa = Some o2 /\ sameIdentity o1 o2
             /\ Operation.isScheduled o2 = false.
Proof.
  intros Hok Hin H. revert Hin o1.
  induction H as [t|t1 t2 t3 Hs _ IH]; intros Hin o1 Ho1 Hpt Hu1.
  - exists o1. split; [done|]. split; [apply sameIdentity_refl|done].
  - destruct (step_keeps_unscheduled _ _ _ _ _ _ Hok Hin Hs Ho1 Hpt Hu1)
      as (o2 & Ho2 & Hid & Hu2).
    destruct (IH (step_intTimes _ _ _ _ Hok Hin Hs) o2 Ho2)
      as (o3 & Ho3 & Hid3 & Hu3); [|done|].
    + destruct Hid as (_ & _ & -> & _). done.
    + exists o3. split; [done|]. split; [by eapply sameIdentity_trans|done].
Qed.

Lemma moved_flag_up p ok st st' :
  moved p ok st st' -> snd st = true -> snd st' = true.
Proof. intros [_ [->|H]]; done. Qed.

(** What a round finds of an operation that was empty and first at the
    start of the pass. *)
Lemma emptyFirstOperation_later p s t ja job oa :
  emptyFirstOperation p s ja job oa -> evolves s t ->
  forall o1, operationObjs t !! oa = Some o1 ->
    heldBy p t ja job oa o1 /\ Operation.processingTime o1 <= 0
    /\ is_Some (Solver.findMachine p t (Operation.machineId o1))
    /\ Solver.allPrevOpsCompleted t job o1 = true.
Proof.
  intros (o & (Hja & Hjob & Hoa & Ho) & Hpt & Hm & Hfirst) He o1 Ho1.
  destruct (evolves_lookup _ _ _ _ He Ho) as (o1' & Ho1' & (_ & Em & Ep & Ei) & _).
  assert (o1' = o1) as -> by congruence.
  pose proof He as (J & _ & L).
  split; [repeat split; try done; by rewrite J|]. split; [lia|]. split.
  - rewrite Em. by eapply findMachine_is_Some.
  - unfold Solver.allPrevOpsCompleted. apply forallb_forall. intros pa Hpa.
    destruct (operationObjs t !! pa) as [q'|] eqn:Eq'; [|done].
    destruct (evolves_lookup_back _ _ _ _ He Eq') as (q & Eq & (_ & _ & _ & Eqi) & _).
    pose proof (Hfirst pa q (proj2 (list_elem_of_In _ _) Hpa) Eq) as Hle.
    replace (Operation.operationId q' <? Operation.operationId o1) with false; [done|].
    symmetry. apply Z.ltb_ge. lia.
Qed.

Lemma fifoRound_commits_empty p s t ja job oa :
  emptyFirstOperation p s ja job oa -> intDurations p s -> evolves s t ->
  intTimes p t ->
  (forall o1, operationObjs t !! oa = Some o1 -> Operation.isScheduled o1 = false) ->
  snd (Solver.fifoRound p t) = true.
Proof.
  intros Hempty Hint He Hin Hu.
  pose proof Hempty as (o & Hheld & Hpt & _).
  pose proof (Hint _ _ _ _ Hheld) as [Hlow _].
  destruct Hheld as (Hja & Hjob & Hoa & Ho).
  destruct (evolves_lookup _ _ _ _ He Ho) as (o1 & Ho1 & (_ & _ & Ep1 & _) & _).
  specialize (Hu o1 Ho1).
  apply list_elem_of_split in Hja as (l1 & l2 & Hl).
  unfold Solver.fifoRound. rewrite Hl, foldl_app. cbn [foldl].
  set (st1 := foldl (Solver.fifoJob p) (t, false) l1).
  assert (Hsub : forall y, y ∈ l1 ++ ja :: l2 -> y ∈ ProblemInstance.jobs p).
  { intros y Hy. by rewrite Hl. }
  assert (Hm1 : moved p afterPredecessors (t, false) st1).
  { apply fifoJobs_moved. intros y Hy. apply Hsub, elem_of_app. by left. }
  eapply moved_flag_up.
  { apply fifoJobs_moved. intros y Hy. apply Hsub, elem_of_app. right. by right. }
  (* the job of the operation *)
  pose proof (moved_evolves _ _ _ _ Hm1) as He1. cbn [fst] in He1.
  unfold Solver.fifoJob.
  assert (Hjob1 : jobObjs (fst st1) !! ja = Some job).
  { destruct He1 as (J1 & _). destruct He as (J & _). by rewrite J1, J. }
  rewrite Hjob1.
  apply list_elem_of_split in Hoa as (m1 & m2 & Hops).
  rewrite Hops, foldl_app. cbn [foldl].
  set (st2 := foldl (Solver.fifoVisit p job) st1 m1).
  assert (Hja' : ja ∈ ProblemInstance.jobs p).
  { apply Hsub, elem_of_app. right. by left. }
  assert (Hsubo : forall y, y ∈ m1 ++ oa :: m2 -> y ∈ Job.operations job).
  { intros y Hy. by rewrite Hops. }
  assert (Hm2 : moved p afterPredecessors st1 st2).
  { apply (fifoOps_moved p ja job m1 Hja'); [|done].
    intros y Hy. apply Hsubo, elem_of_app. by left. }
  assert (Hjob2 : jobObjs (fst st2) !! ja = Some job).
  { destruct (moved_evolves _ _ _ _ Hm2) as (J2 & _). by rewrite J2. }
  eapply moved_flag_up.
  { apply (fifoOps_moved p ja job m2 Hja').
    - intros y Hy. apply Hsubo, elem_of_app. right. by right.
    - destruct (moved_evolves _ _ _ _
                  (fifoVisit_moved p ja job st2 oa Hja' Hjob2
                     ltac:(apply Hsubo, elem_of_app; right; by left))) as (J3 & _).
      by rewrite J3. }
  (* the visit of the operation *)
  assert (Hsteps : rtc (step p afterPredecessors) t (fst st2)).
  { etrans; [exact (proj1 Hm1)|exact (proj1 Hm2)]. }
  destruct (steps_keep_unscheduled p afterPredecessors _ _ _ _
              (afterPredecessors_readyTimeOf p) Hin Hsteps Ho1 ltac:(lia) Hu)
    as (o2 & Ho2 & _ & Hu2).
  assert (He2 : evolves s (fst st2)).
  { eapply evolves_trans; [exact He|]. by eapply steps_evolves. }
  destruct (emptyFirstOperation_later p s (fst st2) ja job oa Hempty He2 o2 Ho2)
    as (_ & _ & [[ma machine] Hm] & Hall).
  unfold Solver.fifoVisit. by rewrite Ho2, Hu2, Hm, Hall.
Qed.

Lemma whileLoop_runs_out (round : Store -> Store * bool) (Inv : Store -> Prop) :
  (forall t, Inv t -> Inv (fst (round t)) /\ snd (round t) = true) ->
  forall n i t, Inv t ->
    snd (Solver.whileLoop round n true i t) = i + Z.of_nat n.
Proof.
  intros H. induction n as [|n IH]; intros i t Ht; [simpl; lia|].
  rewrite whileLoop_true. destruct (H t Ht) as [Hi ->].
  rewrite IH by done. lia.
Qed.

Variable std_sort : (addr -> addr -> bool) -> list addr -> list addr.

(** X21. The limit of 1000 rounds. If the problem holds an operation whose
    processingTime is not positive, whose machine exists and which has the
    smallest operationId of its job, FIFO commits it again in every round:
    the pass runs all 1000 rounds and prints "Warning: Scheduling may not
    have completed properly". (The processing times of the problem are
    ints, from INT_MIN to INT_MAX, as the type of the field has it.) *)
Theorem fifo_runs_into_the_round_limit (p : ProblemInstance.t) (s : Store)
    (ja : addr) (job : Job.t) (oa : addr) :
  intDurations p s ->
  emptyFirstOperation p s ja job oa ->
  cerr (Solver.schedule std_sort FIFO p s) = cerr s ++ [Solver.roundLimitWarning].
Proof.
  intros Hint Hempty.
  set (s1 := Solver.resetOperations p (Solver.resetMachines p s)).
  assert (Hint1 : intDurations p s1).
  { eapply intDurations_sameShape; [apply resets_sameShape|done]. }
  assert (Hempty1 : emptyFirstOperation p s1 ja job oa).
  { destruct Hempty as (o & Hh & Hpt & Hm & Hfirst).
    pose proof (resets_sameShape p s) as Hs. fold s1 in Hs.
    pose proof Hh as (Hja & Hjob & Hoa & Ho).
    destruct (sameShape_lookup _ _ _ _ Hs Ho) as (o1 & Ho1 & (_ & Em & Ep & Ei)).
    exists o1. split.
    { repeat split; try done. destruct Hs as (J & _). by rewrite J. }
    split; [lia|]. split.
    - rewrite Em. eapply findMachine_is_Some; [|exact Hm]. apply Hs.
    - intros a q' Ha Hq'.
      destruct (sameShape_lookup_back _ _ _ _ Hs Hq') as (q & Hq & (_ & _ & _ & Eqi)).
      pose proof (Hfirst a q Ha Hq). lia. }
  set (Inv := fun t => evolves s1 t /\ intTimes p t
                       /\ forall o1, operationObjs t !! oa = Some o1 ->
                                     Operation.isScheduled o1 = false).
  assert (Hinv1 : Inv s1).
  { split; [apply evolves_refl|]. split; [apply resets_intTimes|]. intros o1 Ho1.
    destruct Hempty1 as (o & (Hja & Hjob & Hoa & Ho) & _).
    eapply (resets_nothing_scheduled p s ja job oa o1). by repeat split. }
  assert (Hround : forall t, Inv t ->
            Inv (fst (Solver.fifoRound p t)) /\ snd (Solver.fifoRound p t) = true).
  { intros t (He & Hin & Hu).
    split; [|by eapply (fifoRound_commits_empty p s1 t ja job oa)].
    pose proof (fifoRound_moved p t) as [Hsteps _]. cbn [fst] in Hsteps.
    split; [eapply evolves_trans; [exact He|by eapply steps_evolves]|].
    split.
    { eapply (steps_intTimes p afterPredecessors);
        [apply afterPredecessors_readyTimeOf|exact Hin|exact Hsteps]. }
    intros o2 Ho2.
    destruct (evolves_lookup_back _ _ _ _ (steps_evolves _ _ _ _ Hsteps) Ho2)
      as (o1 & Ho1 & _).
    destruct (emptyFirstOperation_later p s1 t ja job oa Hempty1 He o1 Ho1)
      as (Hh1 & Hpt & _).
    assert (Hlow : INT_MIN <= Operation.processingTime o1).
    { pose proof (intDurations_sameShape p s1 t (evolves_sameShape _ _ He) Hint1
                    _ _ _ _ Hh1). lia. }
    destruct (steps_keep_unscheduled p afterPredecessors _ _ _ _
                (afterPredecessors_readyTimeOf p) Hin Hsteps Ho1
                ltac:(lia) (Hu o1 Ho1))
      as (o2' & Ho2' & _ & Hu2).
    congruence. }
  pose proof (whileLoop_runs_out (Solver.fifoRound p) Inv Hround 1000 0 s1 Hinv1)
    as Hit.
  pose proof (whileLoop_cerr (Solver.fifoRound p) (fifoRound_cerr p) 1000 true 0 s1)
    as Hc.
  unfold Solver.schedule, Solver.scheduleFIFO. cbn zeta. fold s1.
  destruct (Solver.whileLoop _ _ _ _ _) as [s2 it]. cbn [fst snd] in Hit, Hc.
  subst it. change (1000 <=? 0 + Z.of_nat 1000) with true. cbn iota.
  unfold writeCerr. cbn [cerr]. rewrite Hc. f_equal. apply resets_cerr.
Qed.

Hypothesis std_sort_contract : StdSortContract std_sort.

(** ** Idle machines *)

(** A machine of the problem is available exactly when its list is
    empty. *)
Lemma step_available_iff_unused p ok s s' :
  (forall s job o jr, ok s job o jr -> readyTimeOf p s job o jr) ->
  positiveDurations p s -> intDurations p s -> intTimes p s ->
  (forall ma machine,
     ma ∈ ProblemInstance.machines p -> machineObjs s !! ma = Some machine ->
     Machine.availableTime machine = 0 <-> Machine.scheduledOperations machine = []) ->
  step p ok s s' ->
  forall ma machine,
    ma ∈ ProblemInstance.machines p -> machineObjs s' !! ma = Some machine ->
    Machine.availableTime machine = 0 <-> Machine.scheduledOperations machine = [].
Proof.
  intros Hok Hpos Hint Hin Hinv Hstep.
  inversion Hstep as [s0 ja job oa o ma machine jr Hh Hu Hm Hjr E1 E2].
  subst s0 s'. clear Hstep.
  pose proof (commit_start_range _ _ _ _ _ _ _ _ _ Hin Hh Hm (Hok _ _ _ _ Hjr))
    as Hst.
  pose proof (Hpos _ _ _ _ Hh) as Hpt.
  pose proof (Hint _ _ _ _ Hh) as [_ Hhigh].
  destruct (findMachine_Some _ _ _ _ _ Hm) as [Hma Hmach].
  rewrite commit_eq. cbn zeta.
  intros ma1 machine1 H1 H2. simpl in H2.
  read_after_write H2 ma1 ma.
  - injection H2 as <-. simpl. split.
    + intros H0. by destruct (wrap_positive_sum _ _ Hst (conj Hpt Hhigh)).
    + intros H0. by destruct (Machine.scheduledOperations machine).
  - by apply (Hinv ma1).
Qed.

Lemma steps_available_iff_unused p ok s s' :
  (forall s job o jr, ok s job o jr -> readyTimeOf p s job o jr) ->
  positiveDurations p s -> intDurations p s -> intTimes p s ->
  (forall ma machine,
     ma ∈ ProblemInstance.machines p -> machineObjs s !! ma = Some machine ->
     Machine.availableTime machine = 0 <-> Machine.scheduledOperations machine = []) ->
  rtc (step p ok) s s' ->
  forall ma machine,
    ma ∈ ProblemInstance.machines p -> machineObjs s' !! ma = Some machine ->
    Machine.availableTime machine = 0 <-> Machine.scheduledOperations machine = [].
Proof.
  intros Hok Hpos Hint Hin Hinv H.
  induction H as [|s1 s2 s3 Hs _ IH]; [done|].
  pose proof (evolves_sameShape _ _ (step_evolves _ _ _ _ Hs)) as Hsh.
  apply IH.
  - by apply (positiveDurations_sameShape p s1 s2).
  - by apply (intDurations_sameShape p s1 s2).
  - by eapply (step_intTimes p ok).
  - by eapply (step_available_iff_unused p ok s1 s2).
Qed.

(** X22. After a schedule pass over a problem whose operations all have a
    positive processingTime, [isAvailable()] holds of a machine of the
    problem exactly when nothing was scheduled on it: it tells that the
    machine was never used, not that it is free at some time. (The
    processing times of the problem are ints, from INT_MIN to INT_MAX, as
    the type of the field has it; the sums of the pass may wrap.) *)
Theorem machine_is_available_iff_unused (algorithm : SchedulingAlgorithm)
    (p : ProblemInstance.t) (s : Store) (ma : addr) (machine : Machine.t) :
  intDurations p s ->
  positiveDurations p s -> ma ∈ ProblemInstance.machines p ->
  machineObjs (Solver.schedule std_sort algorithm p s) !! ma = Some machine ->
  Machine.isAvailable machine = true <-> Machine.scheduledOperations machine = [].
Proof.
  intros Hint Hpos Hma Hm.
  destruct (schedule_steps_readyTimeOf std_sort std_sort_contract algorithm p s)
    as (s2 & Hsteps & (HO & HJ & HM)).
  rewrite HM in Hm.
  unfold Machine.isAvailable. rewrite Z.eqb_eq.
  eapply (steps_available_iff_unused p (readyTimeOf p) _ s2);
    [done| | | | |exact Hsteps|exact Hma|exact Hm].
  - eapply positiveDurations_sameShape; [apply resets_sameShape|done].
  - eapply intDurations_sameShape; [apply resets_sameShape|done].
  - apply resets_intTimes.
  - intros ma1 machine1 H1 H2.
    by destruct (resets_machines _ _ _ _ H1 H2) as [-> ->].
Qed.

End Limit.

Lemma intDurations_check p s :
  forallHeld (fun _ _ _ o =>
                (INT_MIN <=? Operation.processingTime o)
                && (Operation.processingTime o <=? INT_MAX)) p s = true ->
  intDurations p s.
Proof.
  intros H ja job oa o Hh. pose proof (forallHeld_spec _ _ _ H _ _ _ _ Hh) as K.
  cbn beta in K. apply andb_true_iff in K as [K1 K2].
  split; by apply Z.leb_le.
Qed.

Lemma zero_emptyFirstOperation :
  emptyFirstOperation zeroProblem zeroStore 0%nat (Job.mk 0 [0%nat]) 0%nat.
Proof.
  exists (Operation.new 0 0 0 0). split; [repeat split; by repeat constructor|].
  split; [done|]. split; [by eexists|].
  intros a q Ha Hq. apply list_elem_of_singleton in Ha as ->.
  injection Hq as <-. done.
Qed.

Lemma fifo_runs_into_the_round_limit_witness :
  intDurations zeroProblem zeroStore
  /\ emptyFirstOperation zeroProblem zeroStore 0%nat (Job.mk 0 [0%nat]) 0%nat
  /\ cerr (Solver.schedule insertionSort FIFO zeroProblem zeroStore)
     = cerr zeroStore ++ [Solver.roundLimitWarning].
Proof.
  split; [apply intDurations_check; reflexivity|].
  split; [exact zero_emptyFirstOperation|].
  apply (fifo_runs_into_the_round_limit insertionSort zeroProblem zeroStore
           0%nat (Job.mk 0 [0%nat]) 0%nat).
  - apply intDurations_check. reflexivity.
  - exact zero_emptyFirstOperation.
Defined.

Lemma machine_is_available_iff_unused_witness :
  StdSortContract insertionSort
  /\ intDurations simpleProblem simpleStore
  /\ positiveDurations simpleProblem simpleStore
  /\ (Machine.isAvailable (Machine.mk 0 [0%nat; 7%nat; 5%nat] 8) = true
      <-> Machine.scheduledOperations (Machine.mk 0 [0%nat; 7%nat; 5%nat] 8) = []).
Proof.
  split; [exact insertionSort_contract|].
  split; [apply intDurations_check; reflexivity|].
  split; [apply positiveDurations_check; reflexivity|].
  apply (machine_is_available_iff_unused insertionSort insertionSort_contract LPT
           simpleProblem simpleStore 0%nat).
  - apply intDurations_check. reflexivity.
  - apply positiveDurations_check. reflexivity.
  - by left.
  - vm_compute. reflexivity.
Defined.
